(** * Plugin framework: the plugin manager, its metadata and the message bus

    A shallow embedding of [PluginMetadata], [PluginManager] and
    [PluginCommunication] (PluginCore), with the properties of the
    lifecycle state machine and of the dependency ordering.

    Conventions of the embedding.
    - [QString] is [string]; a [QMap<QString, T>] is a [gmap string T] whose
      keys are enumerated in increasing string order by [qkeys].
    - Reading [m_pluginStates[id]] inserts [NotLoaded] when [id] is absent.
      The keys of that map are never enumerated, so the table is read
      through [stateOf], with [NotLoaded] as default.  Reading
      [m_pluginMetadata[id]] inserts an invalid [PluginMetadata]; the keys of
      that map are enumerated, so the insertion is kept ([metadataRef]).
    - Recursive member functions take a [fuel]; [None] stands for a
      recursion that does not come back within that depth.
    - Calls that leave the manager (plugin hooks, the module loader, signals,
      the message bus) are appended, in order, to [events].  Logging has no
      effect on the manager and is left out. *)

From Stdlib Require Import Ascii.
From stdpp Require Import gmap strings list sorting.

#[local] Set Warnings "-register-all,-clear-no-such-hyp".

(** ** JSON values, as [QJsonValue] / [QJsonObject] / [QJsonDocument] *)

Inductive QJsonValue :=
| JUndefined
| JNull
| JBool (b : bool)
| JDouble (n : Z)
| JString (s : string)
| JArray (l : list QJsonValue)
| JObject (o : list (string * QJsonValue)).

Definition QJsonObject := list (string * QJsonValue).

Inductive QJsonDocument :=
| DocNull
| DocArray (l : list QJsonValue)
| DocObject (o : QJsonObject).

Fixpoint jvalue (o : QJsonObject) (key : string) : QJsonValue :=
  match o with
  | [] => JUndefined
  | (k, v) :: o' => if decide (k = key) then v else jvalue o' key
  end.

Fixpoint jcontains (o : QJsonObject) (key : string) : bool :=
  match o with
  | [] => false
  | (k, _) :: o' => if decide (k = key) then true else jcontains o' key
  end.

Definition jisEmpty (o : QJsonObject) : bool :=
  match o with [] => true | _ => false end.

Definition jtoString (v : QJsonValue) (dflt : string) : string :=
  match v with JString s => s | _ => dflt end.

Definition jtoArray (v : QJsonValue) : list QJsonValue :=
  match v with JArray l => l | _ => [] end.

(** ** PluginMetadata *)

Record PluginMetadata := mkMetadata {
  m_metadata : QJsonObject;
  m_isValid : bool
}.

(** [PluginMetadata::PluginMetadata()] *)
Definition emptyMetadata : PluginMetadata := mkMetadata [] false.

Definition requiredFieldsPresent (o : QJsonObject) : bool :=
  negb (jisEmpty o) && jcontains o "id" && jcontains o "name" &&
  jcontains o "version" && jcontains o "vendor".

(** [PluginMetadata::loadFromString], after [QJsonDocument::fromJson]. *)
Definition loadFromDocument (self : PluginMetadata) (doc : QJsonDocument)
  : bool * PluginMetadata :=
  match doc with
  | DocObject o =>
      let valid := requiredFieldsPresent o in
      (valid, mkMetadata o valid)
  | _ => (false, mkMetadata (m_metadata self) false)
  end.

Definition getPluginId (md : PluginMetadata) : string :=
  jtoString (jvalue (m_metadata md) "id") "".

Definition getPluginDependencies (md : PluginMetadata) : list string :=
  (λ dep, jtoString dep "") <$> jtoArray (jvalue (m_metadata md) "dependencies").

Definition getMinFrameworkVersion (md : PluginMetadata) : string :=
  jtoString (jvalue (m_metadata md) "minFrameworkVersion") "1.0.0".

Definition dependsOn (md : PluginMetadata) (pluginId : string) : bool :=
  bool_decide (pluginId ∈ getPluginDependencies md).

(** [QVersionNumber::compare]: segment by segment; when one number is a
    prefix of the other, the longer one is the greater. *)
Fixpoint versionCompare (v1 v2 : list Z) : Z :=
  match v1, v2 with
  | [], [] => 0%Z
  | x :: _, [] => if decide (x = 0%Z) then 1%Z else x
  | [], y :: _ => if decide (y = 0%Z) then (-1)%Z else (- y)%Z
  | x :: v1', y :: v2' =>
      if decide (x = y) then versionCompare v1' v2'
      else if decide (x < y)%Z then (-1)%Z else 1%Z
  end.

Definition versionGe (v1 v2 : list Z) : bool :=
  bool_decide (0 ≤ versionCompare v1 v2)%Z.

(** ** States, hooks, signals and the recorded events *)

Inductive PluginState :=
| NotLoaded | Loaded | Initialized | Active | Inactive | Failed.

#[global] Instance PluginState_eq_dec : EqDecision PluginState.
Proof. solve_decision. Defined.

Inductive Hook := HInitialize | HActivate | HDeactivate | HShutdown.

#[global] Instance Hook_eq_dec : EqDecision Hook.
Proof. solve_decision. Defined.

(** What a [catch] clause of the manager can tell apart. *)
Inductive Exn :=
| PluginException (message : string)
| StdException (what : string)
| UnknownException.

Inductive HookOutcome :=
| Returns (b : bool)
| Throws (e : Exn).

#[global] Instance Exn_eq_dec : EqDecision Exn.
Proof. solve_decision. Defined.

#[global] Instance HookOutcome_eq_dec : EqDecision HookOutcome.
Proof. solve_decision. Defined.

Inductive Signal :=
| pluginLoaded (pluginId : string)
| pluginUnloaded (pluginId : string)
| pluginInitialized (pluginId : string)
| pluginActivated (pluginId : string)
| pluginDeactivated (pluginId : string)
| pluginFailed (pluginId : string) (errorMessage : string).

(** An [IPlugin*] and a [MessageHandlerFunc] are opaque: only their identity
    is kept.  A [QPluginLoader*] is the path it was built with. *)
Definition IPlugin := nat.
Definition MessageHandlerFunc := nat.
Definition QPluginLoader := string.

(** [loader->load()], [loader->instance()] and [qobject_cast<IPlugin*>]. *)
Inductive LoadOutcome :=
| LoadFails (errorString : string)
| NoInstance (errorString : string)
| NotAnIPlugin
| LoadedInstance (plugin : IPlugin).

Inductive Event :=
| EvSignal (sig : Signal)
| EvHook (pluginId : string) (h : Hook)
         (states : gmap string PluginState) (out : HookOutcome)
| EvLoad (path : string) (out : LoadOutcome)
| EvUnload (loader : QPluginLoader) (ok : bool)
| EvPurge (pluginId : string).

(** ** The world outside the manager *)

Record Env := mkEnv {
  (** [QDir(dir).filePath(name)] *)
  filePath : string → string → string;
  (** [QFile::exists(path)] *)
  fileExists : string → bool;
  (** [file.open(ReadOnly)] then [readAll]; [None] when the open fails *)
  readFile : string → option string;
  (** [QDir(dir).entryList({"*.json"}, QDir::Files)] *)
  entryList : string → list string;
  (** [QJsonDocument::fromJson] *)
  fromJson : string → QJsonDocument;
  (** [QVersionNumber::fromString]: the segments *)
  versionFromString : string → list Z;
  (** the module loader, on the path of the library *)
  loaderLoad : string → list Event → LoadOutcome;
  loaderUnload : QPluginLoader → list Event → bool;
  (** a lifecycle hook of a plugin object; it may look at the state table
      and at what happened so far *)
  hook : IPlugin → Hook → gmap string PluginState → list Event → HookOutcome
}.

(** ** PluginCommunication (the message bus) *)

Record PluginCommunication := mkComm {
  m_handlers : gmap string MessageHandlerFunc;
  comm_initialized : bool
}.

(** Keys of a [QMap<QString, T>], in increasing order. *)
Definition qkeys {V} (m : gmap string V) : list string :=
  merge_sort String.le (elements (dom m)).

(** [QString::split(sep)], keeping empty parts. *)
Fixpoint splitOn (sep : ascii) (s : string) : list string :=
  match s with
  | EmptyString => [EmptyString]
  | String c s' =>
      if decide (c = sep) then EmptyString :: splitOn sep s'
      else match splitOn sep s' with
           | [] => [String c EmptyString]
           | p :: ps => String c p :: ps
           end
  end.

Definition colon : ascii := ":"%char.

(** [QString("%1:%2").arg(pluginId, messageType)] *)
Definition handlerKey (pluginId messageType : string) : string :=
  pluginId +:+ ":" +:+ messageType.

Definition registerMessageHandler (pluginId messageType : string)
    (handler : MessageHandlerFunc) (c : PluginCommunication)
  : bool * PluginCommunication :=
  if negb (comm_initialized c) then (false, c)
  else
    let key := handlerKey pluginId messageType in
    match m_handlers c !! key with
    | Some _ => (false, c)
    | None => (true, mkComm (<[key := handler]> (m_handlers c)) (comm_initialized c))
    end.

Definition ownedKey (pluginId key : string) : bool :=
  let parts := splitOn colon key in
  bool_decide (length parts = 2) && bool_decide (parts !! 0 = Some pluginId).

Definition unregisterAllMessageHandlers (pluginId : string)
    (c : PluginCommunication) : bool * PluginCommunication :=
  if negb (comm_initialized c) then (false, c)
  else
    let keysToRemove := filter (λ k, ownedKey pluginId k = true) (qkeys (m_handlers c)) in
    (true, mkComm (foldl (λ m k, delete k m) (m_handlers c) keysToRemove)
                  (comm_initialized c)).

Definition comm_shutdown (c : PluginCommunication) : PluginCommunication :=
  if comm_initialized c then mkComm ∅ false else c.

(** ** PluginManager: the registry *)

Record PluginManager := mkManager {
  m_pluginDir : string;
  m_metadataDir : string;
  m_pluginLoaders : gmap string QPluginLoader;
  m_plugins : gmap string IPlugin;
  m_pluginMetadata : gmap string PluginMetadata;
  m_pluginStates : gmap string PluginState;
  m_initialized : bool;
  (** the [PluginCommunication] singleton *)
  comm : PluginCommunication;
  (** what left the manager so far, oldest first *)
  events : list Event
}.

Definition m_frameworkVersion : string := "1.0.0".

Definition stateIn (states : gmap string PluginState) (pluginId : string) : PluginState :=
  default NotLoaded (states !! pluginId).

Definition stateOf (self : PluginManager) (pluginId : string) : PluginState :=
  stateIn (m_pluginStates self) pluginId.

Definition setState (pluginId : string) (st : PluginState) (self : PluginManager)
  : PluginManager :=
  mkManager (m_pluginDir self) (m_metadataDir self) (m_pluginLoaders self)
    (m_plugins self) (m_pluginMetadata self)
    (<[pluginId := st]> (m_pluginStates self)) (m_initialized self)
    (comm self) (events self).

Definition setMetadata (pluginId : string) (md : PluginMetadata) (self : PluginManager)
  : PluginManager :=
  mkManager (m_pluginDir self) (m_metadataDir self) (m_pluginLoaders self)
    (m_plugins self) (<[pluginId := md]> (m_pluginMetadata self))
    (m_pluginStates self) (m_initialized self) (comm self) (events self).

Definition setLoaded (pluginId : string) (loader : QPluginLoader) (plugin : IPlugin)
    (self : PluginManager) : PluginManager :=
  mkManager (m_pluginDir self) (m_metadataDir self)
    (<[pluginId := loader]> (m_pluginLoaders self))
    (<[pluginId := plugin]> (m_plugins self)) (m_pluginMetadata self)
    (m_pluginStates self) (m_initialized self) (comm self) (events self).

Definition removeLoaded (pluginId : string) (self : PluginManager) : PluginManager :=
  mkManager (m_pluginDir self) (m_metadataDir self)
    (delete pluginId (m_pluginLoaders self))
    (delete pluginId (m_plugins self)) (m_pluginMetadata self)
    (m_pluginStates self) (m_initialized self) (comm self) (events self).

Definition setComm (c : PluginCommunication) (self : PluginManager) : PluginManager :=
  mkManager (m_pluginDir self) (m_metadataDir self) (m_pluginLoaders self)
    (m_plugins self) (m_pluginMetadata self) (m_pluginStates self)
    (m_initialized self) c (events self).

Definition emit (ev : Event) (self : PluginManager) : PluginManager :=
  mkManager (m_pluginDir self) (m_metadataDir self) (m_pluginLoaders self)
    (m_plugins self) (m_pluginMetadata self) (m_pluginStates self)
    (m_initialized self) (comm self) (events self ++ [ev]).

(** [m_pluginStates[id] = Failed; emit pluginFailed(id, msg);] *)
Definition failPlugin (pluginId msg : string) (self : PluginManager) : PluginManager :=
  emit (EvSignal (pluginFailed pluginId msg)) (setState pluginId Failed self).

Definition isPluginLoaded (self : PluginManager) (pluginId : string) : bool :=
  m_initialized self && bool_decide (is_Some (m_plugins self !! pluginId)).

Definition isPluginActive (self : PluginManager) (pluginId : string) : bool :=
  m_initialized self && bool_decide (stateOf self pluginId = Active).

(** [const PluginMetadata& metadata = m_pluginMetadata[pluginId];] on the
    non-const map: an absent key is inserted with a default value. *)
Definition metadataRef (pluginId : string) (self : PluginManager)
  : PluginMetadata * PluginManager :=
  match m_pluginMetadata self !! pluginId with
  | Some md => (md, self)
  | None => (emptyMetadata, setMetadata pluginId emptyMetadata self)
  end.

(** [it.value().dependsOn(pluginId)] at key [k] of [m_pluginMetadata]. *)
Definition declaresDependency (self : PluginManager) (k pluginId : string) : bool :=
  match m_pluginMetadata self !! k with
  | Some md => dependsOn md pluginId
  | None => false
  end.

(** [PluginManager::getDependentPlugins] *)
Definition getDependentPlugins (self : PluginManager) (pluginId : string) : list string :=
  filter (λ k, k ≠ pluginId ∧ declaresDependency self k pluginId = true)
         (qkeys (m_pluginMetadata self)).

(** ** Dependency ordering: [sortPluginsByDependency], [buildDependencyGraph] *)

(** The loop shared by both functions:
    [for (id : ids) if (!visited.contains(id)) buildDependencyGraph(id, ...)]. *)
Fixpoint visitUnvisited
    (visit : string → gset string * list string → option (gset string * list string))
    (ids : list string) (acc : gset string * list string)
  : option (gset string * list string) :=
  match ids with
  | [] => Some acc
  | id :: ids' =>
      if decide (id ∈ acc.1) then visitUnvisited visit ids' acc
      else match visit id acc with
           | Some acc' => visitUnvisited visit ids' acc'
           | None => None
           end
  end.

Fixpoint buildDependencyGraph (self : PluginManager) (fuel : nat) (pluginId : string)
    (acc : gset string * list string) : option (gset string * list string) :=
  match fuel with
  | 0 => None
  | S n =>
      let visited := {[pluginId]} ∪ acc.1 in
      let after :=
        match m_pluginMetadata self !! pluginId with
        | Some metadata =>
            visitUnvisited (buildDependencyGraph self n)
              (getPluginDependencies metadata) (visited, acc.2)
        | None => Some (visited, acc.2)
        end in
      match after with
      | Some (visited', sortedPlugins) => Some (visited', sortedPlugins ++ [pluginId])
      | None => None
      end
  end.

(** [sortPluginsByDependency] with its local [visited] set kept. *)
Definition sortPluginsGraph (self : PluginManager) (fuel : nat) (pluginIds : list string)
  : option (gset string * list string) :=
  visitUnvisited (buildDependencyGraph self fuel) pluginIds (∅, []).

Definition sortPluginsByDependency (self : PluginManager) (fuel : nat)
    (pluginIds : list string) : option (list string) :=
  snd <$> sortPluginsGraph self fuel pluginIds.

(** ** PluginManager: metadata loading and scanning *)

(** [QFileInfo(name).baseName()]: the name up to its first dot. *)
Fixpoint baseName (name : string) : string :=
  match name with
  | EmptyString => EmptyString
  | String c rest => if decide (c = "."%char) then EmptyString else String c (baseName rest)
  end.

Section Manager.
Context (env : Env).

(** [PluginMetadata::isCompatibleWithFramework] *)
Definition isCompatibleWithFramework (md : PluginMetadata) (frameworkVersion : string)
  : bool :=
  if negb (m_isValid md) then false
  else versionGe (versionFromString env frameworkVersion)
                 (versionFromString env (getMinFrameworkVersion md)).

(** [PluginMetadata::loadFromFile] on a freshly constructed object. *)
Definition loadFromFile (path : string) : bool * PluginMetadata :=
  match readFile env path with
  | None => (false, emptyMetadata)
  | Some jsonData => loadFromDocument emptyMetadata (fromJson env jsonData)
  end.

Definition loadPluginMetadata (pluginId : string) (self : PluginManager)
  : bool * PluginManager :=
  let metadataPath := filePath env (m_metadataDir self) (pluginId +:+ ".json") in
  if negb (fileExists env metadataPath) then (false, self)
  else
    let '(ok, metadata) := loadFromFile metadataPath in
    if negb ok then (false, self)
    else if negb (m_isValid metadata) then (false, self)
    else if negb (bool_decide (getPluginId metadata = pluginId)) then (false, self)
    else (true, setMetadata pluginId metadata self).

(** The loop of [scanForPlugins]. *)
Fixpoint scanFiles (metadataFiles : list string) (pluginIds : list string)
    (self : PluginManager) : list string * PluginManager :=
  match metadataFiles with
  | [] => (pluginIds, self)
  | metadataFile :: rest =>
      let pluginId := baseName metadataFile in
      let '(ok, self') := loadPluginMetadata pluginId self in
      scanFiles rest (if ok then pluginIds ++ [pluginId] else pluginIds) self'
  end.

Definition scanForPlugins (self : PluginManager) : list string * PluginManager :=
  if negb (m_initialized self) then ([], self)
  else scanFiles (entryList env (m_metadataDir self)) [] self.

(** The loop of [checkPluginDependencies]. *)
Fixpoint checkDependencies (dependencies : list string) (self : PluginManager)
  : bool * PluginManager :=
  match dependencies with
  | [] => (true, self)
  | depId :: rest =>
      let '(ok, self1) :=
        match m_pluginMetadata self !! depId with
        | Some _ => (true, self)
        | None => loadPluginMetadata depId self
        end in
      if negb ok then (false, self1)
      else
        let '(depMetadata, self2) := metadataRef depId self1 in
        if negb (isCompatibleWithFramework depMetadata m_frameworkVersion)
        then (false, self2)
        else checkDependencies rest self2
  end.

Definition checkPluginDependencies (pluginId : string) (self : PluginManager)
  : bool * PluginManager :=
  match m_pluginMetadata self !! pluginId with
  | None => (false, self)
  | Some metadata => checkDependencies (getPluginDependencies metadata) self
  end.

(** ** PluginManager: the lifecycle operations *)

(** The three candidate library names, probed in this order. *)
Definition resolveLibrary (self : PluginManager) (id : string) : string :=
  let dll := filePath env (m_pluginDir self) (id +:+ ".dll") in
  let so := filePath env (m_pluginDir self) ("lib" +:+ id +:+ ".so") in
  let dylib := filePath env (m_pluginDir self) ("lib" +:+ id +:+ ".dylib") in
  if fileExists env dll then dll
  else if fileExists env so then so
  else dylib.

Definition loadPlugin (pluginId : string) (self : PluginManager)
  : bool * PluginManager :=
  if negb (m_initialized self) then (false, self)
  else if isPluginLoaded self pluginId then (true, self)
  else
    let '(haveMetadata, self1) :=
      match m_pluginMetadata self !! pluginId with
      | Some _ => (true, self)
      | None => loadPluginMetadata pluginId self
      end in
    if negb haveMetadata then (false, self1)
    else
      let '(metadata, self2) := metadataRef pluginId self1 in
      if negb (isCompatibleWithFramework metadata m_frameworkVersion) then
        (false, failPlugin pluginId
                  ("Incompatible with framework version " +:+ m_frameworkVersion) self2)
      else
        let '(depsOk, self3) := checkPluginDependencies pluginId self2 in
        if negb depsOk then
          (false, failPlugin pluginId "Unsatisfied dependencies" self3)
        else
          let pluginPath := resolveLibrary self3 (getPluginId metadata) in
          if negb (fileExists env pluginPath) then
            (false, failPlugin pluginId "Plugin library not found" self3)
          else
            let out := loaderLoad env pluginPath (events self3) in
            let self4 := emit (EvLoad pluginPath out) self3 in
            match out with
            | LoadFails err =>
                (false, failPlugin pluginId ("Failed to load: " +:+ err) self4)
            | NoInstance err =>
                let ok := loaderUnload env pluginPath (events self4) in
                let self5 := emit (EvUnload pluginPath ok) self4 in
                (false, failPlugin pluginId ("Failed to get instance: " +:+ err) self5)
            | NotAnIPlugin =>
                let ok := loaderUnload env pluginPath (events self4) in
                let self5 := emit (EvUnload pluginPath ok) self4 in
                (false, failPlugin pluginId "Does not implement IPlugin interface" self5)
            | LoadedInstance plugin =>
                (true, emit (EvSignal (pluginLoaded pluginId))
                         (setState pluginId Loaded
                            (setLoaded pluginId pluginPath plugin self4)))
            end.

(** [m_plugins[pluginId]->h()]: the call and its record.  [None] when the
    pointer read from [m_plugins] is null. *)
Definition callHook (pluginId : string) (h : Hook) (self : PluginManager)
  : option (HookOutcome * PluginManager) :=
  match m_plugins self !! pluginId with
  | None => None
  | Some plugin =>
      let out := hook env plugin h (m_pluginStates self) (events self) in
      Some (out, emit (EvHook pluginId h (m_pluginStates self) out) self)
  end.

(** What the three [catch] clauses put after the prefix of the message. *)
Definition exnText (e : Exn) : option string :=
  match e with
  | PluginException message => Some message
  | StdException what => Some what
  | UnknownException => None
  end.

Definition initFailureMessage (out : HookOutcome) : string :=
  match out with
  | Returns _ => "Failed to initialize"
  | Throws e =>
      match exnText e with
      | Some txt => "Exception during initialization: " +:+ txt
      | None => "Unknown exception during initialization"
      end
  end.

Definition activateFailureMessage (out : HookOutcome) : string :=
  match out with
  | Returns _ => "Failed to activate"
  | Throws e =>
      match exnText e with
      | Some txt => "Exception during activation: " +:+ txt
      | None => "Unknown exception during activation"
      end
  end.

Definition needsInitialize (self : PluginManager) (pluginId : string) : bool :=
  negb (bool_decide (stateOf self pluginId = Initialized)) &&
  negb (bool_decide (stateOf self pluginId = Active)).

(** The dependency loop of [initializePlugin]; [recurse] is the recursive
    call. *)
Fixpoint initializeDependencies
    (recurse : string → PluginManager → option (bool * PluginManager))
    (pluginId : string) (dependencies : list string) (self : PluginManager)
  : option (bool * PluginManager) :=
  match dependencies with
  | [] => Some (true, self)
  | depId :: rest =>
      let '(loaded, self1) :=
        if isPluginLoaded self depId then (true, self) else loadPlugin depId self in
      if negb loaded then
        Some (false, failPlugin pluginId ("Failed to load dependency: " +:+ depId) self1)
      else if needsInitialize self1 depId then
        match recurse depId self1 with
        | None => None
        | Some (false, self2) =>
            Some (false, failPlugin pluginId
                           ("Failed to initialize dependency: " +:+ depId) self2)
        | Some (true, self2) => initializeDependencies recurse pluginId rest self2
        end
      else initializeDependencies recurse pluginId rest self1
  end.

Fixpoint initializePlugin (fuel : nat) (pluginId : string) (self : PluginManager)
  : option (bool * PluginManager) :=
  match fuel with
  | 0 => None
  | S n =>
      if negb (m_initialized self) then Some (false, self)
      else if negb (isPluginLoaded self pluginId) then Some (false, self)
      else if negb (needsInitialize self pluginId) then Some (true, self)
      else if bool_decide (stateOf self pluginId = Failed) then Some (false, self)
      else
        let '(metadata, self1) := metadataRef pluginId self in
        match initializeDependencies (initializePlugin n) pluginId
                (getPluginDependencies metadata) self1 with
        | None => None
        | Some (false, self2) => Some (false, self2)
        | Some (true, self2) =>
            match callHook pluginId HInitialize self2 with
            | None => None
            | Some (Returns true, self3) =>
                Some (true, emit (EvSignal (pluginInitialized pluginId))
                              (setState pluginId Initialized self3))
            | Some (out, self3) =>
                Some (false, failPlugin pluginId (initFailureMessage out) self3)
            end
        end
  end.

(** The dependency loop of [activatePlugin]. *)
Fixpoint activateDependencies
    (recurse : string → PluginManager → option (bool * PluginManager))
    (dependencies : list string) (self : PluginManager)
  : option (bool * PluginManager) :=
  match dependencies with
  | [] => Some (true, self)
  | depId :: rest =>
      if bool_decide (stateOf self depId = Active) then
        activateDependencies recurse rest self
      else
        match recurse depId self with
        | None => None
        | Some (false, self1) => Some (false, self1)
        | Some (true, self1) => activateDependencies recurse rest self1
        end
  end.

Fixpoint activatePlugin (fuel : nat) (pluginId : string) (self : PluginManager)
  : option (bool * PluginManager) :=
  match fuel with
  | 0 => None
  | S n =>
      if negb (m_initialized self) then Some (false, self)
      else if negb (isPluginLoaded self pluginId) then Some (false, self)
      else if bool_decide (stateOf self pluginId = Active) then Some (true, self)
      else if bool_decide (stateOf self pluginId = Failed) then Some (false, self)
      else
        let initialized :=
          if bool_decide (stateOf self pluginId = Initialized) then Some (true, self)
          else initializePlugin n pluginId self in
        match initialized with
        | None => None
        | Some (false, self1) => Some (false, self1)
        | Some (true, self1) =>
            let '(metadata, self2) := metadataRef pluginId self1 in
            match activateDependencies (activatePlugin n)
                    (getPluginDependencies metadata) self2 with
            | None => None
            | Some (false, self3) => Some (false, self3)
            | Some (true, self3) =>
                match callHook pluginId HActivate self3 with
                | None => None
                | Some (Returns true, self4) =>
                    Some (true, emit (EvSignal (pluginActivated pluginId))
                                  (setState pluginId Active self4))
                | Some (out, self4) =>
                    Some (false, failPlugin pluginId (activateFailureMessage out) self4)
                end
            end
        end
  end.

(** The scan of [m_plugins] at the start of [deactivatePlugin]: the active
    plugins, other than [pluginId], whose metadata depends on it. *)
Fixpoint activeDependents (pluginId : string) (keys : list string)
    (self : PluginManager) : list string * PluginManager :=
  match keys with
  | [] => ([], self)
  | k :: rest =>
      if bool_decide (k ≠ pluginId) && bool_decide (stateOf self k = Active) then
        let '(metadata, self1) := metadataRef k self in
        let '(found, self2) := activeDependents pluginId rest self1 in
        (if dependsOn metadata pluginId then k :: found else found, self2)
      else activeDependents pluginId rest self
  end.

(** The loop over the dependents in [deactivatePlugin]. *)
Fixpoint deactivateDependents
    (recurse : string → PluginManager → option (bool * PluginManager))
    (dependentPlugins : list string) (self : PluginManager)
  : option (bool * PluginManager) :=
  match dependentPlugins with
  | [] => Some (true, self)
  | depId :: rest =>
      match recurse depId self with
      | None => None
      | Some (false, self1) => Some (false, self1)
      | Some (true, self1) => deactivateDependents recurse rest self1
      end
  end.

Fixpoint deactivatePlugin (fuel : nat) (pluginId : string) (self : PluginManager)
  : option (bool * PluginManager) :=
  match fuel with
  | 0 => None
  | S n =>
      if negb (m_initialized self) then Some (false, self)
      else if negb (isPluginLoaded self pluginId) then Some (false, self)
      else if negb (bool_decide (stateOf self pluginId = Active)) then Some (true, self)
      else
        let '(dependentPlugins, self1) :=
          activeDependents pluginId (qkeys (m_plugins self)) self in
        match deactivateDependents (deactivatePlugin n) dependentPlugins self1 with
        | None => None
        | Some (false, self2) => Some (false, self2)
        | Some (true, self2) =>
            match callHook pluginId HDeactivate self2 with
            | None => None
            | Some (Returns true, self3) =>
                Some (true, emit (EvSignal (pluginDeactivated pluginId))
                              (setState pluginId Initialized self3))
            | Some (_, self3) => Some (false, self3)
            end
        end
  end.

(** A call that either returns or lets an exception through. *)
Inductive Completion (A : Type) :=
| Normal (a : A)
| Raised (e : Exn).
Arguments Normal {A} a.
Arguments Raised {A} e.

(** [unloadPlugin]; the shutdown hook is called outside any [try]. *)
Definition unloadPlugin (fuel : nat) (pluginId : string) (self : PluginManager)
  : option (Completion bool * PluginManager) :=
  if negb (m_initialized self) then Some (Normal false, self)
  else if negb (isPluginLoaded self pluginId) then Some (Normal true, self)
  else if negb (bool_decide (getDependentPlugins self pluginId = [])) then
    Some (Normal false, self)
  else
    let deactivated :=
      if isPluginActive self pluginId then deactivatePlugin fuel pluginId self
      else Some (true, self) in
    match deactivated with
    | None => None
    | Some (false, self1) => Some (Normal false, self1)
    | Some (true, self1) =>
        let shutdownDone :=
          if bool_decide (stateOf self1 pluginId = Initialized) then
            callHook pluginId HShutdown self1
          else
            match m_plugins self1 !! pluginId with
            | Some _ => Some (Returns true, self1)
            | None => None
            end in
        match shutdownDone with
        | None => None
        | Some (Throws e, self2) => Some (Raised e, self2)
        | Some (Returns false, self2) => Some (Normal false, self2)
        | Some (Returns true, self2) =>
            let self3 :=
              emit (EvPurge pluginId)
                (setComm (unregisterAllMessageHandlers pluginId (comm self2)).2 self2) in
            match m_pluginLoaders self3 !! pluginId with
            | None => None
            | Some loader =>
                let ok := loaderUnload env loader (events self3) in
                let self4 := emit (EvUnload loader ok) self3 in
                if negb ok then Some (Normal false, self4)
                else
                  Some (Normal true,
                        emit (EvSignal (pluginUnloaded pluginId))
                          (setState pluginId NotLoaded (removeLoaded pluginId self4)))
            end
        end
    end.

(** [QList::swapItemsAt] *)
Definition swapItemsAt (l : list string) (i j : nat) : list string :=
  match l !! i, l !! j with
  | Some x, Some y => <[j := x]> (<[i := y]> l)
  | _, _ => l
  end.

(** [for (i = 0; i < size / 2; ++i) swapItemsAt(i, size - 1 - i);] *)
Definition reverseInPlace (l : list string) : list string :=
  foldl (λ acc i, swapItemsAt acc i (length acc - 1 - i)) l (seq 0 (length l / 2)).

(** The order in which [shutdown] walks the plugins. *)
Definition shutdownOrder (fuel : nat) (self : PluginManager) : option (list string) :=
  reverseInPlace <$> sortPluginsByDependency self fuel (qkeys (m_plugins self)).

(** One iteration of the loop of [shutdown]; both results are dropped. *)
Definition shutdownStep (fuel : nat) (pluginId : string) (self : PluginManager)
  : option (Completion unit * PluginManager) :=
  let deactivated :=
    if isPluginActive self pluginId then snd <$> deactivatePlugin fuel pluginId self
    else Some self in
  match deactivated with
  | None => None
  | Some self1 =>
      match unloadPlugin fuel pluginId self1 with
      | None => None
      | Some (Raised e, self2) => Some (Raised e, self2)
      | Some (Normal _, self2) => Some (Normal (), self2)
      end
  end.

Fixpoint shutdownLoop (fuel : nat) (pluginIds : list string) (self : PluginManager)
  : option (Completion unit * PluginManager) :=
  match pluginIds with
  | [] => Some (Normal (), self)
  | pluginId :: rest =>
      match shutdownStep fuel pluginId self with
      | None => None
      | Some (Raised e, self1) => Some (Raised e, self1)
      | Some (Normal _, self1) => shutdownLoop fuel rest self1
      end
  end.

Definition clearRegistry (self : PluginManager) : PluginManager :=
  mkManager (m_pluginDir self) (m_metadataDir self) ∅ ∅ ∅ ∅ false
    (comm self) (events self).

Definition shutdown (fuel : nat) (self : PluginManager)
  : option (Completion unit * PluginManager) :=
  if m_initialized self then
    match shutdownOrder fuel self with
    | None => None
    | Some sortedPluginIds =>
        match shutdownLoop fuel sortedPluginIds self with
        | None => None
        | Some (Raised e, self1) => Some (Raised e, self1)
        | Some (Normal _, self1) => Some (Normal (), clearRegistry self1)
        end
    end
  else Some (Normal (), self).
End Manager.

Arguments Normal {A} a.
Arguments Raised {A} e.

(** [PluginManager::PluginManager()] *)
Definition newManager (c : PluginCommunication) : PluginManager :=
  mkManager "" "" ∅ ∅ ∅ ∅ false c [].

(** ** Vocabulary of the statements *)

(** The dependencies the registry declares for [pluginId]. *)
Definition dependenciesOf (self : PluginManager) (pluginId : string) : list string :=
  match m_pluginMetadata self !! pluginId with
  | Some md => getPluginDependencies md
  | None => []
  end.

(** A registry without dependency cycle: the ids can be ranked so that a
    dependency ranks below the plugin that declares it. *)
Definition acyclic (self : PluginManager) : Prop :=
  ∃ rank : string → nat,
    ∀ id d, d ∈ dependenciesOf self id → rank d < rank id.

(** In [l], every id comes after each of its declared dependencies. *)
Definition dependenciesFirst (self : PluginManager) (l : list string) : Prop :=
  ∀ i id d, l !! i = Some id → d ∈ dependenciesOf self id →
            ∃ j, j < i ∧ l !! j = Some d.

(** What a visit does to (visited, sorted): it appends fresh, distinct ids
    and marks exactly those. *)
Definition grows (acc acc' : gset string * list string) : Prop :=
  ∃ new, acc'.2 = acc.2 ++ new ∧ acc'.1 = acc.1 ∪ list_to_set new ∧
         NoDup new ∧ ∀ x, x ∈ new → x ∉ acc.1.

(** Every id that occurs in the registry, as a key or as a dependency,
    together with [ids]. *)
Definition idUniverse (self : PluginManager) (ids : list string) : gset string :=
  list_to_set ids ∪ dom (m_pluginMetadata self) ∪
  ⋃ ((λ kv, list_to_set (getPluginDependencies kv.2)) <$>
       map_to_list (m_pluginMetadata self)).

(** The reversal loop of [shutdown] after [k] iterations. *)
Definition swapPrefix (l : list string) (k : nat) : list string :=
  foldl (λ acc i, swapItemsAt acc i (length acc - 1 - i)) l (seq 0 k).

(** What was recorded between two states of the manager. *)
Definition newEvents (self self' : PluginManager) : list Event :=
  drop (length (events self)) (events self').

(** Every active plugin is loaded. *)
Definition activeLoaded (self : PluginManager) : Prop :=
  ∀ k, stateOf self k = Active → is_Some (m_plugins self !! k).

Definition notHook (e : Event) : Prop :=
  match e with EvHook _ _ _ _ => False | _ => True end.

Definition notActivateHook (e : Event) : Prop :=
  match e with EvHook _ HActivate _ _ => False | _ => True end.

Definition anyEvent (e : Event) : Prop := True.

(** What [loadPlugin], [initializePlugin] and [activatePlugin] may do to the
    manager; [Q] bounds what they record. *)
Record advances (Q : Event → Prop) (self self' : PluginManager) : Prop := mkAdvances {
  adv_initialized : m_initialized self' = m_initialized self;
  adv_pluginDir : m_pluginDir self' = m_pluginDir self;
  adv_metadataDir : m_metadataDir self' = m_metadataDir self;
  adv_comm : comm self' = comm self;
  adv_plugins : ∀ k p, m_plugins self !! k = Some p → m_plugins self' !! k = Some p;
  adv_metadata :
    ∀ k md, m_pluginMetadata self !! k = Some md → m_pluginMetadata self' !! k = Some md;
  adv_events : events self `prefix_of` events self';
  adv_recorded : Forall Q (newEvents self self');
  adv_active :
    ∀ k, is_Some (m_plugins self !! k) → stateOf self k = Active → stateOf self' k = Active;
  adv_activeLoaded : activeLoaded self → activeLoaded self';
  adv_activated :
    ∀ k, stateOf self' k = Active →
         stateOf self k = Active ∨
         ((∃ snap, EvHook k HActivate snap (Returns true) ∈ newEvents self self') ∧
          EvSignal (pluginActivated k) ∈ newEvents self self')
}.

(** What the metadata loaders may do: extend [m_pluginMetadata], nothing else. *)
Record registryGrows (self self' : PluginManager) : Prop := mkRegistryGrows {
  rg_pluginDir : m_pluginDir self' = m_pluginDir self;
  rg_metadataDir : m_metadataDir self' = m_metadataDir self;
  rg_loaders : m_pluginLoaders self' = m_pluginLoaders self;
  rg_plugins : m_plugins self' = m_plugins self;
  rg_states : m_pluginStates self' = m_pluginStates self;
  rg_initialized : m_initialized self' = m_initialized self;
  rg_comm : comm self' = comm self;
  rg_events : events self' = events self;
  rg_metadata :
    ∀ k md, m_pluginMetadata self !! k = Some md → m_pluginMetadata self' !! k = Some md
}.

(** [if (!m_pluginMetadata.contains(id)) loadPluginMetadata(id)] *)
Definition ensureMetadata (env : Env) (pluginId : string) (self : PluginManager)
  : bool * PluginManager :=
  match m_pluginMetadata self !! pluginId with
  | Some _ => (true, self)
  | None => loadPluginMetadata env pluginId self
  end.

(** *** The runs of the lifecycle operations, case by case *)

Section Runs.
Context (env : Env).

(** The end of [initializePlugin], once the hook has answered [out]. *)
Definition finishInitialize (pluginId : string) (out : HookOutcome)
    (self : PluginManager) : PluginManager :=
  let self1 := emit (EvHook pluginId HInitialize (m_pluginStates self) out) self in
  if bool_decide (out = Returns true)
  then emit (EvSignal (pluginInitialized pluginId))
         (setState pluginId Initialized self1)
  else failPlugin pluginId (initFailureMessage out) self1.

(** The end of [activatePlugin], once the hook has answered [out]. *)
Definition finishActivate (pluginId : string) (out : HookOutcome)
    (self : PluginManager) : PluginManager :=
  let self1 := emit (EvHook pluginId HActivate (m_pluginStates self) out) self in
  if bool_decide (out = Returns true)
  then emit (EvSignal (pluginActivated pluginId)) (setState pluginId Active self1)
  else failPlugin pluginId (activateFailureMessage out) self1.

(** [if (!isPluginLoaded(depId)) loadPlugin(depId)], when it goes on. *)
Definition ensureLoaded (depId : string) (self self1 : PluginManager) : Prop :=
  (isPluginLoaded self depId = true ∧ self1 = self) ∨
  (isPluginLoaded self depId = false ∧ loadPlugin env depId self = (true, self1)).

Inductive InitLoop (recurse : string → PluginManager → option (bool * PluginManager))
    (pluginId : string) : list string → PluginManager → bool → PluginManager → Prop :=
| il_nil self : InitLoop recurse pluginId [] self true self
| il_load_failed depId rest self self1 :
    isPluginLoaded self depId = false →
    loadPlugin env depId self = (false, self1) →
    InitLoop recurse pluginId (depId :: rest) self false
      (failPlugin pluginId ("Failed to load dependency: " +:+ depId) self1)
| il_ready depId rest self self1 r self' :
    ensureLoaded depId self self1 →
    needsInitialize self1 depId = false →
    InitLoop recurse pluginId rest self1 r self' →
    InitLoop recurse pluginId (depId :: rest) self r self'
| il_init_failed depId rest self self1 self2 :
    ensureLoaded depId self self1 →
    needsInitialize self1 depId = true →
    recurse depId self1 = Some (false, self2) →
    InitLoop recurse pluginId (depId :: rest) self false
      (failPlugin pluginId ("Failed to initialize dependency: " +:+ depId) self2)
| il_init depId rest self self1 self2 r self' :
    ensureLoaded depId self self1 →
    needsInitialize self1 depId = true →
    recurse depId self1 = Some (true, self2) →
    InitLoop recurse pluginId rest self2 r self' →
    InitLoop recurse pluginId (depId :: rest) self r self'.

(** The checks at the head of [initializePlugin], passed. *)
Definition initChecks (pluginId : string) (self : PluginManager) : Prop :=
  m_initialized self = true ∧ is_Some (m_plugins self !! pluginId) ∧
  stateOf self pluginId ≠ Initialized ∧ stateOf self pluginId ≠ Active ∧
  stateOf self pluginId ≠ Failed.

Inductive InitRun (n : nat) (pluginId : string) (self : PluginManager)
  : bool → PluginManager → Prop :=
| ir_refused :
    m_initialized self = false ∨ m_plugins self !! pluginId = None ∨
    stateOf self pluginId = Failed →
    InitRun n pluginId self false self
| ir_already :
    m_initialized self = true → is_Some (m_plugins self !! pluginId) →
    stateOf self pluginId = Initialized ∨ stateOf self pluginId = Active →
    InitRun n pluginId self true self
| ir_dependency_failed metadata self1 self2 :
    initChecks pluginId self →
    metadataRef pluginId self = (metadata, self1) →
    InitLoop (initializePlugin env n) pluginId
      (getPluginDependencies metadata) self1 false self2 →
    InitRun n pluginId self false self2
| ir_hook metadata self1 self2 plugin out :
    initChecks pluginId self →
    metadataRef pluginId self = (metadata, self1) →
    InitLoop (initializePlugin env n) pluginId
      (getPluginDependencies metadata) self1 true self2 →
    m_plugins self2 !! pluginId = Some plugin →
    out = hook env plugin HInitialize (m_pluginStates self2) (events self2) →
    InitRun n pluginId self (bool_decide (out = Returns true))
      (finishInitialize pluginId out self2).

Inductive ActivateLoop (recurse : string → PluginManager → option (bool * PluginManager))
  : list string → PluginManager → bool → PluginManager → Prop :=
| al_nil self : ActivateLoop recurse [] self true self
| al_skip depId rest self r self' :
    stateOf self depId = Active →
    ActivateLoop recurse rest self r self' →
    ActivateLoop recurse (depId :: rest) self r self'
| al_failed depId rest self self1 :
    stateOf self depId ≠ Active →
    recurse depId self = Some (false, self1) →
    ActivateLoop recurse (depId :: rest) self false self1
| al_activated depId rest self self1 r self' :
    stateOf self depId ≠ Active →
    recurse depId self = Some (true, self1) →
    ActivateLoop recurse rest self1 r self' →
    ActivateLoop recurse (depId :: rest) self r self'.

(** The checks at the head of [activatePlugin], passed. *)
Definition activateChecks (pluginId : string) (self : PluginManager) : Prop :=
  m_initialized self = true ∧ is_Some (m_plugins self !! pluginId) ∧
  stateOf self pluginId ≠ Active ∧ stateOf self pluginId ≠ Failed.

(** [if (state != Initialized) initializePlugin(pluginId)], when it goes on. *)
Definition ensureInitialized (n : nat) (pluginId : string)
    (self self1 : PluginManager) : Prop :=
  (stateOf self pluginId = Initialized ∧ self1 = self) ∨
  (stateOf self pluginId ≠ Initialized ∧
   initializePlugin env n pluginId self = Some (true, self1)).

Inductive ActivateRun (n : nat) (pluginId : string) (self : PluginManager)
  : bool → PluginManager → Prop :=
| ar_refused :
    m_initialized self = false ∨ m_plugins self !! pluginId = None ∨
    stateOf self pluginId = Failed →
    ActivateRun n pluginId self false self
| ar_already :
    m_initialized self = true → is_Some (m_plugins self !! pluginId) →
    stateOf self pluginId = Active →
    ActivateRun n pluginId self true self
| ar_initialize_failed self1 :
    activateChecks pluginId self →
    stateOf self pluginId ≠ Initialized →
    initializePlugin env n pluginId self = Some (false, self1) →
    ActivateRun n pluginId self false self1
| ar_dependency_failed self1 metadata self2 self3 :
    activateChecks pluginId self →
    ensureInitialized n pluginId self self1 →
    metadataRef pluginId self1 = (metadata, self2) →
    ActivateLoop (activatePlugin env n) (getPluginDependencies metadata)
      self2 false self3 →
    ActivateRun n pluginId self false self3
| ar_hook self1 metadata self2 self3 plugin out :
    activateChecks pluginId self →
    ensureInitialized n pluginId self self1 →
    metadataRef pluginId self1 = (metadata, self2) →
    ActivateLoop (activatePlugin env n) (getPluginDependencies metadata)
      self2 true self3 →
    m_plugins self3 !! pluginId = Some plugin →
    out = hook env plugin HActivate (m_pluginStates self3) (events self3) →
    ActivateRun n pluginId self (bool_decide (out = Returns true))
      (finishActivate pluginId out self3).
End Runs.

(** *** Vocabulary of the ordering properties of activation *)

(** Whenever the activate hook of a plugin is called, each dependency its
    metadata declares is [Active] in the state table of that moment, and was
    so at the start or has had [pluginActivated] emitted since. *)
Definition dependenciesActiveAtHook (self self' : PluginManager) : Prop :=
  ∀ i B snap out,
    newEvents self self' !! i = Some (EvHook B HActivate snap out) →
    ∃ md, m_pluginMetadata self' !! B = Some md ∧
          ∀ A, A ∈ getPluginDependencies md →
               stateIn snap A = Active ∧
               (stateOf self A = Active ∨
                ∃ j, j < i ∧
                     newEvents self self' !! j = Some (EvSignal (pluginActivated A))).

(** [e] is a call of the activate hook of a plugin of [K]. *)
Definition activateHookOf (K : gset string) (e : Event) : Prop :=
  match e with
  | EvHook k HActivate _ _ => k ∈ K
  | _ => False
  end.

(** No plugin of [K] is active and each one declares a dependency in [K]. *)
Definition blocked (K : gset string) (self : PluginManager) : Prop :=
  ∀ Z, Z ∈ K → stateOf self Z ≠ Active ∧
               ∃ W, W ∈ K ∧ W ∈ dependenciesOf self Z.

(** The plugins of [P] wait for the activation of [X]: none is active, and
    each declares a dependency that is in [P] or is [X]. *)
Definition supported (P : gset string) (self : PluginManager) (X : string) : Prop :=
  ∀ Z, Z ∈ P → stateOf self Z ≠ Active ∧
               ∃ W, (W ∈ P ∨ W = X) ∧ W ∈ dependenciesOf self Z.

(** *** Vocabulary of deactivation *)

Definition deactivationEvent (e : Event) : Prop :=
  match e with
  | EvHook _ HDeactivate _ _ => True
  | EvSignal (pluginDeactivated _) => True
  | _ => False
  end.

(** What [deactivatePlugin] may do to the manager: extend the registry with
    default entries, record deactivations, and move plugins from [Active] to
    [Initialized] after their hook has answered [true]. *)
Record settles (self self' : PluginManager) : Prop := mkSettles {
  st_initialized : m_initialized self' = m_initialized self;
  st_pluginDir : m_pluginDir self' = m_pluginDir self;
  st_metadataDir : m_metadataDir self' = m_metadataDir self;
  st_comm : comm self' = comm self;
  st_plugins : m_plugins self' = m_plugins self;
  st_loaders : m_pluginLoaders self' = m_pluginLoaders self;
  st_metadata :
    ∀ k md, m_pluginMetadata self !! k = Some md → m_pluginMetadata self' !! k = Some md;
  st_events : events self `prefix_of` events self';
  st_recorded : Forall deactivationEvent (newEvents self self');
  st_states :
    ∀ k, stateOf self' k = stateOf self k ∨
         (stateOf self k = Active ∧ stateOf self' k = Initialized ∧
          ∃ snap, EvHook k HDeactivate snap (Returns true) ∈ newEvents self self')
}.

(** [e] is a call of the deactivate hook of a plugin of [K]. *)
Definition deactivateHookOf (K : gset string) (e : Event) : Prop :=
  match e with
  | EvHook k HDeactivate _ _ => k ∈ K
  | _ => False
  end.

(** [W] is loaded, active, and declares a dependency on [Z]. *)
Definition activeDependent (self : PluginManager) (Z W : string) : Prop :=
  W ≠ Z ∧ is_Some (m_plugins self !! W) ∧ stateOf self W = Active ∧
  Z ∈ dependenciesOf self W.

(** Every plugin of [K] is loaded and active and has an active dependent
    in [K]. *)
Definition heldActive (K : gset string) (self : PluginManager) : Prop :=
  ∀ Z, Z ∈ K → is_Some (m_plugins self !! Z) ∧ stateOf self Z = Active ∧
               ∃ W, W ∈ K ∧ W ≠ Z ∧ Z ∈ dependenciesOf self W.

(** The plugins of [P] wait for the deactivation of [X]: each is loaded and
    active and has a dependent that is in [P] or is [X]. *)
Definition awaiting (P : gset string) (self : PluginManager) (X : string) : Prop :=
  ∀ Z, Z ∈ P → is_Some (m_plugins self !! Z) ∧ stateOf self Z = Active ∧
               ∃ W, (W ∈ P ∨ W = X) ∧ W ≠ Z ∧ Z ∈ dependenciesOf self W.

Section DeactivateRuns.
Context (env : Env).

Inductive DeactivateLoop
    (recurse : string → PluginManager → option (bool * PluginManager))
  : list string → PluginManager → bool → PluginManager → Prop :=
| dl_nil self : DeactivateLoop recurse [] self true self
| dl_failed depId rest self self1 :
    recurse depId self = Some (false, self1) →
    DeactivateLoop recurse (depId :: rest) self false self1
| dl_deactivated depId rest self self1 r self' :
    recurse depId self = Some (true, self1) →
    DeactivateLoop recurse rest self1 r self' →
    DeactivateLoop recurse (depId :: rest) self r self'.

(** The end of [deactivatePlugin], once the hook has answered [out]. *)
Definition finishDeactivate (pluginId : string) (out : HookOutcome)
    (self : PluginManager) : PluginManager :=
  let self1 := emit (EvHook pluginId HDeactivate (m_pluginStates self) out) self in
  if bool_decide (out = Returns true)
  then emit (EvSignal (pluginDeactivated pluginId))
         (setState pluginId Initialized self1)
  else self1.

Inductive DeactivateRun (n : nat) (pluginId : string) (self : PluginManager)
  : bool → PluginManager → Prop :=
| dr_refused :
    m_initialized self = false ∨ m_plugins self !! pluginId = None →
    DeactivateRun n pluginId self false self
| dr_not_active :
    m_initialized self = true → is_Some (m_plugins self !! pluginId) →
    stateOf self pluginId ≠ Active →
    DeactivateRun n pluginId self true self
| dr_dependent_failed dependentPlugins self1 self2 :
    m_initialized self = true → is_Some (m_plugins self !! pluginId) →
    stateOf self pluginId = Active →
    activeDependents pluginId (qkeys (m_plugins self)) self
      = (dependentPlugins, self1) →
    DeactivateLoop (deactivatePlugin env n) dependentPlugins self1 false self2 →
    DeactivateRun n pluginId self false self2
| dr_hook dependentPlugins self1 self2 plugin out :
    m_initialized self = true → is_Some (m_plugins self !! pluginId) →
    stateOf self pluginId = Active →
    activeDependents pluginId (qkeys (m_plugins self)) self
      = (dependentPlugins, self1) →
    DeactivateLoop (deactivatePlugin env n) dependentPlugins self1 true self2 →
    m_plugins self2 !! pluginId = Some plugin →
    out = hook env plugin HDeactivate (m_pluginStates self2) (events self2) →
    DeactivateRun n pluginId self (bool_decide (out = Returns true))
      (finishDeactivate pluginId out self2).
End DeactivateRuns.

(** A failing call of hook [h] fails the run, leaves the plugin [Failed] and
    is followed by [pluginFailed] with the matching message. *)
Definition failureReported (h : Hook) (message : HookOutcome → string)
    (self : PluginManager) (r : bool) (self' : PluginManager) : Prop :=
  ∀ X snap out, EvHook X h snap out ∈ newEvents self self' → out ≠ Returns true →
    r = false ∧ stateOf self' X = Failed ∧
    EvSignal (pluginFailed X (message out)) ∈ newEvents self self'.

(** A failing call of the deactivate hook fails the run and leaves the
    plugin [Active]. *)
Definition deactivationFailure (self : PluginManager) (r : bool)
    (self' : PluginManager) : Prop :=
  ∀ X snap out, EvHook X HDeactivate snap out ∈ newEvents self self' →
                out ≠ Returns true → r = false ∧ stateOf self' X = Active.

(** [activatePlugin(B)], run from [self] with recursion depth [n], reaches
    the call [activatePlugin(A)] of its dependency loop in state [selfA]. *)
Definition reachesDependency (env : Env) (n : nat) (B : string) (self : PluginManager)
    (A : string) (selfA : PluginManager) : Prop :=
  activateChecks B self ∧
  ∃ self1 metadata self2 before after,
    ensureInitialized env n B self self1 ∧
    metadataRef B self1 = (metadata, self2) ∧
    getPluginDependencies metadata = before ++ A :: after ∧
    activateDependencies (activatePlugin env n) before self2 = Some (true, selfA) ∧
    stateOf selfA A ≠ Active.

(** [c] does not occur in [s]. *)
Fixpoint without (c : ascii) (s : string) : Prop :=
  match s with
  | EmptyString => True
  | String c' s' => c' ≠ c ∧ without c s'
  end.

(** The four fields [PluginMetadata] requires. *)
Definition requiredFields : list string := ["id"; "name"; "version"; "vendor"].

(** The descriptor file of [pluginId], as [loadPluginMetadata] names it. *)
Definition descriptorPath (env : Env) (self : PluginManager) (pluginId : string) : string :=
  filePath env (m_metadataDir self) (pluginId +:+ ".json").

(** The three plugins form a chain: [c] depends on [b], [b] on [a], and
    they are the loaded plugins. *)
Definition dependencyChain (self : PluginManager) (a b c : string) : Prop :=
  dependenciesOf self c = [b] ∧ dependenciesOf self b = [a] ∧
  dependenciesOf self a = [] ∧ dom (m_plugins self) = {[a; b; c]}.

(** The part of [unloadPlugin] that follows the deactivation: the shutdown
    hook, the purge of the message handlers, the release of the module. *)
Definition releasePlugin (env : Env) (pluginId : string) (self1 : PluginManager)
  : option (Completion bool * PluginManager) :=
  let shutdownDone :=
    if bool_decide (stateOf self1 pluginId = Initialized) then
      callHook env pluginId HShutdown self1
    else
      match m_plugins self1 !! pluginId with
      | Some _ => Some (Returns true, self1)
      | None => None
      end in
  match shutdownDone with
  | None => None
  | Some (Throws e, self2) => Some (Raised e, self2)
  | Some (Returns false, self2) => Some (Normal false, self2)
  | Some (Returns true, self2) =>
      let self3 :=
        emit (EvPurge pluginId)
          (setComm (unregisterAllMessageHandlers pluginId (comm self2)).2 self2) in
      match m_pluginLoaders self3 !! pluginId with
      | None => None
      | Some loader =>
          let ok := loaderUnload env loader (events self3) in
          let self4 := emit (EvUnload loader ok) self3 in
          if negb ok then Some (Normal false, self4)
          else
            Some (Normal true,
                  emit (EvSignal (pluginUnloaded pluginId))
                    (setState pluginId NotLoaded (removeLoaded pluginId self4)))
      end
  end.

(** What [releasePlugin] records. *)
Definition releaseEvent (e : Event) : Prop :=
  match e with
  | EvHook _ HShutdown _ _ => True
  | EvPurge _ => True
  | EvUnload _ _ => True
  | EvSignal (pluginUnloaded _) => True
  | _ => False
  end.

(** The descriptor file of [id] cannot be read, or what it holds lacks a
    required field. *)
Definition descriptorIncomplete (env : Env) (self : PluginManager) (id : string) : Prop :=
  ∀ data, readFile env (descriptorPath env self id) = Some data →
          ∃ key, key ∈ requiredFields ∧
                 ∀ o, fromJson env data = DocObject o → jcontains o key = false.

(** The [minFrameworkVersion] of [md] exceeds the running framework version. *)
Definition requiresNewerFramework (env : Env) (md : PluginMetadata) : Prop :=
  (versionCompare (versionFromString env m_frameworkVersion)
     (versionFromString env (getMinFrameworkVersion md)) < 0)%Z.

(** [activeLoaded], as a check of the state table. *)
Definition activeLoadedCheck (self : PluginManager) : bool :=
  bool_decide (map_Forall (λ k st, st = Active → is_Some (m_plugins self !! k))
                 (m_pluginStates self)).

(** ** A small installation, for the examples *)

Definition descriptor (id : string) (dependencies : list string)
    (minFrameworkVersion : string) : QJsonDocument :=
  DocObject [("id", JString id); ("name", JString id);
             ("version", JString "1.0.0"); ("vendor", JString "Acme");
             ("dependencies", JArray (JString <$> dependencies));
             ("minFrameworkVersion", JString minFrameworkVersion)].

(** Dot-separated decimal segments, read up to the first other character. *)
Fixpoint versionSegments (current : option Z) (s : string) : list Z :=
  let finish := match current with Some n => [n] | None => [] end in
  match s with
  | EmptyString => finish
  | String c rest =>
      let code := nat_of_ascii c in
      if bool_decide (48 ≤ code ≤ 57) then
        versionSegments (Some (10 * default 0%Z current + Z.of_nat (code - 48))%Z) rest
      else if bool_decide (c = "."%char) then
        match current with
        | Some n => n :: versionSegments None rest
        | None => []
        end
      else finish
  end.

Definition descriptorFile (id : string) : string := "metadata/" +:+ id +:+ ".json".
Definition libraryFile (id : string) : string := "plugins/lib" +:+ id +:+ ".so".

(** An installation: the descriptors by plugin id, the ids that have a
    library (the plugin object of the i-th library is [i]), what the hooks
    answer, and whether a module can be released. *)
Definition installation (descriptors : list (string * QJsonDocument))
    (libraries : list string) (hooks : IPlugin → Hook → HookOutcome)
    (released : bool) : Env :=
  mkEnv
    (λ dir name, dir +:+ "/" +:+ name)
    (λ path, bool_decide (path ∈ (descriptorFile ∘ fst <$> descriptors) ++
                                 (libraryFile <$> libraries)))
    (λ path, Some path)
    (λ _, (λ kv, fst kv +:+ ".json") <$> descriptors)
    (λ data, from_option (snd ∘ snd) DocNull
               (list_find (λ kv, descriptorFile (fst kv) = data) descriptors))
    (versionSegments None)
    (λ path _, from_option (LoadedInstance ∘ fst) (LoadFails "cannot load library")
                 (list_find (λ id, libraryFile id = path) libraries))
    (λ _ _, released)
    (λ plugin h _ _, hooks plugin h).

(** The manager after [initialize("plugins", "metadata")], with the message
    bus initialized. *)
Definition startedManager : PluginManager :=
  mkManager "plugins" "metadata" ∅ ∅ ∅ ∅ true (mkComm ∅ true) [].

Definition chainDescriptors : list (string * QJsonDocument) :=
  [("A", descriptor "A" [] "1.0.0"); ("B", descriptor "B" ["A"] "1.0.0");
   ("C", descriptor "C" ["B"] "1.0.0")].

Definition allSucceed : IPlugin → Hook → HookOutcome := λ _ _, Returns true.

(** Three plugins in a chain, every hook succeeding. *)
Definition chainEnv : Env := installation chainDescriptors ["A"; "B"; "C"] allSucceed true.

(** [acyclic], checked with a given ranking. *)
Definition acyclicCheck (rank : string → nat) (self : PluginManager) : bool :=
  bool_decide (map_Forall (λ id md, Forall (λ d, rank d < rank id)
                                      (getPluginDependencies md))
                 (m_pluginMetadata self)).

Definition chainRank (id : string) : nat :=
  if decide (id = "A") then 0 else if decide (id = "B") then 1 else 2.

(** The chain, loaded through ["C"] and activated. *)
Definition chainLoaded : PluginManager := snd (loadPlugin chainEnv "C" startedManager).

Definition chainActive : PluginManager :=
  match activatePlugin chainEnv 4 "C" chainLoaded with
  | Some (_, self) => self
  | None => chainLoaded
  end.

(** A plugin that lists itself among its dependencies. *)
Definition selfEnv : Env :=
  installation [("S", descriptor "S" ["S"] "1.0.0")] ["S"] allSucceed true.

Definition selfLoaded : PluginManager := snd (loadPlugin selfEnv "S" startedManager).

(** Every hook succeeds, except hook [h] of plugin object [plugin]. *)
Definition failingAt (plugin : IPlugin) (h : Hook) (out : HookOutcome)
  : IPlugin → Hook → HookOutcome :=
  λ plugin' h', if decide (plugin' = plugin ∧ h' = h) then out else Returns true.

(** The chain where activating ["A"] fails; ["B"] is loaded, then initialized,
    and its activation gets as far as its dependency ["A"]. *)
Definition stalledEnv : Env :=
  installation chainDescriptors ["A"; "B"; "C"] (failingAt 0 HActivate (Returns false)) true.

Definition stalledLoaded : PluginManager := snd (loadPlugin stalledEnv "B" startedManager).

Definition stalledInitialized : PluginManager :=
  match initializePlugin stalledEnv 3 "B" stalledLoaded with
  | Some (_, self) => self
  | None => stalledLoaded
  end.

Definition stalledFailed : PluginManager :=
  match activatePlugin stalledEnv 3 "A" stalledInitialized with
  | Some (_, self) => self
  | None => stalledInitialized
  end.

(** The chain with every descriptor registered and only ["A"] loaded. *)
Definition chainScanned : PluginManager := snd (scanForPlugins chainEnv startedManager).

Definition chainBase : PluginManager := snd (loadPlugin chainEnv "A" chainScanned).

(** A single plugin ["A"] and one failing hook. *)
Definition soloDescriptors : list (string * QJsonDocument) :=
  [("A", descriptor "A" [] "1.0.0")].

Definition throwingEnv : Env :=
  installation soloDescriptors ["A"]
    (failingAt 0 HInitialize (Throws (StdException "boom"))) true.

Definition throwingLoaded : PluginManager := snd (loadPlugin throwingEnv "A" startedManager).

Definition throwingFailed : PluginManager :=
  match initializePlugin throwingEnv 1 "A" throwingLoaded with
  | Some (_, self) => self
  | None => throwingLoaded
  end.

Definition stuckEnv : Env :=
  installation soloDescriptors ["A"] (failingAt 0 HDeactivate (Returns false)) true.

(** ["A"] active, with one handler on the message bus. *)
Definition withHandler (self : PluginManager) : PluginManager :=
  setComm (snd (registerMessageHandler "A" "ping" 7 (comm self))) self.

Definition stuckActive : PluginManager :=
  withHandler
    match activatePlugin stuckEnv 2 "A" (snd (loadPlugin stuckEnv "A" startedManager)) with
    | Some (_, self) => self
    | None => startedManager
    end.



Definition soloEnv : Env := installation soloDescriptors ["A"] allSucceed true.

Definition soloLoaded : PluginManager := snd (loadPlugin soloEnv "A" startedManager).

Definition soloInitialized : PluginManager :=
  match initializePlugin soloEnv 1 "A" soloLoaded with
  | Some (_, self) => self
  | None => soloLoaded
  end.

Definition soloActive : PluginManager :=
  match activatePlugin soloEnv 1 "A" soloInitialized with
  | Some (_, self) => self
  | None => soloInitialized
  end.

(** A plugin that asks for framework version 99.0.0. *)
Definition futureEnv : Env :=
  installation [("X", descriptor "X" [] "99.0.0")] ["X"] allSucceed true.

Definition futureScanned : PluginManager := snd (scanForPlugins futureEnv startedManager).

(** A descriptor whose [name] is a number, and one without [vendor]. *)
Definition numberNamed : QJsonDocument :=
  DocObject [("id", JString "N"); ("name", JDouble 42);
             ("version", JString "1.0.0"); ("vendor", JString "Acme")].

Definition vendorless : QJsonDocument :=
  DocObject [("id", JString "V"); ("name", JString "V"); ("version", JString "1.0.0")].

Definition oddEnv : Env :=
  installation [("N", numberNamed); ("V", vendorless)] [] allSucceed true.

(** * PermissionManager

    The locks are left out, as everywhere; a [QSet<QString>] is a
    [gset string], and the signals are appended to [perm_signals]. *)

Inductive PermissionSignal :=
| permissionRegistered (permission description : string)
| permissionUnregistered (permission : string)
| permissionGranted (pluginId permission : string)
| permissionRevoked (pluginId permission : string).

Record PermissionManager := mkPermissions {
  m_permissions : gmap string string;
  m_pluginPermissions : gmap string (gset string);
  perm_initialized : bool;
  perm_signals : list PermissionSignal
}.

(** [PermissionManager::PermissionManager()] *)
Definition newPermissions : PermissionManager := mkPermissions ∅ ∅ false [].

Definition perm_emit (sig : PermissionSignal) (self : PermissionManager)
  : PermissionManager :=
  mkPermissions (m_permissions self) (m_pluginPermissions self)
    (perm_initialized self) (perm_signals self ++ [sig]).

Definition registerPermission (permission description : string)
    (self : PermissionManager) : bool * PermissionManager :=
  if negb (perm_initialized self) then (false, self)
  else if bool_decide (is_Some (m_permissions self !! permission)) then (false, self)
  else
    (true,
     perm_emit (permissionRegistered permission description)
       (mkPermissions (<[permission := description]> (m_permissions self))
          (m_pluginPermissions self) (perm_initialized self) (perm_signals self))).

Definition unregisterPermission (permission : string) (self : PermissionManager)
  : bool * PermissionManager :=
  if negb (perm_initialized self) then (false, self)
  else if negb (bool_decide (is_Some (m_permissions self !! permission))) then (false, self)
  else
    (true,
     perm_emit (permissionUnregistered permission)
       (mkPermissions (delete permission (m_permissions self))
          ((λ granted, granted ∖ {[permission]}) <$> m_pluginPermissions self)
          (perm_initialized self) (perm_signals self))).

Definition isPermissionRegistered (self : PermissionManager) (permission : string) : bool :=
  if negb (perm_initialized self) then false
  else bool_decide (is_Some (m_permissions self !! permission)).

Definition getRegisteredPermissions (self : PermissionManager) : list string :=
  if negb (perm_initialized self) then [] else qkeys (m_permissions self).

Definition getPermissionDescription (self : PermissionManager) (permission : string)
  : string :=
  if negb (perm_initialized self) then EmptyString
  else default EmptyString (m_permissions self !! permission).

Definition grantPermission (pluginId permission : string) (self : PermissionManager)
  : bool * PermissionManager :=
  if negb (perm_initialized self) then (false, self)
  else if negb (bool_decide (is_Some (m_permissions self !! permission))) then (false, self)
  else
    let table :=
      match m_pluginPermissions self !! pluginId with
      | Some _ => m_pluginPermissions self
      | None => <[pluginId := ∅]> (m_pluginPermissions self)
      end in
    let granted := default ∅ (table !! pluginId) in
    if bool_decide (permission ∈ granted) then
      (true, mkPermissions (m_permissions self) table (perm_initialized self)
               (perm_signals self))
    else
      (true,
       perm_emit (permissionGranted pluginId permission)
         (mkPermissions (m_permissions self)
            (<[pluginId := granted ∪ {[permission]}]> table)
            (perm_initialized self) (perm_signals self))).

Definition revokePermission (pluginId permission : string) (self : PermissionManager)
  : bool * PermissionManager :=
  if negb (perm_initialized self) then (false, self)
  else
    match m_pluginPermissions self !! pluginId with
    | None => (false, self)
    | Some granted =>
        if negb (bool_decide (permission ∈ granted)) then (false, self)
        else
          (true,
           perm_emit (permissionRevoked pluginId permission)
             (mkPermissions (m_permissions self)
                (<[pluginId := granted ∖ {[permission]}]> (m_pluginPermissions self))
                (perm_initialized self) (perm_signals self)))
    end.

Definition hasPermission (self : PermissionManager) (pluginId permission : string) : bool :=
  if negb (perm_initialized self) then false
  else
    match m_pluginPermissions self !! pluginId with
    | None => false
    | Some granted => bool_decide (permission ∈ granted)
    end.

(** The order in which a [QSet] is walked is not specified; [elements] is
    one such order. *)
Definition getPluginPermissions (self : PermissionManager) (pluginId : string)
  : list string :=
  if negb (perm_initialized self) then []
  else
    match m_pluginPermissions self !! pluginId with
    | None => []
    | Some granted => elements granted
    end.

Definition getPluginsWithPermission (self : PermissionManager) (permission : string)
  : list string :=
  if negb (perm_initialized self) then []
  else
    filter (λ pluginId, permission ∈ default ∅ (m_pluginPermissions self !! pluginId))
      (qkeys (m_pluginPermissions self)).

Definition perm_shutdown (self : PermissionManager) : PermissionManager :=
  if perm_initialized self
  then mkPermissions ∅ ∅ false (perm_signals self)
  else self.

(** Every permission a plugin holds is a registered one. *)
Definition grantedRegistered (self : PermissionManager) : Prop :=
  ∀ pluginId granted permission,
    m_pluginPermissions self !! pluginId = Some granted →
    permission ∈ granted → is_Some (m_permissions self !! permission).

(** A manager with the three permissions of the message bus registered. *)
Definition busPermissions : PermissionManager :=
  mkPermissions
    (list_to_map [("communication.send", "Send messages");
                  ("communication.receive", "Receive messages");
                  ("communication.broadcast", "Broadcast messages")])
    ∅ true [].

(** * PluginCommunication: sending

    A [QVariant] is invalid or holds a value.  A handler is called through
    [invoke]; what the bus lets out (its signals and the calls of handlers)
    is returned, in order, beside the result. *)

Inductive QVariant :=
| VInvalid
| VBool (b : bool)
| VInt (n : Z)
| VString (s : string).

Inductive BusEvent :=
| messageSent (sender receiver messageType : string) (data : QVariant)
| messageReceived (receiver sender messageType : string) (data response : QVariant)
| messageBroadcast (sender messageType : string) (data : QVariant)
| handlerCalled (key : string) (handler : MessageHandlerFunc)
                (sender : string) (data : QVariant).

(** [PluginCommunication::PluginCommunication()] and [initialize()] *)
Definition newComm : PluginCommunication := mkComm ∅ false.

Definition comm_initialize (c : PluginCommunication) : bool * PluginCommunication :=
  if comm_initialized c then (true, c) else (true, mkComm (m_handlers c) true).

Definition unregisterMessageHandler (pluginId messageType : string)
    (c : PluginCommunication) : bool * PluginCommunication :=
  if negb (comm_initialized c) then (false, c)
  else
    let key := handlerKey pluginId messageType in
    match m_handlers c !! key with
    | None => (false, c)
    | Some _ => (true, mkComm (delete key (m_handlers c)) (comm_initialized c))
    end.

Section Sending.
Context (permissions : PermissionManager).
Context (invoke : MessageHandlerFunc → string → QVariant → QVariant).

Definition sendMessage (sender receiver messageType : string) (data : QVariant)
  (c : PluginCommunication) : QVariant * list BusEvent :=
if negb (comm_initialized c) then (VInvalid, [])
else if negb (hasPermission permissions sender "communication.send") then (VInvalid, [])
else if negb (hasPermission permissions receiver "communication.receive")
then (VInvalid, [])
else
  let key := handlerKey receiver messageType in
  match m_handlers c !! key with
  | None => (VInvalid, [])
  | Some handler =>
      let response := invoke handler sender data in
      (response,
       [messageSent sender receiver messageType data;
        handlerCalled key handler sender data;
        messageReceived receiver sender messageType data response])
  end.

(** [parts.size() == 2 && parts[1] == messageType], and then [parts[0]]. *)
Definition addressedBy (messageType key : string) : option string :=
match splitOn colon key with
| [receiver; part] => if decide (part = messageType) then Some receiver else None
| _ => None
end.

(** One turn of the loop of [broadcastMessage]. *)
Definition broadcastStep (sender messageType : string) (data : QVariant)
  (c : PluginCommunication)
  (acc : gmap string QVariant * list BusEvent) (key : string)
: gmap string QVariant * list BusEvent :=
match addressedBy messageType key, m_handlers c !! key with
| Some receiver, Some handler =>
    if negb (hasPermission permissions receiver "communication.receive") then acc
    else
      let response := invoke handler sender data in
      (<[receiver := response]> (fst acc),
       snd acc ++ [handlerCalled key handler sender data;
                   messageReceived receiver sender messageType data response])
| _, _ => acc
end.

Definition broadcastMessage (sender messageType : string) (data : QVariant)
  (c : PluginCommunication) : gmap string QVariant * list BusEvent :=
if negb (comm_initialized c) then (∅, [])
else if negb (hasPermission permissions sender "communication.broadcast") then (∅, [])
else
  foldl (broadcastStep sender messageType data c)
    (∅, [messageBroadcast sender messageType data])
    (qkeys (m_handlers c)).

End Sending.

(** * PluginManager: start-up, queries and commands *)

(** The directories, as [PluginManager::initialize] sees them: whether a
    directory exists and whether [mkpath] can create it, given the
    directories [mkpath] was called on before. *)
Record Directories := mkDirectories {
  dirExists : list string → string → bool;
  mkpath : list string → string → bool
}.

(** [if (!dir.exists()) if (!dir.mkpath(".")) return false;] with the calls of
    [mkpath] made so far. *)
Definition ensureDirectory (dirs : Directories) (made : list string) (dir : string)
  : bool * list string :=
  if dirExists dirs made dir then (true, made)
  else (mkpath dirs made dir, made ++ [dir]).

(** [PluginManager::initialize]; the third component lists the directories
    [mkpath] was called on. *)
Definition initialize (dirs : Directories) (pluginDir metadataDir : string)
    (self : PluginManager) : bool * PluginManager * list string :=
  if m_initialized self then (true, self, [])
  else
    let '(ok1, made1) := ensureDirectory dirs [] pluginDir in
    if negb ok1 then (false, self, made1)
    else
      let '(ok2, made2) := ensureDirectory dirs made1 metadataDir in
      if negb ok2 then (false, self, made2)
      else
        (true,
         mkManager pluginDir metadataDir (m_pluginLoaders self) (m_plugins self)
           (m_pluginMetadata self) (m_pluginStates self) true (comm self)
           (events self),
         made2).

(** [nullptr] is [None]. *)
Definition getPlugin (self : PluginManager) (pluginId : string) : option IPlugin :=
  if negb (m_initialized self) then None else m_plugins self !! pluginId.

Definition getLoadedPlugins (self : PluginManager) : gmap string IPlugin :=
  if negb (m_initialized self) then ∅ else m_plugins self.

(** The loop of [getActivePlugins] over [m_plugins]. *)
Definition getActivePlugins (self : PluginManager) : gmap string IPlugin :=
  if negb (m_initialized self) then ∅
  else
    foldl (λ activePlugins key,
             match m_plugins self !! key with
             | Some plugin =>
                 if bool_decide (stateOf self key = Active)
                 then <[key := plugin]> activePlugins else activePlugins
             | None => activePlugins
             end)
      ∅ (qkeys (m_plugins self)).

Definition getPluginState (self : PluginManager) (pluginId : string) : PluginState :=
  if negb (m_initialized self) then NotLoaded else stateOf self pluginId.

Definition getPluginMetadata (self : PluginManager) (pluginId : string) : PluginMetadata :=
  if negb (m_initialized self) then emptyMetadata
  else default emptyMetadata (m_pluginMetadata self !! pluginId).

Definition getAvailablePlugins (self : PluginManager) : gmap string PluginMetadata :=
  if negb (m_initialized self) then ∅ else m_pluginMetadata self.

Definition getFrameworkVersion (self : PluginManager) : string := m_frameworkVersion.

(** [plugin->executeCommand(command, params)] returns a value or throws. *)
Inductive CommandOutcome :=
| CommandReturns (result : QVariant)
| CommandThrows (e : Exn).

(** [PluginManager::executePluginCommand]: the result, and the plugin object
    the command was passed to, if any.  The three [catch] clauses only log.
    After the two guards [m_plugins[pluginId]] is there. *)
Definition executePluginCommand
    (executeCommand : IPlugin → string → gmap string QVariant → CommandOutcome)
    (pluginId command : string) (params : gmap string QVariant)
    (self : PluginManager) : QVariant * option IPlugin :=
  if negb (m_initialized self) then (VInvalid, None)
  else if negb (isPluginLoaded self pluginId) then (VInvalid, None)
  else if negb (isPluginActive self pluginId) then (VInvalid, None)
  else
    match m_plugins self !! pluginId with
    | None => (VInvalid, None)
    | Some plugin =>
        match executeCommand plugin command params with
        | CommandReturns result => (result, Some plugin)
        | CommandThrows _ => (VInvalid, Some plugin)
        end
    end.

(** * The elementary changes of the manager

    What one assignment of the lifecycle operations does to the manager;
    every operation but [shutdown] is a sequence of them. *)

Inductive Move : PluginManager → PluginManager → Prop :=
| mv_registry self self' : registryGrows self self' → Move self self'
| mv_emit self ev : Move self (emit ev self)
| mv_failed self pluginId : Move self (setState pluginId Failed self)
| mv_loaded self pluginId loader plugin :
    m_plugins self !! pluginId = None →
    Move self (setState pluginId Loaded (setLoaded pluginId loader plugin self))
| mv_initialized self pluginId :
    is_Some (m_plugins self !! pluginId) →
    Move self (setState pluginId Initialized self)
| mv_activated self pluginId :
    is_Some (m_plugins self !! pluginId) →
    Move self (setState pluginId Active self)
| mv_purged self pluginId :
    Move self (setComm (snd (unregisterAllMessageHandlers pluginId (comm self))) self)
| mv_unloaded self pluginId :
    Move self (setState pluginId NotLoaded (removeLoaded pluginId self)).

Definition Moves : PluginManager → PluginManager → Prop := rtc Move.

(** The three tables of the manager agree: a loader is kept for exactly the
    loaded plugins, the state of a loaded plugin is [Loaded], [Initialized],
    [Active] or [Failed], and the state of any other id is [NotLoaded] or
    [Failed]. *)
Definition tablesAgree (self : PluginManager) : Prop :=
  dom (m_pluginLoaders self) = dom (m_plugins self) ∧
  ∀ pluginId,
    (is_Some (m_plugins self !! pluginId) →
     stateOf self pluginId ∈ [Loaded; Initialized; Active; Failed]) ∧
    (m_plugins self !! pluginId = None →
     stateOf self pluginId ∈ [NotLoaded; Failed]).

(** * Sequences of lifecycle calls *)

(** One call of a lifecycle operation of the manager, with the depth allowed
    to its recursion. *)
Inductive Operation :=
| OpLoad (pluginId : string)
| OpInitialize (fuel : nat) (pluginId : string)
| OpActivate (fuel : nat) (pluginId : string)
| OpDeactivate (fuel : nat) (pluginId : string)
| OpUnload (fuel : nat) (pluginId : string).

(** The manager after the call, when the call comes back. *)
Definition perform (env : Env) (op : Operation) (self : PluginManager)
  : option PluginManager :=
  match op with
  | OpLoad pluginId => Some (snd (loadPlugin env pluginId self))
  | OpInitialize fuel pluginId => snd <$> initializePlugin env fuel pluginId self
  | OpActivate fuel pluginId => snd <$> activatePlugin env fuel pluginId self
  | OpDeactivate fuel pluginId => snd <$> deactivatePlugin env fuel pluginId self
  | OpUnload fuel pluginId => snd <$> unloadPlugin env fuel pluginId self
  end.

Fixpoint performAll (env : Env) (ops : list Operation) (self : PluginManager)
  : option PluginManager :=
  match ops with
  | [] => Some self
  | op :: rest =>
      match perform env op self with
      | Some self1 => performAll env rest self1
      | None => None
      end
  end.

(** An installation where ["B"] depends on ["A"]; both are loaded and
    active. *)
Definition pairEnv : Env :=
  installation [("A", descriptor "A" [] "1.0.0"); ("B", descriptor "B" ["A"] "1.0.0")]
    ["A"; "B"] allSucceed true.

Definition pairActive : PluginManager :=
  default startedManager
    (performAll pairEnv [OpLoad "B"; OpActivate 3 "B"] startedManager).

(** The manager after the shutdown hook of [X] has answered [true], or was
    not called. *)
Definition afterShutdownHook (X : string) (s1 s2 : PluginManager) : Prop :=
  (stateOf s1 X ≠ Initialized ∧ s2 = s1) ∨
  (stateOf s1 X = Initialized ∧
   s2 = emit (EvHook X HShutdown (m_pluginStates s1) (Returns true)) s1).

Definition purged (X : string) (s2 : PluginManager) : PluginManager :=
  emit (EvPurge X) (setComm (snd (unregisterAllMessageHandlers X (comm s2))) s2).


Definition pairUnloaded : PluginManager :=
  default pairActive (performAll pairEnv [OpUnload 3 "B"] pairActive).

(** Every hook recorded in [l] is a hook of [X]. *)
Definition hooksOf (X : string) (l : list Event) : Prop :=
  Forall (λ e, match e with EvHook Y _ _ _ => Y = X | _ => True end) l.

(** [e] belongs to the release of [A] by [unloadPlugin]: its shutdown hook
    or the purge of its message handlers. *)
Definition releaseOf (A : string) (e : Event) : Prop :=
  e = EvPurge A ∨ ∃ snap out, e = EvHook A HShutdown snap out.

(** The pair with a message handler of ["A"], and the manager [shutdown]
    leaves. *)
Definition pairHandled : PluginManager := withHandler pairActive.

Definition pairShutdown : PluginManager :=
  match shutdown pairEnv 3 pairHandled with
  | Some (_, self) => self
  | None => pairHandled
  end.

(** Whenever a deactivate hook is recorded between [self] and [self'], the
    hook's plugin is [Active] on the state table the hook sees, and no loaded
    plugin that declares it as a dependency is: each was inactive already, or
    its own deactivate hook has answered [true] earlier in the record. *)
Definition dependentsSettledAtHook (self self' : PluginManager) : Prop :=
  ∀ i X snap out,
    newEvents self self' !! i = Some (EvHook X HDeactivate snap out) →
    stateIn snap X = Active ∧
    ∀ W, W ≠ X → is_Some (m_plugins self !! W) → X ∈ dependenciesOf self W →
         stateIn snap W ≠ Active ∧
         (stateOf self W ≠ Active ∨
          ∃ j snap', j < i ∧
            newEvents self self' !! j = Some (EvHook W HDeactivate snap' (Returns true))).

Definition pairSettled : PluginManager :=
  default pairActive (performAll pairEnv [OpDeactivate 3 "A"] pairActive).

(** ** Vocabulary of initialization *)

(** [pluginId] is [Initialized] or [Active] in the state table [states]. *)
Definition readyIn (states : gmap string PluginState) (pluginId : string) : Prop :=
  stateIn states pluginId = Initialized ∨ stateIn states pluginId = Active.

(** Between [self] and [self'] a loaded plugin that was ready stays ready,
    and a plugin becomes ready only with a [pluginInitialized] signal. *)
Definition readies (self self' : PluginManager) : Prop :=
  (∀ k, is_Some (m_plugins self !! k) → readyIn (m_pluginStates self) k →
        readyIn (m_pluginStates self') k) ∧
  (∀ k, readyIn (m_pluginStates self') k →
        readyIn (m_pluginStates self) k ∨
        EvSignal (pluginInitialized k) ∈ newEvents self self').

(** Whenever an initialize hook is recorded between [self] and [self'], every
    dependency declared by the metadata of the hook's plugin is [Initialized]
    or [Active] on the state table the hook sees; it was so before, or its
    [pluginInitialized] signal is earlier in the record. *)
Definition dependenciesReadyAtHook (self self' : PluginManager) : Prop :=
  ∀ i X snap out,
    newEvents self self' !! i = Some (EvHook X HInitialize snap out) →
    ∃ md, m_pluginMetadata self' !! X = Some md ∧
          ∀ A, A ∈ getPluginDependencies md →
               readyIn snap A ∧
               (readyIn (m_pluginStates self) A ∨
                ∃ j, j < i ∧
                     newEvents self self' !! j = Some (EvSignal (pluginInitialized A))).

Definition pairLoaded : PluginManager :=
  default startedManager (performAll pairEnv [OpLoad "B"] startedManager).

Definition pairInitialized : PluginManager :=
  default pairLoaded (performAll pairEnv [OpInitialize 3 "B"] pairLoaded).

(** ** Vocabulary of the dependency order *)

(** [a] declares [b] as a dependency in the registry of [self]. *)
Definition declares (self : PluginManager) (a b : string) : Prop :=
  b ∈ dependenciesOf self a.

(** [b] is [a] or one of its dependencies, direct or not. *)
Definition reaches (self : PluginManager) : string → string → Prop :=
  rtc (declares self).

(** The dependencies of every sorted id have been visited. *)
Definition dependenciesVisited (self : PluginManager)
    (acc : gset string * list string) : Prop :=
  ∀ x d, x ∈ acc.2 → d ∈ dependenciesOf self x → d ∈ acc.1.

(** ** Vocabulary of scanning *)

(** [loadPluginMetadata(pluginId)] answers [true] on [self]. *)
Definition metadataLoads (env : Env) (self : PluginManager) (pluginId : string) : Prop :=
  (loadPluginMetadata env pluginId self).1 = true.

#[global] Instance metadataLoads_dec env self pluginId :
  Decision (metadataLoads env self pluginId).
Proof. unfold metadataLoads. apply _. Defined.

(** The registry of [self] holds, under [pluginId], valid metadata that
    carries this id. *)
Definition registered (self : PluginManager) (pluginId : string) : Prop :=
  ∃ md, m_pluginMetadata self !! pluginId = Some md ∧
        m_isValid md = true ∧ getPluginId md = pluginId.

(** The installation of [soloEnv] with a second descriptor file whose name
    has the same base name. *)
Definition versionedEnv : Env :=
  mkEnv (filePath soloEnv) (fileExists soloEnv) (readFile soloEnv)
    (λ _, ["A.json"; "A.v2.json"]) (fromJson soloEnv) (versionFromString soloEnv)
    (loaderLoad soloEnv) (loaderUnload soloEnv) (hook soloEnv).

Definition versionedScanned : PluginManager :=
  snd (scanForPlugins versionedEnv startedManager).

(** ** Vocabulary of loading *)

(** [pluginId] is registered in [self] with metadata that the framework
    version satisfies. *)
Definition compatibleIn (env : Env) (self : PluginManager) (pluginId : string) : Prop :=
  ∃ md, m_pluginMetadata self !! pluginId = Some md ∧
        isCompatibleWithFramework env md m_frameworkVersion = true.

(** The last signal or loader call recorded by [self]. *)
Definition lastEvent (self : PluginManager) : option Event := last (events self).

(** ** Vocabulary of failed plugins *)

(** [X] is loaded and [Failed] in an initialized manager. *)
Definition failedLoaded (self : PluginManager) (X : string) : Prop :=
  m_initialized self = true ∧ is_Some (m_plugins self !! X) ∧ stateOf self X = Failed.

(** No hook of [X] is recorded in [l]. *)
Definition noHookOf (X : string) (l : list Event) : Prop :=
  Forall (λ e, match e with EvHook Y _ _ _ => Y ≠ X | _ => True end) l.

(** Between [self] and [self'] the plugin object and the state of [X] are
    kept and no hook of [X] is called. *)
Definition spares (X : string) (self self' : PluginManager) : Prop :=
  m_initialized self' = m_initialized self ∧
  m_plugins self' !! X = m_plugins self !! X ∧
  stateOf self' X = stateOf self X ∧
  events self `prefix_of` events self' ∧
  noHookOf X (newEvents self self').

(** The solo plugin with a failing initialize hook, after further calls. *)
Definition throwingRetried : PluginManager :=
  default throwingFailed
    (performAll throwingEnv
       [OpLoad "A"; OpInitialize 2 "A"; OpActivate 2 "A"; OpDeactivate 2 "A"]
       throwingFailed).

(** ** A shutdown hook that throws *)

(** The solo plugin with a shutdown hook that throws. *)
Definition crashingEnv : Env :=
  installation soloDescriptors ["A"]
    (failingAt 0 HShutdown (Throws (StdException "boom"))) true.

Definition crashingInitialized : PluginManager :=
  default startedManager
    (performAll crashingEnv [OpLoad "A"; OpInitialize 1 "A"] startedManager).

Definition crashingShutdown : PluginManager :=
  match shutdown crashingEnv 2 crashingInitialized with
  | Some (_, self) => self
  | None => crashingInitialized
  end.

(** ** What a record holds *)

(** The hook calls recorded in [l], with their answers. *)
Definition hooksCalled (l : list Event) : list (string * Hook * HookOutcome) :=
  omap (λ e, match e with EvHook X h _ out => Some (X, h, out) | _ => None end) l.

(** The signals recorded in [l]. *)
Definition signalsEmitted (l : list Event) : list Signal :=
  omap (λ e, match e with EvSignal sig => Some sig | _ => None end) l.

(** The ids whose message handlers were purged in [l]. *)
Definition purges (l : list Event) : list string :=
  omap (λ e, match e with EvPurge X => Some X | _ => None end) l.

(** The modules [l] tried to release, with the answers of the loader. *)
Definition releases (l : list Event) : list (QPluginLoader * bool) :=
  omap (λ e, match e with EvUnload loader ok => Some (loader, ok) | _ => None end) l.

(** The active chain after [shutdown]. *)
Definition chainShutdown : PluginManager :=
  match shutdown chainEnv 4 chainActive with
  | Some (_, self) => self
  | None => chainActive
  end.

(** Two plugins without dependencies; the shutdown hook of ["B"] throws. *)
Definition independentEnv : Env :=
  installation [("A", descriptor "A" [] "1.0.0"); ("B", descriptor "B" [] "1.0.0")]
    ["A"; "B"] (failingAt 1 HShutdown (Throws (StdException "boom"))) true.

Definition independentActive : PluginManager :=
  default startedManager
    (performAll independentEnv
       [OpLoad "A"; OpActivate 2 "A"; OpLoad "B"; OpActivate 2 "B"] startedManager).

Definition independentShutdown : PluginManager :=
  match shutdown independentEnv 3 independentActive with
  | Some (_, self) => self
  | None => independentActive
  end.

(** * Proofs *)

Section DependencyOrderFacts.
Context (self : PluginManager).

Lemma grows_refl acc : grows acc acc.
Proof.
  exists []. rewrite app_nil_r. split_and!; [done| set_solver | constructor | set_solver].
Qed.

Lemma grows_trans a b c : grows a b → grows b c → grows a c.
Proof.
  intros (n1 & Hl1 & Hv1 & Hnd1 & Hf1) (n2 & Hl2 & Hv2 & Hnd2 & Hf2).
  exists (n1 ++ n2). split_and!.
  - by rewrite Hl2, Hl1, app_assoc.
  - rewrite Hv2, Hv1, list_to_set_app_L. set_solver.
  - apply NoDup_app. split_and!; [done| |done].
    intros x Hx1 Hx2. apply (Hf2 x Hx2). rewrite Hv1. set_solver.
  - intros x [Hx|Hx]%elem_of_app; [by apply Hf1|].
    specialize (Hf2 x Hx). rewrite Hv1 in Hf2. set_solver.
Qed.

Lemma visitUnvisited_grows visit ids :
  (∀ id acc acc', id ∉ acc.1 → visit id acc = Some acc' →
                  grows acc acc' ∧ id ∈ acc'.1) →
  ∀ acc acc', visitUnvisited visit ids acc = Some acc' →
              grows acc acc' ∧ ∀ id, id ∈ ids → id ∈ acc'.1.
Proof.
  intros Hvisit. induction ids as [|id ids IH]; intros acc acc' Hrun; simpl in Hrun.
  - simplify_eq. split; [apply grows_refl | set_solver].
  - destruct (decide (id ∈ acc.1)) as [Hin|Hnin].
    + destruct (IH _ _ Hrun) as [Hg Hall]. split; [done|].
      intros x [->|Hx]%elem_of_cons; [|by apply Hall].
      destruct Hg as (new & _ & -> & _). set_solver.
    + destruct (visit id acc) as [acc1|] eqn:Hv; [|done].
      destruct (Hvisit _ _ _ Hnin Hv) as [Hg1 Hid].
      destruct (IH _ _ Hrun) as [Hg2 Hall]. split; [by eapply grows_trans|].
      intros x [->|Hx]%elem_of_cons; [|by apply Hall].
      destruct Hg2 as (new & _ & -> & _). set_solver.
Qed.

Lemma buildDependencyGraph_grows fuel :
  ∀ id acc acc', id ∉ acc.1 → buildDependencyGraph self fuel id acc = Some acc' →
                 grows acc acc' ∧ id ∈ acc'.1.
Proof.
  induction fuel as [|n IH]; intros id [v l] acc' Hnin Hrun; [done|].
  simpl in Hrun.
  assert (∃ v1 l1, grows ({[id]} ∪ v, l) (v1, l1) ∧ acc' = (v1, l1 ++ [id]))
    as (v1 & l1 & (new & Hl & Hv & Hnd & Hfresh) & ->).
  { destruct (m_pluginMetadata self !! id) as [md|].
    - destruct (visitUnvisited _ _ _) as [[v1 l1]|] eqn:Hloop; [|done].
      simplify_eq. exists v1, l1. split; [|done].
      by apply (visitUnvisited_grows _ _ IH) in Hloop as [? _].
    - simplify_eq. eexists _, _. split; [apply grows_refl|done]. }
  simpl in *. subst. split; [|set_solver].
  exists (new ++ [id]). simpl. split_and!.
  - by rewrite app_assoc.
  - rewrite list_to_set_app_L. set_solver.
  - apply NoDup_app. split_and!; [done| |apply NoDup_singleton].
    intros x Hx ->%list_elem_of_singleton. specialize (Hfresh _ Hx). set_solver.
  - intros x [Hx| ->%list_elem_of_singleton]%elem_of_app; [|done].
    specialize (Hfresh _ Hx). set_solver.
Qed.

(** *** Termination: a visit marks a fresh id of a finite universe *)

Lemma idUniverse_ids ids id : id ∈ ids → id ∈ idUniverse self ids.
Proof. unfold idUniverse. set_solver. Qed.

Lemma idUniverse_closed ids id d :
  d ∈ dependenciesOf self id → d ∈ idUniverse self ids.
Proof.
  unfold dependenciesOf, idUniverse. intros Hd.
  destruct (m_pluginMetadata self !! id) as [md|] eqn:Hmd; [|set_solver].
  apply elem_of_union_r, elem_of_union_list.
  exists (list_to_set (getPluginDependencies md)). split; [|set_solver].
  apply list_elem_of_fmap. exists (id, md). split; [done|].
  by apply elem_of_map_to_list.
Qed.

Lemma visitUnvisited_terminates (U : gset string) visit n ids :
  (∀ id acc, id ∈ U → id ∉ acc.1 → size (U ∖ acc.1) ≤ n →
             ∃ acc', visit id acc = Some acc' ∧ grows acc acc') →
  (∀ id, id ∈ ids → id ∈ U) →
  ∀ acc, size (U ∖ acc.1) ≤ n → is_Some (visitUnvisited visit ids acc).
Proof.
  intros Hvisit. induction ids as [|id ids IH]; intros HU acc Hsz; simpl; [done|].
  destruct (decide (id ∈ acc.1)); [apply IH; [set_solver|done]|].
  destruct (Hvisit id acc) as (acc' & -> & (new & _ & Hv & _)); [set_solver|done..|].
  apply IH; [set_solver|].
  etrans; [|exact Hsz]. apply subseteq_size. rewrite Hv. set_solver.
Qed.

Lemma buildDependencyGraph_terminates (U : gset string) :
  (∀ id d, d ∈ dependenciesOf self id → d ∈ U) →
  ∀ n id acc, id ∈ U → id ∉ acc.1 → size (U ∖ acc.1) ≤ n →
              is_Some (buildDependencyGraph self n id acc).
Proof.
  intros Hclosed. induction n as [|n IH]; intros id [v l] HidU Hnin Hsz; simpl in *.
  { assert (U ∖ v ≡ ∅) as Hempty by (apply size_empty_iff; lia). set_solver. }
  assert (size (U ∖ ({[id]} ∪ v)) ≤ n) as Hsz'.
  { assert (U ∖ ({[id]} ∪ v) ⊂ U ∖ v) as Hsub%subset_size by set_solver. lia. }
  destruct (m_pluginMetadata self !! id) as [md|] eqn:Hmd; [|done].
  destruct (visitUnvisited_terminates U (buildDependencyGraph self n) n
              (getPluginDependencies md)) with (acc := ({[id]} ∪ v, l))
    as [[v1 l1] ->]; [| |done|done].
  - intros d acc Hd Hdn Hdsz. destruct (IH d acc Hd Hdn Hdsz) as [acc' Hacc'].
    exists acc'. split; [done|]. by eapply buildDependencyGraph_grows.
  - intros d Hd. apply (Hclosed id). unfold dependenciesOf. by rewrite Hmd.
Qed.

(** More fuel does not change a result. *)
Lemma visitUnvisited_ext visit visit' ids :
  (∀ id acc acc', visit id acc = Some acc' → visit' id acc = Some acc') →
  ∀ acc acc', visitUnvisited visit ids acc = Some acc' →
              visitUnvisited visit' ids acc = Some acc'.
Proof.
  intros Hext. induction ids as [|id ids IH]; intros acc acc' Hrun; simpl in *; [done|].
  destruct (decide (id ∈ acc.1)); [by apply IH|].
  destruct (visit id acc) as [acc1|] eqn:Hv; [|done].
  rewrite (Hext _ _ _ Hv). by apply IH.
Qed.

Lemma buildDependencyGraph_fuel_mono n m id acc acc' :
  n ≤ m → buildDependencyGraph self n id acc = Some acc' →
  buildDependencyGraph self m id acc = Some acc'.
Proof.
  revert m id acc acc'. induction n as [|n IH]; intros m id acc acc' Hle Hrun; [done|].
  destruct m as [|m]; [lia|]. simpl in *.
  destruct (m_pluginMetadata self !! id) as [md|]; [|done].
  destruct (visitUnvisited (buildDependencyGraph self n) _ _) as [acc1|] eqn:Hloop;
    [|done].
  rewrite (visitUnvisited_ext _ (buildDependencyGraph self m) _
             (λ d a a', IH m d a a' ltac:(lia)) _ _ Hloop).
  done.
Qed.

Lemma sortPluginsGraph_fuel_mono n m ids acc' :
  n ≤ m → sortPluginsGraph self n ids = Some acc' →
  sortPluginsGraph self m ids = Some acc'.
Proof.
  intros Hle. apply visitUnvisited_ext. intros ???.
  by apply buildDependencyGraph_fuel_mono.
Qed.

(** The fuel that is always enough. *)
Lemma sortPluginsGraph_terminates ids :
  is_Some (sortPluginsGraph self (size (idUniverse self ids)) ids).
Proof.
  apply (visitUnvisited_terminates (idUniverse self ids) _ (size (idUniverse self ids))).
  - intros id acc HU Hnin Hsz.
    destruct (buildDependencyGraph_terminates (idUniverse self ids)
                (idUniverse_closed ids) _ id acc HU Hnin Hsz) as [acc' Hacc'].
    exists acc'. split; [done|]. by eapply buildDependencyGraph_grows.
  - apply idUniverse_ids.
  - apply subseteq_size. set_solver.
Qed.

Lemma sortPluginsGraph_grows fuel ids v l :
  sortPluginsGraph self fuel ids = Some (v, l) →
  NoDup l ∧ v = list_to_set l ∧ ∀ id, id ∈ ids → id ∈ l.
Proof.
  intros Hrun.
  apply (visitUnvisited_grows _ _ (buildDependencyGraph_grows fuel)) in Hrun
    as [(new & Hl & Hv & Hnd & _) Hall].
  simpl in *. subst. split_and!; [done|set_solver|]. intros id Hid.
  specialize (Hall id Hid). set_solver.
Qed.

(** *** Dependencies first, when the registry has no cycle *)

Lemma dependenciesFirst_snoc l id :
  dependenciesFirst self l → (∀ d, d ∈ dependenciesOf self id → d ∈ l) →
  dependenciesFirst self (l ++ [id]).
Proof.
  intros Hl Hdeps i x d Hi Hd.
  destruct (decide (i < length l)) as [Hlt|Hge].
  - rewrite lookup_app_l in Hi by done.
    destruct (Hl i x d Hi Hd) as (j & Hj & Hjd). exists j. split; [done|].
    rewrite lookup_app_l by lia. done.
  - rewrite lookup_app_r in Hi by lia.
    apply list_lookup_singleton_Some in Hi as [Hi ->].
    apply Hdeps, list_elem_of_lookup in Hd as [j Hj]. exists j.
    pose proof (lookup_lt_Some _ _ _ Hj). split; [lia|]. by rewrite lookup_app_l.
Qed.

Section Ranked.
Context (rank : string → nat).
Hypothesis Hrank : ∀ id d, d ∈ dependenciesOf self id → rank d < rank id.

(** [pending] bounds the ids that are visited and not yet appended. *)
Lemma visitUnvisited_dependenciesFirst visit (pending : string → Prop) ids :
  (∀ id acc acc', id ∈ ids → id ∉ acc.1 → visit id acc = Some acc' →
     (∀ x, x ∈ acc.1 → x ∉ acc.2 → rank id < rank x) →
     dependenciesFirst self acc.2 →
     grows acc acc' ∧ id ∈ acc'.2 ∧ dependenciesFirst self acc'.2) →
  (∀ id x, id ∈ ids → pending x → rank id < rank x) →
  ∀ acc acc', visitUnvisited visit ids acc = Some acc' →
    (∀ x, x ∈ acc.1 → x ∉ acc.2 → pending x) →
    dependenciesFirst self acc.2 →
    grows acc acc' ∧ (∀ x, x ∈ acc'.1 → x ∉ acc'.2 → pending x) ∧
    dependenciesFirst self acc'.2 ∧ ∀ id, id ∈ ids → id ∈ acc'.2.
Proof.
  intros Hvisit Hpend. induction ids as [|id ids IH];
    intros acc acc' Hrun Hinv Hfirst; simpl in Hrun.
  { simplify_eq. split_and!; [apply grows_refl|done|done|set_solver]. }
  assert (∀ acc1, grows acc acc1 → id ∈ acc1.2 →
            (∀ x, x ∈ acc1.1 → x ∉ acc1.2 → pending x) →
            dependenciesFirst self acc1.2 →
            visitUnvisited visit ids acc1 = Some acc' →
            grows acc acc' ∧ (∀ x, x ∈ acc'.1 → x ∉ acc'.2 → pending x) ∧
            dependenciesFirst self acc'.2 ∧ ∀ x, x ∈ id :: ids → x ∈ acc'.2)
    as Hrest.
  { intros acc1 Hg1 Hid1 Hinv1 Hfirst1 Hrun1.
    destruct IH with (acc := acc1) (acc' := acc') as (Hg2 & Hinv2 & Hfirst2 & Hall);
      [set_solver|set_solver|done..|].
    split_and!; [by eapply grows_trans|done|done|].
    intros x [->|Hx]%elem_of_cons; [|by apply Hall].
    destruct Hg2 as (new & -> & _). set_solver. }
  destruct (decide (id ∈ acc.1)) as [Hin|Hnin].
  - apply (Hrest acc); [apply grows_refl| |done..].
    destruct (decide (id ∈ acc.2)); [done|].
    pose proof (Hpend id id (list_elem_of_here _ _) (Hinv _ Hin n)). lia.
  - destruct (visit id acc) as [acc1|] eqn:Hv; [|done].
    destruct (Hvisit id acc acc1) as (Hg1 & Hid1 & Hfirst1);
      [set_solver|done|done| |done|].
    { intros x Hx Hxn. apply Hpend; [set_solver|by apply Hinv]. }
    apply (Hrest acc1); [done..| |done|done].
    destruct Hg1 as (new & Hl & Hv1 & _ & _). rewrite Hl, Hv1.
    intros x Hx Hxn. apply Hinv; set_solver.
Qed.

Lemma buildDependencyGraph_dependenciesFirst fuel :
  ∀ id acc acc', id ∉ acc.1 → buildDependencyGraph self fuel id acc = Some acc' →
    (∀ x, x ∈ acc.1 → x ∉ acc.2 → rank id < rank x) →
    dependenciesFirst self acc.2 →
    grows acc acc' ∧ id ∈ acc'.2 ∧ dependenciesFirst self acc'.2.
Proof.
  induction fuel as [|n IH]; intros id [v l] acc' Hnin Hrun Hinv Hfirst; [done|].
  pose proof (buildDependencyGraph_grows _ _ _ _ Hnin Hrun) as [Hg _].
  simpl in *.
  destruct (m_pluginMetadata self !! id) as [md|] eqn:Hmd.
  - destruct (visitUnvisited _ _ _) as [[v1 l1]|] eqn:Hloop; [|done].
    simplify_eq. simpl.
    apply (visitUnvisited_dependenciesFirst _ (λ x, rank id ≤ rank x)) in Hloop
      as (Hg1 & Hinv1 & Hfirst1 & Hall); simpl in *.
    + split_and!; [done|set_solver|]. apply dependenciesFirst_snoc; [done|].
      intros d Hd. apply Hall. unfold dependenciesOf in Hd. by rewrite Hmd in Hd.
    + intros d acc acc1 Hd Hdn Hv Hinv' Hfirst'. by apply IH.
    + intros d x Hd Hx. enough (rank d < rank id) by lia.
      apply Hrank. unfold dependenciesOf. by rewrite Hmd.
    + intros x [->%elem_of_singleton|Hx]%elem_of_union Hxl; [done|].
      specialize (Hinv x Hx Hxl). lia.
    + done.
  - simplify_eq. simpl. split_and!; [done|set_solver|].
    apply dependenciesFirst_snoc; [done|]. intros d Hd.
    unfold dependenciesOf in Hd. rewrite Hmd in Hd. set_solver.
Qed.

Lemma sortPluginsGraph_dependenciesFirst fuel ids v l :
  sortPluginsGraph self fuel ids = Some (v, l) → dependenciesFirst self l.
Proof.
  intros Hrun.
  apply (visitUnvisited_dependenciesFirst _ (λ _, False)) in Hrun
    as (_ & _ & Hfirst & _); simpl in *; [done| |done| |].
  - intros id acc acc' _ Hnin Hv Hinv Hfirst.
    by apply (buildDependencyGraph_dependenciesFirst fuel).
  - set_solver.
  - intros i x d Hi. by rewrite lookup_nil in Hi.
Qed.
End Ranked.
End DependencyOrderFacts.

Section ReverseInPlace.
Lemma swapItemsAt_length l i j : length (swapItemsAt l i j) = length l.
Proof.
  unfold swapItemsAt. destruct (l !! i), (l !! j); try done.
  by rewrite !length_insert.
Qed.

Lemma swapItemsAt_lookup l i j n :
  i < length l → j < length l →
  swapItemsAt l i j !! n =
    if decide (n = j) then l !! i else if decide (n = i) then l !! j else l !! n.
Proof.
  intros Hi Hj. unfold swapItemsAt.
  destruct (lookup_lt_is_Some_2 l i Hi) as [x Hx].
  destruct (lookup_lt_is_Some_2 l j Hj) as [y Hy]. rewrite Hx, Hy.
  destruct (decide (n = j)) as [->|Hnj].
  { by rewrite list_lookup_insert_eq by (by rewrite length_insert). }
  rewrite list_lookup_insert_ne by done.
  destruct (decide (n = i)) as [->|Hni].
  { by rewrite list_lookup_insert_eq. }
  by rewrite list_lookup_insert_ne.
Qed.

Lemma swapPrefix_spec l k :
  k ≤ length l / 2 →
  length (swapPrefix l k) = length l ∧
  ∀ i, i < length l →
       swapPrefix l k !! i =
         if decide (i < k ∨ length l - k ≤ i) then l !! (length l - 1 - i) else l !! i.
Proof.
  unfold swapPrefix. induction k as [|k IH]; intros Hk.
  { simpl. split; [done|]. intros i Hi. case_decide; [lia|done]. }
  destruct IH as [Hlen IH]; [lia|].
  rewrite seq_S, foldl_app. simpl. rewrite Hlen.
  assert (2 * S k ≤ length l) as Hk2.
  { pose proof (Nat.div_mod_eq (length l) 2). lia. }
  split; [by rewrite swapItemsAt_length|]. intros i Hi.
  rewrite swapItemsAt_lookup by lia.
  repeat case_decide; subst; rewrite ?IH by lia; repeat case_decide;
    try lia; try done; f_equal; lia.
Qed.

Lemma reverseInPlace_reverse l : reverseInPlace l = reverse l.
Proof.
  destruct (swapPrefix_spec l (length l / 2)) as [Hlen Hlook]; [done|].
  change (reverseInPlace l) with (swapPrefix l (length l / 2)).
  apply list_eq_same_length with (length l);
    [by rewrite length_reverse|done|].
  intros i x y Hi Hx Hy.
  rewrite reverse_lookup in Hy by done.
  rewrite Hlook in Hx by done.
  pose proof (Nat.div_mod_eq (length l) 2).
  pose proof (Nat.mod_upper_bound (length l) 2).
  case_decide.
  - replace (length l - S i) with (length l - 1 - i) in Hy by lia. congruence.
  - replace (length l - S i) with i in Hy by lia. congruence.
Qed.
End ReverseInPlace.

(** ** Elementary facts about the registry *)

Lemma elem_of_qkeys {V} (m : gmap string V) k : k ∈ qkeys m ↔ is_Some (m !! k).
Proof.
  unfold qkeys. rewrite merge_sort_Permutation, elem_of_elements. apply elem_of_dom.
Qed.

Lemma NoDup_qkeys {V} (m : gmap string V) : NoDup (qkeys m).
Proof. unfold qkeys. rewrite merge_sort_Permutation. apply NoDup_elements. Qed.

Lemma stateOf_setState self X st k :
  stateOf (setState X st self) k = if decide (k = X) then st else stateOf self k.
Proof.
  unfold stateOf, stateIn, setState. simpl.
  destruct (decide (k = X)) as [->|]; [by rewrite lookup_insert_eq|].
  by rewrite lookup_insert_ne.
Qed.

Lemma stateOf_emit self ev k : stateOf (emit ev self) k = stateOf self k.
Proof. done. Qed.

Lemma stateOf_failPlugin self X msg k :
  stateOf (failPlugin X msg self) k = if decide (k = X) then Failed else stateOf self k.
Proof. unfold failPlugin. apply stateOf_setState. Qed.

Lemma isPluginLoaded_true self k :
  isPluginLoaded self k = true ↔ m_initialized self = true ∧ is_Some (m_plugins self !! k).
Proof.
  unfold isPluginLoaded. rewrite andb_true_iff, bool_decide_eq_true. done.
Qed.

Lemma isPluginLoaded_false self k :
  m_initialized self = true →
  isPluginLoaded self k = false ↔ m_plugins self !! k = None.
Proof.
  intros Hinit. unfold isPluginLoaded. rewrite Hinit. simpl.
  rewrite bool_decide_eq_false, <- eq_None_not_Some. done.
Qed.

Lemma needsInitialize_false self k :
  needsInitialize self k = false ↔ stateOf self k = Initialized ∨ stateOf self k = Active.
Proof.
  unfold needsInitialize. rewrite andb_false_iff, !negb_false_iff, !bool_decide_eq_true.
  done.
Qed.

Lemma needsInitialize_true self k :
  needsInitialize self k = true ↔ stateOf self k ≠ Initialized ∧ stateOf self k ≠ Active.
Proof.
  unfold needsInitialize. rewrite andb_true_iff, !negb_true_iff, !bool_decide_eq_false.
  done.
Qed.

Lemma dependenciesOf_Some self k md :
  m_pluginMetadata self !! k = Some md → dependenciesOf self k = getPluginDependencies md.
Proof. unfold dependenciesOf. by intros ->. Qed.

Lemma dependsOn_true md k : dependsOn md k = true ↔ k ∈ getPluginDependencies md.
Proof. unfold dependsOn. apply bool_decide_eq_true. Qed.

(** ** What was recorded between two states *)

Lemma newEvents_refl self : newEvents self self = [].
Proof. unfold newEvents. by rewrite drop_all. Qed.

Lemma newEvents_prefix self self' :
  events self `prefix_of` events self' →
  events self' = events self ++ newEvents self self'.
Proof. unfold newEvents. intros [new ->]. by rewrite drop_app_length. Qed.

Lemma newEvents_app self self' self'' :
  events self `prefix_of` events self' → events self' `prefix_of` events self'' →
  newEvents self self'' = newEvents self self' ++ newEvents self' self''.
Proof.
  intros [n1 H1] [n2 H2]. unfold newEvents. rewrite H2, H1.
  rewrite (drop_app_length (events self ++ n1)), drop_app_length.
  by rewrite <- app_assoc, drop_app_length.
Qed.

Lemma newEvents_emit self ev : newEvents self (emit ev self) = [ev].
Proof. unfold newEvents, emit. simpl. by rewrite drop_app_length. Qed.

(** ** Every run of an operation is one of its cases *)

Section RunInversion.
Context (env : Env).

Lemma initializeDependencies_run recurse X deps :
  ∀ self r self', initializeDependencies env recurse X deps self = Some (r, self') →
                  InitLoop env recurse X deps self r self'.
Proof.
  induction deps as [|d rest IH]; intros self r self' Hrun; simpl in Hrun.
  { simplify_eq. constructor. }
  destruct (isPluginLoaded self d) eqn:Hloaded.
  - simpl in Hrun. destruct (needsInitialize self d) eqn:Hneeds.
    + destruct (recurse d self) as [[[] self2]|] eqn:Hrec; simplify_eq.
      * eapply il_init; [by left|done|done|by apply IH].
      * eapply il_init_failed; [by left|done|done].
    + eapply il_ready; [by left|done|by apply IH].
  - destruct (loadPlugin env d self) as [[] self1] eqn:Hload; simpl in Hrun.
    + destruct (needsInitialize self1 d) eqn:Hneeds.
      * destruct (recurse d self1) as [[[] self2]|] eqn:Hrec; simplify_eq.
        -- eapply il_init; [by right|done|done|by apply IH].
        -- eapply il_init_failed; [by right|done|done].
      * eapply il_ready; [by right|done|by apply IH].
    + simplify_eq. by eapply il_load_failed.
Qed.

Lemma callHook_Some X h self out self' :
  callHook env X h self = Some (out, self') →
  ∃ plugin, m_plugins self !! X = Some plugin ∧
            out = hook env plugin h (m_pluginStates self) (events self) ∧
            self' = emit (EvHook X h (m_pluginStates self) out) self.
Proof.
  unfold callHook. destruct (m_plugins self !! X) as [plugin|]; [|done].
  intros ?; simplify_eq. by exists plugin.
Qed.

Lemma initializePlugin_run n X self r self' :
  initializePlugin env (S n) X self = Some (r, self') → InitRun env n X self r self'.
Proof.
  simpl. intros Hrun.
  destruct (m_initialized self) eqn:Hinit; simpl in Hrun;
    [|simplify_eq; constructor; by left].
  destruct (isPluginLoaded self X) eqn:Hloaded; simpl in Hrun; cycle 1.
  { simplify_eq. constructor. right. left. by apply isPluginLoaded_false. }
  apply isPluginLoaded_true in Hloaded as [_ Hloaded].
  destruct (needsInitialize self X) eqn:Hneeds; simpl in Hrun; cycle 1.
  { simplify_eq. apply needsInitialize_false in Hneeds. by constructor. }
  apply needsInitialize_true in Hneeds as [Hni Hna].
  case_bool_decide as Hfailed.
  { simplify_eq. constructor. by right; right. }
  assert (initChecks X self) as Hchecks by done.
  destruct (metadataRef X self) as [md self1] eqn:Hmd.
  destruct (initializeDependencies _ _ _ _ _) as [[[] self2]|] eqn:Hloop;
    [|simplify_eq|done].
  - apply initializeDependencies_run in Hloop.
    destruct (callHook env X HInitialize self2) as [[out self3]|] eqn:Hhook; [|done].
    apply callHook_Some in Hhook as (plugin & Hplugin & Hout & ->).
    pose proof (ir_hook env n X self md self1 self2 plugin out
                  Hchecks Hmd Hloop Hplugin Hout) as Hcase.
    destruct out as [[]|e]; simplify_eq; exact Hcase.
  - apply initializeDependencies_run in Hloop. by eapply ir_dependency_failed.
Qed.

Lemma activateDependencies_run recurse deps :
  ∀ self r self', activateDependencies recurse deps self = Some (r, self') →
                  ActivateLoop recurse deps self r self'.
Proof.
  induction deps as [|d rest IH]; intros self r self' Hrun; simpl in Hrun.
  { simplify_eq. constructor. }
  case_bool_decide as Hactive.
  { apply al_skip; [done|by apply IH]. }
  destruct (recurse d self) as [[[] self1]|] eqn:Hrec; simplify_eq.
  - eapply al_activated; [done|done|by apply IH].
  - by eapply al_failed.
Qed.

Lemma activatePlugin_run n X self r self' :
  activatePlugin env (S n) X self = Some (r, self') →
  ActivateRun env n X self r self'.
Proof.
  simpl. intros Hrun.
  destruct (m_initialized self) eqn:Hinit; simpl in Hrun;
    [|simplify_eq; constructor; by left].
  destruct (isPluginLoaded self X) eqn:Hloaded; simpl in Hrun; cycle 1.
  { simplify_eq. constructor. right. left. by apply isPluginLoaded_false. }
  apply isPluginLoaded_true in Hloaded as [_ Hloaded].
  case_bool_decide as Hactive; [simplify_eq; by constructor|].
  case_bool_decide as Hfailed; [simplify_eq; constructor; by right; right|].
  assert (activateChecks X self) as Hchecks by done.
  assert (∃ o, o = (if bool_decide (stateOf self X = Initialized)
                    then Some (true, self) else initializePlugin env n X self))
    as [o Ho] by eauto.
  rewrite <- Ho in Hrun. destruct o as [[[] self1]|]; [|simplify_eq|done].
  - assert (ensureInitialized env n X self self1) as Hensure.
    { case_bool_decide; simplify_eq; [by left|by right]. }
    destruct (metadataRef X self1) as [md self2] eqn:Hmd.
    destruct (activateDependencies _ _ _) as [[[] self3]|] eqn:Hloop;
      [|simplify_eq|done].
    + apply activateDependencies_run in Hloop.
      destruct (callHook env X HActivate self3) as [[out self4]|] eqn:Hhook; [|done].
      apply callHook_Some in Hhook as (plugin & Hplugin & Hout & ->).
      pose proof (ar_hook env n X self self1 md self2 self3 plugin out
                    Hchecks Hensure Hmd Hloop Hplugin Hout) as Hcase.
      destruct out as [[]|e]; simplify_eq; exact Hcase.
    + apply activateDependencies_run in Hloop. by eapply ar_dependency_failed.
  - case_bool_decide; simplify_eq. by eapply ar_initialize_failed.
Qed.
End RunInversion.

(** ** Load, initialize and activate only ever add to the manager *)

Section Advances.
Context (env : Env).

Lemma advances_refl Q self : advances Q self self.
Proof.
  split; try done.
  - rewrite newEvents_refl. constructor.
  - intros k Hk. by left.
Qed.

Lemma advances_weaken (Q Q' : Event → Prop) self self' :
  (∀ e, Q e → Q' e) → advances Q self self' → advances Q' self self'.
Proof.
  intros HQ []. split; try done. eapply Forall_impl; [done|]. exact HQ.
Qed.

Lemma advances_trans Q s1 s2 s3 :
  advances Q s1 s2 → advances Q s2 s3 → advances Q s1 s3.
Proof.
  intros H12 H23. split.
  - by rewrite (adv_initialized _ _ _ H23), (adv_initialized _ _ _ H12).
  - by rewrite (adv_pluginDir _ _ _ H23), (adv_pluginDir _ _ _ H12).
  - by rewrite (adv_metadataDir _ _ _ H23), (adv_metadataDir _ _ _ H12).
  - by rewrite (adv_comm _ _ _ H23), (adv_comm _ _ _ H12).
  - intros k p Hk. by eapply adv_plugins, adv_plugins.
  - intros k md Hk. by eapply adv_metadata, adv_metadata.
  - etrans; eapply adv_events; done.
  - rewrite (newEvents_app s1 s2 s3) by (eapply adv_events; done).
    apply Forall_app. split; eapply adv_recorded; done.
  - intros k [p Hp] Hk. eapply adv_active; [done| |by eapply adv_active].
    exists p. by eapply adv_plugins.
  - intros Hal. by eapply adv_activeLoaded, adv_activeLoaded.
  - intros k Hk.
    rewrite (newEvents_app s1 s2 s3) by (eapply adv_events; done).
    destruct (adv_activated _ _ _ H23 k Hk) as [Hk2|[[snap Hsnap] Hsig]].
    + destruct (adv_activated _ _ _ H12 k Hk2) as [?|[[snap Hsnap] Hsig]];
        [by left|]. right. split; [exists snap|]; set_solver.
    + right. split; [exists snap|]; set_solver.
Qed.

Lemma advances_then_emit Q s s2 ev :
  advances Q s s2 → Q ev → advances Q s (emit ev s2).
Proof.
  intros H HQ. eapply advances_trans; [done|]. split; try done.
  - by apply prefix_app_r.
  - rewrite newEvents_emit. by repeat constructor.
  - intros k Hk. by left.
Qed.

Lemma advances_then_setMetadata Q s s2 X md :
  advances Q s s2 → m_pluginMetadata s2 !! X = None →
  advances Q s (setMetadata X md s2).
Proof.
  intros H Hnone. eapply advances_trans; [done|]. split; try done.
  - intros k md' Hk. simpl. rewrite lookup_insert_ne; [done|congruence].
  - unfold newEvents. simpl. rewrite drop_all. constructor.
  - intros k Hk. by left.
Qed.

Lemma advances_then_setState Q s s2 X st :
  advances Q s s2 →
  (is_Some (m_plugins s !! X) → stateOf s X ≠ Active) → st ≠ Active →
  advances Q s (setState X st s2).
Proof.
  intros H HX Hst. split; try apply H.
  - intros k Hk Hactive. rewrite stateOf_setState.
    case_decide as Heq; [subst; by destruct (HX Hk)|]. by eapply adv_active.
  - intros Hal k. rewrite stateOf_setState. case_decide; [done|].
    by apply (adv_activeLoaded _ _ _ H Hal).
  - intros k. rewrite stateOf_setState. case_decide; [done|].
    apply (adv_activated _ _ _ H).
Qed.

Lemma advances_then_failPlugin Q s s2 X msg :
  advances Q s s2 →
  (is_Some (m_plugins s !! X) → stateOf s X ≠ Active) →
  Q (EvSignal (pluginFailed X msg)) →
  advances Q s (failPlugin X msg s2).
Proof.
  intros H HX HQ. unfold failPlugin.
  apply advances_then_emit; [|done]. by apply advances_then_setState.
Qed.

Lemma advances_then_setLoaded Q s s2 X loader plugin :
  advances Q s s2 → m_plugins s2 !! X = None →
  advances Q s (setLoaded X loader plugin s2).
Proof.
  intros H Hnone. eapply advances_trans; [done|]. split; try done.
  - intros k p Hk. simpl. rewrite lookup_insert_ne; [done|congruence].
  - unfold newEvents. simpl. rewrite drop_all. constructor.
  - intros Hal k Hk. simpl. destruct (decide (X = k)) as [->|].
    + rewrite lookup_insert_eq. by eexists.
    + rewrite lookup_insert_ne by done. by apply Hal.
  - intros k Hk. by left.
Qed.

Lemma advances_then_activated Q s s2 X snap :
  advances Q s s2 → is_Some (m_plugins s2 !! X) →
  Q (EvHook X HActivate snap (Returns true)) → Q (EvSignal (pluginActivated X)) →
  advances Q s
    (emit (EvSignal (pluginActivated X))
       (setState X Active (emit (EvHook X HActivate snap (Returns true)) s2))).
Proof.
  intros H HX Hq1 Hq2.
  assert (newEvents s (emit (EvSignal (pluginActivated X))
            (setState X Active (emit (EvHook X HActivate snap (Returns true)) s2)))
          = newEvents s s2 ++ [EvHook X HActivate snap (Returns true);
                               EvSignal (pluginActivated X)]) as Hnew.
  { unfold newEvents. simpl. destruct (adv_events _ _ _ H) as [new ->].
    by rewrite <- !app_assoc, !drop_app_length. }
  split; try apply H.
  - simpl. etrans; [apply (adv_events _ _ _ H)|]. rewrite <- app_assoc.
    by apply prefix_app_r.
  - rewrite Hnew. apply Forall_app. split; [apply H|]. by repeat constructor.
  - intros k Hk Hactive. rewrite stateOf_emit, stateOf_setState, stateOf_emit.
    case_decide; [done|]. by eapply adv_active.
  - intros Hal k. rewrite stateOf_emit, stateOf_setState, stateOf_emit.
    case_decide; [by subst|]. by apply (adv_activeLoaded _ _ _ H Hal).
  - intros k. rewrite stateOf_emit, stateOf_setState, stateOf_emit, Hnew.
    case_decide as Heq.
    + subst. intros _. right. split; [exists snap|]; set_solver.
    + intros Hk. destruct (adv_activated _ _ _ H k Hk) as [?|[[sn Hsn] Hsig]];
        [by left|]. right. split; [exists sn|]; set_solver.
Qed.

(** *** The metadata loaders *)

Lemma registryGrows_refl s : registryGrows s s.
Proof. by split. Qed.

Lemma registryGrows_trans s1 s2 s3 :
  registryGrows s1 s2 → registryGrows s2 s3 → registryGrows s1 s3.
Proof.
  intros [] []. split; try congruence. eauto.
Qed.

Lemma registryGrows_setMetadata s X md :
  m_pluginMetadata s !! X = None → registryGrows s (setMetadata X md s).
Proof.
  intros Hnone. split; try done. intros k md' Hk. simpl.
  rewrite lookup_insert_ne; [done|congruence].
Qed.

Lemma registryGrows_stateOf s s' k : registryGrows s s' → stateOf s' k = stateOf s k.
Proof. intros []. unfold stateOf. congruence. Qed.

Lemma registryGrows_newEvents s0 s s' :
  registryGrows s s' → newEvents s0 s' = newEvents s0 s.
Proof. intros []. unfold newEvents. congruence. Qed.

Lemma registryGrows_advances Q s s' : registryGrows s s' → advances Q s s'.
Proof.
  intros H. split; try apply H.
  - intros k p. by rewrite (rg_plugins _ _ H).
  - by rewrite (rg_events _ _ H).
  - rewrite (registryGrows_newEvents s s s' H), newEvents_refl. constructor.
  - intros k _. by rewrite (registryGrows_stateOf _ _ _ H).
  - intros Hal k. rewrite (registryGrows_stateOf _ _ _ H), (rg_plugins _ _ H).
    apply Hal.
  - intros k. rewrite (registryGrows_stateOf _ _ _ H). by left.
Qed.

Lemma metadataRef_grows X s md s' : metadataRef X s = (md, s') → registryGrows s s'.
Proof.
  unfold metadataRef.
  destruct (m_pluginMetadata s !! X) eqn:Hmd; intros ?; simplify_eq.
  - apply registryGrows_refl.
  - by apply registryGrows_setMetadata.
Qed.

Lemma metadataRef_Some s X md0 md s' :
  m_pluginMetadata s !! X = Some md0 → metadataRef X s = (md, s') → md = md0 ∧ s' = s.
Proof. unfold metadataRef. intros ->. by intros ?; simplify_eq. Qed.

Lemma metadataRef_lookup s X md s' :
  metadataRef X s = (md, s') → m_pluginMetadata s' !! X = Some md.
Proof.
  unfold metadataRef. destruct (m_pluginMetadata s !! X) eqn:Hmd;
    intros ?; simplify_eq; [done|]. simpl. by rewrite lookup_insert_eq.
Qed.

Lemma loadPluginMetadata_grows s X ok s' :
  m_pluginMetadata s !! X = None →
  loadPluginMetadata env X s = (ok, s') → registryGrows s s'.
Proof.
  unfold loadPluginMetadata. intros Hnone Hrun.
  repeat (case_match; simplify_eq; try apply registryGrows_refl).
  by apply registryGrows_setMetadata.
Qed.

Lemma ensureMetadata_grows s X ok s' :
  ensureMetadata env X s = (ok, s') → registryGrows s s'.
Proof.
  unfold ensureMetadata.
  destruct (m_pluginMetadata s !! X) eqn:Hmd; intros Hrun; simplify_eq.
  - apply registryGrows_refl.
  - by eapply loadPluginMetadata_grows.
Qed.

Lemma checkDependencies_grows deps :
  ∀ s ok s', checkDependencies env deps s = (ok, s') → registryGrows s s'.
Proof.
  induction deps as [|d rest IH]; intros s ok s' Hrun; simpl in Hrun.
  { simplify_eq. apply registryGrows_refl. }
  change (match m_pluginMetadata s !! d with
          | Some _ => (true, s)
          | None => loadPluginMetadata env d s
          end) with (ensureMetadata env d s) in Hrun.
  destruct (ensureMetadata env d s) as [ok1 s1] eqn:Hens.
  pose proof (ensureMetadata_grows _ _ _ _ Hens) as H1.
  destruct ok1; simpl in Hrun; [|by simplify_eq].
  destruct (metadataRef d s1) as [md s2] eqn:Hmd.
  pose proof (registryGrows_trans _ _ _ H1 (metadataRef_grows _ _ _ _ Hmd)) as H2.
  destruct (isCompatibleWithFramework env md m_frameworkVersion); simpl in Hrun;
    [|by simplify_eq].
  eapply registryGrows_trans; [done|]. by eapply IH.
Qed.

Lemma checkPluginDependencies_grows s X ok s' :
  checkPluginDependencies env X s = (ok, s') → registryGrows s s'.
Proof.
  unfold checkPluginDependencies.
  destruct (m_pluginMetadata s !! X); intros Hrun.
  - by eapply checkDependencies_grows.
  - simplify_eq. apply registryGrows_refl.
Qed.

(** *** [loadPlugin] *)

Lemma loadPlugin_advances X s r s' :
  loadPlugin env X s = (r, s') → advances notHook s s'.
Proof.
  unfold loadPlugin. intros Hrun.
  destruct (m_initialized s) eqn:Hinit; simpl in Hrun;
    [|simplify_eq; apply advances_refl].
  destruct (isPluginLoaded s X) eqn:Hloaded; [simplify_eq; apply advances_refl|].
  apply isPluginLoaded_false in Hloaded; [|done].
  assert (is_Some (m_plugins s !! X) → stateOf s X ≠ Active) as HX.
  { rewrite Hloaded. by intros [? ?]. }
  change (match m_pluginMetadata s !! X with
          | Some _ => (true, s)
          | None => loadPluginMetadata env X s
          end) with (ensureMetadata env X s) in Hrun.
  destruct (ensureMetadata env X s) as [ok1 s1] eqn:Hens.
  pose proof (ensureMetadata_grows _ _ _ _ Hens) as H1.
  destruct ok1; simpl in Hrun;
    [|simplify_eq; by apply registryGrows_advances].
  destruct (metadataRef X s1) as [md s2] eqn:Hmd.
  pose proof (registryGrows_trans _ _ _ H1 (metadataRef_grows _ _ _ _ Hmd)) as H2.
  pose proof (registryGrows_advances notHook _ _ H2) as A2.
  destruct (isCompatibleWithFramework env md m_frameworkVersion); simpl in Hrun;
    [|simplify_eq; by apply advances_then_failPlugin].
  destruct (checkPluginDependencies env X s2) as [ok3 s3] eqn:Hchk.
  pose proof (registryGrows_trans _ _ _ H2
                (checkPluginDependencies_grows _ _ _ _ Hchk)) as H3.
  pose proof (registryGrows_advances notHook _ _ H3) as A3.
  destruct ok3; simpl in Hrun; [|simplify_eq; by apply advances_then_failPlugin].
  destruct (fileExists env _); simpl in Hrun;
    [|simplify_eq; by apply advances_then_failPlugin].
  destruct (loaderLoad env _ _) eqn:Hload; simplify_eq.
  - apply advances_then_failPlugin; [|done..]. by apply advances_then_emit.
  - apply advances_then_failPlugin; [|done..].
    by repeat (apply advances_then_emit; [|done]).
  - apply advances_then_failPlugin; [|done..].
    by repeat (apply advances_then_emit; [|done]).
  - apply advances_then_emit; [|done]. apply advances_then_setState; [|done..].
    apply advances_then_setLoaded; [by apply advances_then_emit|].
    simpl. by rewrite (rg_plugins _ _ H3).
Qed.
End Advances.

Section AdvancesRuns.
Context (env : Env).

Lemma newEvents_then_emit s s2 ev :
  events s `prefix_of` events s2 →
  newEvents s (emit ev s2) = newEvents s s2 ++ [ev].
Proof.
  intros Hpre. rewrite (newEvents_app s s2 (emit ev s2)), newEvents_emit; [done..|].
  by apply prefix_app_r.
Qed.

Lemma ensureLoaded_advances d s s1 :
  ensureLoaded env d s s1 → advances notHook s s1.
Proof.
  intros [[_ ->]|[_ Hload]]; [apply advances_refl|by eapply loadPlugin_advances].
Qed.

Lemma notHook_notActivateHook e : notHook e → notActivateHook e.
Proof. by destruct e. Qed.

Lemma InitLoop_advances recurse X deps s r s' :
  (∀ d s r s', recurse d s = Some (r, s') → advances notActivateHook s s') →
  InitLoop env recurse X deps s r s' →
  ∀ s0, (is_Some (m_plugins s0 !! X) → stateOf s0 X ≠ Active) →
        advances notActivateHook s0 s → advances notActivateHook s0 s'.
Proof.
  intros Hrec. induction 1 as
    [s|d rest s s1 Hnl Hload|d rest s s1 r s' Hens Hneeds Hloop IH
    |d rest s s1 s2 Hens Hneeds Hcall|d rest s s1 s2 r s' Hens Hneeds Hcall Hloop IH];
    intros s0 HX H0.
  - done.
  - apply advances_then_failPlugin; [|done..].
    eapply advances_trans; [done|].
    eapply advances_weaken; [apply notHook_notActivateHook|].
    by eapply loadPlugin_advances.
  - apply IH; [done|]. eapply advances_trans; [done|].
    eapply advances_weaken; [apply notHook_notActivateHook|].
    by eapply ensureLoaded_advances.
  - apply advances_then_failPlugin; [|done..].
    eapply advances_trans; [|by eapply Hrec].
    eapply advances_trans; [done|].
    eapply advances_weaken; [apply notHook_notActivateHook|].
    by eapply ensureLoaded_advances.
  - apply IH; [done|].
    eapply advances_trans; [|by eapply Hrec].
    eapply advances_trans; [done|].
    eapply advances_weaken; [apply notHook_notActivateHook|].
    by eapply ensureLoaded_advances.
Qed.

Lemma initializePlugin_advances n :
  ∀ X s r s', initializePlugin env n X s = Some (r, s') →
              advances notActivateHook s s'.
Proof.
  induction n as [|n IH]; intros X s r s' Hrun; [done|].
  apply initializePlugin_run in Hrun.
  destruct Hrun as [?|? ? ?|md s1 s2 Hchecks Hmd Hloop
                   |md s1 s2 plugin out Hchecks Hmd Hloop Hplugin Hout];
    try apply advances_refl.
  - destruct Hchecks as (_ & _ & _ & Hna & _).
    eapply InitLoop_advances; [exact IH|done|done|].
    apply registryGrows_advances. by eapply metadataRef_grows.
  - destruct Hchecks as (_ & _ & _ & Hna & _).
    assert (advances notActivateHook s s2) as H2.
    { eapply InitLoop_advances; [exact IH|done|done|].
      apply registryGrows_advances. by eapply metadataRef_grows. }
    unfold finishInitialize. cbv zeta. case_bool_decide.
    + apply advances_then_emit; [|done].
      apply advances_then_setState; [|done..]. by apply advances_then_emit.
    + apply advances_then_failPlugin; [|done..]. by apply advances_then_emit.
Qed.

Lemma ActivateLoop_advances recurse deps s r s' :
  (∀ d s r s', recurse d s = Some (r, s') → advances anyEvent s s') →
  ActivateLoop recurse deps s r s' → advances anyEvent s s'.
Proof.
  intros Hrec. induction 1 as
    [s|d rest s r s' Hactive Hloop IH|d rest s s1 Hna Hcall
    |d rest s s1 r s' Hna Hcall Hloop IH].
  - apply advances_refl.
  - done.
  - by eapply Hrec.
  - eapply advances_trans; [by eapply Hrec|done].
Qed.

Lemma ensureInitialized_advances n X s s1 :
  ensureInitialized env n X s s1 → advances notActivateHook s s1.
Proof.
  intros [[_ ->]|[_ Hinit]]; [apply advances_refl|].
  by eapply initializePlugin_advances.
Qed.

Lemma activatePlugin_advances n :
  ∀ X s r s', activatePlugin env n X s = Some (r, s') → advances anyEvent s s'.
Proof.
  induction n as [|n IH]; intros X s r s' Hrun; [done|].
  apply activatePlugin_run in Hrun.
  destruct Hrun as [?|? ? ?|s1 Hchecks Hni Hinit
                   |s1 md s2 s3 Hchecks Hens Hmd Hloop
                   |s1 md s2 s3 plugin out Hchecks Hens Hmd Hloop Hplugin Hout];
    try apply advances_refl.
  - eapply advances_weaken; [|by eapply initializePlugin_advances]. done.
  - eapply advances_trans.
    { eapply advances_weaken; [|by eapply ensureInitialized_advances]. done. }
    eapply advances_trans.
    { apply registryGrows_advances. by eapply metadataRef_grows. }
    by eapply ActivateLoop_advances.
  - assert (advances anyEvent s s3) as H3.
    { eapply advances_trans.
      { eapply advances_weaken; [|by eapply ensureInitialized_advances]. done. }
      eapply advances_trans.
      { apply registryGrows_advances. by eapply metadataRef_grows. }
      by eapply ActivateLoop_advances. }
    destruct Hchecks as (_ & _ & Hna & _).
    unfold finishActivate. cbv zeta. case_bool_decide as Hok.
    + rewrite Hok. apply advances_then_activated; [done| |done..]. by eexists.
    + apply advances_then_failPlugin; [|done..]. by apply advances_then_emit.
Qed.
End AdvancesRuns.

(** ** Dependencies are active when the activate hook is called *)

Section HookTime.
Context (env : Env).

Lemma activatePlugin_success n X s r s' :
  activatePlugin env n X s = Some (r, s') → r = true →
  stateOf s' X = Active ∧ is_Some (m_plugins s' !! X) ∧ m_initialized s' = true.
Proof.
  destruct n as [|n]; [done|]. intros Hrun.
  pose proof (activatePlugin_advances _ _ _ _ _ _ Hrun) as Hadv.
  apply activatePlugin_run in Hrun.
  destruct Hrun as [?|? ? ?|s1 Hchecks Hni Hinit
                   |s1 md s2 s3 Hchecks Hens Hmd Hloop
                   |s1 md s2 s3 plugin out Hchecks Hens Hmd Hloop Hplugin Hout];
    intros Hr; try done.
  destruct Hchecks as (Hinit & Hloaded & _). split_and!.
  - unfold finishActivate. cbv zeta. rewrite Hr.
    by rewrite stateOf_emit, stateOf_setState, decide_True.
  - destruct Hloaded as [p Hp]. exists p. by eapply adv_plugins.
  - by rewrite (adv_initialized _ _ _ Hadv).
Qed.

Lemma activatePlugin_true n X s s' :
  activatePlugin env n X s = Some (true, s') →
  stateOf s' X = Active ∧ is_Some (m_plugins s' !! X) ∧ m_initialized s' = true.
Proof. intros Hrun. by eapply activatePlugin_success. Qed.

Lemma ActivateLoop_all_active n deps s r s' :
  ActivateLoop (activatePlugin env n) deps s r s' → r = true → activeLoaded s →
  ∀ d, d ∈ deps → stateOf s' d = Active.
Proof.
  induction 1 as
    [s|d rest s r s' Hactive Hloop IH|d rest s s1 Hna Hcall
    |d rest s s1 r s' Hna Hcall Hloop IH]; intros Hr Hal x Hx.
  - by apply elem_of_nil in Hx.
  - apply elem_of_cons in Hx as [->|Hx]; [|by apply IH].
    eapply adv_active; [|by apply Hal|done].
    eapply ActivateLoop_advances; [|done]. apply activatePlugin_advances.
  - done.
  - pose proof (activatePlugin_advances _ _ _ _ _ _ Hcall) as H1.
    apply elem_of_cons in Hx as [->|Hx];
      [|apply IH; [done|by apply (adv_activeLoaded _ _ _ H1)|done]].
    apply activatePlugin_true in Hcall as (Hd & Hld & _).
    eapply adv_active; [|done|done].
    eapply ActivateLoop_advances; [|done]. apply activatePlugin_advances.
Qed.

Lemma finishActivate_shape s s3 X out :
  events s `prefix_of` events s3 →
  ∃ sig, newEvents s (finishActivate X out s3) =
           newEvents s s3 ++ [EvHook X HActivate (m_pluginStates s3) out; EvSignal sig] ∧
         m_pluginMetadata (finishActivate X out s3) = m_pluginMetadata s3.
Proof.
  intros [new Hnew]. unfold finishActivate. cbv zeta.
  case_bool_decide; eexists; (split; [|done]);
    unfold newEvents, failPlugin; simpl; rewrite Hnew, <- !app_assoc;
    by rewrite !drop_app_length.
Qed.

Lemma dependenciesActiveAtHook_quiet s s' :
  Forall notActivateHook (newEvents s s') → dependenciesActiveAtHook s s'.
Proof.
  intros Hq i B snap out Hi.
  by apply (Forall_lookup_1 _ _ _ _ Hq) in Hi.
Qed.

Lemma dependenciesActiveAtHook_trans s s1 s2 :
  advances anyEvent s s1 → advances anyEvent s1 s2 →
  dependenciesActiveAtHook s s1 → dependenciesActiveAtHook s1 s2 →
  dependenciesActiveAtHook s s2.
Proof.
  intros A1 A2 H1 H2 i B snap out.
  rewrite (newEvents_app s s1 s2) by (eapply adv_events; done).
  intros [Hi|[Hlen Hi]]%lookup_app_Some.
  - destruct (H1 _ _ _ _ Hi) as (md & Hmd & Hdeps).
    exists md. split; [by eapply adv_metadata|].
    intros A HA. destruct (Hdeps A HA) as [Hsnap [?|(j & Hj & Hsig)]];
      (split; [done|]); [by left|].
    right. exists j. split; [done|]. by apply lookup_app_l_Some.
  - destruct (H2 _ _ _ _ Hi) as (md & Hmd & Hdeps).
    exists md. split; [done|].
    intros A HA. destruct (Hdeps A HA) as [Hsnap [Hact|(j & Hj & Hsig)]];
      (split; [done|]).
    + destruct (adv_activated _ _ _ A1 A Hact) as [?|[_ Hsig]]; [by left|].
      right. apply list_elem_of_lookup in Hsig as [j Hj]. exists j.
      pose proof (lookup_lt_Some _ _ _ Hj). split; [lia|].
      by apply lookup_app_l_Some.
    + right. exists (length (newEvents s s1) + j). split; [lia|].
      rewrite lookup_app_r by lia.
      by replace (length (newEvents s s1) + j - length (newEvents s s1)) with j by lia.
Qed.

Lemma ActivateLoop_dependenciesActiveAtHook n deps s r s' :
  (∀ X s r s', activatePlugin env n X s = Some (r, s') →
               activeLoaded s → dependenciesActiveAtHook s s') →
  ActivateLoop (activatePlugin env n) deps s r s' → activeLoaded s →
  dependenciesActiveAtHook s s'.
Proof.
  intros IHn. induction 1 as
    [s|d rest s r s' Hactive Hloop IH|d rest s s1 Hna Hcall
    |d rest s s1 r s' Hna Hcall Hloop IH]; intros Hal.
  - apply dependenciesActiveAtHook_quiet. rewrite newEvents_refl. constructor.
  - by apply IH.
  - by eapply IHn.
  - pose proof (activatePlugin_advances _ _ _ _ _ _ Hcall) as H1.
    eapply dependenciesActiveAtHook_trans; [done| |by eapply IHn|].
    + eapply ActivateLoop_advances; [|done]. apply activatePlugin_advances.
    + apply IH. by apply (adv_activeLoaded _ _ _ H1).
Qed.

Lemma activatePlugin_dependenciesActiveAtHook n :
  ∀ X s r s', activatePlugin env n X s = Some (r, s') →
              activeLoaded s → dependenciesActiveAtHook s s'.
Proof.
  induction n as [|n IH]; intros X s r s' Hrun Hal; [done|].
  apply activatePlugin_run in Hrun.
  assert (∀ s1 md s2 s3 r3,
            ensureInitialized env n X s s1 → metadataRef X s1 = (md, s2) →
            ActivateLoop (activatePlugin env n) (getPluginDependencies md) s2 r3 s3 →
            advances anyEvent s s3 ∧ dependenciesActiveAtHook s s3 ∧
            activeLoaded s2 ∧ advances anyEvent s2 s3) as Hbefore.
  { intros s1 md s2 s3 r3 Hens Hmd Hloop.
    pose proof (ensureInitialized_advances _ _ _ _ _ Hens) as H1.
    pose proof (registryGrows_advances notActivateHook _ _
                  (metadataRef_grows _ _ _ _ Hmd)) as H12.
    pose proof (advances_trans _ _ _ _ H1 H12) as H2.
    assert (advances anyEvent s2 s3) as H23.
    { eapply ActivateLoop_advances; [|done]. apply activatePlugin_advances. }
    assert (advances anyEvent s s2) as H2' by (by eapply advances_weaken).
    assert (activeLoaded s2) as Hal2 by (by apply (adv_activeLoaded _ _ _ H2)).
    split_and!; [by eapply advances_trans| |done|done].
    eapply dependenciesActiveAtHook_trans; [done|done| |].
    - apply dependenciesActiveAtHook_quiet. apply H2.
    - by eapply ActivateLoop_dependenciesActiveAtHook. }
  destruct Hrun as [?|? ? ?|s1 Hchecks Hni Hinit
                   |s1 md s2 s3 Hchecks Hens Hmd Hloop
                   |s1 md s2 s3 plugin out Hchecks Hens Hmd Hloop Hplugin Hout].
  - apply dependenciesActiveAtHook_quiet. rewrite newEvents_refl. constructor.
  - apply dependenciesActiveAtHook_quiet. rewrite newEvents_refl. constructor.
  - apply dependenciesActiveAtHook_quiet.
    by eapply adv_recorded, initializePlugin_advances.
  - by eapply Hbefore.
  - destruct (Hbefore _ _ _ _ _ Hens Hmd Hloop) as (H3 & Hok & Hal2 & H23).
    destruct (finishActivate_shape s s3 X out (adv_events _ _ _ H3))
      as (sig & Hnew & Hreg).
    intros i B snap outB. rewrite Hnew, Hreg.
    intros [Hi|[Hlen Hi]]%lookup_app_Some.
    + destruct (Hok _ _ _ _ Hi) as (mdB & HmdB & Hdeps). exists mdB.
      split; [done|]. intros A HA.
      destruct (Hdeps A HA) as [Hsnap [?|(j & Hj & Hsig)]]; (split; [done|]);
        [by left|]. right. exists j. split; [done|]. by apply lookup_app_l_Some.
    + destruct (i - length (newEvents s s3)) as [|[|k]] eqn:Hk; simplify_eq/=.
      exists md. split.
      { eapply adv_metadata; [done|]. by eapply metadataRef_lookup. }
      intros A HA.
      assert (stateOf s3 A = Active) as HA3
        by (by eapply (ActivateLoop_all_active n _ s2 true s3)).
      split; [done|].
      destruct (adv_activated _ _ _ H3 A HA3) as [?|[_ Hsig]]; [by left|].
      right. apply list_elem_of_lookup in Hsig as [j Hj]. exists j.
      pose proof (lookup_lt_Some _ _ _ Hj). split; [lia|].
      by apply lookup_app_l_Some.
Qed.
End HookTime.

(** ** A pending activation is never completed by a nested call *)

Section Pending.
Context (env : Env).

Lemma quiet_no_activateHookOf K l :
  Forall notActivateHook l → Forall (λ e, ¬ activateHookOf K e) l.
Proof. intros H. eapply Forall_impl; [done|].
  intros [| ? [] | | |]; simpl; tauto.
Qed.

Lemma no_activateHookOf_mono K K' l :
  K ⊆ K' → Forall (λ e, ¬ activateHookOf K' e) l →
  Forall (λ e, ¬ activateHookOf K e) l.
Proof.
  intros Hsub H. eapply Forall_impl; [done|].
  intros [| k [] | | |]; simpl; set_solver.
Qed.

Lemma stays_inactive Q K s s' Z :
  advances Q s s' → Forall (λ e, ¬ activateHookOf K e) (newEvents s s') →
  Z ∈ K → stateOf s Z ≠ Active → stateOf s' Z ≠ Active.
Proof.
  intros Hadv Hev HZ Hna Hact.
  destruct (adv_activated _ _ _ Hadv Z Hact) as [?|[[snap Hsnap] _]]; [done|].
  by apply (proj1 (Forall_forall _ _) Hev) in Hsnap.
Qed.

Lemma dependenciesOf_advances Q s s' Z W :
  advances Q s s' → W ∈ dependenciesOf s Z → W ∈ dependenciesOf s' Z.
Proof.
  intros Hadv. unfold dependenciesOf.
  destruct (m_pluginMetadata s !! Z) as [md|] eqn:Hmd; [|by intros ?%elem_of_nil].
  by rewrite (adv_metadata _ _ _ Hadv _ _ Hmd).
Qed.

Lemma blocked_advances Q K s s' :
  blocked K s → advances Q s s' →
  Forall (λ e, ¬ activateHookOf K e) (newEvents s s') → blocked K s'.
Proof.
  intros Hb Hadv Hev Z HZ. destruct (Hb Z HZ) as (Hna & W & HW & Hdep).
  split; [by eapply stays_inactive|]. exists W. split; [done|].
  by eapply dependenciesOf_advances.
Qed.

Lemma supported_advances Q P s s' X :
  supported P s X → advances Q s s' →
  Forall (λ e, ¬ activateHookOf P e) (newEvents s s') → supported P s' X.
Proof.
  intros Hb Hadv Hev Z HZ. destruct (Hb Z HZ) as (Hna & W & HW & Hdep).
  split; [by eapply stays_inactive|]. exists W. split; [done|].
  by eapply dependenciesOf_advances.
Qed.

(** What precedes the dependency loop of [activatePlugin] records no
    activate hook. *)
Lemma before_loop_quiet n X s s1 md s2 :
  ensureInitialized env n X s s1 → metadataRef X s1 = (md, s2) →
  advances notActivateHook s s2.
Proof.
  intros Hens Hmd. eapply advances_trans; [by eapply ensureInitialized_advances|].
  apply registryGrows_advances. by eapply metadataRef_grows.
Qed.

Lemma no_activateHookOf_app (K : gset string) s s1 s2 Q1 Q2 :
  advances Q1 s s1 → advances Q2 s1 s2 →
  Forall (λ e, ¬ activateHookOf K e) (newEvents s s1) →
  Forall (λ e, ¬ activateHookOf K e) (newEvents s1 s2) →
  Forall (λ e, ¬ activateHookOf K e) (newEvents s s2).
Proof.
  intros H1 H2 F1 F2.
  rewrite (newEvents_app s s1 s2) by (eapply adv_events; done).
  by apply Forall_app.
Qed.

Lemma finishActivate_no_activateHookOf (K : gset string) s s3 X out :
  events s `prefix_of` events s3 → X ∉ K →
  Forall (λ e, ¬ activateHookOf K e) (newEvents s s3) →
  Forall (λ e, ¬ activateHookOf K e) (newEvents s (finishActivate X out s3)).
Proof.
  intros Hpre HX Hev.
  destruct (finishActivate_shape s s3 X out Hpre) as (sig & -> & _).
  apply Forall_app. split; [done|]. repeat constructor; simpl; tauto.
Qed.

Section Blocked.
Context (K : gset string).

Lemma ActivateLoop_blocked n deps s r s' :
  (∀ X s r s', activatePlugin env n X s = Some (r, s') → blocked K s →
     Forall (λ e, ¬ activateHookOf K e) (newEvents s s') ∧ (X ∈ K → r = false)) →
  ActivateLoop (activatePlugin env n) deps s r s' → blocked K s →
  Forall (λ e, ¬ activateHookOf K e) (newEvents s s') ∧
  (r = true → ∀ d, d ∈ deps → d ∉ K).
Proof.
  intros IHn. induction 1 as
    [s|d rest s r s' Hactive Hloop IH|d rest s s1 Hna Hcall
    |d rest s s1 r s' Hna Hcall Hloop IH]; intros Hb.
  - rewrite newEvents_refl. split; [constructor|]. by intros _ d ?%elem_of_nil.
  - destruct (IH Hb) as [Hev Hr]. split; [done|].
    intros -> x [->|Hx]%elem_of_cons; [|by apply Hr].
    intros HK. by destruct (Hb _ HK) as [? _].
  - destruct (IHn _ _ _ _ Hcall Hb) as [Hev _]. by split.
  - destruct (IHn _ _ _ _ Hcall Hb) as [Hev HdK].
    pose proof (activatePlugin_advances _ _ _ _ _ _ Hcall) as H1.
    destruct IH as [Hev' Hr]; [by eapply blocked_advances|].
    split.
    + eapply no_activateHookOf_app; [done| |done|done].
      eapply ActivateLoop_advances; [|done]. apply activatePlugin_advances.
    + intros -> x [->|Hx]%elem_of_cons; [|by apply Hr].
      intros HK. by specialize (HdK HK).
Qed.

Lemma activatePlugin_blocked n :
  ∀ X s r s', activatePlugin env n X s = Some (r, s') → blocked K s →
    Forall (λ e, ¬ activateHookOf K e) (newEvents s s') ∧ (X ∈ K → r = false).
Proof.
  induction n as [|n IH]; intros X s r s' Hrun Hb; [done|].
  apply activatePlugin_run in Hrun.
  assert (∀ s1 md s2 s3 r3,
            ensureInitialized env n X s s1 → metadataRef X s1 = (md, s2) →
            ActivateLoop (activatePlugin env n) (getPluginDependencies md) s2 r3 s3 →
            events s `prefix_of` events s3 ∧
            Forall (λ e, ¬ activateHookOf K e) (newEvents s s3) ∧
            (r3 = true → X ∉ K)) as Hbefore.
  { intros s1 md s2 s3 r3 Hens Hmd Hloop.
    pose proof (before_loop_quiet _ _ _ _ _ _ Hens Hmd) as H2.
    assert (blocked K s2) as Hb2.
    { eapply blocked_advances; [done..|]. apply quiet_no_activateHookOf, H2. }
    destruct (ActivateLoop_blocked _ _ _ _ _ IH Hloop Hb2) as [Hev Hr].
    assert (advances anyEvent s2 s3) as H23.
    { eapply ActivateLoop_advances; [|done]. apply activatePlugin_advances. }
    split_and!.
    - etrans; eapply adv_events; done.
    - eapply no_activateHookOf_app; [done..| |done].
      apply quiet_no_activateHookOf, H2.
    - intros -> HK. destruct (Hb X HK) as (_ & W & HW & Hdep).
      apply (Hr eq_refl W); [|done].
      apply (dependenciesOf_advances _ _ _ _ _ H2) in Hdep.
      by rewrite (dependenciesOf_Some _ _ _ (metadataRef_lookup _ _ _ _ Hmd)) in Hdep. }
  destruct Hrun as [?|? ? Hact|s1 Hchecks Hni Hinit
                   |s1 md s2 s3 Hchecks Hens Hmd Hloop
                   |s1 md s2 s3 plugin out Hchecks Hens Hmd Hloop Hplugin Hout].
  - rewrite newEvents_refl. by split; [constructor|].
  - rewrite newEvents_refl. split; [constructor|].
    intros HK. by destruct (Hb X HK) as [? _].
  - split; [|done]. apply quiet_no_activateHookOf.
    by eapply adv_recorded, initializePlugin_advances.
  - split; [|done]. by eapply Hbefore.
  - destruct (Hbefore _ _ _ _ _ Hens Hmd Hloop) as (Hpre & Hev & HX).
    specialize (HX eq_refl). split; [|done].
    by apply finishActivate_no_activateHookOf.
Qed.
End Blocked.

Lemma ActivateLoop_supported (P : gset string) n deps s r s' :
  (∀ X s r s', activatePlugin env n X s = Some (r, s') → supported P s X →
               Forall (λ e, ¬ activateHookOf P e) (newEvents s s')) →
  ActivateLoop (activatePlugin env n) deps s r s' →
  (∀ d, d ∈ deps → supported P s d) →
  Forall (λ e, ¬ activateHookOf P e) (newEvents s s').
Proof.
  intros IHn. induction 1 as
    [s|d rest s r s' Hactive Hloop IH|d rest s s1 Hna Hcall
    |d rest s s1 r s' Hna Hcall Hloop IH]; intros Hsup.
  - rewrite newEvents_refl. constructor.
  - apply IH. intros x Hx. apply Hsup. set_solver.
  - eapply IHn; [done|]. apply Hsup. set_solver.
  - assert (Forall (λ e, ¬ activateHookOf P e) (newEvents s s1)) as Hev.
    { eapply IHn; [done|]. apply Hsup. set_solver. }
    pose proof (activatePlugin_advances _ _ _ _ _ _ Hcall) as H1.
    eapply no_activateHookOf_app; [done| |done|].
    + eapply ActivateLoop_advances; [|done]. apply activatePlugin_advances.
    + apply IH. intros x Hx. eapply supported_advances; [|done..].
      apply Hsup. set_solver.
Qed.

Lemma pending_supported (P : gset string) Q s s2 X md d :
  supported P s X → stateOf s X ≠ Active → advances Q s s2 →
  Forall notActivateHook (newEvents s s2) →
  m_pluginMetadata s2 !! X = Some md → d ∈ getPluginDependencies md →
  supported (P ∪ {[X]}) s2 d.
Proof.
  intros Hsup Hna Hadv Hq Hmd Hd Z HZ.
  assert (stateOf s2 Z ≠ Active) as HnaZ.
  { intros Hact. destruct (adv_activated _ _ _ Hadv Z Hact) as [Hs|[[snap Hsnap] _]].
    - apply elem_of_union in HZ as [HZ| ->%elem_of_singleton]; [|done].
      by destruct (Hsup Z HZ) as [? _].
    - by apply (proj1 (Forall_forall _ _) Hq) in Hsnap. }
  split; [done|].
  apply elem_of_union in HZ as [HZ| ->%elem_of_singleton].
  - destruct (Hsup Z HZ) as (_ & W & HW & Hdep). exists W. split.
    + left. set_solver.
    + by eapply dependenciesOf_advances.
  - exists d. split; [by right|]. by rewrite (dependenciesOf_Some _ _ _ Hmd).
Qed.

Lemma activatePlugin_supported n :
  ∀ P X s r s', activatePlugin env n X s = Some (r, s') → supported P s X →
                Forall (λ e, ¬ activateHookOf P e) (newEvents s s').
Proof.
  induction n as [|n IH]; intros P X s r s' Hrun Hsup; [done|].
  destruct (decide (X ∈ P)) as [HX|HX].
  { eapply activatePlugin_blocked; [done|].
    intros Z HZ. destruct (Hsup Z HZ) as (Hna & W & [HW|HW] & Hdep); subst; eauto. }
  apply activatePlugin_run in Hrun.
  assert (∀ s1 md s2 s3 r3,
            stateOf s X ≠ Active →
            ensureInitialized env n X s s1 → metadataRef X s1 = (md, s2) →
            ActivateLoop (activatePlugin env n) (getPluginDependencies md) s2 r3 s3 →
            events s `prefix_of` events s3 ∧
            Forall (λ e, ¬ activateHookOf (P ∪ {[X]}) e) (newEvents s s3)) as Hbefore.
  { intros s1 md s2 s3 r3 Hna Hens Hmd Hloop.
    pose proof (before_loop_quiet _ _ _ _ _ _ Hens Hmd) as H2.
    assert (advances anyEvent s2 s3) as H23.
    { eapply ActivateLoop_advances; [|done]. apply activatePlugin_advances. }
    split; [etrans; eapply adv_events; done|].
    eapply no_activateHookOf_app; [done..| |].
    - apply quiet_no_activateHookOf, H2.
    - eapply ActivateLoop_supported; [apply IH|done|].
      intros d Hd. eapply pending_supported; [done..|apply H2| |done].
      by eapply metadataRef_lookup. }
  destruct Hrun as [?|? ? Hact|s1 Hchecks Hni Hinit
                   |s1 md s2 s3 Hchecks Hens Hmd Hloop
                   |s1 md s2 s3 plugin out Hchecks Hens Hmd Hloop Hplugin Hout].
  - rewrite newEvents_refl. constructor.
  - rewrite newEvents_refl. constructor.
  - apply quiet_no_activateHookOf.
    by eapply adv_recorded, initializePlugin_advances.
  - destruct Hchecks as (_ & _ & Hna & _).
    destruct (Hbefore _ _ _ _ _ Hna Hens Hmd Hloop) as [_ Hev].
    eapply no_activateHookOf_mono; [|done]. set_solver.
  - destruct Hchecks as (_ & _ & Hna & _).
    destruct (Hbefore _ _ _ _ _ Hna Hens Hmd Hloop) as [Hpre Hev].
    apply finishActivate_no_activateHookOf; [done..|].
    eapply no_activateHookOf_mono; [|done]. set_solver.
Qed.
End Pending.

(** ** A failing hook fails the operation *)

Section HookFailure.
Context (env : Env).

Lemma notHook_elem_of l X h snap out :
  Forall notHook l → EvHook X h snap out ∉ l.
Proof. intros Hq Hin. by apply (proj1 (Forall_forall _ _) Hq) in Hin. Qed.

Lemma notActivateHook_elem_of l X snap out :
  Forall notActivateHook l → EvHook X HActivate snap out ∉ l.
Proof. intros Hq Hin. by apply (proj1 (Forall_forall _ _) Hq) in Hin. Qed.

Lemma newEvents_failPlugin s s2 X msg :
  events s `prefix_of` events s2 →
  newEvents s (failPlugin X msg s2) = newEvents s s2 ++ [EvSignal (pluginFailed X msg)].
Proof. intros Hpre. unfold failPlugin. by rewrite newEvents_then_emit. Qed.

Lemma finishInitialize_shape s s2 X out :
  events s `prefix_of` events s2 →
  newEvents s (finishInitialize X out s2) =
    newEvents s s2 ++
      [EvHook X HInitialize (m_pluginStates s2) out;
       EvSignal (if bool_decide (out = Returns true) then pluginInitialized X
                 else pluginFailed X (initFailureMessage out))].
Proof.
  intros [new Hnew]. unfold finishInitialize. cbv zeta.
  case_bool_decide; unfold newEvents, failPlugin; simpl;
    rewrite Hnew, <- !app_assoc; by rewrite !drop_app_length.
Qed.

Lemma finishActivate_events s s3 X out :
  events s `prefix_of` events s3 →
  newEvents s (finishActivate X out s3) =
    newEvents s s3 ++
      [EvHook X HActivate (m_pluginStates s3) out;
       EvSignal (if bool_decide (out = Returns true) then pluginActivated X
                 else pluginFailed X (activateFailureMessage out))].
Proof.
  intros [new Hnew]. unfold finishActivate. cbv zeta.
  case_bool_decide; unfold newEvents, failPlugin; simpl;
    rewrite Hnew, <- !app_assoc; by rewrite !drop_app_length.
Qed.

Lemma failureReported_nothing h message s r s' :
  (∀ X snap out, EvHook X h snap out ∉ newEvents s s') →
  failureReported h message s r s'.
Proof. intros Hno X snap out Hin. by destruct (Hno _ _ _ Hin). Qed.

(** A step that records no call of [h], then a run that reports. *)
Lemma failureReported_after h message Q s s1 r s' :
  advances Q s s1 → events s1 `prefix_of` events s' →
  (∀ X snap out, EvHook X h snap out ∉ newEvents s s1) →
  failureReported h message s1 r s' → failureReported h message s r s'.
Proof.
  intros H1 Hpre Hno Hrep X snap out.
  rewrite (newEvents_app s s1 s') by (done || by eapply adv_events).
  intros [Hin|Hin]%elem_of_app Hout; [by destruct (Hno _ _ _ Hin)|].
  destruct (Hrep _ _ _ Hin Hout) as (? & ? & ?). split_and!; [done..|].
  set_solver.
Qed.

(** A run that reports and fails, then [failPlugin] on the caller. *)
Lemma failureReported_then_failPlugin h message s s2 Y msg :
  events s `prefix_of` events s2 →
  failureReported h message s false s2 →
  failureReported h message s false (failPlugin Y msg s2).
Proof.
  intros Hpre Hrep X snap out. rewrite newEvents_failPlugin by done.
  intros [Hin|Hin]%elem_of_app Hout; [|set_solver].
  destruct (Hrep _ _ _ Hin Hout) as (_ & HX & Hsig). split_and!; [done| |set_solver].
  rewrite stateOf_failPlugin. by case_decide.
Qed.

(** A run that succeeded recorded no failing call; what follows decides. *)
Lemma failureReported_trans h message Q1 s s1 r s' :
  advances Q1 s s1 → events s1 `prefix_of` events s' →
  failureReported h message s true s1 →
  failureReported h message s1 r s' → failureReported h message s r s'.
Proof.
  intros H1 Hpre Hrep1 Hrep X snap out.
  rewrite (newEvents_app s s1 s') by (done || by eapply adv_events).
  intros [Hin|Hin]%elem_of_app Hout.
  - by destruct (Hrep1 _ _ _ Hin Hout) as [? _].
  - destruct (Hrep _ _ _ Hin Hout) as (? & ? & ?). split_and!; [done..|].
    set_solver.
Qed.

Lemma ensureLoaded_no_hook d s s1 h X snap out :
  ensureLoaded env d s s1 → EvHook X h snap out ∉ newEvents s s1.
Proof.
  intros Hens. apply notHook_elem_of. by eapply adv_recorded, ensureLoaded_advances.
Qed.

Lemma initializePlugin_prefix n X s r s' :
  initializePlugin env n X s = Some (r, s') → events s `prefix_of` events s'.
Proof. intros Hrun. by eapply adv_events, initializePlugin_advances. Qed.

Lemma activatePlugin_prefix n X s r s' :
  activatePlugin env n X s = Some (r, s') → events s `prefix_of` events s'.
Proof. intros Hrun. by eapply adv_events, activatePlugin_advances. Qed.

Lemma ensureLoaded_prefix d s s1 :
  ensureLoaded env d s s1 → events s `prefix_of` events s1.
Proof. intros Hens. by eapply adv_events, ensureLoaded_advances. Qed.

Lemma failPlugin_prefix s X msg : events s `prefix_of` events (failPlugin X msg s).
Proof. unfold failPlugin. simpl. by apply prefix_app_r. Qed.

Lemma InitLoop_prefix n Y deps s r s' :
  InitLoop env (initializePlugin env n) Y deps s r s' →
  events s `prefix_of` events s'.
Proof.
  induction 1 as
    [s|d rest s s1 Hnl Hload|d rest s s1 r s' Hens Hneeds Hloop IH
    |d rest s s1 s2 Hens Hneeds Hcall|d rest s s1 s2 r s' Hens Hneeds Hcall Hloop IH].
  - done.
  - etrans; [|apply failPlugin_prefix]. by eapply adv_events, loadPlugin_advances.
  - etrans; [by eapply ensureLoaded_prefix|done].
  - etrans; [by eapply ensureLoaded_prefix|].
    etrans; [by eapply initializePlugin_prefix|apply failPlugin_prefix].
  - etrans; [by eapply ensureLoaded_prefix|].
    etrans; [by eapply initializePlugin_prefix|done].
Qed.

Lemma InitLoop_failureReported n Y deps s r s' :
  (∀ X s r s', initializePlugin env n X s = Some (r, s') →
               failureReported HInitialize initFailureMessage s r s') →
  InitLoop env (initializePlugin env n) Y deps s r s' →
  failureReported HInitialize initFailureMessage s r s'.
Proof.
  intros IHn. induction 1 as
    [s|d rest s s1 Hnl Hload|d rest s s1 r s' Hens Hneeds Hloop IH
    |d rest s s1 s2 Hens Hneeds Hcall|d rest s s1 s2 r s' Hens Hneeds Hcall Hloop IH].
  - apply failureReported_nothing. intros X snap out.
    rewrite newEvents_refl. apply not_elem_of_nil.
  - pose proof (loadPlugin_advances _ _ _ _ _ Hload) as H1.
    apply failureReported_nothing. intros X snap out.
    rewrite newEvents_failPlugin by apply H1.
    intros [Hin|Hin]%elem_of_app; [|set_solver].
    by apply (notHook_elem_of _ _ _ _ _ (adv_recorded _ _ _ H1)) in Hin.
  - eapply failureReported_after;
      [by eapply ensureLoaded_advances|by eapply InitLoop_prefix
      |by intros; eapply ensureLoaded_no_hook|done].
  - eapply failureReported_after;
      [by eapply ensureLoaded_advances
      |etrans; [by eapply initializePlugin_prefix|apply failPlugin_prefix]
      |by intros; eapply ensureLoaded_no_hook|].
    apply failureReported_then_failPlugin; [by eapply initializePlugin_prefix|].
    by eapply IHn.
  - eapply failureReported_after;
      [by eapply ensureLoaded_advances
      |etrans; [by eapply initializePlugin_prefix|by eapply InitLoop_prefix]
      |by intros; eapply ensureLoaded_no_hook|].
    eapply failureReported_trans;
      [by eapply initializePlugin_advances|by eapply InitLoop_prefix
      |by eapply IHn|done].
Qed.

Lemma initializePlugin_failureReported n :
  ∀ X s r s', initializePlugin env n X s = Some (r, s') →
              failureReported HInitialize initFailureMessage s r s'.
Proof.
  induction n as [|n IH]; intros Y s r s' Hrun; [done|].
  apply initializePlugin_run in Hrun.
  destruct Hrun as [?|? ? ?|md s1 s2 Hchecks Hmd Hloop
                   |md s1 s2 plugin out Hchecks Hmd Hloop Hplugin Hout].
  - apply failureReported_nothing. intros X snap out.
    rewrite newEvents_refl. apply not_elem_of_nil.
  - apply failureReported_nothing. intros X snap out.
    rewrite newEvents_refl. apply not_elem_of_nil.
  - pose proof (metadataRef_grows _ _ _ _ Hmd) as Hg.
    eapply failureReported_after;
      [by apply (registryGrows_advances anyEvent)|by eapply InitLoop_prefix| |].
    + intros X snap out. rewrite (registryGrows_newEvents s s s1 Hg), newEvents_refl.
      apply not_elem_of_nil.
    + by eapply InitLoop_failureReported.
  - pose proof (metadataRef_grows _ _ _ _ Hmd) as Hg.
    pose proof (InitLoop_prefix _ _ _ _ _ _ Hloop) as Hpre.
    eapply failureReported_after;
      [by apply (registryGrows_advances anyEvent)| | |].
    + etrans; [done|]. unfold finishInitialize, failPlugin. cbv zeta.
      case_bool_decide; simpl; rewrite <- app_assoc; by apply prefix_app_r.
    + intros X snap out'. rewrite (registryGrows_newEvents s s s1 Hg), newEvents_refl.
      apply not_elem_of_nil.
    + pose proof (InitLoop_failureReported _ _ _ _ _ _ IH Hloop) as Hrep.
      intros X snap out'. rewrite finishInitialize_shape by done.
      intros [Hin|Hin]%elem_of_app Hfail.
      { by destruct (Hrep _ _ _ Hin Hfail) as [? _]. }
      apply elem_of_cons in Hin as [Heq|Hin]; [|set_solver].
      simplify_eq. rewrite bool_decide_false by done. split_and!; [done| |set_solver].
      unfold finishInitialize. cbv zeta. rewrite bool_decide_false by done.
      rewrite stateOf_failPlugin. by rewrite decide_True.
Qed.

Lemma ActivateLoop_prefix n deps s r s' :
  ActivateLoop (activatePlugin env n) deps s r s' → events s `prefix_of` events s'.
Proof.
  intros Hloop. eapply adv_events, ActivateLoop_advances; [|done].
  apply activatePlugin_advances.
Qed.

Lemma ActivateLoop_failureReported n deps s r s' :
  (∀ X s r s', activatePlugin env n X s = Some (r, s') →
               failureReported HActivate activateFailureMessage s r s') →
  ActivateLoop (activatePlugin env n) deps s r s' →
  failureReported HActivate activateFailureMessage s r s'.
Proof.
  intros IHn. induction 1 as
    [s|d rest s r s' Hactive Hloop IH|d rest s s1 Hna Hcall
    |d rest s s1 r s' Hna Hcall Hloop IH].
  - apply failureReported_nothing. intros X snap out.
    rewrite newEvents_refl. apply not_elem_of_nil.
  - done.
  - by eapply IHn.
  - eapply failureReported_trans;
      [by eapply activatePlugin_advances|by eapply ActivateLoop_prefix
      |by eapply IHn|done].
Qed.

Lemma finishActivate_prefix s X out : events s `prefix_of` events (finishActivate X out s).
Proof.
  unfold finishActivate, failPlugin. cbv zeta.
  case_bool_decide; simpl; rewrite <- app_assoc; by apply prefix_app_r.
Qed.

Lemma activatePlugin_failureReported n :
  ∀ X s r s', activatePlugin env n X s = Some (r, s') →
              failureReported HActivate activateFailureMessage s r s'.
Proof.
  induction n as [|n IH]; intros Y s r s' Hrun; [done|].
  apply activatePlugin_run in Hrun.
  destruct Hrun as [?|? ? Hact|s1 Hchecks Hni Hinit
                   |s1 md s2 s3 Hchecks Hens Hmd Hloop
                   |s1 md s2 s3 plugin out Hchecks Hens Hmd Hloop Hplugin Hout].
  - apply failureReported_nothing. intros X snap out.
    rewrite newEvents_refl. apply not_elem_of_nil.
  - apply failureReported_nothing. intros X snap out.
    rewrite newEvents_refl. apply not_elem_of_nil.
  - apply failureReported_nothing. intros X snap out.
    apply notActivateHook_elem_of. by eapply adv_recorded, initializePlugin_advances.
  - pose proof (before_loop_quiet _ _ _ _ _ _ _ Hens Hmd) as H2.
    eapply failureReported_after; [done|by eapply ActivateLoop_prefix| |].
    + intros X snap out. apply notActivateHook_elem_of, H2.
    + by eapply ActivateLoop_failureReported.
  - pose proof (before_loop_quiet _ _ _ _ _ _ _ Hens Hmd) as H2.
    pose proof (ActivateLoop_prefix _ _ _ _ _ Hloop) as Hpre.
    eapply failureReported_after;
      [done|etrans; [done|apply finishActivate_prefix]| |].
    + intros X snap out'. apply notActivateHook_elem_of, H2.
    + pose proof (ActivateLoop_failureReported _ _ _ _ _ IH Hloop) as Hrep.
      intros X snap out'. rewrite finishActivate_events by done.
      intros [Hin|Hin]%elem_of_app Hfail.
      { by destruct (Hrep _ _ _ Hin Hfail) as [? _]. }
      apply elem_of_cons in Hin as [Heq|Hin]; [|set_solver].
      simplify_eq. rewrite bool_decide_false by done. split_and!; [done| |set_solver].
      unfold finishActivate. cbv zeta. rewrite bool_decide_false by done.
      rewrite stateOf_failPlugin. by rewrite decide_True.
Qed.
End HookFailure.

(** ** Deactivation *)

Section Deactivate.
Context (env : Env).

Lemma metadataRef_dependenciesOf X s md s' :
  metadataRef X s = (md, s') →
  getPluginDependencies md = dependenciesOf s X ∧
  ∀ W, dependenciesOf s' W = dependenciesOf s W.
Proof.
  unfold metadataRef, dependenciesOf.
  destruct (m_pluginMetadata s !! X) as [md0|] eqn:Hmd; intros ?; simplify_eq.
  { done. }
  split; [done|]. intros W. simpl. destruct (decide (X = W)) as [->|].
  - by rewrite lookup_insert_eq, Hmd.
  - by rewrite lookup_insert_ne.
Qed.

Lemma activeDependents_spec X keys :
  ∀ s L s1, activeDependents X keys s = (L, s1) →
    registryGrows s s1 ∧ (∀ W, dependenciesOf s1 W = dependenciesOf s W) ∧
    ∀ W, W ∈ L ↔ W ∈ keys ∧ W ≠ X ∧ stateOf s W = Active ∧ X ∈ dependenciesOf s W.
Proof.
  induction keys as [|k rest IH]; intros s L s1 Hrun; simpl in Hrun.
  { simplify_eq. split_and!; [apply registryGrows_refl|done|]. set_solver. }
  destruct (bool_decide (k ≠ X) && bool_decide (stateOf s k = Active)) eqn:Hk.
  - apply andb_true_iff in Hk as [Hne%bool_decide_eq_true Hact%bool_decide_eq_true].
    destruct (metadataRef k s) as [md s'] eqn:Hmd.
    destruct (activeDependents X rest s') as [found s2] eqn:Hrest.
    destruct (IH _ _ _ Hrest) as (Hg2 & Hdeps2 & Hfound).
    pose proof (metadataRef_grows _ _ _ _ Hmd) as Hg1.
    destruct (metadataRef_dependenciesOf _ _ _ _ Hmd) as [Hmdk Hdeps1].
    simplify_eq. split_and!.
    + by eapply registryGrows_trans.
    + intros W. by rewrite Hdeps2, Hdeps1.
    + intros W.
      assert (W ∈ found ↔ W ∈ rest ∧ W ≠ X ∧ stateOf s W = Active ∧
                          X ∈ dependenciesOf s W) as Hfound'.
      { rewrite Hfound, (registryGrows_stateOf _ _ _ Hg1), Hdeps1. done. }
      destruct (dependsOn md X) eqn:Hdep.
      * apply dependsOn_true in Hdep. rewrite Hmdk in Hdep.
        rewrite !elem_of_cons, Hfound'. naive_solver.
      * assert (X ∉ dependenciesOf s k) as Hnd.
        { rewrite <- Hmdk. intros Hin%dependsOn_true. congruence. }
        rewrite elem_of_cons, Hfound'. naive_solver.
  - destruct (IH _ _ _ Hrun) as (Hg & Hdeps & Hfound). split_and!; [done..|].
    intros W. rewrite Hfound, elem_of_cons.
    apply andb_false_iff in Hk as [Hk|Hk]; apply bool_decide_eq_false in Hk;
      naive_solver.
Qed.

(** *** Every run of [deactivatePlugin] is one of its cases *)

Lemma deactivateDependents_run recurse deps :
  ∀ s r s', deactivateDependents recurse deps s = Some (r, s') →
            DeactivateLoop recurse deps s r s'.
Proof.
  induction deps as [|d rest IH]; intros s r s' Hrun; simpl in Hrun.
  { simplify_eq. constructor. }
  destruct (recurse d s) as [[[] s1]|] eqn:Hrec; simplify_eq.
  - eapply dl_deactivated; [done|by apply IH].
  - by eapply dl_failed.
Qed.

Lemma deactivatePlugin_run n X s r s' :
  deactivatePlugin env (S n) X s = Some (r, s') → DeactivateRun env n X s r s'.
Proof.
  simpl. intros Hrun.
  destruct (m_initialized s) eqn:Hinit; simpl in Hrun;
    [|simplify_eq; constructor; by left].
  destruct (isPluginLoaded s X) eqn:Hloaded; simpl in Hrun; cycle 1.
  { simplify_eq. constructor. right. by apply isPluginLoaded_false. }
  apply isPluginLoaded_true in Hloaded as [_ Hloaded].
  case_bool_decide as Hactive; simpl in Hrun; [|simplify_eq; by constructor].
  destruct (activeDependents X _ s) as [L s1] eqn:HL.
  destruct (deactivateDependents _ _ _) as [[[] s2]|] eqn:Hloop; [|simplify_eq|done].
  - apply deactivateDependents_run in Hloop.
    destruct (callHook env X HDeactivate s2) as [[out s3]|] eqn:Hhook; [|done].
    apply callHook_Some in Hhook as (plugin & Hplugin & Hout & ->).
    pose proof (dr_hook env n X s L s1 s2 plugin out
                  Hinit Hloaded Hactive HL Hloop Hplugin Hout) as Hcase.
    unfold finishDeactivate in Hcase. cbv zeta in Hcase.
    destruct out as [[]|e]; simplify_eq; exact Hcase.
  - apply deactivateDependents_run in Hloop. by eapply dr_dependent_failed.
Qed.

(** *** [settles] *)

Lemma settles_refl s : settles s s.
Proof.
  split; try done.
  - rewrite newEvents_refl. constructor.
  - by left.
Qed.

Lemma settles_trans s1 s2 s3 : settles s1 s2 → settles s2 s3 → settles s1 s3.
Proof.
  intros H12 H23. split.
  - by rewrite (st_initialized _ _ H23), (st_initialized _ _ H12).
  - by rewrite (st_pluginDir _ _ H23), (st_pluginDir _ _ H12).
  - by rewrite (st_metadataDir _ _ H23), (st_metadataDir _ _ H12).
  - by rewrite (st_comm _ _ H23), (st_comm _ _ H12).
  - by rewrite (st_plugins _ _ H23), (st_plugins _ _ H12).
  - by rewrite (st_loaders _ _ H23), (st_loaders _ _ H12).
  - intros k md Hk. by eapply st_metadata, st_metadata.
  - etrans; eapply st_events; done.
  - rewrite (newEvents_app s1 s2 s3) by (eapply st_events; done).
    apply Forall_app. split; eapply st_recorded; done.
  - intros k. rewrite (newEvents_app s1 s2 s3) by (eapply st_events; done).
    destruct (st_states _ _ H23 k) as [Heq|(Hact & Hini & snap & Hsnap)].
    + rewrite Heq. destruct (st_states _ _ H12 k) as [?|(? & ? & snap & Hsnap)];
        [by left|]. right. split_and!; [done..|]. exists snap. set_solver.
    + destruct (st_states _ _ H12 k) as [Heq|(? & ? & _)]; [|congruence].
      right. split_and!; [congruence|done|]. exists snap. set_solver.
Qed.

Lemma registryGrows_settles s s' : registryGrows s s' → settles s s'.
Proof.
  intros H. split; try apply H.
  - by rewrite (rg_events _ _ H).
  - rewrite (registryGrows_newEvents s s s' H), newEvents_refl. constructor.
  - intros k. left. by apply registryGrows_stateOf.
Qed.

Lemma finishDeactivate_events s s2 X out :
  events s `prefix_of` events s2 →
  newEvents s (finishDeactivate X out s2) =
    newEvents s s2 ++
      EvHook X HDeactivate (m_pluginStates s2) out ::
      (if bool_decide (out = Returns true) then [EvSignal (pluginDeactivated X)]
       else []).
Proof.
  intros [new Hnew]. unfold finishDeactivate. cbv zeta.
  case_bool_decide; unfold newEvents; simpl;
    rewrite Hnew, <- !app_assoc; by rewrite !drop_app_length.
Qed.

Lemma finishDeactivate_stateOf s2 X out k :
  stateOf (finishDeactivate X out s2) k =
    if decide (k = X ∧ out = Returns true) then Initialized else stateOf s2 k.
Proof.
  unfold finishDeactivate. cbv zeta. case_bool_decide.
  - rewrite stateOf_emit, stateOf_setState, stateOf_emit.
    repeat case_decide; naive_solver.
  - rewrite stateOf_emit. case_decide; naive_solver.
Qed.

Lemma settles_then_finishDeactivate s s2 X out :
  settles s s2 → stateOf s X = Active →
  settles s (finishDeactivate X out s2).
Proof.
  intros H HX.
  pose proof (finishDeactivate_events s s2 X out (st_events _ _ H)) as Hnew.
  assert (∀ P : PluginManager → Prop,
            (∀ s3, P s3 → P (emit (EvHook X HDeactivate (m_pluginStates s2) out) s3)) →
            (∀ s3, P s3 → P (emit (EvSignal (pluginDeactivated X)) s3)) →
            (∀ s3, P s3 → P (setState X Initialized s3)) →
            P s2 → P (finishDeactivate X out s2)) as Hcases.
  { intros P H1 H2 H3 H0. unfold finishDeactivate. cbv zeta.
    case_bool_decide; auto. }
  split.
  - apply (Hcases (λ s3, m_initialized s3 = m_initialized s)); try done. apply H.
  - apply (Hcases (λ s3, m_pluginDir s3 = m_pluginDir s)); try done. apply H.
  - apply (Hcases (λ s3, m_metadataDir s3 = m_metadataDir s)); try done. apply H.
  - apply (Hcases (λ s3, comm s3 = comm s)); try done. apply H.
  - apply (Hcases (λ s3, m_plugins s3 = m_plugins s)); try done. apply H.
  - apply (Hcases (λ s3, m_pluginLoaders s3 = m_pluginLoaders s)); try done. apply H.
  - intros k md Hk.
    apply (Hcases (λ s3, m_pluginMetadata s3 !! k = Some md)); try done.
    by eapply st_metadata.
  - apply (Hcases (λ s3, events s `prefix_of` events s3)).
    + intros s3 ?. simpl. by apply prefix_app_r.
    + intros s3 ?. simpl. by apply prefix_app_r.
    + done.
    + apply H.
  - rewrite Hnew. apply Forall_app. split; [apply H|].
    case_bool_decide; by repeat constructor.
  - intros k. rewrite finishDeactivate_stateOf, Hnew.
    destruct (decide (k = X ∧ out = Returns true)) as [[-> ->]|Hk].
    + right. split_and!; [done..|]. exists (m_pluginStates s2).
      rewrite bool_decide_true by done. set_solver.
    + destruct (st_states _ _ H k) as [?|(? & ? & snap & Hsnap)]; [by left|].
      right. split_and!; [done..|]. exists snap. set_solver.
Qed.

Lemma DeactivateLoop_settles recurse deps s r s' :
  (∀ d s r s', recurse d s = Some (r, s') → settles s s') →
  DeactivateLoop recurse deps s r s' → settles s s'.
Proof.
  intros Hrec. induction 1 as
    [s|d rest s s1 Hcall|d rest s s1 r s' Hcall Hloop IH].
  - apply settles_refl.
  - by eapply Hrec.
  - eapply settles_trans; [by eapply Hrec|done].
Qed.

Lemma deactivatePlugin_settles n :
  ∀ X s r s', deactivatePlugin env n X s = Some (r, s') → settles s s'.
Proof.
  induction n as [|n IH]; intros X s r s' Hrun; [done|].
  apply deactivatePlugin_run in Hrun.
  destruct Hrun as [?|? ? ?|L s1 s2 Hinit Hloaded Hactive HL Hloop
                   |L s1 s2 plugin out Hinit Hloaded Hactive HL Hloop Hplugin Hout];
    try apply settles_refl.
  - destruct (activeDependents_spec _ _ _ _ _ HL) as (Hg & _).
    eapply settles_trans; [by apply registryGrows_settles|].
    by eapply DeactivateLoop_settles.
  - destruct (activeDependents_spec _ _ _ _ _ HL) as (Hg & _).
    apply settles_then_finishDeactivate; [|done].
    eapply settles_trans; [by apply registryGrows_settles|].
    by eapply DeactivateLoop_settles.
Qed.

Lemma DeactivateLoop_settles' n deps s r s' :
  DeactivateLoop (deactivatePlugin env n) deps s r s' → settles s s'.
Proof. apply DeactivateLoop_settles, deactivatePlugin_settles. Qed.

(** *** A pending deactivation is never completed by a nested call *)

Lemma no_deactivateHookOf_mono K K' l :
  K ⊆ K' → Forall (λ e, ¬ deactivateHookOf K' e) l →
  Forall (λ e, ¬ deactivateHookOf K e) l.
Proof.
  intros Hsub H. eapply Forall_impl; [done|].
  intros [| k [] | | |]; simpl; set_solver.
Qed.

Lemma stays_active K s s' Z :
  settles s s' → Forall (λ e, ¬ deactivateHookOf K e) (newEvents s s') →
  Z ∈ K → stateOf s Z = Active → stateOf s' Z = Active.
Proof.
  intros Hs Hev HZ Hact.
  destruct (st_states _ _ Hs Z) as [?|(_ & _ & snap & Hsnap)]; [congruence|].
  by apply (proj1 (Forall_forall _ _) Hev) in Hsnap.
Qed.

Lemma dependenciesOf_settles s s' Z W :
  settles s s' → W ∈ dependenciesOf s Z → W ∈ dependenciesOf s' Z.
Proof.
  intros Hs. unfold dependenciesOf.
  destruct (m_pluginMetadata s !! Z) as [md|] eqn:Hmd; [|by intros ?%elem_of_nil].
  by rewrite (st_metadata _ _ Hs _ _ Hmd).
Qed.

Lemma heldActive_settles K s s' :
  heldActive K s → settles s s' →
  Forall (λ e, ¬ deactivateHookOf K e) (newEvents s s') → heldActive K s'.
Proof.
  intros Hh Hs Hev Z HZ. destruct (Hh Z HZ) as (Hl & Hact & W & HW & Hne & Hdep).
  split_and!; [by rewrite (st_plugins _ _ Hs)|by eapply stays_active|].
  exists W. split_and!; [done..|]. by eapply dependenciesOf_settles.
Qed.

Lemma awaiting_settles P s s' X :
  awaiting P s X → settles s s' →
  Forall (λ e, ¬ deactivateHookOf P e) (newEvents s s') → awaiting P s' X.
Proof.
  intros Hh Hs Hev Z HZ. destruct (Hh Z HZ) as (Hl & Hact & W & HW & Hne & Hdep).
  split_and!; [by rewrite (st_plugins _ _ Hs)|by eapply stays_active|].
  exists W. split_and!; [done..|]. by eapply dependenciesOf_settles.
Qed.

Lemma no_deactivateHookOf_app (K : gset string) s s1 s2 :
  settles s s1 → settles s1 s2 →
  Forall (λ e, ¬ deactivateHookOf K e) (newEvents s s1) →
  Forall (λ e, ¬ deactivateHookOf K e) (newEvents s1 s2) →
  Forall (λ e, ¬ deactivateHookOf K e) (newEvents s s2).
Proof.
  intros H1 H2 F1 F2.
  rewrite (newEvents_app s s1 s2) by (eapply st_events; done).
  by apply Forall_app.
Qed.

Lemma finishDeactivate_no_deactivateHookOf (K : gset string) s s2 X out :
  events s `prefix_of` events s2 → X ∉ K →
  Forall (λ e, ¬ deactivateHookOf K e) (newEvents s s2) →
  Forall (λ e, ¬ deactivateHookOf K e) (newEvents s (finishDeactivate X out s2)).
Proof.
  intros Hpre HX Hev. rewrite finishDeactivate_events by done.
  apply Forall_app. split; [done|].
  case_bool_decide; repeat constructor; simpl; tauto.
Qed.

Lemma registryGrows_no_events (K : gset string) s s1 :
  registryGrows s s1 → Forall (λ e, ¬ deactivateHookOf K e) (newEvents s s1).
Proof.
  intros Hg. rewrite (registryGrows_newEvents s s s1 Hg), newEvents_refl. constructor.
Qed.

Section Held.
Context (K : gset string).

Lemma DeactivateLoop_held n deps s r s' :
  (∀ X s r s', deactivatePlugin env n X s = Some (r, s') → heldActive K s →
     Forall (λ e, ¬ deactivateHookOf K e) (newEvents s s') ∧ (X ∈ K → r = false)) →
  DeactivateLoop (deactivatePlugin env n) deps s r s' → heldActive K s →
  Forall (λ e, ¬ deactivateHookOf K e) (newEvents s s') ∧
  (r = true → ∀ d, d ∈ deps → d ∉ K).
Proof.
  intros IHn. induction 1 as
    [s|d rest s s1 Hcall|d rest s s1 r s' Hcall Hloop IH]; intros Hh.
  - rewrite newEvents_refl. split; [constructor|]. by intros _ d ?%elem_of_nil.
  - destruct (IHn _ _ _ _ Hcall Hh) as [Hev _]. by split.
  - destruct (IHn _ _ _ _ Hcall Hh) as [Hev HdK].
    pose proof (deactivatePlugin_settles _ _ _ _ _ Hcall) as H1.
    destruct IH as [Hev' Hr]; [by eapply heldActive_settles|].
    split.
    + eapply no_deactivateHookOf_app; [done| |done|done].
      by eapply DeactivateLoop_settles'.
    + intros -> x [->|Hx]%elem_of_cons; [|by apply Hr].
      intros HK. by specialize (HdK HK).
Qed.

Lemma deactivatePlugin_held n :
  ∀ X s r s', deactivatePlugin env n X s = Some (r, s') → heldActive K s →
    Forall (λ e, ¬ deactivateHookOf K e) (newEvents s s') ∧ (X ∈ K → r = false).
Proof.
  induction n as [|n IH]; intros X s r s' Hrun Hh; [done|].
  apply deactivatePlugin_run in Hrun.
  assert (∀ L s1 s2 r2,
            activeDependents X (qkeys (m_plugins s)) s = (L, s1) →
            DeactivateLoop (deactivatePlugin env n) L s1 r2 s2 →
            events s `prefix_of` events s2 ∧
            Forall (λ e, ¬ deactivateHookOf K e) (newEvents s s2) ∧
            (r2 = true → X ∉ K)) as Hbefore.
  { intros L s1 s2 r2 HL Hloop.
    destruct (activeDependents_spec _ _ _ _ _ HL) as (Hg & Hdeps & HinL).
    pose proof (registryGrows_settles _ _ Hg) as H1.
    assert (heldActive K s1) as Hh1.
    { eapply heldActive_settles; [done..|]. by apply registryGrows_no_events. }
    destruct (DeactivateLoop_held _ _ _ _ _ IH Hloop Hh1) as [Hev Hr].
    pose proof (DeactivateLoop_settles' _ _ _ _ _ Hloop) as H12.
    split_and!.
    - etrans; eapply st_events; done.
    - eapply no_deactivateHookOf_app; [done..| |done].
      by apply registryGrows_no_events.
    - intros -> HK. destruct (Hh X HK) as (_ & _ & W & HW & Hne & Hdep).
      destruct (Hh W HW) as (HlW & HaW & _).
      apply (Hr eq_refl W); [|done]. apply HinL.
      split_and!; [by apply elem_of_qkeys|done..]. }
  destruct Hrun as [?|? ? Hna|L s1 s2 Hinit Hloaded Hactive HL Hloop
                   |L s1 s2 plugin out Hinit Hloaded Hactive HL Hloop Hplugin Hout].
  - rewrite newEvents_refl. by split; [constructor|].
  - rewrite newEvents_refl. split; [constructor|].
    intros HK. by destruct (Hh X HK) as (_ & ? & _).
  - split; [|done]. by eapply Hbefore.
  - destruct (Hbefore _ _ _ _ HL Hloop) as (Hpre & Hev & HX).
    specialize (HX eq_refl). split; [|done].
    by apply finishDeactivate_no_deactivateHookOf.
Qed.
End Held.

Lemma DeactivateLoop_awaiting (P : gset string) n deps s r s' :
  (∀ X s r s', deactivatePlugin env n X s = Some (r, s') → awaiting P s X →
               Forall (λ e, ¬ deactivateHookOf P e) (newEvents s s')) →
  DeactivateLoop (deactivatePlugin env n) deps s r s' →
  (∀ d, d ∈ deps → awaiting P s d) →
  Forall (λ e, ¬ deactivateHookOf P e) (newEvents s s').
Proof.
  intros IHn. induction 1 as
    [s|d rest s s1 Hcall|d rest s s1 r s' Hcall Hloop IH]; intros Hsup.
  - rewrite newEvents_refl. constructor.
  - eapply IHn; [done|]. apply Hsup. set_solver.
  - assert (Forall (λ e, ¬ deactivateHookOf P e) (newEvents s s1)) as Hev.
    { eapply IHn; [done|]. apply Hsup. set_solver. }
    pose proof (deactivatePlugin_settles _ _ _ _ _ Hcall) as H1.
    eapply no_deactivateHookOf_app; [done| |done|].
    + by eapply DeactivateLoop_settles'.
    + apply IH. intros x Hx. eapply awaiting_settles; [|done..].
      apply Hsup. set_solver.
Qed.

Lemma pending_awaiting (P : gset string) s s1 X L D :
  awaiting P s X → is_Some (m_plugins s !! X) → stateOf s X = Active →
  activeDependents X (qkeys (m_plugins s)) s = (L, s1) → D ∈ L →
  awaiting (P ∪ {[X]}) s1 D.
Proof.
  intros Hsup HlX HaX HL HD Z HZ.
  destruct (activeDependents_spec _ _ _ _ _ HL) as (Hg & Hdeps & HinL).
  apply HinL in HD as (_ & HDX & _ & HDdep).
  rewrite (rg_plugins _ _ Hg), (registryGrows_stateOf _ _ _ Hg).
  apply elem_of_union in HZ as [HZ| ->%elem_of_singleton].
  - destruct (Hsup Z HZ) as (Hl & Hact & W & HW & Hne & Hdep).
    split_and!; [done..|]. exists W. rewrite Hdeps. split_and!; [|done..].
    left. set_solver.
  - split_and!; [done..|]. exists D. rewrite Hdeps. by split_and!; [right|..].
Qed.

Lemma deactivatePlugin_awaiting n :
  ∀ P X s r s', deactivatePlugin env n X s = Some (r, s') → awaiting P s X →
                Forall (λ e, ¬ deactivateHookOf P e) (newEvents s s').
Proof.
  induction n as [|n IH]; intros P X s r s' Hrun Hsup; [done|].
  destruct (decide (X ∈ P)) as [HX|HX].
  { eapply deactivatePlugin_held; [done|].
    intros Z HZ. destruct (Hsup Z HZ) as (Hl & Hact & W & [HW|HW] & Hne & Hdep);
      subst; eauto 10. }
  apply deactivatePlugin_run in Hrun.
  assert (∀ L s1 s2 r2,
            is_Some (m_plugins s !! X) → stateOf s X = Active →
            activeDependents X (qkeys (m_plugins s)) s = (L, s1) →
            DeactivateLoop (deactivatePlugin env n) L s1 r2 s2 →
            events s `prefix_of` events s2 ∧
            Forall (λ e, ¬ deactivateHookOf (P ∪ {[X]}) e) (newEvents s s2))
    as Hbefore.
  { intros L s1 s2 r2 HlX HaX HL Hloop.
    destruct (activeDependents_spec _ _ _ _ _ HL) as (Hg & _).
    pose proof (registryGrows_settles _ _ Hg) as H1.
    pose proof (DeactivateLoop_settles' _ _ _ _ _ Hloop) as H12.
    split; [etrans; eapply st_events; done|].
    eapply no_deactivateHookOf_app; [done..|by apply registryGrows_no_events|].
    eapply DeactivateLoop_awaiting; [apply IH|done|].
    intros D HD. by eapply pending_awaiting. }
  destruct Hrun as [?|? ? Hna|L s1 s2 Hinit Hloaded Hactive HL Hloop
                   |L s1 s2 plugin out Hinit Hloaded Hactive HL Hloop Hplugin Hout].
  - rewrite newEvents_refl. constructor.
  - rewrite newEvents_refl. constructor.
  - destruct (Hbefore _ _ _ _ Hloaded Hactive HL Hloop) as [_ Hev].
    eapply no_deactivateHookOf_mono; [|done]. set_solver.
  - destruct (Hbefore _ _ _ _ Hloaded Hactive HL Hloop) as [Hpre Hev].
    apply finishDeactivate_no_deactivateHookOf; [done..|].
    eapply no_deactivateHookOf_mono; [|done]. set_solver.
Qed.

(** The plugin is still active when its own deactivate hook is called. *)
Lemma active_at_deactivate_hook n X s L s1 r2 s2 :
  is_Some (m_plugins s !! X) → stateOf s X = Active →
  activeDependents X (qkeys (m_plugins s)) s = (L, s1) →
  DeactivateLoop (deactivatePlugin env n) L s1 r2 s2 →
  stateOf s2 X = Active.
Proof.
  intros HlX HaX HL Hloop.
  destruct (activeDependents_spec _ _ _ _ _ HL) as (Hg & _).
  eapply (stays_active {[X]} s1 s2).
  - by eapply DeactivateLoop_settles'.
  - eapply DeactivateLoop_awaiting; [apply deactivatePlugin_awaiting|done|].
    intros D HD.
    assert (({[X]} : gset string) = ∅ ∪ {[X]}) as -> by set_solver.
    eapply pending_awaiting; [|done..]. intros Z HZ. set_solver.
  - set_solver.
  - by rewrite (registryGrows_stateOf _ _ _ Hg).
Qed.

(** *** A failing deactivate hook fails the operation but changes no state *)

Lemma DeactivateLoop_failure n deps s r s' :
  (∀ X s r s', deactivatePlugin env n X s = Some (r, s') →
               deactivationFailure s r s') →
  DeactivateLoop (deactivatePlugin env n) deps s r s' → deactivationFailure s r s'.
Proof.
  intros IHn. induction 1 as
    [s|d rest s s1 Hcall|d rest s s1 r s' Hcall Hloop IH]; intros X snap out.
  - rewrite newEvents_refl. by intros ?%elem_of_nil.
  - by eapply IHn.
  - rewrite (newEvents_app s s1 s');
      [|by eapply st_events, deactivatePlugin_settles
       |by eapply st_events, DeactivateLoop_settles'].
    intros [Hin|Hin]%elem_of_app Hout.
    + by destruct (IHn _ _ _ _ Hcall _ _ _ Hin Hout) as [? _].
    + by eapply IH.
Qed.

Lemma deactivatePlugin_failure n :
  ∀ X s r s', deactivatePlugin env n X s = Some (r, s') → deactivationFailure s r s'.
Proof.
  induction n as [|n IH]; intros Y s r s' Hrun; [done|].
  apply deactivatePlugin_run in Hrun.
  destruct Hrun as [?|? ? Hna|L s1 s2 Hinit Hloaded Hactive HL Hloop
                   |L s1 s2 plugin out Hinit Hloaded Hactive HL Hloop Hplugin Hout];
    intros X snap out'.
  - rewrite newEvents_refl. by intros ?%elem_of_nil.
  - rewrite newEvents_refl. by intros ?%elem_of_nil.
  - destruct (activeDependents_spec _ _ _ _ _ HL) as (Hg & _).
    rewrite (newEvents_app s s1 s2);
      [|by rewrite (rg_events _ _ Hg)|by eapply st_events, DeactivateLoop_settles'].
    rewrite (registryGrows_newEvents s s s1 Hg), newEvents_refl. simpl.
    by eapply DeactivateLoop_failure.
  - destruct (activeDependents_spec _ _ _ _ _ HL) as (Hg & _).
    pose proof (DeactivateLoop_settles' _ _ _ _ _ Hloop) as H12.
    assert (events s `prefix_of` events s2) as Hpre.
    { etrans; [|by eapply st_events]. by rewrite (rg_events _ _ Hg). }
    rewrite finishDeactivate_events by done.
    rewrite (newEvents_app s s1 s2);
      [|by rewrite (rg_events _ _ Hg)|by eapply st_events].
    rewrite (registryGrows_newEvents s s s1 Hg), newEvents_refl. simpl.
    intros [Hin|Hin]%elem_of_app Hfail.
    { by destruct (DeactivateLoop_failure _ _ _ _ _ IH Hloop _ _ _ Hin Hfail)
        as [? _]. }
    apply elem_of_cons in Hin as [Heq|Hin].
    + simplify_eq. rewrite bool_decide_false by done. split; [done|].
      rewrite finishDeactivate_stateOf, decide_False by naive_solver.
      by eapply active_at_deactivate_hook.
    + case_bool_decide; set_solver.
Qed.

Lemma deactivatePlugin_success n X s r s' :
  deactivatePlugin env n X s = Some (r, s') → r = true → stateOf s X = Active →
  stateOf s' X = Initialized.
Proof.
  destruct n as [|n]; [done|]. intros Hrun.
  apply deactivatePlugin_run in Hrun.
  destruct Hrun as [?|? ? Hna|L s1 s2 Hinit Hloaded Hactive HL Hloop
                   |L s1 s2 plugin out Hinit Hloaded Hactive HL Hloop Hplugin Hout];
    intros Hr HX; try done.
  apply bool_decide_eq_true in Hr.
  by rewrite finishDeactivate_stateOf, decide_True.
Qed.
End Deactivate.

(** ** A failed dependency stops the activation *)

Section FailedDependency.
Context (env : Env).

Lemma activateDependencies_app recurse before rest :
  ∀ s s1, activateDependencies recurse before s = Some (true, s1) →
          activateDependencies recurse (before ++ rest) s =
          activateDependencies recurse rest s1.
Proof.
  induction before as [|d before IH]; intros s s1 Hrun; simpl in *.
  { by simplify_eq. }
  case_bool_decide; [by apply IH|].
  destruct (recurse d s) as [[[] s2]|]; simplify_eq. by apply IH.
Qed.

Lemma activatePlugin_from_loop n B s s1 md s2 :
  activateChecks B s → ensureInitialized env n B s s1 →
  metadataRef B s1 = (md, s2) →
  activatePlugin env (S n) B s =
    match activateDependencies (activatePlugin env n)
            (getPluginDependencies md) s2 with
    | None => None
    | Some (false, s3) => Some (false, s3)
    | Some (true, s3) =>
        match callHook env B HActivate s3 with
        | None => None
        | Some (out, s4) =>
            Some (bool_decide (out = Returns true), finishActivate B out s3)
        end
    end.
Proof.
  intros (Hinit & Hloaded & Hna & Hnf) Hens Hmd. simpl.
  rewrite Hinit. simpl.
  rewrite (proj2 (isPluginLoaded_true s B) (conj Hinit Hloaded)). simpl.
  rewrite !bool_decide_false by done.
  assert ((if bool_decide (stateOf s B = Initialized)
           then Some (true, s) else initializePlugin env n B s) = Some (true, s1))
    as ->.
  { destruct Hens as [[Hi ->]|[Hni Hrun]].
    - by rewrite bool_decide_true.
    - by rewrite bool_decide_false. }
  rewrite Hmd.
  destruct (activateDependencies _ _ _) as [[[] s3]|]; [|done..].
  destruct (callHook env B HActivate s3) as [[out s4]|] eqn:Hhook; [|done].
  apply callHook_Some in Hhook as (plugin & _ & _ & ->).
  unfold finishActivate. cbv zeta. by destruct out as [[]|e].
Qed.

Lemma failed_dependency_stops n B s A sA sA' :
  reachesDependency env n B s A sA →
  activatePlugin env n A sA = Some (false, sA') →
  activatePlugin env (S n) B s = Some (false, sA') ∧
  Forall (λ e, ¬ activateHookOf {[B]} e) (newEvents s sA').
Proof.
  intros (Hchecks & s1 & md & s2 & before & after & Hens & Hmd & Hdeps & Hpre & HnaA)
         Hcall.
  split.
  - rewrite (activatePlugin_from_loop _ _ _ _ _ _ Hchecks Hens Hmd), Hdeps.
    rewrite (activateDependencies_app _ _ _ _ _ Hpre). simpl.
    rewrite bool_decide_false by done. by rewrite Hcall.
  - pose proof (before_loop_quiet _ _ _ _ _ _ _ Hens Hmd) as H2.
    destruct Hchecks as (_ & _ & HnaB & _).
    assert (ActivateLoop (activatePlugin env n) (before ++ [A]) s2 false sA') as Hloop.
    { apply activateDependencies_run.
      rewrite (activateDependencies_app _ _ _ _ _ Hpre). simpl.
      rewrite bool_decide_false by done. by rewrite Hcall. }
    eapply no_activateHookOf_app; [exact H2| | |].
    + eapply ActivateLoop_advances; [|done]. apply activatePlugin_advances.
    + apply quiet_no_activateHookOf, H2.
    + eapply ActivateLoop_supported; [apply activatePlugin_supported|done|].
      intros d Hd.
      assert (({[B]} : gset string) = ∅ ∪ {[B]}) as -> by set_solver.
      eapply pending_supported; [|done|exact H2|apply H2| |].
      * intros Z HZ. set_solver.
      * by eapply metadataRef_lookup.
      * rewrite Hdeps. set_solver.
Qed.
End FailedDependency.

(** ** The recursive paths have no cycle guard *)

Section NoGuard.
Context (env : Env).

Lemma initializePlugin_self_dependency X s md rest :
  m_initialized s = true → is_Some (m_plugins s !! X) →
  stateOf s X ≠ Initialized → stateOf s X ≠ Active → stateOf s X ≠ Failed →
  m_pluginMetadata s !! X = Some md → getPluginDependencies md = X :: rest →
  ∀ fuel, initializePlugin env fuel X s = None.
Proof.
  intros Hinit Hloaded Hni Hna Hnf Hmd Hdeps fuel.
  induction fuel as [|n IH]; [done|]. simpl.
  rewrite Hinit. simpl.
  rewrite (proj2 (isPluginLoaded_true s X) (conj Hinit Hloaded)). simpl.
  rewrite (proj2 (needsInitialize_true s X) (conj Hni Hna)). simpl.
  rewrite bool_decide_false by done.
  unfold metadataRef. rewrite Hmd, Hdeps. simpl.
  rewrite (proj2 (isPluginLoaded_true s X) (conj Hinit Hloaded)).
  rewrite (proj2 (needsInitialize_true s X) (conj Hni Hna)).
  by rewrite IH.
Qed.

Lemma activatePlugin_self_dependency X s md rest :
  m_initialized s = true → is_Some (m_plugins s !! X) →
  stateOf s X ≠ Active → stateOf s X ≠ Failed →
  m_pluginMetadata s !! X = Some md → getPluginDependencies md = X :: rest →
  ∀ fuel, activatePlugin env fuel X s = None.
Proof.
  intros Hinit Hloaded Hna Hnf Hmd Hdeps fuel.
  induction fuel as [|n IH]; [done|]. simpl.
  rewrite Hinit. simpl.
  rewrite (proj2 (isPluginLoaded_true s X) (conj Hinit Hloaded)). simpl.
  rewrite !bool_decide_false by done.
  case_bool_decide as Hi.
  - unfold metadataRef. rewrite Hmd, Hdeps. simpl.
    rewrite bool_decide_false by done. by rewrite IH.
  - by erewrite initializePlugin_self_dependency.
Qed.
End NoGuard.

(** ** The sort stays within the ids it is given and their dependencies *)

Section Within.
Context (self : PluginManager) (U : gset string).
Hypothesis Hclosed : ∀ id d, id ∈ U → d ∈ dependenciesOf self id → d ∈ U.

Lemma visitUnvisited_within visit ids :
  (∀ id acc acc', id ∈ U → visit id acc = Some acc' →
                  (∀ x, x ∈ acc.2 → x ∈ U) → ∀ x, x ∈ acc'.2 → x ∈ U) →
  (∀ id, id ∈ ids → id ∈ U) →
  ∀ acc acc', visitUnvisited visit ids acc = Some acc' →
              (∀ x, x ∈ acc.2 → x ∈ U) → ∀ x, x ∈ acc'.2 → x ∈ U.
Proof.
  intros Hvisit. induction ids as [|id ids IH]; intros Hids acc acc' Hrun Hacc;
    simpl in Hrun.
  { by simplify_eq. }
  assert (∀ x, x ∈ ids → x ∈ U) as Hids' by set_solver.
  destruct (decide (id ∈ acc.1)); [exact (IH Hids' acc acc' Hrun Hacc)|].
  destruct (visit id acc) as [acc1|] eqn:Hv; [|done].
  apply (IH Hids' acc1 acc' Hrun).
  apply (Hvisit id acc acc1); [set_solver|done..].
Qed.

Lemma buildDependencyGraph_within fuel :
  ∀ id acc acc', id ∈ U → buildDependencyGraph self fuel id acc = Some acc' →
                 (∀ x, x ∈ acc.2 → x ∈ U) → ∀ x, x ∈ acc'.2 → x ∈ U.
Proof.
  induction fuel as [|n IH]; intros id [v l] acc' Hid Hrun Hacc; [done|].
  simpl in *.
  destruct (m_pluginMetadata self !! id) as [md|] eqn:Hmd.
  - destruct (visitUnvisited _ _ _) as [[v1 l1]|] eqn:Hloop; [|done].
    simplify_eq. simpl. intros x [Hx| ->%list_elem_of_singleton]%elem_of_app; [|done].
    revert x Hx.
    apply (visitUnvisited_within _ _ IH) with (acc := ({[id]} ∪ v, l)) (2 := Hloop);
      [|done].
    intros d Hd. apply (Hclosed id); [done|].
    by rewrite (dependenciesOf_Some _ _ _ Hmd).
  - simplify_eq. simpl. intros x [Hx| ->%list_elem_of_singleton]%elem_of_app; auto.
Qed.

Lemma sortPluginsGraph_within fuel ids v l :
  (∀ id, id ∈ ids → id ∈ U) → sortPluginsGraph self fuel ids = Some (v, l) →
  ∀ x, x ∈ l → x ∈ U.
Proof.
  intros Hids Hrun.
  apply (visitUnvisited_within _ _ (buildDependencyGraph_within fuel) Hids
           _ _ Hrun). simpl. by intros x ?%elem_of_nil.
Qed.
End Within.

Section Chain.
Context (self : PluginManager).

Lemma chain_sorted a b c l :
  NoDup l → (∀ x, x ∈ l ↔ x ∈ [a; b; c]) → a ≠ b → b ≠ c → a ≠ c →
  dependenciesFirst self l → dependenciesOf self c = [b] →
  dependenciesOf self b = [a] → l = [a; b; c].
Proof.
  intros Hnd Hel Hab Hbc Hac Hfirst Hc Hb.
  assert (l ≡ₚ [a; b; c]) as Hperm.
  { apply NoDup_Permutation; [done| |done].
    repeat constructor; set_solver. }
  pose proof (Permutation_length Hperm) as Hlen. simpl in Hlen.
  assert (c ∈ l) as [ic Hic]%list_elem_of_lookup by (apply Hel; set_solver).
  destruct (Hfirst ic c b Hic) as (ib & Hltb & Hib); [rewrite Hc; set_solver|].
  destruct (Hfirst ib b a Hib) as (ia & Hlta & Hia); [rewrite Hb; set_solver|].
  pose proof (lookup_lt_Some _ _ _ Hic).
  assert (ia = 0 ∧ ib = 1 ∧ ic = 2) as (-> & -> & ->) by lia.
  destruct l as [|x [|y [|z [|]]]]; simplify_eq/=. done.
Qed.
End Chain.

(** ** The message bus: what a purge removes *)

Section Purge.
Lemma splitOn_without c s : without c s → splitOn c s = [s].
Proof.
  induction s as [|c' s IH]; simpl; [done|]. intros [Hne Hs].
  rewrite decide_False by done. by rewrite IH.
Qed.



Lemma foldl_delete_lookup {V} (ks : list string) :
  ∀ (m : gmap string V) k,
    foldl (λ m k, delete k m) m ks !! k = if decide (k ∈ ks) then None else m !! k.
Proof.
  induction ks as [|k' ks IH]; intros m k.
  { simpl. destruct (decide (k ∈ [])) as [Hin|]; [|done]. by apply elem_of_nil in Hin. }
  simpl.
  rewrite IH.
  destruct (decide (k ∈ ks)) as [Hin|Hnin], (decide (k ∈ k' :: ks)) as [Hin'|Hnin'];
    try done; try set_solver.
  - apply elem_of_cons in Hin' as [->|?]; [|done]. apply lookup_delete_eq.
  - apply lookup_delete_ne. set_solver.
Qed.

End Purge.

(** ** [unloadPlugin] *)

Section Unload.
Context (env : Env).

Lemma unloadPlugin_blocked fuel A B md s :
  m_initialized s = true → is_Some (m_plugins s !! A) →
  m_pluginMetadata s !! B = Some md → A ∈ getPluginDependencies md → B ≠ A →
  unloadPlugin env fuel A s = Some (Normal false, s).
Proof.
  intros Hinit Hloaded Hmd Hdep Hne. unfold unloadPlugin.
  rewrite Hinit. simpl.
  rewrite (proj2 (isPluginLoaded_true s A) (conj Hinit Hloaded)). simpl.
  rewrite bool_decide_false; [done|].
  intros Hnil. assert (B ∈ getDependentPlugins s A) as HB; [|by rewrite Hnil in HB;
    apply elem_of_nil in HB].
  unfold getDependentPlugins. apply list_elem_of_filter. split.
  - split; [done|]. unfold declaresDependency. rewrite Hmd. by apply dependsOn_true.
  - apply elem_of_qkeys. by eexists.
Qed.

Lemma unloadPlugin_unfold fuel X s :
  unloadPlugin env fuel X s =
    if negb (m_initialized s) then Some (Normal false, s)
    else if negb (isPluginLoaded s X) then Some (Normal true, s)
    else if negb (bool_decide (getDependentPlugins s X = [])) then
      Some (Normal false, s)
    else
      match (if isPluginActive s X then deactivatePlugin env fuel X s
             else Some (true, s)) with
      | None => None
      | Some (false, s1) => Some (Normal false, s1)
      | Some (true, s1) => releasePlugin env X s1
      end.
Proof. done. Qed.

Lemma releasePlugin_spec X s1 c s' :
  releasePlugin env X s1 = Some (c, s') →
  events s1 `prefix_of` events s' ∧
  Forall releaseEvent (newEvents s1 s') ∧
  (∀ i loader ok, newEvents s1 s' !! i = Some (EvUnload loader ok) →
                  ∃ j, i = S j ∧ newEvents s1 s' !! j = Some (EvPurge X)) ∧
  (∀ id, EvPurge id ∈ newEvents s1 s' →
         comm s' = (unregisterAllMessageHandlers X (comm s1)).2).
Proof.
  unfold releasePlugin. intros Hrun.
  assert (∃ pre out s2,
            (if bool_decide (stateOf s1 X = Initialized)
             then callHook env X HShutdown s1
             else match m_plugins s1 !! X with
                  | Some _ => Some (Returns true, s1)
                  | None => None
                  end) = Some (out, s2) ∧
            events s2 = events s1 ++ pre ∧ comm s2 = comm s1 ∧
            Forall releaseEvent pre ∧
            ∀ e, e ∈ pre → ∃ snap o, e = EvHook X HShutdown snap o)
    as (pre & out & s2 & Hphase & Hev2 & Hcomm2 & Hpre & Hhook).
  { case_bool_decide.
    - destruct (callHook env X HShutdown s1) as [[out s2]|] eqn:Hhook; [|done].
      apply callHook_Some in Hhook as (plugin & _ & _ & ->).
      eexists [_], out, _. split_and!; [done..| |].
      + by repeat constructor.
      + intros e ->%list_elem_of_singleton. eauto.
    - destruct (m_plugins s1 !! X); [|done].
      exists [], (Returns true), s1. rewrite app_nil_r.
      split_and!; [done..|constructor|]. by intros e ?%elem_of_nil. }
  rewrite Hphase in Hrun.
  assert (∀ tl, events s' = events s2 ++ tl → newEvents s1 s' = pre ++ tl) as Hnew.
  { intros tl Htl. unfold newEvents. rewrite Htl, Hev2, <- app_assoc.
    by rewrite drop_app_length. }
  assert (∀ e, e ∈ pre → ∀ id, e ≠ EvPurge id) as Hnp.
  { intros e He id ->. by destruct (Hhook _ He) as (? & ? & ?). }
  assert (∀ i l ok, pre !! i = Some (EvUnload l ok) → False) as Hnu.
  { intros i l ok Hi. apply list_elem_of_lookup_2 in Hi.
    by destruct (Hhook _ Hi) as (? & ? & ?). }
  destruct out as [[]|e]; simplify_eq; cycle 1.
  - (* the hook answered false *)
    rewrite (Hnew []) by (by rewrite app_nil_r). rewrite app_nil_r.
    split_and!; [by exists pre|done| |].
    + intros i l ok Hi. by destruct (Hnu _ _ _ Hi).
    + intros id Hid. by destruct (Hnp _ Hid id).
  - (* the hook threw *)
    rewrite (Hnew []) by (by rewrite app_nil_r). rewrite app_nil_r.
    split_and!; [by exists pre|done| |].
    + intros i l ok Hi. by destruct (Hnu _ _ _ Hi).
    + intros id Hid. by destruct (Hnp _ Hid id).
  - simpl in Hrun. destruct (m_pluginLoaders s2 !! X) as [loader|]; [|done].
    set (ok := loaderUnload env loader (events s2 ++ [EvPurge X])) in *.
    assert (∃ tl, events s' = events s2 ++ EvPurge X :: EvUnload loader ok :: tl ∧
                  Forall releaseEvent tl ∧
                  (∀ i l o, tl !! i = Some (EvUnload l o) → False) ∧
                  comm s' = (unregisterAllMessageHandlers X (comm s1)).2)
      as (tl & Htl & Hrel & Hntl & Hcomm).
    { destruct ok; simpl in Hrun; simplify_eq; simpl; rewrite <- ?app_assoc; simpl.
      - exists [EvSignal (pluginUnloaded X)].
        split_and!; [done|by repeat constructor| |by rewrite Hcomm2].
        by intros [|[|i]] l o Hi.
      - exists []. split_and!; [done|constructor| |by rewrite Hcomm2].
        by intros i l o Hi. }
    rewrite (Hnew _ Htl). split_and!.
    + rewrite Htl, Hev2, <- app_assoc. by apply prefix_app_r.
    + apply Forall_app. split; [done|]. by repeat constructor.
    + intros i l o [Hi|[Hlen Hi]]%lookup_app_Some; [by destruct (Hnu _ _ _ Hi)|].
      destruct (i - length pre) as [|[|k]] eqn:Hk; simplify_eq/=.
      * exists (length pre). split; [lia|].
        rewrite lookup_app_r by lia. by rewrite Nat.sub_diag.
      * by destruct (Hntl _ _ _ Hi).
    + done.
Qed.

Lemma deactivation_not_release e : deactivationEvent e → releaseEvent e → False.
Proof. by destruct e as [[]|? []| | |]. Qed.

End Unload.

(** ** Metadata: parsing and scanning *)

Section Scan.
Context (env : Env).

Lemma requiredFieldsPresent_missing o key :
  key ∈ requiredFields → jcontains o key = false → requiredFieldsPresent o = false.
Proof.
  unfold requiredFields, requiredFieldsPresent. intros Hkey Hmissing.
  repeat (apply elem_of_cons in Hkey as [->|Hkey]);
    [..|by apply elem_of_nil in Hkey]; rewrite Hmissing;
    by rewrite ?andb_false_r.
Qed.

Lemma loadFromDocument_valid self doc :
  (loadFromDocument self doc).1 = m_isValid (loadFromDocument self doc).2.
Proof. by destruct doc. Qed.

Lemma loadFromDocument_missing self doc key :
  key ∈ requiredFields →
  (∀ o, doc = DocObject o → jcontains o key = false) →
  (loadFromDocument self doc).1 = false ∧
  m_isValid (loadFromDocument self doc).2 = false.
Proof.
  intros Hkey Hmissing. rewrite <- loadFromDocument_valid.
  destruct doc as [| |o]; simpl; [done..|].
  split; by eapply requiredFieldsPresent_missing, Hmissing.
Qed.

Lemma loadPluginMetadata_incomplete self id :
  descriptorIncomplete env self id → loadPluginMetadata env id self = (false, self).
Proof.
  intros Hinc. unfold loadPluginMetadata.
  fold (descriptorPath env self id).
  destruct (fileExists env _); simpl; [|done].
  unfold loadFromFile.
  destruct (readFile env (descriptorPath env self id)) as [data|] eqn:Hread; [|done].
  destruct (Hinc data Hread) as (key & Hkey & Hmissing).
  destruct (loadFromDocument_missing emptyMetadata _ _ Hkey Hmissing) as [Hok _].
  destruct (loadFromDocument emptyMetadata (fromJson env data)) as [ok md].
  simpl in Hok. by rewrite Hok.
Qed.

Lemma loadPluginMetadata_other self k id ok self' :
  loadPluginMetadata env k self = (ok, self') → k ≠ id →
  m_pluginMetadata self' !! id = m_pluginMetadata self !! id ∧
  m_metadataDir self' = m_metadataDir self.
Proof.
  unfold loadPluginMetadata. intros Hrun Hne.
  repeat (case_match; simplify_eq; try done).
  simpl. by rewrite lookup_insert_ne.
Qed.

Lemma descriptorIncomplete_dir self self' id :
  m_metadataDir self' = m_metadataDir self →
  descriptorIncomplete env self id → descriptorIncomplete env self' id.
Proof. unfold descriptorIncomplete, descriptorPath. by intros ->. Qed.

Lemma scanFiles_incomplete id files :
  ∀ ids self ids' self',
    descriptorIncomplete env self id → scanFiles env files ids self = (ids', self') →
    (id ∈ ids' → id ∈ ids) ∧
    m_pluginMetadata self' !! id = m_pluginMetadata self !! id.
Proof.
  induction files as [|f files IH]; intros ids self ids' self' Hinc Hrun;
    simpl in Hrun.
  { by simplify_eq. }
  destruct (loadPluginMetadata env (baseName f) self) as [ok self1] eqn:Hload.
  destruct (decide (baseName f = id)) as [Heq|Hne].
  - rewrite Heq, (loadPluginMetadata_incomplete _ _ Hinc) in Hload. simplify_eq.
    by eapply IH.
  - destruct (loadPluginMetadata_other _ _ _ _ _ Hload Hne) as [Hreg Hdir].
    destruct (IH _ _ _ _ (descriptorIncomplete_dir _ _ _ Hdir Hinc) Hrun)
      as [Hin Hreg'].
    split; [|congruence]. intros Hid. specialize (Hin Hid).
    destruct ok; [|done]. apply elem_of_app in Hin as [?|Hin]; [done|].
    by apply list_elem_of_singleton in Hin.
Qed.

Lemma scanForPlugins_incomplete self id :
  descriptorIncomplete env self id →
  (id ∉ fst (scanForPlugins env self)) ∧
  m_pluginMetadata (snd (scanForPlugins env self)) !! id = m_pluginMetadata self !! id.
Proof.
  intros Hinc. unfold scanForPlugins.
  destruct (m_initialized self); simpl; [|split; [apply not_elem_of_nil|done]].
  destruct (scanFiles env _ [] self) as [ids' self'] eqn:Hrun.
  destruct (scanFiles_incomplete _ _ _ _ _ _ Hinc Hrun) as [Hin Hreg].
  split; [|done]. intros Hid. by apply Hin, elem_of_nil in Hid.
Qed.
End Scan.

(** ** Loading a plugin the framework is too old for *)

Section Incompatible.
Context (env : Env).

Lemma isCompatibleWithFramework_newer md :
  requiresNewerFramework env md → isCompatibleWithFramework env md m_frameworkVersion = false.
Proof.
  unfold requiresNewerFramework, isCompatibleWithFramework, versionGe. intros Hlt.
  destruct (m_isValid md); simpl; [|done]. apply bool_decide_eq_false. lia.
Qed.

Lemma loadPlugin_incompatible X s md :
  m_initialized s = true → m_plugins s !! X = None →
  m_pluginMetadata s !! X = Some md → requiresNewerFramework env md →
  loadPlugin env X s =
    (false, failPlugin X ("Incompatible with framework version " +:+ m_frameworkVersion) s).
Proof.
  intros Hinit Hnl Hmd Hnewer. unfold loadPlugin. rewrite Hinit. simpl.
  rewrite (proj2 (isPluginLoaded_false s X Hinit) Hnl), Hmd. simpl.
  unfold metadataRef. rewrite Hmd.
  by rewrite (isCompatibleWithFramework_newer _ Hnewer).
Qed.

Lemma activatePlugin_not_loaded n X s :
  m_plugins s !! X = None → activatePlugin env (S n) X s = Some (false, s).
Proof.
  intros Hnl. simpl. destruct (m_initialized s) eqn:Hinit; [|done]. simpl.
  by rewrite (proj2 (isPluginLoaded_false s X Hinit) Hnl).
Qed.
End Incompatible.

(** ** A second call changes nothing *)

Section Idempotence.
Context (env : Env).

Lemma loadPlugin_success X s r s' :
  loadPlugin env X s = (r, s') → r = true →
  m_initialized s = true ∧ is_Some (m_plugins s' !! X).
Proof.
  unfold loadPlugin. intros Hrun Hr.
  destruct (m_initialized s) eqn:Hinit; simpl in Hrun; [|by simplify_eq].
  split; [done|].
  destruct (isPluginLoaded s X) eqn:Hloaded.
  { simplify_eq. by apply isPluginLoaded_true in Hloaded as [_ ?]. }
  destruct (match m_pluginMetadata s !! X with
            | Some _ => (true, s)
            | None => loadPluginMetadata env X s
            end) as [ok1 s1].
  destruct ok1; simpl in Hrun; [|by simplify_eq].
  destruct (metadataRef X s1) as [md s2].
  destruct (isCompatibleWithFramework env md m_frameworkVersion); simpl in Hrun;
    [|by simplify_eq].
  destruct (checkPluginDependencies env X s2) as [ok3 s3].
  destruct ok3; simpl in Hrun; [|by simplify_eq].
  destruct (fileExists env _); simpl in Hrun; [|by simplify_eq].
  destruct (loaderLoad env _ _); simplify_eq.
  simpl. rewrite lookup_insert_eq. by eexists.
Qed.

Lemma loadPlugin_twice X s s1 :
  loadPlugin env X s = (true, s1) → loadPlugin env X s1 = (true, s1).
Proof.
  intros Hrun.
  destruct (loadPlugin_success _ _ _ _ Hrun eq_refl) as [Hinit Hloaded].
  pose proof (loadPlugin_advances _ _ _ _ _ Hrun) as Hadv.
  rewrite <- (adv_initialized _ _ _ Hadv) in Hinit.
  unfold loadPlugin. rewrite Hinit. simpl.
  by rewrite (proj2 (isPluginLoaded_true s1 X) (conj Hinit Hloaded)).
Qed.

Lemma initializePlugin_success n X s r s' :
  initializePlugin env n X s = Some (r, s') → r = true →
  m_initialized s' = true ∧ is_Some (m_plugins s' !! X) ∧
  (stateOf s' X = Initialized ∨ stateOf s' X = Active).
Proof.
  destruct n as [|n]; [done|]. intros Hrun.
  pose proof (initializePlugin_advances _ _ _ _ _ _ Hrun) as Hadv.
  apply initializePlugin_run in Hrun.
  destruct Hrun as [?|? ? ?|md s1 s2 Hchecks Hmd Hloop
                   |md s1 s2 plugin out Hchecks Hmd Hloop Hplugin Hout];
    intros Hr; try done.
  destruct Hchecks as (Hinit & [p Hp] & _).
  split_and!.
  - by rewrite (adv_initialized _ _ _ Hadv).
  - exists p. by eapply adv_plugins.
  - left. unfold finishInitialize. cbv zeta. rewrite Hr.
    by rewrite stateOf_emit, stateOf_setState, decide_True.
Qed.

Lemma initializePlugin_twice n m X s s1 :
  initializePlugin env n X s = Some (true, s1) →
  initializePlugin env (S m) X s1 = Some (true, s1).
Proof.
  intros Hrun.
  destruct (initializePlugin_success _ _ _ _ _ Hrun eq_refl) as (Hinit & Hl & Hst).
  simpl. rewrite Hinit. simpl.
  rewrite (proj2 (isPluginLoaded_true s1 X) (conj Hinit Hl)). simpl.
  by rewrite (proj2 (needsInitialize_false s1 X) Hst).
Qed.

Lemma activatePlugin_twice n m X s s1 :
  activatePlugin env n X s = Some (true, s1) →
  activatePlugin env (S m) X s1 = Some (true, s1).
Proof.
  intros Hrun. destruct (activatePlugin_true _ _ _ _ _ Hrun) as (Hst & Hl & Hinit).
  simpl. rewrite Hinit. simpl.
  rewrite (proj2 (isPluginLoaded_true s1 X) (conj Hinit Hl)). simpl.
  by rewrite bool_decide_true.
Qed.
End Idempotence.

(** ** The operations do return when the hook is reached *)

Section Returns.
Context (env : Env).

Lemma initializePlugin_from_loop n X s md s1 :
  initChecks X s → metadataRef X s = (md, s1) →
  initializePlugin env (S n) X s =
    match initializeDependencies env (initializePlugin env n) X
            (getPluginDependencies md) s1 with
    | None => None
    | Some (false, s2) => Some (false, s2)
    | Some (true, s2) =>
        match callHook env X HInitialize s2 with
        | None => None
        | Some (out, _) =>
            Some (bool_decide (out = Returns true), finishInitialize X out s2)
        end
    end.
Proof.
  intros (Hinit & Hloaded & Hni & Hna & Hnf) Hmd. simpl. rewrite Hinit. simpl.
  rewrite (proj2 (isPluginLoaded_true s X) (conj Hinit Hloaded)). simpl.
  rewrite (proj2 (needsInitialize_true s X) (conj Hni Hna)). simpl.
  rewrite bool_decide_false by done. rewrite Hmd.
  destruct (initializeDependencies _ _ _ _ _) as [[[] s2]|]; [|done..].
  destruct (callHook env X HInitialize s2) as [[out s3]|] eqn:Hhook; [|done].
  apply callHook_Some in Hhook as (plugin & _ & _ & ->).
  unfold finishInitialize. cbv zeta. by destruct out as [[]|e].
Qed.

Lemma deactivatePlugin_from_loop n X s L s1 :
  m_initialized s = true → is_Some (m_plugins s !! X) → stateOf s X = Active →
  activeDependents X (qkeys (m_plugins s)) s = (L, s1) →
  deactivatePlugin env (S n) X s =
    match deactivateDependents (deactivatePlugin env n) L s1 with
    | None => None
    | Some (false, s2) => Some (false, s2)
    | Some (true, s2) =>
        match callHook env X HDeactivate s2 with
        | None => None
        | Some (out, _) =>
            Some (bool_decide (out = Returns true), finishDeactivate X out s2)
        end
    end.
Proof.
  intros Hinit Hloaded Hact HL. simpl. rewrite Hinit. simpl.
  rewrite (proj2 (isPluginLoaded_true s X) (conj Hinit Hloaded)). simpl.
  rewrite bool_decide_true by done. simpl. rewrite HL.
  destruct (deactivateDependents _ _ _) as [[[] s2]|]; [|done..].
  destruct (callHook env X HDeactivate s2) as [[out s3]|] eqn:Hhook; [|done].
  apply callHook_Some in Hhook as (plugin & _ & _ & ->).
  unfold finishDeactivate. cbv zeta. by destruct out as [[]|e].
Qed.
End Returns.

(** ** Checks that compute *)

Lemma activeLoadedCheck_sound self : activeLoadedCheck self = true → activeLoaded self.
Proof.
  unfold activeLoadedCheck, activeLoaded, stateOf, stateIn.
  intros Hcheck%bool_decide_eq_true k Hk.
  destruct (m_pluginStates self !! k) as [st|] eqn:Hst; [|done].
  simpl in Hk. subst. by apply (Hcheck k Active Hst).
Qed.

Lemma acyclicCheck_sound rank self : acyclicCheck rank self = true → acyclic self.
Proof.
  unfold acyclicCheck, acyclic, dependenciesOf.
  intros Hcheck%bool_decide_eq_true. exists rank. intros id d Hd.
  destruct (m_pluginMetadata self !! id) as [md|] eqn:Hmd; [|by apply elem_of_nil in Hd].
  by apply (proj1 (Forall_forall _ _) (Hcheck id md Hmd)).
Qed.

(** * The dependency order *)

(** C10. [sortPluginsByDependency] terminates on every registry, with or
    without dependency cycles (some recursion depth is enough, and any larger
    one gives the same result); its result has no duplicate and holds exactly
    the visited ids, among them all the ids it was given.  The recursive
    lifecycle paths have no such guard: on a loaded plugin whose first
    dependency is itself, neither [initializePlugin] nor [activatePlugin]
    comes back, whatever the depth allowed. *)
Theorem sort_terminates_without_duplicates
    (env : Env) (self : PluginManager) (pluginIds : list string) :
  (∃ fuel visited sorted,
     sortPluginsGraph self fuel pluginIds = Some (visited, sorted) ∧
     (∀ fuel', fuel ≤ fuel' →
               sortPluginsByDependency self fuel' pluginIds = Some sorted) ∧
     NoDup sorted ∧ (∀ id, id ∈ sorted ↔ id ∈ visited) ∧
     (∀ id, id ∈ pluginIds → id ∈ sorted)) ∧
  (∀ X md rest,
     m_initialized self = true → is_Some (m_plugins self !! X) →
     stateOf self X = Loaded → m_pluginMetadata self !! X = Some md →
     getPluginDependencies md = X :: rest →
     ∀ fuel, initializePlugin env fuel X self = None ∧
             activatePlugin env fuel X self = None).
Proof.
  split.
  - destruct (sortPluginsGraph_terminates self pluginIds) as [[visited sorted] Hrun].
    exists (size (idUniverse self pluginIds)), visited, sorted.
    destruct (sortPluginsGraph_grows _ _ _ _ _ Hrun) as (Hnd & Hv & Hall).
    split_and!; [done| |done| |done].
    + intros fuel' Hle. unfold sortPluginsByDependency.
      by rewrite (sortPluginsGraph_fuel_mono _ _ _ _ _ Hle Hrun).
    + intros id. rewrite Hv. set_solver.
  - intros X md rest Hinit Hloaded Hstate Hmd Hdeps fuel. split.
    + eapply initializePlugin_self_dependency; [done..| | | |done|done];
        by rewrite Hstate.
    + eapply activatePlugin_self_dependency; [done..| | |done|done];
        by rewrite Hstate.
Qed.

Lemma sort_terminates_without_duplicates_witness :
  sortPluginsByDependency selfLoaded 2 ["S"] = Some ["S"] ∧
  ∀ fuel, initializePlugin selfEnv fuel "S" selfLoaded = None ∧
          activatePlugin selfEnv fuel "S" selfLoaded = None.
Proof.
  split; [vm_compute; reflexivity|].
  eapply (proj2 (sort_terminates_without_duplicates selfEnv selfLoaded ["S"])).
  - vm_compute; reflexivity.
  - vm_compute. eexists; reflexivity.
  - vm_compute; reflexivity.
  - vm_compute; reflexivity.
  - vm_compute; reflexivity.
Defined.

(** On a registry without dependency cycle, [sortPluginsByDependency]
    returns a sequence in which every id comes after each dependency its
    metadata declares, and the walk of [shutdown] is the reverse of that
    sequence.  For a chain, [c] depending on [b] and [b] on [a], the walk is
    [c], [b], [a]. *)
Lemma shutdownOrder_reverse_sorted (self : PluginManager) :
  acyclic self →
  ∃ fuel0 sorted,
    dependenciesFirst self sorted ∧ NoDup sorted ∧
    (∀ id, id ∈ qkeys (m_plugins self) → id ∈ sorted) ∧
    (∀ fuel, fuel0 ≤ fuel →
       sortPluginsByDependency self fuel (qkeys (m_plugins self)) = Some sorted ∧
       shutdownOrder fuel self = Some (reverse sorted)) ∧
    (∀ a b c, dependencyChain self a b c → a ≠ b → b ≠ c → a ≠ c →
              reverse sorted = [c; b; a]).
Proof.
  intros [rank Hrank].
  destruct (sortPluginsGraph_terminates self (qkeys (m_plugins self)))
    as [[visited sorted] Hrun].
  exists (size (idUniverse self (qkeys (m_plugins self)))), sorted.
  destruct (sortPluginsGraph_grows _ _ _ _ _ Hrun) as (Hnd & Hv & Hall).
  pose proof (sortPluginsGraph_dependenciesFirst _ rank Hrank _ _ _ _ Hrun) as Hfirst.
  split_and!; [done..| |].
  - intros fuel Hle.
    assert (sortPluginsByDependency self fuel (qkeys (m_plugins self)) = Some sorted)
      as Hsort.
    { unfold sortPluginsByDependency.
      by rewrite (sortPluginsGraph_fuel_mono _ _ _ _ _ Hle Hrun). }
    split; [done|].
    unfold shutdownOrder. rewrite Hsort. simpl. by rewrite reverseInPlace_reverse.
  - intros a b c (Hc & Hb & Ha & Hdom) Hab Hbc Hac.
    assert (sorted = [a; b; c]) as ->; [|done].
    apply (chain_sorted self); [done| |done..].
    intros x. split.
    + intros Hx.
      assert (x ∈ ({[a; b; c]} : gset string)) as Hin; [|set_solver].
      revert x Hx.
      apply (sortPluginsGraph_within self {[a; b; c]}) with (3 := Hrun).
      * intros id d Hid. apply elem_of_union in Hid as [Hid| ->%elem_of_singleton].
        -- apply elem_of_union in Hid as [->%elem_of_singleton| ->%elem_of_singleton].
           ++ rewrite Ha. by intros ?%elem_of_nil.
           ++ rewrite Hb. set_solver.
        -- rewrite Hc. set_solver.
      * intros id Hid%elem_of_qkeys. rewrite <- Hdom. by apply elem_of_dom.
    + intros Hx. apply Hall, elem_of_qkeys, elem_of_dom. rewrite Hdom. set_solver.
Qed.

(** * Activation *)

(** C1. [activatePlugin] activates the dependencies first.  From a state in
    which every active plugin is loaded, whenever the call returns, each
    activate hook it ran (that of [B] included) ran on a state table in which
    every dependency [A] declared by the plugin's metadata was [Active]; and
    [A] was either active before the call, or its [pluginActivated] signal
    precedes that hook in the record.  When the activation of [B] has reached
    a dependency [A] that is not active and activating [A] returns [false],
    the activation of [B] returns [false] too, and no activate hook of [B] is
    recorded. *)
Theorem activate_dependency_first (env : Env) (n : nat) (B : string)
    (s : PluginManager) :
  activeLoaded s →
  (∀ r s', activatePlugin env n B s = Some (r, s') → dependenciesActiveAtHook s s') ∧
  (∀ A sA sA',
     reachesDependency env n B s A sA →
     activatePlugin env n A sA = Some (false, sA') →
     activatePlugin env (S n) B s = Some (false, sA') ∧
     Forall (λ e, ¬ activateHookOf {[B]} e) (newEvents s sA')).
Proof.
  intros Hal. split.
  - intros r s' Hrun. by eapply activatePlugin_dependenciesActiveAtHook.
  - intros A sA sA' Hreach HA. by eapply failed_dependency_stops.
Qed.

Lemma activate_dependency_first_witness :
  dependenciesActiveAtHook chainLoaded chainActive ∧
  activatePlugin stalledEnv 4 "B" stalledLoaded = Some (false, stalledFailed) ∧
  Forall (λ e, ¬ activateHookOf {["B"]} e) (newEvents stalledLoaded stalledFailed).
Proof.
  assert (activeLoaded chainLoaded) as Hchain
    by (apply activeLoadedCheck_sound; vm_compute; reflexivity).
  assert (activeLoaded stalledLoaded) as Hstalled
    by (apply activeLoadedCheck_sound; vm_compute; reflexivity).
  split.
  - apply (proj1 (activate_dependency_first chainEnv 4 "C" chainLoaded Hchain) true).
    vm_compute; reflexivity.
  - apply (proj2 (activate_dependency_first stalledEnv 3 "B" stalledLoaded Hstalled)
             "A" stalledInitialized).
    + split.
      * repeat split; [vm_compute; by eexists|vm_compute; discriminate..].
      * exists stalledInitialized,
          (fst (metadataRef "B" stalledInitialized)), stalledInitialized, [], [].
        split_and!.
        -- right. split; [vm_compute; discriminate|vm_compute; reflexivity].
        -- vm_compute; reflexivity.
        -- vm_compute; reflexivity.
        -- reflexivity.
        -- vm_compute; discriminate.
    + vm_compute; reflexivity.
Defined.

(** * Unloading *)

(** C3. With the manager initialized and [A] loaded, [unloadPlugin A] returns
    [false] and changes nothing at all (state table, loader handles, plugin
    objects) as soon as the registry holds, under another id [B], metadata
    that declares [A] as a dependency; nothing is asked about [B] being
    loaded or active. *)
Theorem unload_blocked_by_dependent (env : Env) (fuel : nat) (A B : string)
    (md : PluginMetadata) (s : PluginManager) :
  m_initialized s = true → is_Some (m_plugins s !! A) →
  m_pluginMetadata s !! B = Some md → A ∈ getPluginDependencies md → B ≠ A →
  unloadPlugin env fuel A s = Some (Normal false, s) ∧
  isPluginLoaded s A = true.
Proof.
  intros Hinit HA HB Hdep Hne. split.
  - by eapply unloadPlugin_blocked.
  - by apply isPluginLoaded_true.
Qed.

Lemma unload_blocked_by_dependent_witness :
  isPluginLoaded chainBase "B" = false ∧
  unloadPlugin chainEnv 1 "A" chainBase = Some (Normal false, chainBase) ∧
  isPluginLoaded chainBase "A" = true.
Proof.
  split; [vm_compute; reflexivity|].
  eapply (unload_blocked_by_dependent chainEnv 1 "A" "B").
  - vm_compute; reflexivity.
  - vm_compute. by eexists.
  - vm_compute; reflexivity.
  - vm_compute. apply list_elem_of_here.
  - discriminate.
Defined.

(** * Hook failures *)

(** C4. Whenever [initializePlugin] or [activatePlugin] returns, every
    initialize (resp. activate) hook recorded during the call that returned
    [false] or threw made the call return [false], left its plugin [Failed],
    and was followed by a [pluginFailed] signal with the failure message.
    Whenever [deactivatePlugin] returns, a deactivate hook that returned
    [false] or threw made the call return [false] with its plugin still
    [Active], and no [pluginFailed] signal was emitted.  The three calls do
    return once their loop over the other plugins has returned [true] and the
    hook has answered. *)
Theorem hook_failure_asymmetry (env : Env) (n : nat) (X : string) (s : PluginManager) :
  (∀ r s', initializePlugin env n X s = Some (r, s') →
           failureReported HInitialize initFailureMessage s r s') ∧
  (∀ r s', activatePlugin env n X s = Some (r, s') →
           failureReported HActivate activateFailureMessage s r s') ∧
  (∀ r s', deactivatePlugin env n X s = Some (r, s') →
           deactivationFailure s r s' ∧
           ∀ k message, EvSignal (pluginFailed k message) ∉ newEvents s s') ∧
  (∀ md s1 s2 out,
     initChecks X s → metadataRef X s = (md, s1) →
     initializeDependencies env (initializePlugin env n) X
       (getPluginDependencies md) s1 = Some (true, s2) →
     fst <$> callHook env X HInitialize s2 = Some out → out ≠ Returns true →
     initializePlugin env (S n) X s = Some (false, finishInitialize X out s2)) ∧
  (∀ s1 md s2 s3 out,
     activateChecks X s → ensureInitialized env n X s s1 →
     metadataRef X s1 = (md, s2) →
     activateDependencies (activatePlugin env n) (getPluginDependencies md) s2
       = Some (true, s3) →
     fst <$> callHook env X HActivate s3 = Some out → out ≠ Returns true →
     activatePlugin env (S n) X s = Some (false, finishActivate X out s3)) ∧
  (∀ L s1 s2 out,
     m_initialized s = true → is_Some (m_plugins s !! X) → stateOf s X = Active →
     activeDependents X (qkeys (m_plugins s)) s = (L, s1) →
     deactivateDependents (deactivatePlugin env n) L s1 = Some (true, s2) →
     fst <$> callHook env X HDeactivate s2 = Some out → out ≠ Returns true →
     deactivatePlugin env (S n) X s = Some (false, finishDeactivate X out s2)).
Proof.
  split_and!.
  - intros r s' Hrun. by eapply initializePlugin_failureReported.
  - intros r s' Hrun. by eapply activatePlugin_failureReported.
  - intros r s' Hrun. split; [by eapply deactivatePlugin_failure|].
    intros k message Hin.
    pose proof (st_recorded _ _ (deactivatePlugin_settles _ _ _ _ _ _ Hrun)) as Hrec.
    apply (proj1 (Forall_forall _ _) Hrec _ Hin).
  - intros md s1 s2 out Hchecks Hmd Hloop Hhook Hout.
    rewrite (initializePlugin_from_loop env n X s md s1 Hchecks Hmd), Hloop.
    destruct (callHook env X HInitialize s2) as [[out' s3]|]; simplify_eq/=.
    by rewrite bool_decide_false.
  - intros s1 md s2 s3 out Hchecks Hens Hmd Hloop Hhook Hout.
    rewrite (activatePlugin_from_loop env n X s s1 md s2 Hchecks Hens Hmd), Hloop.
    destruct (callHook env X HActivate s3) as [[out' s4]|]; simplify_eq/=.
    by rewrite bool_decide_false.
  - intros L s1 s2 out Hinit Hl Hst HL Hloop Hhook Hout.
    rewrite (deactivatePlugin_from_loop env n X s L s1 Hinit Hl Hst HL), Hloop.
    destruct (callHook env X HDeactivate s2) as [[out' s3]|]; simplify_eq/=.
    by rewrite bool_decide_false.
Qed.

Lemma hook_failure_asymmetry_witness :
  initializePlugin throwingEnv 1 "A" throwingLoaded = Some (false, throwingFailed) ∧
  stateOf throwingFailed "A" = Failed ∧
  EvSignal (pluginFailed "A" "Exception during initialization: boom")
    ∈ newEvents throwingLoaded throwingFailed.
Proof.
  assert (initializePlugin throwingEnv 1 "A" throwingLoaded
          = Some (false, throwingFailed)) as Hrun by (vm_compute; reflexivity).
  split; [done|].
  eapply (proj1 (hook_failure_asymmetry throwingEnv 1 "A" throwingLoaded)
            false throwingFailed Hrun "A" (m_pluginStates throwingLoaded)
            (Throws (StdException "boom"))).
  - vm_compute. apply list_elem_of_here.
  - discriminate.
Defined.

(** * Repeating and undoing *)

(** C8. When [loadPlugin], [initializePlugin] or [activatePlugin] has returned
    [true], calling it again on the state it left returns [true] and leaves
    that state as it is, record included: no module is loaded, no hook is
    called, no state changes and no signal is emitted. *)
Theorem lifecycle_idempotent (env : Env) (n m : nat) (X : string)
    (s s1 : PluginManager) :
  (loadPlugin env X s = (true, s1) → loadPlugin env X s1 = (true, s1)) ∧
  (initializePlugin env n X s = Some (true, s1) →
   initializePlugin env (S m) X s1 = Some (true, s1)) ∧
  (activatePlugin env n X s = Some (true, s1) →
   activatePlugin env (S m) X s1 = Some (true, s1)).
Proof.
  split_and!.
  - apply loadPlugin_twice.
  - apply initializePlugin_twice.
  - apply activatePlugin_twice.
Qed.

Lemma lifecycle_idempotent_witness :
  loadPlugin soloEnv "A" soloLoaded = (true, soloLoaded) ∧
  initializePlugin soloEnv 1 "A" soloInitialized = Some (true, soloInitialized) ∧
  activatePlugin soloEnv 1 "A" soloActive = Some (true, soloActive).
Proof.
  split_and!.
  - apply (proj1 (lifecycle_idempotent soloEnv 1 0 "A" startedManager soloLoaded)).
    vm_compute; reflexivity.
  - apply (proj1 (proj2 (lifecycle_idempotent soloEnv 1 0 "A" soloLoaded soloInitialized))).
    vm_compute; reflexivity.
  - apply (proj2 (proj2 (lifecycle_idempotent soloEnv 1 0 "A" soloInitialized soloActive))).
    vm_compute; reflexivity.
Defined.



(** * Framework version *)

(** C5, as the code has it.  The framework version is checked by
    [loadPlugin]: on a registered plugin that is not loaded and whose
    [minFrameworkVersion] exceeds the framework version, [loadPlugin] returns
    [false], leaves the plugin [Failed] and emits one [pluginFailed] signal
    whose message names the incompatibility.  [activatePlugin] on that plugin
    returns [false] and changes nothing. *)
Theorem load_incompatible_fails (env : Env) (n : nat) (X : string)
    (s : PluginManager) (md : PluginMetadata) :
  m_initialized s = true → m_plugins s !! X = None →
  m_pluginMetadata s !! X = Some md → requiresNewerFramework env md →
  (∃ s', loadPlugin env X s = (false, s') ∧ stateOf s' X = Failed ∧
         newEvents s s' =
           [EvSignal (pluginFailed X ("Incompatible with framework version "
                                       +:+ m_frameworkVersion))]) ∧
  activatePlugin env (S n) X s = Some (false, s).
Proof.
  intros Hinit Hnot Hmd Hnewer. split.
  - eexists. split; [by eapply loadPlugin_incompatible|]. split.
    + by rewrite stateOf_failPlugin, decide_True.
    + unfold newEvents, failPlugin. simpl. by rewrite drop_app_length.
  - by apply activatePlugin_not_loaded.
Qed.

Lemma load_incompatible_fails_witness :
  (∃ s', loadPlugin futureEnv "X" futureScanned = (false, s') ∧
         stateOf s' "X" = Failed ∧
         newEvents futureScanned s' =
           [EvSignal (pluginFailed "X" ("Incompatible with framework version "
                                         +:+ m_frameworkVersion))]) ∧
  activatePlugin futureEnv 1 "X" futureScanned = Some (false, futureScanned).
Proof.
  eapply (load_incompatible_fails futureEnv 0 "X" futureScanned).
  - vm_compute; reflexivity.
  - vm_compute; reflexivity.
  - vm_compute; reflexivity.
  - vm_compute; reflexivity.
Defined.

(** C5, as stated, fails: plugin ["X"] is registered with
    [minFrameworkVersion] 99.0.0 against framework 1.0.0, and
    [activatePlugin] returns [false] without marking it [Failed] and without
    any signal. *)
Lemma activate_incompatible_counterexample :
  (∃ md, m_pluginMetadata futureScanned !! "X" = Some md ∧
         getMinFrameworkVersion md = "99.0.0" ∧ m_frameworkVersion = "1.0.0" ∧
         requiresNewerFramework futureEnv md) ∧
  ¬ (∀ r s', activatePlugin futureEnv 1 "X" futureScanned = Some (r, s') →
             r = false ∧ stateOf s' "X" = Failed ∧
             ∃ message, EvSignal (pluginFailed "X" message) ∈ newEvents futureScanned s').
Proof.
  split.
  - eexists. split; [vm_compute; reflexivity|]. by vm_compute.
  - intros Hevery.
    destruct (Hevery false futureScanned) as (_ & Hfailed & _);
      [vm_compute; reflexivity|].
    vm_compute in Hfailed. discriminate.
Qed.

(** * Metadata *)

(** C6, as the code has it.  A document in which one of [id], [name],
    [version], [vendor] is missing is refused by [loadFromDocument], and the
    metadata object it leaves is invalid.  When the descriptor of [id] cannot
    be read or lacks one of these fields, [scanForPlugins] does not return
    [id] and leaves the registry at [id] as it was. *)
Theorem incomplete_metadata_rejected (env : Env) (self : PluginManager) (id : string) :
  (∀ md doc key,
     key ∈ requiredFields →
     (∀ o, doc = DocObject o → jcontains o key = false) →
     fst (loadFromDocument md doc) = false ∧
     m_isValid (snd (loadFromDocument md doc)) = false) ∧
  (descriptorIncomplete env self id →
   (id ∉ fst (scanForPlugins env self)) ∧
   m_pluginMetadata (snd (scanForPlugins env self)) !! id = m_pluginMetadata self !! id).
Proof.
  split.
  - intros md doc key Hkey Hmissing. by eapply loadFromDocument_missing.
  - apply scanForPlugins_incomplete.
Qed.

Lemma incomplete_metadata_rejected_witness :
  fst (loadFromDocument emptyMetadata vendorless) = false ∧
  ("V" ∉ fst (scanForPlugins oddEnv startedManager)) ∧
  m_pluginMetadata (snd (scanForPlugins oddEnv startedManager)) !! "V" = None.
Proof.
  destruct (incomplete_metadata_rejected oddEnv startedManager "V") as [Hparse Hscan].
  split.
  - apply (Hparse emptyMetadata vendorless "vendor").
    + vm_compute. repeat constructor.
    + intros o [= <-]. vm_compute; reflexivity.
  - apply Hscan. intros data [= <-]. exists "vendor". split.
    + vm_compute. repeat constructor.
    + intros o Ho. vm_compute in Ho. injection Ho as <-. vm_compute; reflexivity.
Defined.

(** C6, as stated, fails: a descriptor whose [name] is a number has all four
    fields present, yet is accepted as valid and registered by the scan. *)
Lemma metadata_nonstring_counterexample :
  jvalue [("id", JString "N"); ("name", JDouble 42);
          ("version", JString "1.0.0"); ("vendor", JString "Acme")] "name"
    = JDouble 42 ∧
  loadFromDocument emptyMetadata numberNamed
    = (true, mkMetadata [("id", JString "N"); ("name", JDouble 42);
                         ("version", JString "1.0.0"); ("vendor", JString "Acme")]
               true) ∧
  "N" ∈ fst (scanForPlugins oddEnv startedManager) ∧
  is_Some (m_pluginMetadata (snd (scanForPlugins oddEnv startedManager)) !! "N").
Proof.
  split_and!.
  - vm_compute; reflexivity.
  - vm_compute; reflexivity.
  - vm_compute. apply list_elem_of_here.
  - vm_compute. by eexists.
Qed.

(** * Message handlers at unload *)


(** * PermissionManager *)

Lemma hasPermission_true self pluginId permission :
  hasPermission self pluginId permission = true ↔
  perm_initialized self = true ∧
  ∃ granted, m_pluginPermissions self !! pluginId = Some granted ∧ permission ∈ granted.
Proof.
  unfold hasPermission. destruct (perm_initialized self); simpl; [|naive_solver].
  destruct (m_pluginPermissions self !! pluginId) as [granted|]; [|naive_solver].
  rewrite bool_decide_eq_true. naive_solver.
Qed.

Lemma hasPermission_granted self pluginId permission :
  perm_initialized self = true →
  hasPermission self pluginId permission
  = bool_decide (permission ∈ default ∅ (m_pluginPermissions self !! pluginId)).
Proof.
  intros Hinit. unfold hasPermission. rewrite Hinit. simpl.
  destruct (m_pluginPermissions self !! pluginId) as [granted|]; simpl; [done|].
  by rewrite bool_decide_false by set_solver.
Qed.

Lemma grantPermission_true pluginId permission self :
  fst (grantPermission pluginId permission self) = true ↔
  perm_initialized self = true ∧ is_Some (m_permissions self !! permission).
Proof.
  unfold grantPermission.
  destruct (perm_initialized self); simpl; [|naive_solver].
  case_bool_decide; simpl; [|naive_solver].
  case_bool_decide; naive_solver.
Qed.

Lemma grantPermission_initialized pluginId permission self :
  perm_initialized (snd (grantPermission pluginId permission self))
  = perm_initialized self.
Proof.
  unfold grantPermission.
  destruct (perm_initialized self) eqn:Hinit; simpl; [|done].
  case_bool_decide; simpl; [|done]. by case_bool_decide.
Qed.

Lemma grantPermission_table pluginId permission self :
  perm_initialized self = true → is_Some (m_permissions self !! permission) →
  ∀ p, default ∅ (m_pluginPermissions (snd (grantPermission pluginId permission self)) !! p)
       = if decide (p = pluginId)
         then default ∅ (m_pluginPermissions self !! p) ∪ {[permission]}
         else default ∅ (m_pluginPermissions self !! p).
Proof.
  intros Hinit Hreg p. unfold grantPermission. rewrite Hinit. simpl.
  rewrite bool_decide_true by done. simpl.
  set (table := match m_pluginPermissions self !! pluginId with
                | Some _ => m_pluginPermissions self
                | None => <[pluginId:=∅]> (m_pluginPermissions self)
                end).
  assert (default ∅ (table !! pluginId)
          = default ∅ (m_pluginPermissions self !! pluginId)) as Hsame.
  { unfold table. destruct (m_pluginPermissions self !! pluginId) eqn:Hp;
      [by rewrite Hp|by rewrite lookup_insert_eq]. }
  assert (∀ p, p ≠ pluginId → table !! p = m_pluginPermissions self !! p) as Hother.
  { intros p' Hp. unfold table.
    destruct (m_pluginPermissions self !! pluginId); [done|by rewrite lookup_insert_ne]. }
  rewrite Hsame. case_bool_decide as Hheld; simpl.
  - destruct (decide (p = pluginId)) as [->|Hp]; [|by rewrite Hother].
    rewrite Hsame. apply leibniz_equiv. set_solver.
  - destruct (decide (p = pluginId)) as [->|Hp].
    + by rewrite lookup_insert_eq.
    + by rewrite lookup_insert_ne, Hother.
Qed.

Lemma grantPermission_hasPermission pluginId permission self :
  perm_initialized self = true → is_Some (m_permissions self !! permission) →
  ∀ p q, hasPermission (snd (grantPermission pluginId permission self)) p q
         = if decide ((p, q) = (pluginId, permission)) then true
           else hasPermission self p q.
Proof.
  intros Hinit Hreg p q.
  rewrite !hasPermission_granted by (by rewrite ?grantPermission_initialized).
  rewrite grantPermission_table by done.
  destruct (decide ((p, q) = (pluginId, permission))) as [[= -> ->]|Hne].
  - rewrite decide_True by done. apply bool_decide_true. set_solver.
  - destruct (decide (p = pluginId)) as [->|Hp]; [|done].
    apply bool_decide_ext. assert (q ≠ permission) by congruence. set_solver.
Qed.

Lemma revokePermission_result pluginId permission self :
  fst (revokePermission pluginId permission self)
  = hasPermission self pluginId permission.
Proof.
  unfold revokePermission, hasPermission.
  destruct (perm_initialized self); simpl; [|done].
  destruct (m_pluginPermissions self !! pluginId) as [granted|]; simpl; [|done].
  by case_bool_decide.
Qed.

Lemma revokePermission_hasPermission pluginId permission self :
  hasPermission self pluginId permission = true →
  ∀ p q, hasPermission (snd (revokePermission pluginId permission self)) p q
         = if decide ((p, q) = (pluginId, permission)) then false
           else hasPermission self p q.
Proof.
  intros (Hinit & granted & Hp & Hheld)%hasPermission_true p q.
  unfold revokePermission. rewrite Hinit, Hp. simpl.
  rewrite bool_decide_true by done. simpl.
  rewrite !hasPermission_granted by done. simpl.
  destruct (decide ((p, q) = (pluginId, permission))) as [[= -> ->]|Hne].
  - rewrite lookup_insert_eq. simpl. apply bool_decide_false. set_solver.
  - destruct (decide (p = pluginId)) as [->|Hpne].
    + rewrite lookup_insert_eq, Hp. simpl. apply bool_decide_ext.
      assert (q ≠ permission) by congruence. set_solver.
    + by rewrite lookup_insert_ne.
Qed.

(** X1. [grantPermission] succeeds exactly on an initialized manager and a
    registered permission, and otherwise changes nothing.  When it succeeds
    the plugin holds the permission, no other plugin or permission is
    affected, the registered permissions are as before, and
    [permissionGranted] is emitted only if the plugin did not hold the
    permission already. *)
Theorem grantPermission_grants (pluginId permission : string) (self : PermissionManager) :
  let r := fst (grantPermission pluginId permission self) in
  let self' := snd (grantPermission pluginId permission self) in
  (r = true ↔ perm_initialized self = true ∧ is_Some (m_permissions self !! permission)) ∧
  (r = false → self' = self) ∧
  (r = true →
   hasPermission self' pluginId permission = true ∧
   (∀ p q, (p, q) ≠ (pluginId, permission) →
           hasPermission self' p q = hasPermission self p q) ∧
   m_permissions self' = m_permissions self ∧
   perm_signals self' =
     perm_signals self ++
       (if hasPermission self pluginId permission then []
        else [permissionGranted pluginId permission])).
Proof.
  cbv zeta. split_and!.
  - apply grantPermission_true.
  - unfold grantPermission.
    destruct (perm_initialized self); simpl; [|done].
    case_bool_decide; simpl; [|done]. by case_bool_decide.
  - intros [Hinit Hreg]%grantPermission_true. split_and!.
    + rewrite grantPermission_hasPermission by done. by rewrite decide_True.
    + intros p q Hne. rewrite grantPermission_hasPermission by done.
      by rewrite decide_False.
    + unfold grantPermission. rewrite Hinit. simpl.
      rewrite bool_decide_true by done. simpl. by case_bool_decide.
    + rewrite (hasPermission_granted self) by done.
      unfold grantPermission. rewrite Hinit. simpl.
      rewrite bool_decide_true by done. simpl.
      destruct (m_pluginPermissions self !! pluginId) as [granted|] eqn:Hp; simpl.
      * rewrite Hp. simpl. case_bool_decide; simpl; [by rewrite app_nil_r|done].
      * rewrite lookup_insert_eq. simpl.
        by rewrite bool_decide_false by set_solver.
Qed.

(** X2. [revokePermission] succeeds exactly when the plugin holds the
    permission, and otherwise changes nothing.  When it succeeds the plugin
    no longer holds it, nothing else is affected and [permissionRevoked] is
    emitted; so revoking what [grantPermission] has just newly granted gives
    back the permissions every plugin had before. *)
Theorem revokePermission_revokes (pluginId permission : string) (self : PermissionManager) :
  let r := fst (revokePermission pluginId permission self) in
  let self' := snd (revokePermission pluginId permission self) in
  (r = hasPermission self pluginId permission) ∧
  (r = false → self' = self) ∧
  (r = true →
   hasPermission self' pluginId permission = false ∧
   (∀ p q, (p, q) ≠ (pluginId, permission) →
           hasPermission self' p q = hasPermission self p q) ∧
   m_permissions self' = m_permissions self ∧
   perm_signals self' = perm_signals self ++ [permissionRevoked pluginId permission]) ∧
  (hasPermission self pluginId permission = false →
   fst (grantPermission pluginId permission self) = true →
   ∀ p q, hasPermission
            (snd (revokePermission pluginId permission
                    (snd (grantPermission pluginId permission self)))) p q
          = hasPermission self p q).
Proof.
  cbv zeta. split_and!.
  - apply revokePermission_result.
  - unfold revokePermission.
    destruct (perm_initialized self); simpl; [|done].
    destruct (m_pluginPermissions self !! pluginId) as [granted|]; simpl; [|done].
    by case_bool_decide.
  - rewrite revokePermission_result. intros Hheld. split_and!.
    + rewrite revokePermission_hasPermission by done. by rewrite decide_True.
    + intros p q Hne. rewrite revokePermission_hasPermission by done.
      by rewrite decide_False.
    + apply hasPermission_true in Hheld as (Hinit & granted & Hp & Hheld).
      unfold revokePermission. rewrite Hinit, Hp. simpl.
      by rewrite bool_decide_true.
    + apply hasPermission_true in Hheld as (Hinit & granted & Hp & Hheld).
      unfold revokePermission. rewrite Hinit, Hp. simpl.
      by rewrite bool_decide_true.
  - intros Hnot [Hinit Hreg]%grantPermission_true p q.
    rewrite revokePermission_hasPermission.
    + rewrite grantPermission_hasPermission by done.
      destruct (decide ((p, q) = (pluginId, permission))) as [[= -> ->]|]; done.
    + rewrite grantPermission_hasPermission by done. by rewrite decide_True.
Qed.

(** X3. [unregisterPermission] succeeds exactly on a registered permission
    (of an initialized manager) and otherwise changes nothing.  When it
    succeeds the permission is no longer registered, no plugin holds it any
    more, and every other permission is registered and held as before. *)
Theorem unregisterPermission_strips (permission : string) (self : PermissionManager) :
  let r := fst (unregisterPermission permission self) in
  let self' := snd (unregisterPermission permission self) in
  (r = isPermissionRegistered self permission) ∧
  (r = false → self' = self) ∧
  (r = true →
   isPermissionRegistered self' permission = false ∧
   (∀ p, hasPermission self' p permission = false) ∧
   (∀ q, q ≠ permission →
         isPermissionRegistered self' q = isPermissionRegistered self q ∧
         ∀ p, hasPermission self' p q = hasPermission self p q)).
Proof.
  cbv zeta. unfold unregisterPermission, isPermissionRegistered at 1.
  destruct (perm_initialized self) eqn:Hinit; simpl; [|naive_solver].
  case_bool_decide as Hreg; simpl; [|naive_solver].
  split_and!; [done..|]. intros _.
  assert (∀ p q, hasPermission
                   (perm_emit (permissionUnregistered permission)
                      (mkPermissions (delete permission (m_permissions self))
                         ((λ granted, granted ∖ {[permission]}) <$> m_pluginPermissions self)
                         true (perm_signals self))) p q
                 = if decide (q = permission) then false else hasPermission self p q)
    as Hhas.
  { intros p q. rewrite !hasPermission_granted by done. simpl.
    rewrite lookup_fmap.
    destruct (m_pluginPermissions self !! p) as [granted|]; simpl.
    - destruct (decide (q = permission)) as [->|Hq].
      + apply bool_decide_false. set_solver.
      + apply bool_decide_ext. set_solver.
    - rewrite bool_decide_false by set_solver. by destruct (decide (q = permission)). }
  split_and!.
  - unfold isPermissionRegistered. simpl. rewrite lookup_delete_eq.
    apply bool_decide_false. by intros [? ?].
  - intros p. rewrite Hhas. by rewrite decide_True.
  - intros q Hq. split.
    + unfold isPermissionRegistered. simpl. rewrite Hinit. simpl.
      by rewrite lookup_delete_ne.
    + intros p. rewrite Hhas. by rewrite decide_False.
Qed.

(** X4. The permissions held by plugins are always registered ones: this
    holds for a new manager and is kept by [registerPermission],
    [unregisterPermission], [grantPermission], [revokePermission] and
    [shutdown]. *)
Theorem grantedRegistered_kept (self : PermissionManager) (p q d : string) :
  grantedRegistered newPermissions ∧
  (grantedRegistered self →
   grantedRegistered (snd (registerPermission q d self)) ∧
   grantedRegistered (snd (unregisterPermission q self)) ∧
   grantedRegistered (snd (grantPermission p q self)) ∧
   grantedRegistered (snd (revokePermission p q self)) ∧
   grantedRegistered (perm_shutdown self)).
Proof.
  split; [intros p' granted q' Hp; simpl in Hp; by apply lookup_empty_Some in Hp|].
  intros Hinv. split_and!.
  - unfold registerPermission.
    destruct (perm_initialized self); simpl; [|done].
    case_bool_decide; simpl; [done|].
    intros p' granted q' Hp Hq. simpl in *.
    destruct (decide (q' = q)) as [->|Hne]; [by rewrite lookup_insert_eq|].
    rewrite lookup_insert_ne by done. by eapply Hinv.
  - unfold unregisterPermission.
    destruct (perm_initialized self); simpl; [|done].
    case_bool_decide; simpl; [|done].
    intros p' granted q' Hp Hq. simpl in *.
    rewrite lookup_fmap in Hp.
    destruct (m_pluginPermissions self !! p') as [granted'|] eqn:Hp'; simplify_eq/=.
    rewrite lookup_delete_ne by set_solver. eapply Hinv; [done|set_solver].
  - unfold grantPermission.
    destruct (perm_initialized self); simpl; [|done].
    case_bool_decide as Hreg; simpl; [|done].
    assert (grantedRegistered
              (mkPermissions (m_permissions self)
                 (match m_pluginPermissions self !! p with
                  | Some _ => m_pluginPermissions self
                  | None => <[p:=∅]> (m_pluginPermissions self)
                  end) true (perm_signals self))) as Hinv'.
    { intros p' granted q' Hp Hq. simpl in *.
      destruct (m_pluginPermissions self !! p) eqn:Hpp; [by eapply Hinv|].
      destruct (decide (p' = p)) as [->|Hne].
      - rewrite lookup_insert_eq in Hp. set_solver.
      - rewrite lookup_insert_ne in Hp by done. by eapply Hinv. }
    case_bool_decide; simpl; [done|].
    intros p' granted q' Hp Hq. simpl in *.
    destruct (decide (p' = p)) as [->|Hne].
    + rewrite lookup_insert_eq in Hp. simplify_eq.
      apply elem_of_union in Hq as [Hq| ->%elem_of_singleton]; [|done].
      match type of Hq with
      | _ ∈ default ∅ (?t !! _) => destruct (t !! p) as [granted|] eqn:Ht
      end; simpl in Hq; [|set_solver].
      by eapply (Hinv' p granted).
    + rewrite lookup_insert_ne in Hp by done. by eapply (Hinv' p' granted).
  - unfold revokePermission.
    destruct (perm_initialized self); simpl; [|done].
    destruct (m_pluginPermissions self !! p) as [granted|] eqn:Hp; simpl; [|done].
    case_bool_decide; simpl; [|done].
    intros p' granted' q' Hp' Hq. simpl in *.
    destruct (decide (p' = p)) as [->|Hne].
    + rewrite lookup_insert_eq in Hp'. simplify_eq.
      eapply Hinv; [done|set_solver].
    + rewrite lookup_insert_ne in Hp' by done. by eapply Hinv.
  - unfold perm_shutdown. destruct (perm_initialized self); [|done].
    intros p' granted q' Hp. simpl in Hp. by apply lookup_empty_Some in Hp.
Qed.

Lemma grantedRegistered_kept_witness :
  grantedRegistered (snd (grantPermission "A" "communication.send" busPermissions)).
Proof.
  apply (proj2 (grantedRegistered_kept busPermissions "A" "communication.send" "")).
  intros p granted q Hp. simpl in Hp. by apply lookup_empty_Some in Hp.
Defined.

(** X5. The two listings agree with [hasPermission]: [getPluginPermissions]
    lists, without repetition, exactly the permissions the plugin holds, and
    [getPluginsWithPermission] lists, without repetition, exactly the plugins
    that hold the permission. *)
Theorem permission_listings (self : PermissionManager) (pluginId permission : string) :
  (permission ∈ getPluginPermissions self pluginId ↔
   hasPermission self pluginId permission = true) ∧
  (pluginId ∈ getPluginsWithPermission self permission ↔
   hasPermission self pluginId permission = true) ∧
  NoDup (getPluginPermissions self pluginId) ∧
  NoDup (getPluginsWithPermission self permission).
Proof.
  unfold getPluginPermissions, getPluginsWithPermission.
  rewrite hasPermission_true.
  destruct (perm_initialized self); simpl.
  - split_and!.
    + destruct (m_pluginPermissions self !! pluginId) as [granted|].
      * rewrite elem_of_elements. naive_solver.
      * split; [by intros ?%elem_of_nil|naive_solver].
    + rewrite list_elem_of_filter, elem_of_qkeys. split.
      * intros [Hin [granted Hp]]. rewrite Hp in Hin. naive_solver.
      * intros (_ & granted & Hp & Hin). rewrite Hp. naive_solver.
    + destruct (m_pluginPermissions self !! pluginId); [apply NoDup_elements|constructor].
    + apply NoDup_filter, NoDup_qkeys.
  - split_and!; [split; [by intros ?%elem_of_nil|naive_solver]..|constructor|constructor].
Qed.

(** * The message bus: keys *)

Lemma splitOn_nonempty c s : splitOn c s ≠ [].
Proof.
  destruct s as [|c' s]; simpl; [done|].
  destruct (decide (c' = c)); [done|]. by destruct (splitOn c s).
Qed.

Lemma splitOn_singleton c s b : splitOn c s = [b] → s = b ∧ without c s.
Proof.
  revert b. induction s as [|c' s IH]; intros b; simpl.
  { by intros [= <-]. }
  destruct (decide (c' = c)) as [->|Hne].
  { intros [= _ Hnil]. by apply splitOn_nonempty in Hnil. }
  destruct (splitOn c s) as [|p ps] eqn:Hs; [by apply splitOn_nonempty in Hs|].
  intros [= <- ->]. destruct (IH p eq_refl) as [-> Hw]. done.
Qed.

Lemma splitOn_append c a b :
  splitOn c (a +:+ String c b) = splitOn c a ++ splitOn c b.
Proof.
  induction a as [|c' a IH]; simpl.
  { by rewrite decide_True. }
  destruct (decide (c' = c)) as [->|Hne]; [by rewrite IH|].
  rewrite IH. destruct (splitOn c a) as [|p ps] eqn:Ha; [|done].
  by apply splitOn_nonempty in Ha.
Qed.

Lemma splitOn_two c s a b : splitOn c s = [a; b] → s = a +:+ String c b.
Proof.
  revert a. induction s as [|c' s IH]; intros a; simpl; [done|].
  destruct (decide (c' = c)) as [->|Hne].
  { intros [= <- Hs]. by apply splitOn_singleton in Hs as [-> _]. }
  destruct (splitOn c s) as [|p ps] eqn:Hs; [done|].
  intros [= <- ->]. by rewrite (IH p eq_refl).
Qed.

Lemma splitOn_handlerKey Y mt :
  splitOn colon (handlerKey Y mt) = splitOn colon Y ++ splitOn colon mt.
Proof. apply splitOn_append. Qed.

Lemma ownedKey_handlerKey_inv X Y mt :
  ownedKey X (handlerKey Y mt) = true → Y = X ∧ without colon Y ∧ without colon mt.
Proof.
  unfold ownedKey. rewrite splitOn_handlerKey.
  intros [Hlen Hfirst]%andb_prop.
  apply bool_decide_eq_true in Hlen, Hfirst.
  destruct (splitOn colon Y) as [|y ys] eqn:HY; [by apply splitOn_nonempty in HY|].
  destruct (splitOn colon mt) as [|m ms] eqn:Hmt; [by apply splitOn_nonempty in Hmt|].
  destruct ys as [|y' ys]; [|rewrite length_app in Hlen; simpl in Hlen; lia].
  destruct ms as [|m' ms]; [|simpl in Hlen; lia].
  apply splitOn_singleton in HY as [-> HY], Hmt as [-> Hmt].
  simpl in Hfirst. by simplify_eq.
Qed.

Lemma addressedBy_Some messageType key receiver :
  addressedBy messageType key = Some receiver → key = handlerKey receiver messageType.
Proof.
  unfold addressedBy.
  destruct (splitOn colon key) as [|a [|b [|? ?]]] eqn:Hs; try done.
  destruct (decide (b = messageType)) as [->|]; [|done].
  intros [= ->]. by apply splitOn_two in Hs.
Qed.

Lemma addressedBy_handlerKey receiver messageType :
  without colon receiver → without colon messageType →
  addressedBy messageType (handlerKey receiver messageType) = Some receiver.
Proof.
  intros Hr Hm. unfold addressedBy.
  rewrite splitOn_handlerKey, !splitOn_without by done. simpl.
  by rewrite decide_True.
Qed.

Lemma unregisterAllMessageHandlers_lookup X c key :
  comm_initialized c = true →
  m_handlers (snd (unregisterAllMessageHandlers X c)) !! key
  = if ownedKey X key then None else m_handlers c !! key.
Proof.
  intros Hinit. unfold unregisterAllMessageHandlers. rewrite Hinit. simpl.
  rewrite foldl_delete_lookup.
  destruct (ownedKey X key) eqn:Howned.
  - destruct (m_handlers c !! key) as [h|] eqn:Hh; [|by case_decide].
    rewrite decide_True; [done|]. apply list_elem_of_filter. split; [done|].
    apply elem_of_qkeys. by eexists.
  - rewrite decide_False; [done|]. intros [Ho _]%list_elem_of_filter. congruence.
Qed.

(** * The message bus: handlers *)

(** X6. On an initialized bus, registering a handler under a free
    (plugin, message type) succeeds and stores it; registering again under
    the same pair is refused and keeps the first handler; and
    [unregisterMessageHandler] then gives back the table of handlers as it
    was before the registration. *)
Theorem register_unregister_round_trip (pluginId messageType : string)
    (handler other : MessageHandlerFunc) (c : PluginCommunication) :
  comm_initialized c = true →
  m_handlers c !! handlerKey pluginId messageType = None →
  ∃ c1,
    registerMessageHandler pluginId messageType handler c = (true, c1) ∧
    m_handlers c1 !! handlerKey pluginId messageType = Some handler ∧
    (∀ key, key ≠ handlerKey pluginId messageType →
            m_handlers c1 !! key = m_handlers c !! key) ∧
    registerMessageHandler pluginId messageType other c1 = (false, c1) ∧
    unregisterMessageHandler pluginId messageType c1 = (true, c).
Proof.
  intros Hinit Hfree.
  exists (mkComm (<[handlerKey pluginId messageType := handler]> (m_handlers c)) true).
  split_and!.
  - unfold registerMessageHandler. by rewrite Hinit, Hfree.
  - simpl. by rewrite lookup_insert_eq.
  - intros key Hne. simpl. by rewrite lookup_insert_ne.
  - unfold registerMessageHandler. simpl. by rewrite lookup_insert_eq.
  - unfold unregisterMessageHandler. simpl.
    rewrite lookup_insert_eq, delete_insert_id by done.
    by destruct c; simplify_eq/=.
Qed.

Lemma register_unregister_round_trip_witness :
  ∃ c1, registerMessageHandler "A" "ping" 7 (mkComm ∅ true) = (true, c1) ∧
        unregisterMessageHandler "A" "ping" c1 = (true, mkComm ∅ true).
Proof.
  destruct (register_unregister_round_trip "A" "ping" 7 8 (mkComm ∅ true))
    as (c1 & Hreg & _ & _ & _ & Hunreg); [reflexivity..|].
  by exists c1.
Defined.

(** X7. [unregisterAllMessageHandlers] of one plugin never removes a handler
    registered by another plugin, whatever the two ids and the message type
    are, and it never adds or changes a handler. *)
Theorem unregisterAll_keeps_other_plugins (X Y messageType : string)
    (c : PluginCommunication) :
  Y ≠ X →
  m_handlers (snd (unregisterAllMessageHandlers X c)) !! handlerKey Y messageType
  = m_handlers c !! handlerKey Y messageType ∧
  ∀ key handler,
    m_handlers (snd (unregisterAllMessageHandlers X c)) !! key = Some handler →
    m_handlers c !! key = Some handler.
Proof.
  intros Hne. destruct (comm_initialized c) eqn:Hinit.
  - split.
    + rewrite unregisterAllMessageHandlers_lookup by done.
      destruct (ownedKey X (handlerKey Y messageType)) eqn:Howned; [|done].
      by apply ownedKey_handlerKey_inv in Howned as [? _].
    + intros key handler. rewrite unregisterAllMessageHandlers_lookup by done.
      by destruct (ownedKey X key).
  - unfold unregisterAllMessageHandlers. rewrite Hinit. done.
Qed.

Lemma unregisterAll_keeps_other_plugins_witness :
  m_handlers (snd (unregisterAllMessageHandlers "B" (comm stuckActive)))
    !! handlerKey "A" "ping" = Some 7.
Proof.
  assert ("A" ≠ "B") as Hne by discriminate.
  etrans.
  - exact (proj1 (unregisterAll_keeps_other_plugins "B" "A" "ping" (comm stuckActive) Hne)).
  - vm_compute; reflexivity.
Defined.

(** X8. [unregisterAllMessageHandlers] leaves in place every handler of the
    plugin itself whose message type, or whose plugin id, holds a colon: the
    key then splits into more than two parts.  Only
    [unregisterMessageHandler] removes such a handler. *)
Theorem unregisterAll_misses_colon_keys (X messageType : string)
    (c : PluginCommunication) :
  ¬ (without colon X ∧ without colon messageType) →
  m_handlers (snd (unregisterAllMessageHandlers X c)) !! handlerKey X messageType
  = m_handlers c !! handlerKey X messageType ∧
  (comm_initialized c = true →
   m_handlers (snd (unregisterMessageHandler X messageType c))
     !! handlerKey X messageType = None).
Proof.
  intros Hcolon. split.
  - destruct (comm_initialized c) eqn:Hinit.
    + rewrite unregisterAllMessageHandlers_lookup by done.
      destruct (ownedKey X (handlerKey X messageType)) eqn:Howned; [|done].
      apply ownedKey_handlerKey_inv in Howned as (_ & ? & ?). by destruct Hcolon.
    + unfold unregisterAllMessageHandlers. by rewrite Hinit.
  - intros Hinit. unfold unregisterMessageHandler. rewrite Hinit. simpl.
    destruct (m_handlers c !! handlerKey X messageType) eqn:Hh; simpl; [|done].
    by rewrite lookup_delete_eq.
Qed.

Lemma unregisterAll_misses_colon_keys_witness :
  ∃ c1, registerMessageHandler "A" "db:changed" 7 (mkComm ∅ true) = (true, c1) ∧
        m_handlers (snd (unregisterAllMessageHandlers "A" c1))
          !! handlerKey "A" "db:changed" = Some 7.
Proof.
  eexists. split; [reflexivity|].
  assert (¬ (without colon "A" ∧ without colon "db:changed")) as Hcolon.
  { vm_compute. intros [_ (_ & _ & Hc & _)]. by apply Hc. }
  etrans.
  - exact (proj1 (unregisterAll_misses_colon_keys "A" "db:changed" _ Hcolon)).
  - vm_compute; reflexivity.
Defined.

(** * The message bus: sending *)

Section Sending.
Context (permissions : PermissionManager).
Context (invoke : MessageHandlerFunc → string → QVariant → QVariant).

(** X9. Once a handler is registered for (receiver, message type),
  [sendMessage] to that receiver calls it, between [messageSent] and
  [messageReceived], and returns its answer, provided the sender holds
  [communication.send] and the receiver [communication.receive]; when one
  of the two permissions is missing, or before the registration, nothing
  is called, nothing is emitted and the result is invalid. *)
Theorem sendMessage_reaches_handler (sender receiver messageType : string)
  (data : QVariant) (handler : MessageHandlerFunc) (c c1 : PluginCommunication) :
registerMessageHandler receiver messageType handler c = (true, c1) →
sendMessage permissions invoke sender receiver messageType data c = (VInvalid, []) ∧
sendMessage permissions invoke sender receiver messageType data c1
= if hasPermission permissions sender "communication.send" &&
     hasPermission permissions receiver "communication.receive"
  then (invoke handler sender data,
        [messageSent sender receiver messageType data;
         handlerCalled (handlerKey receiver messageType) handler sender data;
         messageReceived receiver sender messageType data
           (invoke handler sender data)])
  else (VInvalid, []).
Proof.
unfold registerMessageHandler, sendMessage.
destruct (comm_initialized c) eqn:Hinit; simpl; [|done].
destruct (m_handlers c !! handlerKey receiver messageType) eqn:Hfree; [done|].
intros [= <-]. simpl.
destruct (hasPermission permissions sender "communication.send"); simpl; [|done].
destruct (hasPermission permissions receiver "communication.receive"); simpl; [|done].
by rewrite lookup_insert_eq.
Qed.

Lemma broadcast_fold_sound sender messageType data c ks :
∀ acc,
  let result := foldl (broadcastStep permissions invoke sender messageType data c) acc ks in
  (∀ receiver v,
     fst result !! receiver = Some v →
     fst acc !! receiver = Some v ∨
     ∃ handler, m_handlers c !! handlerKey receiver messageType = Some handler ∧
                hasPermission permissions receiver "communication.receive" = true ∧
                v = invoke handler sender data) ∧
  (∀ key handler sender' data',
     handlerCalled key handler sender' data' ∈ snd result →
     handlerCalled key handler sender' data' ∈ snd acc ∨
     m_handlers c !! key = Some handler ∧ sender' = sender ∧ data' = data ∧
     ∃ receiver, key = handlerKey receiver messageType ∧
                 hasPermission permissions receiver "communication.receive" = true).
Proof.
induction ks as [|k ks IH]; intros acc; simpl; [naive_solver|].
destruct (IH (broadcastStep permissions invoke sender messageType data c acc k))
  as [IHr IHe].
assert (∀ receiver handler,
          addressedBy messageType k = Some receiver →
          m_handlers c !! k = Some handler →
          m_handlers c !! handlerKey receiver messageType = Some handler) as Hkey.
{ intros receiver handler Hk%addressedBy_Some. by subst k. }
split.
- intros receiver v Hv. destruct (IHr receiver v Hv) as [Hacc|?]; [|by right].
  revert Hacc. unfold broadcastStep.
  destruct (addressedBy messageType k) as [r|] eqn:Hk; [|by left].
  destruct (m_handlers c !! k) as [h|] eqn:Hh; [|by left].
  destruct (hasPermission permissions r "communication.receive") eqn:Hperm;
    simpl; [|by left].
  destruct (decide (receiver = r)) as [->|Hne].
  + rewrite lookup_insert_eq. intros [= <-]. right. exists h. eauto.
  + rewrite lookup_insert_ne by done. by left.
- intros key handler sender' data' Hin.
  destruct (IHe key handler sender' data' Hin) as [Hacc|?]; [|by right].
  revert Hacc. unfold broadcastStep.
  destruct (addressedBy messageType k) as [r|] eqn:Hk; [|by left].
  destruct (m_handlers c !! k) as [h|] eqn:Hh; [|by left].
  destruct (hasPermission permissions r "communication.receive") eqn:Hperm;
    simpl; [|by left].
  rewrite elem_of_app. intros [?|Hnew]; [by left|].
  apply elem_of_cons in Hnew as [[= -> -> -> ->]|Hnew].
  + right. split_and!; [done..|]. exists r. split; [|done].
    by apply addressedBy_Some.
  + apply list_elem_of_singleton in Hnew. done.
Qed.

Lemma broadcast_fold_keeps sender messageType data c receiver handler ks :
m_handlers c !! handlerKey receiver messageType = Some handler →
∀ acc,
  fst acc !! receiver = Some (invoke handler sender data) →
  fst (foldl (broadcastStep permissions invoke sender messageType data c) acc ks)
    !! receiver = Some (invoke handler sender data).
Proof.
intros Hh. induction ks as [|k ks IH]; intros acc Hacc; simpl; [done|].
apply IH. unfold broadcastStep.
destruct (addressedBy messageType k) as [r|] eqn:Hk; [|done].
destruct (m_handlers c !! k) as [h|] eqn:Hk'; [|done].
destruct (hasPermission permissions r "communication.receive"); simpl; [|done].
destruct (decide (receiver = r)) as [->|Hne].
- apply addressedBy_Some in Hk. subst k. rewrite Hh in Hk'. simplify_eq.
  by rewrite lookup_insert_eq.
- by rewrite lookup_insert_ne.
Qed.

Lemma broadcast_fold_complete sender messageType data c receiver handler ks :
m_handlers c !! handlerKey receiver messageType = Some handler →
addressedBy messageType (handlerKey receiver messageType) = Some receiver →
hasPermission permissions receiver "communication.receive" = true →
handlerKey receiver messageType ∈ ks →
∀ acc,
  fst (foldl (broadcastStep permissions invoke sender messageType data c) acc ks)
    !! receiver = Some (invoke handler sender data).
Proof.
intros Hh Haddr Hperm. induction ks as [|k ks IH]; intros Hin acc.
{ by apply elem_of_nil in Hin. }
simpl. apply elem_of_cons in Hin as [<-|Hin]; [|by apply IH].
apply broadcast_fold_keeps; [done|].
unfold broadcastStep. rewrite Haddr, Hh, Hperm. simpl. by rewrite lookup_insert_eq.
Qed.

(** X10. [broadcastMessage], on an initialized bus and from a sender that
  holds [communication.broadcast], answers for a receiver only with what
  the handler registered for (receiver, message type) returns, and only
  if the receiver holds [communication.receive]; every handler it calls is
  such a handler, called with the sender and the data of the broadcast.
  For a receiver id and a message type without colon, the answer of each
  such handler is in the result. *)
Theorem broadcastMessage_responses (sender messageType : string) (data : QVariant)
  (c : PluginCommunication) :
comm_initialized c = true →
hasPermission permissions sender "communication.broadcast" = true →
let result := broadcastMessage permissions invoke sender messageType data c in
(∀ receiver v,
   fst result !! receiver = Some v →
   ∃ handler, m_handlers c !! handlerKey receiver messageType = Some handler ∧
              hasPermission permissions receiver "communication.receive" = true ∧
              v = invoke handler sender data) ∧
(∀ key handler sender' data',
   handlerCalled key handler sender' data' ∈ snd result →
   m_handlers c !! key = Some handler ∧ sender' = sender ∧ data' = data ∧
   ∃ receiver, key = handlerKey receiver messageType ∧
               hasPermission permissions receiver "communication.receive" = true) ∧
(∀ receiver handler,
   without colon receiver → without colon messageType →
   m_handlers c !! handlerKey receiver messageType = Some handler →
   hasPermission permissions receiver "communication.receive" = true →
   fst result !! receiver = Some (invoke handler sender data)).
Proof.
intros Hinit Hperm. cbv zeta. unfold broadcastMessage. rewrite Hinit, Hperm. simpl.
destruct (broadcast_fold_sound sender messageType data c (qkeys (m_handlers c))
            (∅, [messageBroadcast sender messageType data])) as [Hr He].
split_and!.
- intros receiver v Hv. destruct (Hr receiver v Hv) as [Hacc|?]; [|done].
  simpl in Hacc. by apply lookup_empty_Some in Hacc.
- intros key handler sender' data' Hin.
  destruct (He key handler sender' data' Hin) as [Hacc|?]; [|done].
  simpl in Hacc. by apply list_elem_of_singleton in Hacc.
- intros receiver handler Hr' Hm Hh Hp.
  apply broadcast_fold_complete; [done| |done|].
  + by apply addressedBy_handlerKey.
  + apply elem_of_qkeys. by eexists.
Qed.

End Sending.

Lemma broadcastMessage_responses_witness :
  let permissions :=
    snd (grantPermission "B" "communication.receive"
           (snd (grantPermission "A" "communication.broadcast" busPermissions))) in
  let c := snd (registerMessageHandler "B" "ping" 7 (mkComm ∅ true)) in
  fst (broadcastMessage permissions (λ handler _ _, VInt (Z.of_nat handler))
         "A" "ping" VInvalid c) !! "B" = Some (VInt 7).
Proof.
  intros permissions c.
  assert (comm_initialized c = true) as Hinit by reflexivity.
  assert (hasPermission permissions "A" "communication.broadcast" = true) as Hperm
    by (vm_compute; reflexivity).
  destruct (broadcastMessage_responses permissions
              (λ handler _ _, VInt (Z.of_nat handler)) "A" "ping" VInvalid c Hinit Hperm)
    as (_ & _ & Hall).
  apply (Hall "B" 7).
  - vm_compute. repeat split; discriminate.
  - vm_compute. repeat split; discriminate.
  - vm_compute; reflexivity.
  - vm_compute; reflexivity.
Defined.

Lemma sendMessage_reaches_handler_witness :
  let permissions :=
    snd (grantPermission "B" "communication.receive"
           (snd (grantPermission "A" "communication.send" busPermissions))) in
  let c := snd (registerMessageHandler "B" "ping" 7 (mkComm ∅ true)) in
  fst (sendMessage permissions (λ handler _ _, VInt (Z.of_nat handler))
         "A" "B" "ping" VInvalid c) = VInt 7.
Proof.
  intros permissions c.
  assert (registerMessageHandler "B" "ping" 7 (mkComm ∅ true) = (true, c)) as Hreg
    by reflexivity.
  destruct (sendMessage_reaches_handler permissions
              (λ handler _ _, VInt (Z.of_nat handler))
              "A" "B" "ping" VInvalid 7 (mkComm ∅ true) c Hreg) as [_ ->].
  vm_compute; reflexivity.
Defined.

(** * PluginManager: queries and commands *)

Lemma activePlugins_fold (self : PluginManager) (keys : list string) :
  ∀ (acc : gmap string IPlugin) k,
    foldl (λ activePlugins key,
             match m_plugins self !! key with
             | Some plugin =>
                 if bool_decide (stateOf self key = Active)
                 then <[key := plugin]> activePlugins else activePlugins
             | None => activePlugins
             end) acc keys !! k
    = if bool_decide (k ∈ keys ∧ is_Some (m_plugins self !! k) ∧ stateOf self k = Active)
      then m_plugins self !! k else acc !! k.
Proof.
  induction keys as [|key keys IH]; intros acc k.
  { cbn [foldl]. rewrite bool_decide_false; [done|]. by intros [?%elem_of_nil _]. }
  cbn [foldl]. rewrite IH. case_bool_decide as Hlater.
  - rewrite bool_decide_true; [done|]. set_solver.
  - destruct (m_plugins self !! key) as [plugin|] eqn:Hkey.
    + case_bool_decide as Hactive.
      * destruct (decide (k = key)) as [->|Hne].
        -- rewrite lookup_insert_eq, bool_decide_true; [done|].
           split_and!; [set_solver|by rewrite Hkey|done].
        -- rewrite lookup_insert_ne by done.
           rewrite bool_decide_false; [done|].
           intros (Hin & Hk & Hst). apply Hlater.
           apply elem_of_cons in Hin as [->|Hin]; done.
      * rewrite bool_decide_false; [done|].
        intros (Hin & Hk & Hst). apply Hlater.
        apply elem_of_cons in Hin as [->|Hin]; [done|]. done.
    + rewrite bool_decide_false; [done|].
      intros (Hin & Hk & Hst). apply Hlater.
      apply elem_of_cons in Hin as [->|Hin]; [|done].
      rewrite Hkey in Hk. by destruct Hk.
Qed.

(** X11. [getActivePlugins] holds exactly the loaded plugins whose state is
    [Active], each with the plugin object [getPlugin] returns; so it is
    always a part of [getLoadedPlugins], and it is empty when the manager is
    not initialized. *)
Theorem getActivePlugins_lookup (self : PluginManager) (pluginId : string)
    (plugin : IPlugin) :
  (getActivePlugins self !! pluginId = Some plugin ↔
   getPlugin self pluginId = Some plugin ∧ getPluginState self pluginId = Active) ∧
  getActivePlugins self ⊆ getLoadedPlugins self ∧
  (m_initialized self = false → getActivePlugins self = ∅).
Proof.
  assert (∀ k p, getActivePlugins self !! k = Some p ↔
                 getPlugin self k = Some p ∧ getPluginState self k = Active) as Hlookup.
  { intros k p. unfold getActivePlugins, getPlugin, getPluginState.
    destruct (m_initialized self); simpl.
    - rewrite activePlugins_fold. case_bool_decide as Hk.
      + naive_solver.
      + rewrite lookup_empty. split; [done|]. intros [Hp Hst]. destruct Hk.
        split_and!; [|by rewrite Hp|done]. apply elem_of_qkeys. by rewrite Hp.
    - rewrite lookup_empty. naive_solver. }
  split_and!; [apply Hlookup| |].
  - apply map_subseteq_spec. intros k p [Hp _]%Hlookup.
    revert Hp. unfold getPlugin, getLoadedPlugins. by destruct (m_initialized self).
  - intros Hinit. unfold getActivePlugins. by rewrite Hinit.
Qed.

Section Commands.
Context (env : Env).
Context (executeCommand : IPlugin → string → gmap string QVariant → CommandOutcome).

(** X12. [executePluginCommand] passes a command to a plugin object only if
  that plugin is loaded and [Active].  So right after a successful
  [activatePlugin] the command reaches the plugin and its result is
  returned (an invalid value when the plugin throws), and after a
  successful [deactivatePlugin] that follows, the command is refused
  without reaching the plugin. *)
Theorem commands_reach_active_plugins (n : nat) (pluginId command : string)
  (params : gmap string QVariant) (s s1 : PluginManager) :
activatePlugin env n pluginId s = Some (true, s1) →
(∃ plugin,
   m_plugins s1 !! pluginId = Some plugin ∧
   executePluginCommand executeCommand pluginId command params s1
   = (match executeCommand plugin command params with
      | CommandReturns result => result
      | CommandThrows _ => VInvalid
      end, Some plugin)) ∧
(∀ m s2,
   deactivatePlugin env m pluginId s1 = Some (true, s2) →
   executePluginCommand executeCommand pluginId command params s2 = (VInvalid, None)) ∧
(∀ self plugin,
   snd (executePluginCommand executeCommand pluginId command params self) = Some plugin →
   getPlugin self pluginId = Some plugin ∧ getPluginState self pluginId = Active).
Proof.
intros Hact. destruct (activatePlugin_true _ _ _ _ _ Hact) as (Hst & [plugin Hl] & Hinit).
split_and!.
- exists plugin. split; [done|]. unfold executePluginCommand, isPluginLoaded, isPluginActive.
  rewrite Hinit, Hl, Hst. cbn [negb andb].
  rewrite !bool_decide_true by done. cbn [negb].
  by destruct (executeCommand plugin command params).
- intros m s2 Hde.
  pose proof (deactivatePlugin_success _ _ _ _ _ _ Hde eq_refl Hst) as Hst2.
  unfold executePluginCommand, isPluginActive. rewrite Hst2.
  destruct (m_initialized s2); simpl; [|done].
  by destruct (isPluginLoaded s2 pluginId).
- intros self plugin'. unfold executePluginCommand, getPlugin, getPluginState.
  destruct (m_initialized self) eqn:Hi; simpl; [|done].
  destruct (isPluginLoaded self pluginId); simpl; [|done].
  unfold isPluginActive. rewrite Hi. simpl.
  case_bool_decide as Hactive; simpl; [|done].
  destruct (m_plugins self !! pluginId) as [p|]; simpl; [|done].
  by destruct (executeCommand p command params); intros [= <-].
Qed.

End Commands.

Lemma commands_reach_active_plugins_witness :
  executePluginCommand (λ plugin _ _, CommandReturns (VInt (Z.of_nat plugin)))
    "A" "status" ∅ soloActive = (VInt 0, Some 0).
Proof.
  destruct (commands_reach_active_plugins soloEnv
              (λ plugin _ _, CommandReturns (VInt (Z.of_nat plugin)))
              1 "A" "status" ∅ soloInitialized soloActive)
    as ((plugin & Hplugin & Hrun) & _); [vm_compute; reflexivity|].
  rewrite Hrun. vm_compute in Hplugin. by injection Hplugin as <-.
Defined.

(** * Every lifecycle operation is a sequence of elementary changes *)

Lemma Moves_refl s : Moves s s.
Proof. apply rtc_refl. Qed.

Lemma Moves_trans s1 s2 s3 : Moves s1 s2 → Moves s2 s3 → Moves s1 s3.
Proof. apply rtc_trans. Qed.

Lemma Moves_step s1 s2 s3 : Moves s1 s2 → Move s2 s3 → Moves s1 s3.
Proof. intros H12 H23. eapply rtc_r; done. Qed.

Lemma Moves_registry s s' : registryGrows s s' → Moves s s'.
Proof. intros H. apply rtc_once. by constructor. Qed.

Lemma Moves_then_emit s s' ev : Moves s s' → Moves s (emit ev s').
Proof. intros H. eapply Moves_step; [done|apply mv_emit]. Qed.

Lemma Moves_then_failPlugin s s' k msg : Moves s s' → Moves s (failPlugin k msg s').
Proof.
  intros H. unfold failPlugin. apply Moves_then_emit.
  eapply Moves_step; [done|apply mv_failed].
Qed.

Section MovesRuns.
Context (env : Env).

Lemma loadPlugin_moves X s r s' : loadPlugin env X s = (r, s') → Moves s s'.
Proof.
unfold loadPlugin. intros Hrun.
destruct (m_initialized s) eqn:Hinit; simpl in Hrun;
  [|simplify_eq; apply Moves_refl].
destruct (isPluginLoaded s X) eqn:Hloaded; [simplify_eq; apply Moves_refl|].
apply isPluginLoaded_false in Hloaded; [|done].
change (match m_pluginMetadata s !! X with
        | Some _ => (true, s)
        | None => loadPluginMetadata env X s
        end) with (ensureMetadata env X s) in Hrun.
destruct (ensureMetadata env X s) as [ok1 s1] eqn:Hens.
pose proof (ensureMetadata_grows _ _ _ _ _ Hens) as H1.
destruct ok1; simpl in Hrun; [|simplify_eq; by apply Moves_registry].
destruct (metadataRef X s1) as [md s2] eqn:Hmd.
pose proof (registryGrows_trans _ _ _ H1 (metadataRef_grows _ _ _ _ Hmd)) as H2.
destruct (isCompatibleWithFramework env md m_frameworkVersion); simpl in Hrun;
  [|simplify_eq; by apply Moves_then_failPlugin, Moves_registry].
destruct (checkPluginDependencies env X s2) as [ok3 s3] eqn:Hchk.
pose proof (registryGrows_trans _ _ _ H2
              (checkPluginDependencies_grows _ _ _ _ _ Hchk)) as H3.
pose proof (Moves_registry _ _ H3) as M3.
destruct ok3; simpl in Hrun; [|simplify_eq; by apply Moves_then_failPlugin].
destruct (fileExists env _); simpl in Hrun;
  [|simplify_eq; by apply Moves_then_failPlugin].
destruct (loaderLoad env _ _) eqn:Hload; simplify_eq.
- by apply Moves_then_failPlugin, Moves_then_emit.
- by repeat first [apply Moves_then_failPlugin|apply Moves_then_emit].
- by repeat first [apply Moves_then_failPlugin|apply Moves_then_emit].
- apply Moves_then_emit. eapply Moves_step; [by apply Moves_then_emit|].
  apply mv_loaded. simpl. by rewrite (rg_plugins _ _ H3).
Qed.

Lemma ensureLoaded_moves d s s1 : ensureLoaded env d s s1 → Moves s s1.
Proof. intros [[_ ->]|[_ Hload]]; [apply Moves_refl|by eapply loadPlugin_moves]. Qed.

Lemma InitLoop_moves recurse X deps s r s' :
(∀ d s r s', recurse d s = Some (r, s') → Moves s s') →
InitLoop env recurse X deps s r s' → Moves s s'.
Proof.
intros Hrec. induction 1 as
  [s|d rest s s1 Hnl Hload|d rest s s1 r s' Hens Hneeds Hloop IH
  |d rest s s1 s2 Hens Hneeds Hcall|d rest s s1 s2 r s' Hens Hneeds Hcall Hloop IH].
- apply Moves_refl.
- apply Moves_then_failPlugin. by eapply loadPlugin_moves.
- eapply Moves_trans; [by eapply ensureLoaded_moves|done].
- apply Moves_then_failPlugin.
  eapply Moves_trans; [by eapply ensureLoaded_moves|by eapply Hrec].
- eapply Moves_trans; [by eapply ensureLoaded_moves|].
  eapply Moves_trans; [by eapply Hrec|done].
Qed.

Lemma initializePlugin_moves n :
∀ X s r s', initializePlugin env n X s = Some (r, s') → Moves s s'.
Proof.
induction n as [|n IH]; intros X s r s' Hrun; [done|].
apply initializePlugin_run in Hrun.
destruct Hrun as [?|? ? ?|md s1 s2 Hchecks Hmd Hloop
                 |md s1 s2 plugin out Hchecks Hmd Hloop Hplugin Hout];
  try apply Moves_refl.
- eapply Moves_trans; [apply Moves_registry; by eapply metadataRef_grows|].
  by eapply InitLoop_moves.
- assert (Moves s s2) as H2.
  { eapply Moves_trans; [apply Moves_registry; by eapply metadataRef_grows|].
    by eapply InitLoop_moves. }
  unfold finishInitialize. cbv zeta. case_bool_decide.
  + apply Moves_then_emit. eapply Moves_step; [by apply Moves_then_emit|].
    apply mv_initialized. simpl. by rewrite Hplugin.
  + by apply Moves_then_failPlugin, Moves_then_emit.
Qed.

Lemma ActivateLoop_moves recurse deps s r s' :
(∀ d s r s', recurse d s = Some (r, s') → Moves s s') →
ActivateLoop recurse deps s r s' → Moves s s'.
Proof.
intros Hrec. induction 1 as
  [s|d rest s r s' Hactive Hloop IH|d rest s s1 Hna Hcall
  |d rest s s1 r s' Hna Hcall Hloop IH].
- apply Moves_refl.
- done.
- by eapply Hrec.
- eapply Moves_trans; [by eapply Hrec|done].
Qed.

Lemma ensureInitialized_moves n X s s1 : ensureInitialized env n X s s1 → Moves s s1.
Proof.
intros [[_ ->]|[_ Hinit]]; [apply Moves_refl|by eapply initializePlugin_moves].
Qed.

Lemma activatePlugin_moves n :
∀ X s r s', activatePlugin env n X s = Some (r, s') → Moves s s'.
Proof.
induction n as [|n IH]; intros X s r s' Hrun; [done|].
apply activatePlugin_run in Hrun.
destruct Hrun as [?|? ? ?|s1 Hchecks Hni Hinit
                 |s1 md s2 s3 Hchecks Hens Hmd Hloop
                 |s1 md s2 s3 plugin out Hchecks Hens Hmd Hloop Hplugin Hout];
  try apply Moves_refl.
- by eapply initializePlugin_moves.
- eapply Moves_trans; [by eapply ensureInitialized_moves|].
  eapply Moves_trans; [apply Moves_registry; by eapply metadataRef_grows|].
  by eapply ActivateLoop_moves.
- assert (Moves s s3) as H3.
  { eapply Moves_trans; [by eapply ensureInitialized_moves|].
    eapply Moves_trans; [apply Moves_registry; by eapply metadataRef_grows|].
    by eapply ActivateLoop_moves. }
  unfold finishActivate. cbv zeta. case_bool_decide.
  + apply Moves_then_emit. eapply Moves_step; [by apply Moves_then_emit|].
    apply mv_activated. simpl. by rewrite Hplugin.
  + by apply Moves_then_failPlugin, Moves_then_emit.
Qed.

Lemma DeactivateLoop_moves recurse deps s r s' :
(∀ d s r s', recurse d s = Some (r, s') → Moves s s') →
DeactivateLoop recurse deps s r s' → Moves s s'.
Proof.
intros Hrec. induction 1 as [s|d rest s s1 Hcall|d rest s s1 r s' Hcall Hloop IH].
- apply Moves_refl.
- by eapply Hrec.
- eapply Moves_trans; [by eapply Hrec|done].
Qed.

Lemma deactivatePlugin_moves n :
∀ X s r s', deactivatePlugin env n X s = Some (r, s') → Moves s s'.
Proof.
induction n as [|n IH]; intros X s r s' Hrun; [done|].
apply deactivatePlugin_run in Hrun.
destruct Hrun as [?|? ? ?|L s1 s2 Hinit Hl Hst HL Hloop
                 |L s1 s2 plugin out Hinit Hl Hst HL Hloop Hplugin Hout];
  try apply Moves_refl.
- eapply Moves_trans.
  { apply Moves_registry. by apply (activeDependents_spec _ _ _ _ _ HL). }
  by eapply DeactivateLoop_moves.
- assert (Moves s s2) as H2.
  { eapply Moves_trans.
    { apply Moves_registry. by apply (activeDependents_spec _ _ _ _ _ HL). }
    by eapply DeactivateLoop_moves. }
  unfold finishDeactivate. cbv zeta. case_bool_decide.
  + apply Moves_then_emit. eapply Moves_step; [by apply Moves_then_emit|].
    apply mv_initialized. simpl. by rewrite Hplugin.
  + by apply Moves_then_emit.
Qed.

Lemma callHook_moves X h s out s' : callHook env X h s = Some (out, s') → Moves s s'.
Proof.
unfold callHook. destruct (m_plugins s !! X); [|done].
intros [= <- <-]. apply Moves_then_emit, Moves_refl.
Qed.

Lemma releasePlugin_moves X s c s' : releasePlugin env X s = Some (c, s') → Moves s s'.
Proof.
unfold releasePlugin. intros Hrun.
set (done := if bool_decide (stateOf s X = Initialized)
             then callHook env X HShutdown s
             else match m_plugins s !! X with
                  | Some _ => Some (Returns true, s)
                  | None => None
                  end) in Hrun.
assert (∀ out s2, done = Some (out, s2) → Moves s s2) as Hdone.
{ intros out s2. unfold done. case_bool_decide.
  - intros Hcall. by eapply callHook_moves.
  - destruct (m_plugins s !! X); [|done]. intros [= <- <-]. apply Moves_refl. }
destruct done as [[[[]|e] s2]|]; [| | |done].
- specialize (Hdone _ _ eq_refl).
  assert (Moves s (emit (EvPurge X)
                     (setComm (snd (unregisterAllMessageHandlers X (comm s2))) s2)))
    as Hpurged.
  { apply Moves_then_emit. eapply Moves_step; [done|apply mv_purged]. }
  simpl in Hrun.
  destruct (m_pluginLoaders s2 !! X) as [loader|]; [|done].
  destruct (loaderUnload env loader _); simpl in Hrun; simplify_eq.
  + apply Moves_then_emit. eapply Moves_step; [by apply Moves_then_emit|].
    apply mv_unloaded.
  + by apply Moves_then_emit.
- simplify_eq. by eapply Hdone.
- simplify_eq. by eapply Hdone.
Qed.

Lemma unloadPlugin_moves fuel X s c s' :
unloadPlugin env fuel X s = Some (c, s') → Moves s s'.
Proof.
rewrite unloadPlugin_unfold. intros Hrun.
destruct (m_initialized s); simpl in Hrun; [|simplify_eq; apply Moves_refl].
destruct (isPluginLoaded s X); simpl in Hrun; [|simplify_eq; apply Moves_refl].
destruct (bool_decide (getDependentPlugins s X = [])); simpl in Hrun;
  [|simplify_eq; apply Moves_refl].
destruct (isPluginActive s X).
- destruct (deactivatePlugin env fuel X s) as [[[] s1]|] eqn:Hde; [| |done].
  + eapply Moves_trans; [by eapply deactivatePlugin_moves|].
    by eapply releasePlugin_moves.
  + simplify_eq. by eapply deactivatePlugin_moves.
- by eapply releasePlugin_moves.
Qed.

End MovesRuns.

(** * Invariants of the tables *)

Lemma Moves_ind_inv (I : PluginManager → Prop) :
  (∀ s s', I s → Move s s' → I s') → ∀ s s', Moves s s' → I s → I s'.
Proof. intros Hstep s s' Hmoves. induction Hmoves; eauto. Qed.

Lemma stateOf_setLoaded k loader plugin s j :
  stateOf (setLoaded k loader plugin s) j = stateOf s j.
Proof. done. Qed.

Lemma stateOf_removeLoaded k s j : stateOf (removeLoaded k s) j = stateOf s j.
Proof. done. Qed.

Lemma Move_tablesAgree s s' : tablesAgree s → Move s s' → tablesAgree s'.
Proof.
  intros [Hdom Hstates] Hmove.
  destruct Hmove as [s s' Hrg|s ev|s k|s k loader plugin Hnone|s k Hl|s k Hl|s k|s k].
  - split.
    + by rewrite (rg_loaders _ _ Hrg), (rg_plugins _ _ Hrg).
    + intros j. unfold stateOf. rewrite (rg_states _ _ Hrg), (rg_plugins _ _ Hrg).
      apply Hstates.
  - done.
  - split; [done|]. intros j. rewrite stateOf_setState. simpl.
    destruct (decide (j = k)) as [->|Hne]; [|apply Hstates].
    split; intros _; set_solver.
  - split.
    + simpl. by rewrite !dom_insert_L, Hdom.
    + intros j. rewrite stateOf_setState. simpl.
      destruct (decide (j = k)) as [->|Hne].
      * rewrite lookup_insert_eq. split; [intros _; set_solver|done].
      * rewrite lookup_insert_ne by done. apply Hstates.
  - split; [done|]. intros j. rewrite stateOf_setState. simpl.
    destruct (decide (j = k)) as [->|Hne]; [|apply Hstates].
    split; [intros _; set_solver|]. intros Hnone. rewrite Hnone in Hl. by destruct Hl.
  - split; [done|]. intros j. rewrite stateOf_setState. simpl.
    destruct (decide (j = k)) as [->|Hne]; [|apply Hstates].
    split; [intros _; set_solver|]. intros Hnone. rewrite Hnone in Hl. by destruct Hl.
  - done.
  - split.
    + simpl. by rewrite !dom_delete_L, Hdom.
    + intros j. rewrite stateOf_setState. simpl.
      destruct (decide (j = k)) as [->|Hne].
      * rewrite lookup_delete_eq. split; [by intros [? ?]|intros _; set_solver].
      * rewrite lookup_delete_ne by done. apply Hstates.
Qed.

Lemma Moves_tablesAgree s s' : Moves s s' → tablesAgree s → tablesAgree s'.
Proof. apply Moves_ind_inv. intros ? ?. apply Move_tablesAgree. Qed.

Lemma Move_registry_kept s s' k md :
  Move s s' → m_pluginMetadata s !! k = Some md → m_pluginMetadata s' !! k = Some md.
Proof.
  intros Hmove. destruct Hmove; try done. by apply rg_metadata.
Qed.

Lemma Moves_registry_kept s s' k md :
  Moves s s' → m_pluginMetadata s !! k = Some md → m_pluginMetadata s' !! k = Some md.
Proof.
  intros Hmoves. induction Hmoves as [|s1 s2 s3 H12 H23 IH]; [done|].
  intros Hk. apply IH. by eapply Move_registry_kept.
Qed.

Lemma Move_fixed s s' :
  Move s s' →
  m_initialized s' = m_initialized s ∧ m_pluginDir s' = m_pluginDir s ∧
  m_metadataDir s' = m_metadataDir s.
Proof.
  intros Hmove. destruct Hmove as [s s' Hrg| | | | | | |]; try done.
  by rewrite (rg_initialized _ _ Hrg), (rg_pluginDir _ _ Hrg), (rg_metadataDir _ _ Hrg).
Qed.

Lemma Moves_fixed s s' :
  Moves s s' →
  m_initialized s' = m_initialized s ∧ m_pluginDir s' = m_pluginDir s ∧
  m_metadataDir s' = m_metadataDir s.
Proof.
  intros Hmoves. induction Hmoves as [|s1 s2 s3 H12 H23 IH]; [done|].
  destruct IH as (-> & -> & ->). by apply Move_fixed.
Qed.

Section Tables.
Context (env : Env).

Lemma loadPluginMetadata_shape X s ok s' :
loadPluginMetadata env X s = (ok, s') →
(ok = false ∧ s' = s) ∨
(ok = true ∧ ∃ md, s' = setMetadata X md s ∧ m_isValid md = true ∧ getPluginId md = X).
Proof.
unfold loadPluginMetadata.
destruct (fileExists env _); simpl; [|intros [= <- <-]; by left].
destruct (loadFromFile env _) as [ok' md] eqn:Hfile.
destruct ok'; simpl; [|intros [= <- <-]; by left].
destruct (m_isValid md) eqn:Hvalid; simpl; [|intros [= <- <-]; by left].
case_bool_decide as Hid; simpl; intros [= <- <-]; [|by left].
right. split; [done|]. by exists md.
Qed.

Lemma scanFiles_tables files :
∀ ids s ids' s',
  scanFiles env files ids s = (ids', s') →
  m_plugins s' = m_plugins s ∧ m_pluginLoaders s' = m_pluginLoaders s ∧
  m_pluginStates s' = m_pluginStates s ∧ events s' = events s ∧ comm s' = comm s ∧
  m_initialized s' = m_initialized s ∧
  dom (m_pluginMetadata s) ⊆ dom (m_pluginMetadata s').
Proof.
induction files as [|file files IH]; intros ids s ids' s'; simpl.
{ by intros [= <- <-]. }
destruct (loadPluginMetadata env (baseName file) s) as [ok s1] eqn:Hload.
intros Hrest. destruct (IH _ _ _ _ Hrest) as (-> & -> & -> & -> & -> & -> & Hsub).
apply loadPluginMetadata_shape in Hload as [[_ ->]|(_ & md & -> & _)]; [done|].
split_and!; [done..|]. etrans; [|done]. simpl. set_solver.
Qed.

(** X13. The tables of the manager stay in agreement: in a new manager, and
  after [scanForPlugins], [loadPlugin], [initializePlugin],
  [activatePlugin], [deactivatePlugin], [unloadPlugin] and [shutdown] on a
  manager where they agree, a loader is kept for exactly the loaded
  plugins, a loaded plugin is [Loaded], [Initialized], [Active] or
  [Failed], and any other id is [NotLoaded] or [Failed]; no plugin is ever
  [Inactive]. *)
Theorem tablesAgree_kept (n : nat) (X : string) (s : PluginManager) :
(∀ c, tablesAgree (newManager c)) ∧
(tablesAgree s →
 tablesAgree (snd (scanForPlugins env s)) ∧
 tablesAgree (snd (loadPlugin env X s)) ∧
 (∀ r s', initializePlugin env n X s = Some (r, s') → tablesAgree s') ∧
 (∀ r s', activatePlugin env n X s = Some (r, s') → tablesAgree s') ∧
 (∀ r s', deactivatePlugin env n X s = Some (r, s') → tablesAgree s') ∧
 (∀ c s', unloadPlugin env n X s = Some (c, s') → tablesAgree s') ∧
 (∀ c s', shutdown env n s = Some (c, s') → tablesAgree s') ∧
 ∀ k, stateOf s k ≠ Inactive).
Proof.
split.
{ intros c. split; [done|]. intros k. unfold stateOf, stateIn. simpl.
  rewrite !lookup_empty. simpl. split; [by intros [? ?]|intros _; set_solver]. }
intros Hagree. split_and!.
- unfold scanForPlugins. destruct (m_initialized s); simpl; [|done].
  destruct (scanFiles env _ [] s) as [ids s'] eqn:Hscan.
  destruct (scanFiles_tables _ _ _ _ _ Hscan) as (Hp & Hl & Hst & _).
  destruct Hagree as [Hdom Hstates]. simpl. split.
  + by rewrite Hp, Hl.
  + intros k. unfold stateOf. rewrite Hst, Hp. apply Hstates.
- destruct (loadPlugin env X s) as [r s'] eqn:Hload.
  by eapply Moves_tablesAgree; [eapply loadPlugin_moves|].
- intros r s' Hrun. by eapply Moves_tablesAgree; [eapply initializePlugin_moves|].
- intros r s' Hrun. by eapply Moves_tablesAgree; [eapply activatePlugin_moves|].
- intros r s' Hrun. by eapply Moves_tablesAgree; [eapply deactivatePlugin_moves|].
- intros c s' Hrun. by eapply Moves_tablesAgree; [eapply unloadPlugin_moves|].
- intros c s'. unfold shutdown.
  destruct (m_initialized s); [|by intros [= <- <-]].
  destruct (shutdownOrder n s) as [order|]; [|done].
  assert (∀ l s0 c0 s1, shutdownLoop env n l s0 = Some (c0, s1) → Moves s0 s1) as Hloop.
  { induction l as [|k l IH]; intros s0 c0 s1; simpl.
    { intros [= <- <-]. apply Moves_refl. }
    unfold shutdownStep.
    assert (∀ s2, (if isPluginActive s0 k then snd <$> deactivatePlugin env n k s0
                   else Some s0) = Some s2 → Moves s0 s2) as Hde.
    { intros s2. destruct (isPluginActive s0 k); [|intros [= <-]; apply Moves_refl].
      destruct (deactivatePlugin env n k s0) as [[r s3]|] eqn:Hde; [|done].
      intros [= <-]. by eapply deactivatePlugin_moves. }
    destruct (if isPluginActive s0 k then snd <$> deactivatePlugin env n k s0
              else Some s0) as [s2|]; [|done].
    specialize (Hde _ eq_refl).
    destruct (unloadPlugin env n k s2) as [[[b|e] s3]|] eqn:Hun; [| |done].
    - intros Hrest. eapply Moves_trans; [done|].
      eapply Moves_trans; [by eapply unloadPlugin_moves|by eapply IH].
    - intros [= <- <-]. eapply Moves_trans; [done|by eapply unloadPlugin_moves]. }
  destruct (shutdownLoop env n order s) as [[[[]|e] s1]|] eqn:Hrun; [| |done].
  + intros [= <- <-]. split; [done|]. intros k. unfold stateOf, stateIn. simpl.
    rewrite !lookup_empty. simpl. split; [by intros [? ?]|intros _; set_solver].
  + intros [= <- <-]. by eapply Moves_tablesAgree; [eapply Hloop|].
- intros k Hin. destruct Hagree as [_ Hstates].
  destruct (Hstates k) as [H1 H2]. rewrite Hin in H1, H2.
  destruct (m_plugins s !! k) eqn:Hk.
  + specialize (H1 (mk_is_Some _ _ eq_refl)).
    repeat (apply elem_of_cons in H1 as [?|H1]; [done|]). by apply elem_of_nil in H1.
  + specialize (H2 eq_refl).
    repeat (apply elem_of_cons in H2 as [?|H2]; [done|]). by apply elem_of_nil in H2.
Qed.

End Tables.

(** * [unloadPlugin]: what a call leaves behind *)

Section UnloadOutcome.
Context (env : Env).

Lemma releasePlugin_cases X s1 c s' :
releasePlugin env X s1 = Some (c, s') →
is_Some (m_plugins s1 !! X) ∧
((∃ out, stateOf s1 X = Initialized ∧ out ≠ Returns true ∧
         s' = emit (EvHook X HShutdown (m_pluginStates s1) out) s1 ∧
         c = match out with Throws e => Raised e | Returns _ => Normal false end) ∨
 (∃ s2 loader, afterShutdownHook X s1 s2 ∧ m_pluginLoaders s1 !! X = Some loader ∧
               c = Normal false ∧ s' = emit (EvUnload loader false) (purged X s2)) ∨
 (∃ s2 loader, afterShutdownHook X s1 s2 ∧ m_pluginLoaders s1 !! X = Some loader ∧
               c = Normal true ∧
               s' = emit (EvSignal (pluginUnloaded X))
                      (setState X NotLoaded
                         (removeLoaded X (emit (EvUnload loader true) (purged X s2)))))).
Proof.
unfold releasePlugin. intros Hrun.
assert (is_Some (m_plugins s1 !! X)) as Hloaded.
{ revert Hrun. unfold callHook. destruct (m_plugins s1 !! X); [by eexists|].
  by case_bool_decide. }
split; [done|]. destruct Hloaded as [plugin Hplugin].
unfold callHook in Hrun. rewrite Hplugin in Hrun.
assert (∀ s2, afterShutdownHook X s1 s2 →
          match m_pluginLoaders (purged X s2) !! X with
          | Some loader =>
              let ok := loaderUnload env loader (events (purged X s2)) in
              let self4 := emit (EvUnload loader ok) (purged X s2) in
              if negb ok then Some (Normal false, self4)
              else Some (Normal true,
                         emit (EvSignal (pluginUnloaded X))
                           (setState X NotLoaded (removeLoaded X self4)))
          | None => None
          end = Some (c, s') →
          (∃ s2 loader, afterShutdownHook X s1 s2 ∧ m_pluginLoaders s1 !! X = Some loader ∧
               c = Normal false ∧ s' = emit (EvUnload loader false) (purged X s2)) ∨
          (∃ s2 loader, afterShutdownHook X s1 s2 ∧ m_pluginLoaders s1 !! X = Some loader ∧
               c = Normal true ∧
               s' = emit (EvSignal (pluginUnloaded X))
                      (setState X NotLoaded
                         (removeLoaded X (emit (EvUnload loader true) (purged X s2))))))
  as Hrelease.
{ intros s2 Hs2.
  assert (m_pluginLoaders (purged X s2) = m_pluginLoaders s1) as Hl.
  { by destruct Hs2 as [[_ ->]|[_ ->]]. }
  rewrite Hl. destruct (m_pluginLoaders s1 !! X) as [loader|]; [|done].
  cbv zeta. destruct (loaderUnload env loader _) eqn:Hok; simpl; intros [= <- <-].
  - right. by exists s2, loader.
  - left. by exists s2, loader. }
case_bool_decide as Hst.
- destruct (hook env plugin HShutdown (m_pluginStates s1) (events s1))
    as [[]|e] eqn:Hout.
  + right. apply (Hrelease _ (or_intror (conj Hst eq_refl))). exact Hrun.
  + left. simplify_eq. by exists (Returns false).
  + left. simplify_eq. by exists (Throws e).
- right. apply (Hrelease _ (or_introl (conj Hst eq_refl))). exact Hrun.
Qed.

Lemma unloadPlugin_cases fuel X s c s' :
unloadPlugin env fuel X s = Some (c, s') →
(s' = s ∧ (c = Normal false ∨ (c = Normal true ∧ isPluginLoaded s X = false))) ∨
(m_initialized s = true ∧ is_Some (m_plugins s !! X) ∧ getDependentPlugins s X = [] ∧
 ((c = Normal false ∧ stateOf s X = Active ∧
   deactivatePlugin env fuel X s = Some (false, s')) ∨
  (∃ s1, ((stateOf s X = Active ∧ deactivatePlugin env fuel X s = Some (true, s1)) ∨
          (stateOf s X ≠ Active ∧ s1 = s)) ∧
         releasePlugin env X s1 = Some (c, s')))).
Proof.
rewrite unloadPlugin_unfold. intros Hrun.
destruct (m_initialized s) eqn:Hinit; simpl in Hrun; [|simplify_eq; left; eauto].
destruct (isPluginLoaded s X) eqn:Hloaded; simpl in Hrun;
  [|simplify_eq; left; eauto].
apply isPluginLoaded_true in Hloaded as [_ Hloaded].
case_bool_decide as Hdeps; simpl in Hrun; [|simplify_eq; left; eauto].
right. split_and!; [done..|].
unfold isPluginActive in Hrun. rewrite Hinit in Hrun. simpl in Hrun.
case_bool_decide as Hactive.
- destruct (deactivatePlugin env fuel X s) as [[[] s1]|] eqn:Hde; [| |done].
  + right. exists s1. eauto.
  + left. by simplify_eq.
- right. exists s. eauto.
Qed.

End UnloadOutcome.

Section UnloadFacts.
Context (env : Env).

Lemma afterShutdownHook_tables X s1 s2 :
afterShutdownHook X s1 s2 →
m_plugins s2 = m_plugins s1 ∧ m_pluginLoaders s2 = m_pluginLoaders s1 ∧
m_pluginStates s2 = m_pluginStates s1 ∧ m_pluginMetadata s2 = m_pluginMetadata s1 ∧
m_initialized s2 = m_initialized s1 ∧ comm s2 = comm s1 ∧
events s1 `prefix_of` events s2.
Proof.
intros [[_ ->]|[_ ->]]; split_and!; try done. by apply prefix_app_r.
Qed.

Lemma releasePlugin_tables X s1 c s' :
releasePlugin env X s1 = Some (c, s') →
m_pluginMetadata s' = m_pluginMetadata s1 ∧ m_initialized s' = m_initialized s1 ∧
(c = Normal true →
 m_plugins s' = delete X (m_plugins s1) ∧
 m_pluginLoaders s' = delete X (m_pluginLoaders s1) ∧
 m_pluginStates s' = <[X := NotLoaded]> (m_pluginStates s1) ∧
 last (events s') = Some (EvSignal (pluginUnloaded X))) ∧
(c ≠ Normal true →
 m_plugins s' = m_plugins s1 ∧ m_pluginLoaders s' = m_pluginLoaders s1 ∧
 m_pluginStates s' = m_pluginStates s1).
Proof.
intros [_ Hcases]%releasePlugin_cases.
destruct Hcases as [(out & Hst & Hout & -> & ->)
                   |[(s2 & loader & Hs2 & Hl & -> & ->)
                    |(s2 & loader & Hs2 & Hl & -> & ->)]].
- split_and!; [done..| |done]. by destruct out as [[]|].
- destruct (afterShutdownHook_tables _ _ _ Hs2) as (Hp & Hlo & Hst & Hmd & Hi & _).
  by split_and!.
- destruct (afterShutdownHook_tables _ _ _ Hs2) as (Hp & Hlo & Hst & Hmd & Hi & _).
  split_and!; [done..| |done]. intros _. simpl. rewrite Hp, Hlo, Hst.
  split_and!; [done..|]. by rewrite last_snoc.
Qed.

(** X14. When [unloadPlugin] returns [true] for a loaded plugin, the plugin
  and its loader are gone from the tables, its state is [NotLoaded], the
  last thing emitted is [pluginUnloaded], and unloading it again returns
  [true] without doing anything.  When [unloadPlugin] returns [false] or
  lets an exception through, the tables of plugins and loaders are as
  before the call.  In both cases every metadata entry is kept. *)
Theorem unloadPlugin_outcome (fuel : nat) (X : string) (s : PluginManager)
  (c : Completion bool) (s' : PluginManager) :
unloadPlugin env fuel X s = Some (c, s') →
(c = Normal true → isPluginLoaded s X = true →
 m_plugins s' = delete X (m_plugins s) ∧
 m_pluginLoaders s' = delete X (m_pluginLoaders s) ∧
 stateOf s' X = NotLoaded ∧
 last (events s') = Some (EvSignal (pluginUnloaded X)) ∧
 ∀ fuel', unloadPlugin env fuel' X s' = Some (Normal true, s')) ∧
(c ≠ Normal true →
 m_plugins s' = m_plugins s ∧ m_pluginLoaders s' = m_pluginLoaders s) ∧
(∀ k md, m_pluginMetadata s !! k = Some md → m_pluginMetadata s' !! k = Some md).
Proof.
intros Hrun. split_and!.
- intros -> Hloaded.
  apply unloadPlugin_cases in Hrun
    as [[-> [?|[_ Hnot]]]|(Hinit & Hl & _ & [(? & _)|(s1 & Hs1 & Hrel)])];
    [done|congruence|done|].
  assert (m_plugins s1 = m_plugins s ∧ m_pluginLoaders s1 = m_pluginLoaders s ∧
          m_initialized s1 = true) as (Hp & Hlo & Hi).
  { destruct Hs1 as [[_ Hde]|[_ ->]]; [|done].
    pose proof (deactivatePlugin_settles _ _ _ _ _ _ Hde) as Hset.
    by rewrite (st_plugins _ _ Hset), (st_loaders _ _ Hset), (st_initialized _ _ Hset). }
  destruct (releasePlugin_tables _ _ _ _ Hrel) as (_ & Hi' & Htrue & _).
  destruct (Htrue eq_refl) as (Hp' & Hlo' & Hst' & Hlast).
  rewrite Hp', Hlo', Hp, Hlo. split_and!; [done..| | |].
  + unfold stateOf, stateIn. by rewrite Hst', lookup_insert_eq.
  + done.
  + intros fuel'. rewrite unloadPlugin_unfold, Hi', Hi. simpl.
    unfold isPluginLoaded. rewrite Hi', Hi, Hp', lookup_delete_eq. done.
- intros Hc.
  apply unloadPlugin_cases in Hrun
    as [[-> _]|(Hinit & Hl & _ & [(_ & _ & Hde)|(s1 & Hs1 & Hrel)])]; [done| |].
  + pose proof (deactivatePlugin_settles _ _ _ _ _ _ Hde) as Hset.
    by rewrite (st_plugins _ _ Hset), (st_loaders _ _ Hset).
  + destruct (releasePlugin_tables _ _ _ _ Hrel) as (_ & _ & _ & Hfalse).
    destruct (Hfalse Hc) as (-> & -> & _).
    destruct Hs1 as [[_ Hde]|[_ ->]]; [|done].
    pose proof (deactivatePlugin_settles _ _ _ _ _ _ Hde) as Hset.
    by rewrite (st_plugins _ _ Hset), (st_loaders _ _ Hset).
- intros k md Hk. by eapply Moves_registry_kept; [eapply unloadPlugin_moves|].
Qed.

End UnloadFacts.

Lemma unloadPlugin_outcome_witness :
  ∃ s', unloadPlugin pairEnv 3 "B" pairActive = Some (Normal true, s') ∧
        m_plugins s' !! "B" = None ∧ stateOf s' "B" = NotLoaded.
Proof.
  exists (default pairActive (performAll pairEnv [OpUnload 3 "B"] pairActive)).
  assert (unloadPlugin pairEnv 3 "B" pairActive
          = Some (Normal true,
                  default pairActive (performAll pairEnv [OpUnload 3 "B"] pairActive)))
    as Hrun by (vm_compute; reflexivity).
  split; [done|].
  destruct (unloadPlugin_outcome pairEnv 3 "B" pairActive _ _ Hrun) as (Hok & _ & _).
  destruct Hok as (Hp & _ & Hst & _); [done|vm_compute; reflexivity|].
  split; [|done]. rewrite Hp. apply lookup_delete_eq.
Defined.

(** * [unloadPlugin]: the hooks it calls *)

Section UnloadHooks.
Context (env : Env).

Lemma no_dependents_no_declaration s X W :
getDependentPlugins s X = [] → W ≠ X → X ∉ dependenciesOf s W.
Proof.
intros Hnone Hne Hin. unfold dependenciesOf in Hin.
destruct (m_pluginMetadata s !! W) as [md|] eqn:Hmd; [|by apply elem_of_nil in Hin].
assert (W ∈ getDependentPlugins s X) as HW; [|by rewrite Hnone in HW;
  apply elem_of_nil in HW].
unfold getDependentPlugins. apply list_elem_of_filter. split.
- split; [done|]. unfold declaresDependency. rewrite Hmd. by apply dependsOn_true.
- apply elem_of_qkeys. by eexists.
Qed.

Lemma deactivatePlugin_alone n X s r s' :
getDependentPlugins s X = [] →
deactivatePlugin env n X s = Some (r, s') →
newEvents s s' = [] ∨
(stateOf s X = Active ∧
 ∃ out, newEvents s s'
        = EvHook X HDeactivate (m_pluginStates s) out ::
          (if bool_decide (out = Returns true) then [EvSignal (pluginDeactivated X)]
           else [])).
Proof.
intros Hnone Hrun. destruct n as [|n]; [done|].
apply deactivatePlugin_run in Hrun.
destruct Hrun as [?|? ? ?|L s1 s2 Hinit Hl Hst HL Hloop
                 |L s1 s2 plugin out Hinit Hl Hst HL Hloop Hplugin Hout];
  try (left; apply newEvents_refl).
- destruct (activeDependents_spec _ _ _ _ _ HL) as (Hrg & _ & HLspec).
  destruct L as [|W L].
  + inversion Hloop.
  + destruct (proj1 (HLspec W)) as (_ & Hne & _ & Hdep); [apply list_elem_of_here|].
    by destruct (no_dependents_no_declaration _ _ _ Hnone Hne).
- destruct (activeDependents_spec _ _ _ _ _ HL) as (Hrg & _ & HLspec).
  destruct L as [|W L].
  + inversion Hloop; subst. right. split; [done|]. exists
      (hook env plugin HDeactivate (m_pluginStates s2) (events s2)).
    rewrite finishDeactivate_events by (by rewrite (rg_events _ _ Hrg)).
    unfold newEvents at 1. rewrite (rg_events _ _ Hrg), drop_all. simpl.
    by rewrite (rg_states _ _ Hrg).
  + destruct (proj1 (HLspec W)) as (_ & Hne & _ & Hdep); [apply list_elem_of_here|].
    by destruct (no_dependents_no_declaration _ _ _ Hnone Hne).
Qed.

Lemma releasePlugin_events X s1 c s' :
releasePlugin env X s1 = Some (c, s') →
events s1 `prefix_of` events s' ∧
∀ Y h snap out,
  EvHook Y h snap out ∈ newEvents s1 s' →
  Y = X ∧ h = HShutdown ∧ snap = m_pluginStates s1 ∧ stateOf s1 X = Initialized.
Proof.
intros [_ Hcases]%releasePlugin_cases.
assert (∀ s2, afterShutdownHook X s1 s2 →
          events s1 `prefix_of` events s2 ∧
          ∀ Y h snap out,
            EvHook Y h snap out ∈ newEvents s1 s2 →
            Y = X ∧ h = HShutdown ∧ snap = m_pluginStates s1 ∧
            stateOf s1 X = Initialized) as Hhook.
{ intros s2 [[_ ->]|[Hst ->]].
  - split; [done|]. intros Y h snap out. rewrite newEvents_refl.
    by intros ?%elem_of_nil.
  - split; [by apply prefix_app_r|]. intros Y h snap out. rewrite newEvents_emit.
    by intros [= -> -> -> ->]%list_elem_of_singleton. }
destruct Hcases as [(out & Hst & Hout & -> & ->)
                   |[(s2 & loader & Hs2 & Hl & -> & ->)
                    |(s2 & loader & Hs2 & Hl & -> & ->)]].
- split; [by apply prefix_app_r|]. intros Y h snap out'. rewrite newEvents_emit.
  by intros [= -> -> -> ->]%list_elem_of_singleton.
- destruct (Hhook _ Hs2) as [Hpre Hev].
  assert (events (emit (EvUnload loader false) (purged X s2))
          = events s2 ++ [EvPurge X; EvUnload loader false]) as Hevents.
  { simpl. by rewrite <- app_assoc. }
  split.
  + rewrite Hevents. by apply prefix_app_r.
  + intros Y h snap out.
    rewrite (newEvents_app s1 s2);
      [|done|by rewrite Hevents; apply prefix_app_r].
    rewrite elem_of_app. intros [Hin|Hin]; [by eapply Hev|].
    unfold newEvents in Hin. rewrite Hevents, drop_app_length in Hin.
    set_solver.
- destruct (Hhook _ Hs2) as [Hpre Hev].
  assert (events (emit (EvSignal (pluginUnloaded X))
                    (setState X NotLoaded
                       (removeLoaded X (emit (EvUnload loader true) (purged X s2)))))
          = events s2 ++ [EvPurge X; EvUnload loader true; EvSignal (pluginUnloaded X)])
    as Hevents.
  { simpl. by rewrite <- !app_assoc. }
  split.
  + rewrite Hevents. by apply prefix_app_r.
  + intros Y h snap out.
    rewrite (newEvents_app s1 s2);
      [|done|by rewrite Hevents; apply prefix_app_r].
    rewrite elem_of_app. intros [Hin|Hin]; [by eapply Hev|].
    unfold newEvents in Hin. rewrite Hevents, drop_app_length in Hin.
    set_solver.
Qed.

(** X15. [unloadPlugin X] calls no hook of any other plugin.  It calls the
  deactivate hook of [X] only if [X] was [Active], and the shutdown hook of
  [X] only on a state table where [X] is [Initialized], that is if [X] was
  [Initialized] or has just been deactivated; a plugin that is [Loaded] or
  [Failed] is unloaded without any hook. *)
Theorem unloadPlugin_hooks (fuel : nat) (X : string) (s : PluginManager)
  (c : Completion bool) (s' : PluginManager) :
unloadPlugin env fuel X s = Some (c, s') →
∀ Y h snap out,
  EvHook Y h snap out ∈ newEvents s s' →
  Y = X ∧
  ((h = HDeactivate ∧ stateOf s X = Active) ∨
   (h = HShutdown ∧ stateIn snap X = Initialized ∧
    (stateOf s X = Initialized ∨ stateOf s X = Active))).
Proof.
intros Hrun Y h snap out Hin.
apply unloadPlugin_cases in Hrun
  as [[-> _]|(Hinit & Hl & Hnone & [(_ & Hst & Hde)|(s1 & Hs1 & Hrel)])].
- rewrite newEvents_refl in Hin. by apply elem_of_nil in Hin.
- destruct (deactivatePlugin_alone _ _ _ _ _ Hnone Hde) as [Hnil|(_ & out' & Hev)].
  + rewrite Hnil in Hin. by apply elem_of_nil in Hin.
  + rewrite Hev in Hin. apply elem_of_cons in Hin as [[= -> -> -> ->]|Hin]; [eauto|].
    case_bool_decide; set_solver.
- destruct (releasePlugin_events _ _ _ _ Hrel) as [Hpre Hev].
  destruct Hs1 as [[Hst Hde]|[Hst ->]].
  + pose proof (deactivatePlugin_settles _ _ _ _ _ _ Hde) as Hset.
    rewrite (newEvents_app s s1) in Hin; [|by apply (st_events _ _ Hset)|done].
    apply elem_of_app in Hin as [Hin|Hin].
    * destruct (deactivatePlugin_alone _ _ _ _ _ Hnone Hde)
        as [Hnil|(_ & out' & Hev')].
      -- rewrite Hnil in Hin. by apply elem_of_nil in Hin.
      -- rewrite Hev' in Hin.
         apply elem_of_cons in Hin as [[= -> -> -> ->]|Hin]; [eauto|].
         case_bool_decide; set_solver.
    * destruct (Hev _ _ _ _ Hin) as (-> & -> & -> & Hst1). eauto 10.
  + destruct (Hev _ _ _ _ Hin) as (-> & -> & -> & Hst1). eauto 10.
Qed.

End UnloadHooks.

Lemma unloadPlugin_hooks_witness :
  unloadPlugin pairEnv 3 "B" pairActive = Some (Normal true, pairUnloaded) ∧
  hooksOf "B" (newEvents pairActive pairUnloaded).
Proof.
  assert (unloadPlugin pairEnv 3 "B" pairActive = Some (Normal true, pairUnloaded))
    as Hrun by (vm_compute; reflexivity).
  split; [exact Hrun|]. apply Forall_forall.
  intros [| Y h snap out | | |] Hin; [exact I| |exact I..].
  exact (proj1 (unloadPlugin_hooks pairEnv 3 "B" pairActive _ _ Hrun Y h snap out Hin)).
Defined.

(** * A declared dependency outlives every lifecycle call *)

Section Blocked.
Context (env : Env).

Lemma perform_moves op s s' : perform env op s = Some s' → Moves s s'.
Proof.
destruct op as [X|n X|n X|n X|n X]; simpl.
- intros [= <-]. destruct (loadPlugin env X s) as [r s1] eqn:Hload.
  by eapply loadPlugin_moves.
- destruct (initializePlugin env n X s) as [[r s1]|] eqn:Hrun; [|done].
  intros [= <-]. by eapply initializePlugin_moves.
- destruct (activatePlugin env n X s) as [[r s1]|] eqn:Hrun; [|done].
  intros [= <-]. by eapply activatePlugin_moves.
- destruct (deactivatePlugin env n X s) as [[r s1]|] eqn:Hrun; [|done].
  intros [= <-]. by eapply deactivatePlugin_moves.
- destruct (unloadPlugin env n X s) as [[r s1]|] eqn:Hrun; [|done].
  intros [= <-]. by eapply unloadPlugin_moves.
Qed.

Lemma unloadPlugin_others fuel X s c s' :
unloadPlugin env fuel X s = Some (c, s') →
∀ k, k ≠ X → m_plugins s' !! k = m_plugins s !! k.
Proof.
intros Hrun k Hk.
apply unloadPlugin_cases in Hrun
  as [[-> _]|(Hinit & Hl & _ & [(_ & _ & Hde)|(s1 & Hs1 & Hrel)])]; [done| |].
- by rewrite (st_plugins _ _ (deactivatePlugin_settles _ _ _ _ _ _ Hde)).
- assert (m_plugins s1 = m_plugins s) as <-.
  { destruct Hs1 as [[_ Hde]|[_ ->]]; [|done].
    by rewrite (st_plugins _ _ (deactivatePlugin_settles _ _ _ _ _ _ Hde)). }
  destruct (releasePlugin_tables _ _ _ _ _ Hrel) as (_ & _ & Htrue & Hfalse).
  destruct c as [[]|e].
  + destruct (Htrue eq_refl) as (-> & _). by rewrite lookup_delete_ne.
  + by destruct Hfalse as (-> & _).
  + by destruct Hfalse as (-> & _).
Qed.

Lemma perform_keeps_dependency op s s' A B md plugin :
m_pluginMetadata s !! B = Some md → A ∈ getPluginDependencies md → B ≠ A →
m_initialized s = true → m_plugins s !! A = Some plugin →
perform env op s = Some s' →
m_plugins s' !! A = Some plugin.
Proof.
intros Hmd Hdep Hne Hinit HA Hop.
destruct op as [X|n X|n X|n X|n X]; simpl in Hop.
- destruct (loadPlugin env X s) as [r s1] eqn:Hload. simplify_eq/=.
  by apply (adv_plugins _ _ _ (loadPlugin_advances _ _ _ _ _ Hload)).
- destruct (initializePlugin env n X s) as [[r s1]|] eqn:Hrun; simplify_eq/=.
  by apply (adv_plugins _ _ _ (initializePlugin_advances _ _ _ _ _ _ Hrun)).
- destruct (activatePlugin env n X s) as [[r s1]|] eqn:Hrun; simplify_eq/=.
  by apply (adv_plugins _ _ _ (activatePlugin_advances _ _ _ _ _ _ Hrun)).
- destruct (deactivatePlugin env n X s) as [[r s1]|] eqn:Hrun; simplify_eq/=.
  by rewrite (st_plugins _ _ (deactivatePlugin_settles _ _ _ _ _ _ Hrun)).
- destruct (unloadPlugin env n X s) as [[c s1]|] eqn:Hrun; simplify_eq/=.
  destruct (decide (X = A)) as [->|HX].
  + rewrite (unloadPlugin_blocked env n A B md s) in Hrun;
      [|done|by eexists|done..].
    by simplify_eq.
  + by rewrite (unloadPlugin_others _ _ _ _ _ Hrun A).
Qed.

(** X16. Once the registry holds, under an id [B], metadata that declares a
  dependency on another plugin [A], this stays so through every sequence
  of calls of [loadPlugin], [initializePlugin], [activatePlugin],
  [deactivatePlugin] and [unloadPlugin], on any plugins and with any
  results: the entry of [B] is kept as it is, a loaded [A] stays loaded
  with the same plugin object, and [unloadPlugin A] keeps returning [false]
  without any effect, also after [B] itself has been unloaded. *)
Theorem dependency_stays_blocked (ops : list Operation) (s s' : PluginManager)
  (A B : string) (md : PluginMetadata) (plugin : IPlugin) :
m_initialized s = true →
m_pluginMetadata s !! B = Some md → A ∈ getPluginDependencies md → B ≠ A →
m_plugins s !! A = Some plugin →
performAll env ops s = Some s' →
m_pluginMetadata s' !! B = Some md ∧
m_plugins s' !! A = Some plugin ∧
∀ fuel, unloadPlugin env fuel A s' = Some (Normal false, s').
Proof.
intros Hinit Hmd Hdep Hne HA. revert s Hinit Hmd HA.
induction ops as [|op ops IH]; intros s Hinit Hmd HA Hrun; simpl in Hrun.
- simplify_eq. split_and!; [done..|]. intros fuel.
  by eapply unloadPlugin_blocked.
- destruct (perform env op s) as [s1|] eqn:Hop; [|done].
  pose proof (perform_moves _ _ _ Hop) as Hmoves.
  apply (IH s1); [| | |done].
  + by rewrite (proj1 (Moves_fixed _ _ Hmoves)).
  + by eapply Moves_registry_kept.
  + by eapply perform_keeps_dependency.
Qed.

End Blocked.

Lemma dependency_stays_blocked_witness :
  ∃ s', performAll pairEnv [OpDeactivate 3 "B"; OpUnload 3 "B"] pairActive = Some s' ∧
        m_plugins s' !! "B" = None ∧
        unloadPlugin pairEnv 3 "A" s' = Some (Normal false, s').
Proof.
  exists pairUnloaded.
  assert (performAll pairEnv [OpDeactivate 3 "B"; OpUnload 3 "B"] pairActive
          = Some pairUnloaded) as Hrun by (vm_compute; reflexivity).
  split; [done|]. split; [vm_compute; reflexivity|].
  eapply (dependency_stays_blocked pairEnv _ pairActive pairUnloaded "A" "B"); [..|done].
  - vm_compute; reflexivity.
  - vm_compute; reflexivity.
  - vm_compute. apply list_elem_of_here.
  - discriminate.
  - vm_compute; reflexivity.
Defined.

(** * [shutdown] and the plugins other plugins depend on *)

Lemma Move_events s s' : Move s s' → events s `prefix_of` events s'.
Proof.
  intros Hmove. destruct Hmove as [s s' Hrg| | | | | | |]; try done.
  - by rewrite (rg_events _ _ Hrg).
  - by apply prefix_app_r.
Qed.

Lemma Moves_events s s' : Moves s s' → events s `prefix_of` events s'.
Proof.
  intros Hmoves. induction Hmoves as [|s1 s2 s3 H12 H23 IH]; [done|].
  etrans; [by apply Move_events|done].
Qed.

Section ShutdownSkips.
Context (env : Env).

Lemma deactivation_untouched A l :
Forall deactivationEvent l → Forall (λ e, ¬ releaseOf A e) l.
Proof.
intros Hl. eapply Forall_impl; [done|].
intros e He [->|(snap & out & ->)]; done.
Qed.

Lemma releasePlugin_untouched X s1 c s' A :
X ≠ A → releasePlugin env X s1 = Some (c, s') →
Forall (λ e, ¬ releaseOf A e) (newEvents s1 s') ∧
∀ mt, m_handlers (comm s') !! handlerKey A mt = m_handlers (comm s1) !! handlerKey A mt.
Proof.
intros HX Hrel.
destruct (releasePlugin_spec _ _ _ _ _ Hrel) as (Hpre & Hrec & _ & _).
destruct (releasePlugin_events _ _ _ _ _ Hrel) as [_ Hhooks].
split.
- apply Forall_forall. intros e Hin [->|(snap & out & ->)].
  + apply releasePlugin_cases in Hrel as [_ Hcases].
    assert (∀ s2, afterShutdownHook X s1 s2 → EvPurge A ∉ newEvents s1 s2) as Hs2.
    { intros s2 [[_ ->]|[_ ->]].
      - rewrite newEvents_refl. by intros ?%elem_of_nil.
      - rewrite newEvents_emit. by intros ?%list_elem_of_singleton. }
    destruct Hcases as [(out & Hst & Hout & -> & ->)
                       |[(s2 & loader & H2 & Hl & -> & ->)
                        |(s2 & loader & H2 & Hl & -> & ->)]].
    * rewrite newEvents_emit in Hin. by apply list_elem_of_singleton in Hin.
    * destruct (afterShutdownHook_tables _ _ _ H2) as (_ & _ & _ & _ & _ & _ & Hp).
      assert (newEvents s1 (emit (EvUnload loader false) (purged X s2))
              = newEvents s1 s2 ++ [EvPurge X; EvUnload loader false]) as Hev.
      { unfold newEvents. simpl. rewrite <- app_assoc.
        destruct Hp as [new ->]. by rewrite <- app_assoc, !drop_app_length. }
      rewrite Hev in Hin. apply elem_of_app in Hin as [Hin|Hin]; [by eapply Hs2|].
      set_solver.
    * destruct (afterShutdownHook_tables _ _ _ H2) as (_ & _ & _ & _ & _ & _ & Hp).
      assert (newEvents s1
                (emit (EvSignal (pluginUnloaded X))
                   (setState X NotLoaded
                      (removeLoaded X (emit (EvUnload loader true) (purged X s2)))))
              = newEvents s1 s2 ++
                [EvPurge X; EvUnload loader true; EvSignal (pluginUnloaded X)])
        as Hev.
      { unfold newEvents. simpl. rewrite <- !app_assoc.
        destruct Hp as [new ->]. by rewrite <- app_assoc, !drop_app_length. }
      rewrite Hev in Hin. apply elem_of_app in Hin as [Hin|Hin]; [by eapply Hs2|].
      set_solver.
  + by destruct (Hhooks _ _ _ _ Hin) as [-> _].
- intros mt. apply releasePlugin_cases in Hrel as [_ Hcases].
  assert (∀ s2, afterShutdownHook X s1 s2 →
            m_handlers (comm (purged X s2)) !! handlerKey A mt
            = m_handlers (comm s1) !! handlerKey A mt) as Hs2.
  { intros s2 H2.
    destruct (afterShutdownHook_tables _ _ _ H2) as (_ & _ & _ & _ & _ & Hc & _).
    unfold purged. simpl. rewrite Hc.
    destruct (comm_initialized (comm s1)) eqn:Hinit.
    - rewrite unregisterAllMessageHandlers_lookup by done.
      destruct (ownedKey X (handlerKey A mt)) eqn:Howned; [|done].
      apply ownedKey_handlerKey_inv in Howned as [? _]. congruence.
    - unfold unregisterAllMessageHandlers. by rewrite Hinit. }
  destruct Hcases as [(out & Hst & Hout & -> & ->)
                     |[(s2 & loader & H2 & Hl & -> & ->)
                      |(s2 & loader & H2 & Hl & -> & ->)]]; [done|by apply Hs2..].
Qed.

Lemma unloadPlugin_untouched fuel X s c s' A :
X ≠ A → unloadPlugin env fuel X s = Some (c, s') →
Forall (λ e, ¬ releaseOf A e) (newEvents s s') ∧
∀ mt, m_handlers (comm s') !! handlerKey A mt = m_handlers (comm s) !! handlerKey A mt.
Proof.
intros HX Hrun.
apply unloadPlugin_cases in Hrun
  as [[-> _]|(Hinit & Hl & _ & [(_ & _ & Hde)|(s1 & Hs1 & Hrel)])].
- rewrite newEvents_refl. by split.
- pose proof (deactivatePlugin_settles _ _ _ _ _ _ Hde) as Hset. split.
  + apply deactivation_untouched, (st_recorded _ _ Hset).
  + intros mt. by rewrite (st_comm _ _ Hset).
- destruct (releasePlugin_untouched _ _ _ _ A HX Hrel) as [Hev Hcomm].
  destruct (releasePlugin_spec _ _ _ _ _ Hrel) as (Hpre & _).
  destruct Hs1 as [[_ Hde]|[_ ->]]; [|done].
  pose proof (deactivatePlugin_settles _ _ _ _ _ _ Hde) as Hset. split.
  + rewrite (newEvents_app s s1); [|apply (st_events _ _ Hset)|done].
    apply Forall_app. split; [|done].
    apply deactivation_untouched, (st_recorded _ _ Hset).
  + intros mt. by rewrite Hcomm, (st_comm _ _ Hset).
Qed.

Section Dependency.
Context (A B : string) (md : PluginMetadata) (plugin : IPlugin).
Context (Hdep : A ∈ getPluginDependencies md) (Hne : B ≠ A).

Lemma shutdownStep_skips fuel X s c s' :
  m_initialized s = true → m_pluginMetadata s !! B = Some md →
  m_plugins s !! A = Some plugin →
  shutdownStep env fuel X s = Some (c, s') →
  (m_initialized s' = true ∧ m_pluginMetadata s' !! B = Some md ∧
   m_plugins s' !! A = Some plugin) ∧
  events s `prefix_of` events s' ∧
  Forall (λ e, ¬ releaseOf A e) (newEvents s s') ∧
  ∀ mt, m_handlers (comm s') !! handlerKey A mt = m_handlers (comm s) !! handlerKey A mt.
Proof.
  intros Hinit Hmd HA. unfold shutdownStep.
  assert (∀ s1, (if isPluginActive s X then snd <$> deactivatePlugin env fuel X s
             else Some s) = Some s1 → settles s s1) as Hde.
  { intros s1. destruct (isPluginActive s X); [|intros [= <-]; apply settles_refl].
destruct (deactivatePlugin env fuel X s) as [[r s2]|] eqn:Hde; [|done].
intros [= <-]. by eapply deactivatePlugin_settles. }
  destruct (if isPluginActive s X then snd <$> deactivatePlugin env fuel X s
        else Some s) as [s1|]; [|done].
  specialize (Hde _ eq_refl).
  assert (m_initialized s1 = true) as Hinit1 by (by rewrite (st_initialized _ _ Hde)).
  assert (m_pluginMetadata s1 !! B = Some md) as Hmd1 by (by apply (st_metadata _ _ Hde)).
  assert (m_plugins s1 !! A = Some plugin) as HA1 by (by rewrite (st_plugins _ _ Hde)).
  destruct (unloadPlugin env fuel X s1) as [[c1 s2]|] eqn:Hun; [|done].
  intros Hstep.
  assert (s' = s2) as -> by (by destruct c1; simplify_eq).
  pose proof (unloadPlugin_moves _ _ _ _ _ _ Hun) as Hmoves.
  assert (Forall (λ e, ¬ releaseOf A e) (newEvents s1 s2) ∧
      (∀ mt, m_handlers (comm s2) !! handlerKey A mt
             = m_handlers (comm s1) !! handlerKey A mt) ∧
      m_plugins s2 !! A = Some plugin) as (Hev & Hcomm & HA2).
  { destruct (decide (X = A)) as [->|HX].
- rewrite (unloadPlugin_blocked env fuel A B md s1) in Hun;
    [|done|by eexists|done..].
  simplify_eq. by rewrite newEvents_refl.
- destruct (unloadPlugin_untouched _ _ _ _ _ A HX Hun) as [? ?].
  split_and!; [done..|]. by rewrite (unloadPlugin_others _ _ _ _ _ _ Hun A). }
  split_and!.
  - by rewrite (proj1 (Moves_fixed _ _ Hmoves)).
  - by eapply Moves_registry_kept.
  - done.
  - etrans; [apply (st_events _ _ Hde)|by apply Moves_events].
  - rewrite (newEvents_app s s1); [|apply (st_events _ _ Hde)|by apply Moves_events].
apply Forall_app. split; [|done].
apply deactivation_untouched, (st_recorded _ _ Hde).
  - intros mt. by rewrite Hcomm, (st_comm _ _ Hde).
Qed.

Lemma shutdownLoop_skips fuel order :
  ∀ s c s',
m_initialized s = true → m_pluginMetadata s !! B = Some md →
m_plugins s !! A = Some plugin →
shutdownLoop env fuel order s = Some (c, s') →
events s `prefix_of` events s' ∧
Forall (λ e, ¬ releaseOf A e) (newEvents s s') ∧
∀ mt, m_handlers (comm s') !! handlerKey A mt = m_handlers (comm s) !! handlerKey A mt.
Proof.
  induction order as [|X order IH]; intros s c s' Hinit Hmd HA; simpl.
  { intros [= <- <-]. by rewrite newEvents_refl. }
  destruct (shutdownStep env fuel X s) as [[c1 s1]|] eqn:Hstep; [|done].
  destruct (shutdownStep_skips _ _ _ _ _ Hinit Hmd HA Hstep)
as ((Hinit1 & Hmd1 & HA1) & Hpre & Hev & Hcomm).
  destruct c1 as [[]|e].
  - intros Hrest. destruct (IH _ _ _ Hinit1 Hmd1 HA1 Hrest) as (Hpre' & Hev' & Hcomm').
split_and!.
+ by etrans.
+ rewrite (newEvents_app s s1) by done. by apply Forall_app.
+ intros mt. by rewrite Hcomm', Hcomm.
  - by intros [= <- <-].
Qed.

End Dependency.

(** X17. [shutdown] never releases a loaded plugin that another registered
  plugin declares as a dependency: whatever the other calls return, the
  shutdown hook of such a plugin is not called and its message handlers
  are not purged, so they are all still on the bus afterwards; and when
  [shutdown] returns, the manager has nevertheless forgotten every plugin
  and is no longer initialized. *)
Theorem shutdown_skips_dependencies (fuel : nat) (s : PluginManager)
  (c : Completion unit) (s' : PluginManager) (A B : string) (md : PluginMetadata) :
m_initialized s = true →
m_pluginMetadata s !! B = Some md → A ∈ getPluginDependencies md → B ≠ A →
is_Some (m_plugins s !! A) →
shutdown env fuel s = Some (c, s') →
Forall (λ e, ¬ releaseOf A e) (newEvents s s') ∧
(∀ messageType,
   m_handlers (comm s') !! handlerKey A messageType
   = m_handlers (comm s) !! handlerKey A messageType) ∧
(c = Normal () →
 m_initialized s' = false ∧ m_plugins s' = ∅ ∧ m_pluginLoaders s' = ∅ ∧
 m_pluginMetadata s' = ∅ ∧ m_pluginStates s' = ∅).
Proof.
intros Hinit Hmd Hdep Hne [plugin HA]. unfold shutdown. rewrite Hinit.
destruct (shutdownOrder fuel s) as [order|]; [|done].
destruct (shutdownLoop env fuel order s) as [[c1 s1]|] eqn:Hloop; [|done].
destruct (shutdownLoop_skips A B md plugin Hdep Hne _ _ _ _ _ Hinit Hmd HA Hloop)
  as (Hpre & Hev & Hcomm).
destruct c1 as [[]|e]; intros [= <- <-]; [|by split_and!].
split_and!; [done..|]. by intros _.
Qed.

End ShutdownSkips.

Lemma shutdown_skips_dependencies_witness :
  shutdown pairEnv 3 pairHandled = Some (Normal (), pairShutdown) ∧
  is_Some (m_handlers (comm pairHandled) !! handlerKey "A" "ping") ∧
  m_handlers (comm pairShutdown) !! handlerKey "A" "ping"
  = m_handlers (comm pairHandled) !! handlerKey "A" "ping" ∧
  m_plugins pairShutdown = ∅.
Proof.
  assert (shutdown pairEnv 3 pairHandled = Some (Normal (), pairShutdown)) as Hrun
    by (vm_compute; reflexivity).
  split; [exact Hrun|].
  split; [vm_compute; eexists; reflexivity|].
  assert (m_initialized pairHandled = true) as Hinit by (vm_compute; reflexivity).
  assert (m_pluginMetadata pairHandled !! "B"
          = Some (default emptyMetadata (m_pluginMetadata pairActive !! "B"))) as Hmd
    by (vm_compute; reflexivity).
  assert ("A" ∈ getPluginDependencies
                  (default emptyMetadata (m_pluginMetadata pairActive !! "B"))) as Hdep
    by (vm_compute; apply list_elem_of_here).
  assert ("B" ≠ "A") as Hne by discriminate.
  assert (is_Some (m_plugins pairHandled !! "A")) as HA
    by (vm_compute; eexists; reflexivity).
  destruct (shutdown_skips_dependencies pairEnv 3 pairHandled (Normal ()) pairShutdown
              "A" "B" _ Hinit Hmd Hdep Hne HA Hrun) as (_ & Hcomm & Hcleared).
  split.
  - exact (Hcomm "ping").
  - exact (proj1 (proj2 (Hcleared eq_refl))).
Defined.

(** * Dependents are deactivated before the deactivate hook is called *)

Section DeactivationOrder.
Context (env : Env).

Lemma DeactivateLoop_dependenciesOf recurse deps s r s' :
(∀ d s r s', recurse d s = Some (r, s') → ∀ W, dependenciesOf s' W = dependenciesOf s W) →
DeactivateLoop recurse deps s r s' → ∀ W, dependenciesOf s' W = dependenciesOf s W.
Proof.
intros Hrec. induction 1 as [s|d rest s s1 Hcall|d rest s s1 r s' Hcall Hloop IH];
  intros W.
- done.
- by eapply Hrec.
- rewrite IH. by eapply Hrec.
Qed.

Lemma deactivatePlugin_dependenciesOf n :
∀ X s r s', deactivatePlugin env n X s = Some (r, s') →
            ∀ W, dependenciesOf s' W = dependenciesOf s W.
Proof.
induction n as [|n IH]; intros X s r s' Hrun W; [done|].
apply deactivatePlugin_run in Hrun.
destruct Hrun as [?|? ? ?|L s1 s2 Hinit Hl Hst HL Hloop
                 |L s1 s2 plugin out Hinit Hl Hst HL Hloop Hplugin Hout]; try done.
- rewrite (DeactivateLoop_dependenciesOf _ _ _ _ _ IH Hloop).
  by apply (activeDependents_spec _ _ _ _ _ HL).
- transitivity (dependenciesOf s2 W).
  + unfold finishDeactivate, dependenciesOf. cbv zeta. by case_bool_decide.
  + rewrite (DeactivateLoop_dependenciesOf _ _ _ _ _ IH Hloop).
    by apply (activeDependents_spec _ _ _ _ _ HL).
Qed.

Lemma settles_inactive s s' W : settles s s' → stateOf s W ≠ Active → stateOf s' W ≠ Active.
Proof.
intros Hset Hna. destruct (st_states _ _ Hset W) as [->|(? & _)]; done.
Qed.

Lemma settles_hook_before s s' W :
settles s s' → stateOf s' W ≠ Active →
stateOf s W ≠ Active ∨
∃ j snap', newEvents s s' !! j = Some (EvHook W HDeactivate snap' (Returns true)).
Proof.
intros Hset Hna. destruct (st_states _ _ Hset W) as [Heq|(_ & _ & snap & Hin)].
- left. by rewrite <- Heq.
- right. apply list_elem_of_lookup in Hin as [j Hj]. eauto.
Qed.

Lemma deactivatePlugin_true_inactive n X s s' :
deactivatePlugin env n X s = Some (true, s') → stateOf s' X ≠ Active.
Proof.
intros Hrun. destruct (decide (stateOf s X = Active)) as [Hact|Hna].
- by rewrite (deactivatePlugin_success _ _ _ _ _ _ Hrun eq_refl Hact).
- by eapply settles_inactive; [eapply deactivatePlugin_settles|].
Qed.

Lemma DeactivateLoop_all_settled n deps s r s' :
DeactivateLoop (deactivatePlugin env n) deps s r s' → r = true →
∀ d, d ∈ deps → stateOf s' d ≠ Active.
Proof.
induction 1 as [s|d rest s s1 Hcall|d rest s s1 r s' Hcall Hloop IH];
  intros Hr x Hx.
- by apply elem_of_nil in Hx.
- done.
- apply elem_of_cons in Hx as [->|Hx]; [|by apply IH].
  eapply settles_inactive; [by eapply DeactivateLoop_settles'|].
  by eapply deactivatePlugin_true_inactive.
Qed.

Lemma dependentsSettledAtHook_quiet s s' :
newEvents s s' = [] → dependentsSettledAtHook s s'.
Proof. intros Hq i X snap out. by rewrite Hq, lookup_nil. Qed.

Lemma dependentsSettledAtHook_trans s s1 s2 :
settles s s1 → settles s1 s2 →
(∀ W, dependenciesOf s1 W = dependenciesOf s W) →
dependentsSettledAtHook s s1 → dependentsSettledAtHook s1 s2 →
dependentsSettledAtHook s s2.
Proof.
intros S1 S2 Hdeps H1 H2 i X snap out.
rewrite (newEvents_app s s1 s2) by (eapply st_events; done).
intros [Hi|[Hlen Hi]]%lookup_app_Some.
- destruct (H1 _ _ _ _ Hi) as [Hx Hws]. split; [done|].
  intros W HW Hl Hdep. destruct (Hws W HW Hl Hdep) as [Hsnap Hbefore].
  split; [done|]. destruct Hbefore as [?|(j & snap' & Hj & Hev)]; [by left|].
  right. exists j, snap'. split; [done|]. by apply lookup_app_l_Some.
- destruct (H2 _ _ _ _ Hi) as [Hx Hws]. split; [done|].
  intros W HW Hl Hdep.
  destruct (Hws W HW) as [Hsnap Hbefore].
  { by rewrite (st_plugins _ _ S1). }
  { by rewrite Hdeps. }
  split; [done|]. destruct Hbefore as [Hna|(j & snap' & Hj & Hev)].
  + destruct (settles_hook_before _ _ W S1 Hna) as [?|(j & snap' & Hj)]; [by left|].
    right. exists j, snap'. pose proof (lookup_lt_Some _ _ _ Hj). split; [lia|].
    by apply lookup_app_l_Some.
  + right. exists (length (newEvents s s1) + j), snap'. split; [lia|].
    rewrite lookup_app_r by lia.
    by replace (length (newEvents s s1) + j - length (newEvents s s1)) with j by lia.
Qed.

Lemma DeactivateLoop_dependentsSettledAtHook n deps s r s' :
(∀ X s r s', deactivatePlugin env n X s = Some (r, s') → dependentsSettledAtHook s s') →
DeactivateLoop (deactivatePlugin env n) deps s r s' → dependentsSettledAtHook s s'.
Proof.
intros IHn. induction 1 as [s|d rest s s1 Hcall|d rest s s1 r s' Hcall Hloop IH].
- apply dependentsSettledAtHook_quiet, newEvents_refl.
- by eapply IHn.
- eapply dependentsSettledAtHook_trans; [| | |by eapply IHn|done].
  + by eapply deactivatePlugin_settles.
  + by eapply DeactivateLoop_settles'.
  + by eapply deactivatePlugin_dependenciesOf.
Qed.

Lemma deactivatePlugin_dependentsSettledAtHook n :
∀ X s r s', deactivatePlugin env n X s = Some (r, s') → dependentsSettledAtHook s s'.
Proof.
induction n as [|n IH]; intros X s r s' Hrun; [done|].
apply deactivatePlugin_run in Hrun.
destruct Hrun as [?|? ? ?|L s1 s2 Hinit Hl Hst HL Hloop
                 |L s1 s2 plugin out Hinit Hl Hst HL Hloop Hplugin Hout];
  try (apply dependentsSettledAtHook_quiet, newEvents_refl).
- destruct (activeDependents_spec _ _ _ _ _ HL) as (Hrg & Hdeps & HLspec).
  apply (dependentsSettledAtHook_trans s s1 s2).
  + by apply registryGrows_settles.
  + by eapply DeactivateLoop_settles'.
  + done.
  + apply dependentsSettledAtHook_quiet. unfold newEvents.
    by rewrite (rg_events _ _ Hrg), drop_all.
  + by eapply DeactivateLoop_dependentsSettledAtHook.
- destruct (activeDependents_spec _ _ _ _ _ HL) as (Hrg & Hdeps & HLspec).
  pose proof (registryGrows_settles _ _ Hrg) as S1.
  pose proof (DeactivateLoop_settles' _ _ _ _ _ _ Hloop) as S12.
  pose proof (settles_trans _ _ _ S1 S12) as S2.
  assert (dependentsSettledAtHook s s2) as Hbefore.
  { apply (dependentsSettledAtHook_trans s s1 s2 S1 S12 Hdeps).
    - apply dependentsSettledAtHook_quiet. unfold newEvents.
      by rewrite (rg_events _ _ Hrg), drop_all.
    - by eapply DeactivateLoop_dependentsSettledAtHook. }
  intros i Y snap outY.
  rewrite (finishDeactivate_events s s2 X _ (st_events _ _ S2)).
  intros [Hi|[Hlen Hi]]%lookup_app_Some.
  + destruct (Hbefore _ _ _ _ Hi) as [Hx Hws]. split; [done|].
    intros W HW HlW Hdep. destruct (Hws W HW HlW Hdep) as [Hsnap Hb].
    split; [done|]. destruct Hb as [?|(j & snap' & Hj & Hev)]; [by left|].
    right. exists j, snap'. split; [done|]. by apply lookup_app_l_Some.
  + destruct (i - length (newEvents s s2)) as [|k] eqn:Hk; simpl in Hi.
    * injection Hi as <- <- <-. split.
      { by eapply (active_at_deactivate_hook env n X s L s1 true s2). }
      intros W HW HlW Hdep.
      assert (stateOf s2 W ≠ Active) as Hna.
      { destruct (decide (stateOf s W = Active)) as [Hact|Hna].
        - eapply (DeactivateLoop_all_settled n L s1 true s2); [done..|].
          apply HLspec. split_and!; [by apply elem_of_qkeys|done..].
        - by eapply settles_inactive. }
      split; [done|].
      destruct (settles_hook_before _ _ W S2 Hna) as [?|(j & snap' & Hj)]; [by left|].
      right. exists j, snap'. pose proof (lookup_lt_Some _ _ _ Hj). split; [lia|].
      by apply lookup_app_l_Some.
    * case_bool_decide; [|by rewrite lookup_nil in Hi].
      destruct k; simpl in Hi; [done|by rewrite lookup_nil in Hi].
Qed.

Lemma deactivatePlugin_twice n m X s s1 :
deactivatePlugin env n X s = Some (true, s1) →
deactivatePlugin env (S m) X s1 = Some (true, s1).
Proof.
intros Hrun.
pose proof (deactivatePlugin_true_inactive _ _ _ _ Hrun) as Hna.
pose proof (deactivatePlugin_settles _ _ _ _ _ _ Hrun) as Hset.
assert (m_initialized s = true ∧ is_Some (m_plugins s !! X)) as [Hinit Hl].
{ destruct n as [|n]; [done|]. apply deactivatePlugin_run in Hrun.
  by inversion Hrun; subst. }
simpl. rewrite (st_initialized _ _ Hset), Hinit. simpl.
rewrite (proj2 (isPluginLoaded_true s1 X));
  [|by rewrite (st_initialized _ _ Hset), (st_plugins _ _ Hset)].
simpl. by rewrite bool_decide_false.
Qed.

(** X18. [deactivatePlugin] deactivates the dependents first.  Whenever the
  call returns, each deactivate hook it ran was called for a plugin that
  was [Active] on a state table in which no loaded plugin declaring it as
  a dependency was [Active]: each such dependent was inactive before the
  call, or its own deactivate hook had answered [true] earlier in the
  record.  After a call that returned [true], calling it again returns
  [true] and does nothing. *)
Theorem deactivate_dependents_first (n : nat) (X : string) (s : PluginManager)
  (r : bool) (s' : PluginManager) :
deactivatePlugin env n X s = Some (r, s') →
dependentsSettledAtHook s s' ∧
(r = true → ∀ m, deactivatePlugin env (S m) X s' = Some (true, s')).
Proof.
intros Hrun. split.
- by eapply deactivatePlugin_dependentsSettledAtHook.
- intros -> m. by eapply deactivatePlugin_twice.
Qed.

End DeactivationOrder.

Lemma deactivate_dependents_first_witness :
  deactivatePlugin pairEnv 3 "A" pairActive = Some (true, pairSettled) ∧
  dependentsSettledAtHook pairActive pairSettled.
Proof.
  assert (deactivatePlugin pairEnv 3 "A" pairActive = Some (true, pairSettled)) as Hrun
    by (vm_compute; reflexivity).
  split; [exact Hrun|].
  exact (proj1 (deactivate_dependents_first pairEnv 3 "A" pairActive true pairSettled Hrun)).
Defined.

(** * Dependencies are initialized before the initialize hook is called *)

Lemma readyIn_stateOf s k : readyIn (m_pluginStates s) k ↔
                            stateOf s k = Initialized ∨ stateOf s k = Active.
Proof. done. Qed.

Lemma readies_refl s : readies s s.
Proof. split; [done|]. intros k Hk. by left. Qed.

Lemma readies_trans s1 s2 s3 :
  (∀ k, is_Some (m_plugins s1 !! k) → is_Some (m_plugins s2 !! k)) →
  events s1 `prefix_of` events s2 → events s2 `prefix_of` events s3 →
  readies s1 s2 → readies s2 s3 → readies s1 s3.
Proof.
  intros Hpl P12 P23 [K12 B12] [K23 B23]. split.
  - intros k Hk Hr. apply K23; [by apply Hpl|by apply K12].
  - intros k Hr.
    rewrite (newEvents_app s1 s2 s3) by done.
    setoid_rewrite elem_of_app.
    destruct (B23 k Hr) as [Hr2|?]; [|by right; right].
    destruct (B12 k Hr2) as [?|?]; [by left|by right; left].
Qed.

Lemma advances_loaded Q s s' k :
  advances Q s s' → is_Some (m_plugins s !! k) → is_Some (m_plugins s' !! k).
Proof. intros Hadv [p Hp]. exists p. by eapply adv_plugins. Qed.

Lemma readies_after Q Q' s1 s2 s3 :
  advances Q s1 s2 → advances Q' s2 s3 → readies s1 s2 → readies s2 s3 → readies s1 s3.
Proof.
  intros A12 A23. apply readies_trans.
  - intros k. by eapply advances_loaded.
  - by eapply adv_events.
  - by eapply adv_events.
Qed.

Lemma readies_registry s s' : registryGrows s s' → readies s s'.
Proof.
  intros Hrg. split.
  - intros k _. by rewrite (rg_states _ _ Hrg).
  - intros k. rewrite (rg_states _ _ Hrg). by left.
Qed.

Lemma readyIn_insert states X st k :
  readyIn (<[X := st]> states) k ↔
  if decide (k = X) then st = Initialized ∨ st = Active else readyIn states k.
Proof.
  unfold readyIn, stateIn. destruct (decide (k = X)) as [->|Hne].
  - by rewrite lookup_insert_eq.
  - by rewrite lookup_insert_ne.
Qed.

Lemma readies_then_emit s s2 ev :
  events s `prefix_of` events s2 → readies s s2 → readies s (emit ev s2).
Proof.
  intros Hpre [K B]. split; [done|]. intros k Hr.
  rewrite newEvents_then_emit by done. setoid_rewrite elem_of_app.
  destruct (B k Hr) as [?|?]; [by left|by right; left].
Qed.

Lemma readies_then_failPlugin s s2 X msg :
  events s `prefix_of` events s2 →
  (is_Some (m_plugins s !! X) → ¬ readyIn (m_pluginStates s) X) →
  readies s s2 → readies s (failPlugin X msg s2).
Proof.
  intros Hpre HX [K B]. unfold failPlugin.
  apply readies_then_emit; [done|]. split.
  - intros k Hk Hr. simpl. apply readyIn_insert.
    destruct (decide (k = X)) as [->|Hne]; [by destruct (HX Hk)|by apply K].
  - intros k. simpl. rewrite readyIn_insert.
    destruct (decide (k = X)) as [->|Hne]; [by intros [?|?]|].
    intros Hr. destruct (B k Hr) as [?|?]; [by left|right].
    unfold newEvents in *. done.
Qed.

Section InitializationOrder.
Context (env : Env).

Lemma loadPlugin_readies X s r s' : loadPlugin env X s = (r, s') → readies s s'.
Proof.
unfold loadPlugin. intros Hrun.
destruct (m_initialized s) eqn:Hinit; simpl in Hrun;
  [|simplify_eq; apply readies_refl].
destruct (isPluginLoaded s X) eqn:Hloaded; [simplify_eq; apply readies_refl|].
apply isPluginLoaded_false in Hloaded; [|done].
assert (is_Some (m_plugins s !! X) → ¬ readyIn (m_pluginStates s) X) as HX.
{ rewrite Hloaded. by intros [? ?]. }
change (match m_pluginMetadata s !! X with
        | Some _ => (true, s)
        | None => loadPluginMetadata env X s
        end) with (ensureMetadata env X s) in Hrun.
destruct (ensureMetadata env X s) as [ok1 s1] eqn:Hens.
pose proof (ensureMetadata_grows _ _ _ _ _ Hens) as H1.
destruct ok1; simpl in Hrun; [|simplify_eq; by apply readies_registry].
destruct (metadataRef X s1) as [md s2] eqn:Hmd.
pose proof (registryGrows_trans _ _ _ H1 (metadataRef_grows _ _ _ _ Hmd)) as H2.
assert (∀ s0, registryGrows s s0 → events s `prefix_of` events s0) as Hpre.
{ intros s0 H0. by rewrite (rg_events _ _ H0). }
destruct (isCompatibleWithFramework env md m_frameworkVersion); simpl in Hrun;
  [|simplify_eq; apply readies_then_failPlugin; [by apply Hpre|done|
    by apply readies_registry]].
destruct (checkPluginDependencies env X s2) as [ok3 s3] eqn:Hchk.
pose proof (registryGrows_trans _ _ _ H2
              (checkPluginDependencies_grows _ _ _ _ _ Hchk)) as H3.
pose proof (readies_registry _ _ H3) as R3. pose proof (Hpre _ H3) as P3.
destruct ok3; simpl in Hrun;
  [|simplify_eq; by apply readies_then_failPlugin].
destruct (fileExists env _); simpl in Hrun;
  [|simplify_eq; by apply readies_then_failPlugin].
destruct (loaderLoad env _ _) eqn:Hload; simplify_eq.
- apply readies_then_failPlugin; [by apply prefix_app_r|done|].
  by apply readies_then_emit.
- apply readies_then_failPlugin;
    [simpl; rewrite <- app_assoc; by apply prefix_app_r|done|].
  apply readies_then_emit; [by apply prefix_app_r|]. by apply readies_then_emit.
- apply readies_then_failPlugin;
    [simpl; rewrite <- app_assoc; by apply prefix_app_r|done|].
  apply readies_then_emit; [by apply prefix_app_r|]. by apply readies_then_emit.
- apply readies_then_emit; [simpl; by apply prefix_app_r|].
  destruct (readies_then_emit s s3
              (EvLoad (resolveLibrary env s3 (getPluginId md)) (LoadedInstance plugin))
              P3 R3) as [K B].
  split.
  + intros k Hk Hr. simpl. apply readyIn_insert.
    destruct (decide (k = X)) as [->|Hne]; [by destruct (HX Hk)|by apply K].
  + intros k. simpl. rewrite readyIn_insert.
    destruct (decide (k = X)) as [->|Hne]; [by intros [?|?]|].
    intros Hr. destruct (B k Hr) as [?|Hin]; [by left|right; exact Hin].
Qed.

Lemma ensureLoaded_readies d s s1 : ensureLoaded env d s s1 → readies s s1.
Proof.
intros [[_ ->]|[_ Hload]]; [apply readies_refl|by eapply loadPlugin_readies].
Qed.

Lemma ensureLoaded_loaded d s s1 : ensureLoaded env d s s1 → is_Some (m_plugins s1 !! d).
Proof.
intros [[Hl ->]|[_ Hload]].
- by apply isPluginLoaded_true in Hl as [_ ?].
- by eapply loadPlugin_success.
Qed.

Lemma InitLoop_readies recurse X deps s r s' :
(∀ d s r s', recurse d s = Some (r, s') → advances notActivateHook s s' ∧ readies s s') →
InitLoop env recurse X deps s r s' →
∀ s0, (is_Some (m_plugins s0 !! X) → ¬ readyIn (m_pluginStates s0) X) →
      advances notActivateHook s0 s → readies s0 s → readies s0 s'.
Proof.
intros Hrec. induction 1 as
  [s|d rest s s1 Hnl Hload|d rest s s1 r s' Hens Hneeds Hloop IH
  |d rest s s1 s2 Hens Hneeds Hcall|d rest s s1 s2 r s' Hens Hneeds Hcall Hloop IH];
  intros s0 HX A0 R0.
- done.
- pose proof (advances_weaken _ _ _ _ notHook_notActivateHook
                (loadPlugin_advances _ _ _ _ _ Hload)) as A1.
  apply readies_then_failPlugin;
    [apply (adv_events _ _ _ (advances_trans _ _ _ _ A0 A1))|done|].
  eapply readies_after; [exact A0|exact A1|done|]. by eapply loadPlugin_readies.
- pose proof (advances_weaken _ _ _ _ notHook_notActivateHook
                (ensureLoaded_advances _ _ _ _ Hens)) as A1.
  apply IH; [done|by eapply advances_trans|].
  eapply readies_after; [exact A0|exact A1|done|]. by eapply ensureLoaded_readies.
- pose proof (advances_weaken _ _ _ _ notHook_notActivateHook
                (ensureLoaded_advances _ _ _ _ Hens)) as A1.
  destruct (Hrec _ _ _ _ Hcall) as [A2 R2].
  pose proof (advances_trans _ _ _ _ A0 A1) as A01.
  apply readies_then_failPlugin;
    [apply (adv_events _ _ _ (advances_trans _ _ _ _ A01 A2))|done|].
  eapply readies_after; [exact A01|exact A2| |done].
  eapply readies_after; [exact A0|exact A1|done|]. by eapply ensureLoaded_readies.
- pose proof (advances_weaken _ _ _ _ notHook_notActivateHook
                (ensureLoaded_advances _ _ _ _ Hens)) as A1.
  destruct (Hrec _ _ _ _ Hcall) as [A2 R2].
  pose proof (advances_trans _ _ _ _ A0 A1) as A01.
  apply IH; [done|by eapply advances_trans|].
  eapply readies_after; [exact A01|exact A2| |done].
  eapply readies_after; [exact A0|exact A1|done|]. by eapply ensureLoaded_readies.
Qed.

Lemma readies_finishInitialize s s2 X out :
events s `prefix_of` events s2 →
(is_Some (m_plugins s !! X) → ¬ readyIn (m_pluginStates s) X) →
readies s s2 → readies s (finishInitialize X out s2).
Proof.
intros Hpre HX R2. unfold finishInitialize. cbv zeta.
assert (readies s (emit (EvHook X HInitialize (m_pluginStates s2) out) s2)) as R3
  by by apply readies_then_emit.
case_bool_decide.
- destruct R3 as [K B]. split.
  + intros k Hk Hr. simpl. apply readyIn_insert.
    destruct (decide (k = X)) as [->|Hne]; [by left|by apply K].
  + intros k. simpl. rewrite readyIn_insert.
    rewrite (newEvents_then_emit s (setState X Initialized (emit _ s2)))
      by (simpl; by apply prefix_app_r).
    setoid_rewrite elem_of_app.
    destruct (decide (k = X)) as [->|Hne]; [intros _; right; right; set_solver|].
    intros Hr. destruct (B k Hr) as [?|?]; [by left|by right; left].
- apply readies_then_failPlugin; [by apply prefix_app_r|done..].
Qed.

Lemma initializePlugin_readies n :
∀ X s r s', initializePlugin env n X s = Some (r, s') → readies s s'.
Proof.
induction n as [|n IH]; intros X s r s' Hrun; [done|].
assert (∀ d s r s', initializePlugin env n d s = Some (r, s') →
          advances notActivateHook s s' ∧ readies s s') as Hrec.
{ intros d s0 r0 s0' H0. split; [by eapply initializePlugin_advances|by eapply IH]. }
apply initializePlugin_run in Hrun.
destruct Hrun as [?|? ? ?|md s1 s2 Hchecks Hmd Hloop
                 |md s1 s2 plugin out Hchecks Hmd Hloop Hplugin Hout];
  try apply readies_refl.
- destruct Hchecks as (_ & _ & Hni & Hna & _).
  eapply InitLoop_readies; [exact Hrec|done| | |].
  + intros _ [?|?]; done.
  + apply registryGrows_advances. by eapply metadataRef_grows.
  + apply readies_registry. by eapply metadataRef_grows.
- destruct Hchecks as (_ & _ & Hni & Hna & _).
  assert (is_Some (m_plugins s !! X) → ¬ readyIn (m_pluginStates s) X) as HX.
  { intros _ [?|?]; done. }
  pose proof (metadataRef_grows _ _ _ _ Hmd) as Hg.
  apply readies_finishInitialize; [|done|].
  + etrans; [|by eapply InitLoop_prefix]. by rewrite (rg_events _ _ Hg).
  + eapply InitLoop_readies; [exact Hrec|done|done| |].
    * by apply registryGrows_advances.
    * by apply readies_registry.
Qed.

Lemma InitLoop_true_readies n X deps s r s' :
InitLoop env (initializePlugin env n) X deps s r s' → r = true → readies s s'.
Proof.
induction 1 as
  [s|d rest s s1 Hnl Hload|d rest s s1 r s' Hens Hneeds Hloop IH
  |d rest s s1 s2 Hens Hneeds Hcall|d rest s s1 s2 r s' Hens Hneeds Hcall Hloop IH];
  intros Hr; try done.
- apply readies_refl.
- pose proof (advances_weaken _ _ _ _ notHook_notActivateHook
                (ensureLoaded_advances _ _ _ _ Hens)) as A1.
  eapply readies_trans; [..|by eapply ensureLoaded_readies|by apply IH].
  + intros k. by eapply advances_loaded.
  + by eapply adv_events.
  + by eapply InitLoop_prefix.
- pose proof (advances_weaken _ _ _ _ notHook_notActivateHook
                (ensureLoaded_advances _ _ _ _ Hens)) as A1.
  pose proof (initializePlugin_advances _ _ _ _ _ _ Hcall) as A2.
  eapply readies_trans; [..|by apply IH].
  + intros k ?. eapply advances_loaded; [exact A2|]. by eapply advances_loaded.
  + etrans; by eapply adv_events.
  + by eapply InitLoop_prefix.
  + eapply readies_after; [exact A1|exact A2|by eapply ensureLoaded_readies|].
    by eapply initializePlugin_readies.
Qed.

Lemma InitLoop_all_ready n X deps s r s' :
InitLoop env (initializePlugin env n) X deps s r s' → r = true →
∀ d, d ∈ deps → readyIn (m_pluginStates s') d.
Proof.
induction 1 as
  [s|d rest s s1 Hnl Hload|d rest s s1 r s' Hens Hneeds Hloop IH
  |d rest s s1 s2 Hens Hneeds Hcall|d rest s s1 s2 r s' Hens Hneeds Hcall Hloop IH];
  intros Hr d' Hd'; try done.
- by apply elem_of_nil in Hd'.
- apply elem_of_cons in Hd' as [->|Hd']; [|by apply IH].
  apply (InitLoop_true_readies _ _ _ _ _ _ Hloop Hr);
    [by eapply ensureLoaded_loaded|].
  unfold needsInitialize in Hneeds. apply readyIn_stateOf.
  apply andb_false_iff in Hneeds as [Hn|Hn]; apply negb_false_iff in Hn;
    apply bool_decide_eq_true in Hn; [by left|by right].
- apply elem_of_cons in Hd' as [->|Hd']; [|by apply IH].
  destruct (initializePlugin_success _ _ _ _ _ _ Hcall eq_refl) as (_ & Hl & Hst).
  by apply (InitLoop_true_readies _ _ _ _ _ _ Hloop Hr).
Qed.

Lemma dependenciesReady_quiet s s' :
(∀ X snap out, EvHook X HInitialize snap out ∉ newEvents s s') →
dependenciesReadyAtHook s s'.
Proof.
intros Hquiet i X snap out Hi. destruct (Hquiet X snap out).
by eapply list_elem_of_lookup_2.
Qed.

Lemma dependenciesReady_trans s s1 s2 :
events s `prefix_of` events s1 → events s1 `prefix_of` events s2 →
(∀ k md, m_pluginMetadata s1 !! k = Some md → m_pluginMetadata s2 !! k = Some md) →
readies s s1 →
dependenciesReadyAtHook s s1 → dependenciesReadyAtHook s1 s2 →
dependenciesReadyAtHook s s2.
Proof.
intros P1 P2 Hmd [_ B] H1 H2 i X snap out.
rewrite (newEvents_app s s1 s2) by done. intros Hi.
apply lookup_app_Some in Hi as [Hi|[Hlen Hi]].
- destruct (H1 _ _ _ _ Hi) as (md & HX & Hdeps).
  exists md. split; [by apply Hmd|]. intros A HA.
  destruct (Hdeps A HA) as [Hsnap [?|(j & Hj & Hsig)]]; split; [done|by left|done|].
  right. exists j. split; [done|]. by apply lookup_app_l_Some.
- destruct (H2 _ _ _ _ Hi) as (md & HX & Hdeps).
  exists md. split; [done|]. intros A HA.
  destruct (Hdeps A HA) as [Hsnap [Hr|(j & Hj & Hsig)]]; (split; [done|]).
  + destruct (B A Hr) as [?|Hin]; [by left|right].
    apply list_elem_of_lookup in Hin as [j Hj]. exists j.
    pose proof (lookup_lt_Some _ _ _ Hj). split; [lia|by apply lookup_app_l_Some].
  + right. exists (length (newEvents s s1) + j). split; [lia|].
    rewrite lookup_app_r by lia. rewrite <- Hsig. f_equal. lia.
Qed.

Lemma dependenciesReady_snoc s s2 s3 ev :
events s `prefix_of` events s2 →
events s3 = events s2 ++ [ev] → m_pluginMetadata s3 = m_pluginMetadata s2 →
(∀ X snap out, ev ≠ EvHook X HInitialize snap out) →
dependenciesReadyAtHook s s2 → dependenciesReadyAtHook s s3.
Proof.
intros Hpre Hev Hmd Hne H2 i X snap out.
assert (newEvents s s3 = newEvents s s2 ++ [ev]) as ->.
{ destruct Hpre as [new Hnew]. unfold newEvents. rewrite Hev, Hnew, <- app_assoc.
  by rewrite !drop_app_length. }
intros Hi. apply lookup_app_Some in Hi as [Hi|[Hlen Hi]].
- destruct (H2 _ _ _ _ Hi) as (md & HX & Hdeps).
  exists md. rewrite Hmd. split; [done|]. intros A HA.
  destruct (Hdeps A HA) as [Hsnap [?|(j & Hj & Hsig)]]; split; [done|by left|done|].
  right. exists j. split; [done|]. by apply lookup_app_l_Some.
- apply list_lookup_singleton_Some in Hi as [_ Hi]. by destruct (Hne X snap out).
Qed.

Lemma dependenciesReady_then_failPlugin s s2 X msg :
events s `prefix_of` events s2 →
dependenciesReadyAtHook s s2 → dependenciesReadyAtHook s (failPlugin X msg s2).
Proof.
intros Hpre.
by apply (dependenciesReady_snoc s s2 _ (EvSignal (pluginFailed X msg))).
Qed.

Lemma dependenciesReady_registry s s1 s2 :
registryGrows s s1 → dependenciesReadyAtHook s1 s2 → dependenciesReadyAtHook s s2.
Proof.
intros Hg H2 i X snap out. unfold dependenciesReadyAtHook, newEvents in *.
rewrite <- (rg_events _ _ Hg), <- (rg_states _ _ Hg). apply H2.
Qed.

Lemma ensureLoaded_dependenciesReady d s s1 :
ensureLoaded env d s s1 → dependenciesReadyAtHook s s1.
Proof.
intros Hens. apply dependenciesReady_quiet. intros X snap out.
by eapply ensureLoaded_no_hook.
Qed.

Lemma loadPlugin_dependenciesReady d s r s1 :
loadPlugin env d s = (r, s1) → dependenciesReadyAtHook s s1.
Proof.
intros Hload. apply dependenciesReady_quiet. intros X snap out.
apply notHook_elem_of. by eapply adv_recorded, loadPlugin_advances.
Qed.

Lemma ensureLoaded_registry_kept d s s1 k md :
ensureLoaded env d s s1 →
m_pluginMetadata s !! k = Some md → m_pluginMetadata s1 !! k = Some md.
Proof. intros Hens. by eapply adv_metadata, ensureLoaded_advances. Qed.

Lemma InitLoop_dependenciesReady n X deps s r s' :
(∀ d s r s', initializePlugin env n d s = Some (r, s') → dependenciesReadyAtHook s s') →
InitLoop env (initializePlugin env n) X deps s r s' → dependenciesReadyAtHook s s'.
Proof.
intros IHn. induction 1 as
  [s|d rest s s1 Hnl Hload|d rest s s1 r s' Hens Hneeds Hloop IH
  |d rest s s1 s2 Hens Hneeds Hcall|d rest s s1 s2 r s' Hens Hneeds Hcall Hloop IH].
- apply dependenciesReady_quiet. intros X' snap out. rewrite newEvents_refl.
  apply not_elem_of_nil.
- apply dependenciesReady_then_failPlugin;
    [by eapply adv_events, loadPlugin_advances|by eapply loadPlugin_dependenciesReady].
- pose proof (ensureLoaded_advances _ _ _ _ Hens) as A1.
  eapply dependenciesReady_trans;
    [by eapply adv_events|by eapply InitLoop_prefix| |by eapply ensureLoaded_readies
    |by eapply ensureLoaded_dependenciesReady|done].
  intros k md. eapply Moves_registry_kept, InitLoop_moves; [|done].
  apply initializePlugin_moves.
- pose proof (ensureLoaded_advances _ _ _ _ Hens) as A1.
  pose proof (initializePlugin_advances _ _ _ _ _ _ Hcall) as A2.
  apply dependenciesReady_then_failPlugin;
    [etrans; by eapply adv_events|].
  eapply dependenciesReady_trans;
    [by eapply adv_events|by eapply adv_events|by eapply adv_metadata
    |by eapply ensureLoaded_readies|by eapply ensureLoaded_dependenciesReady
    |by eapply IHn].
- pose proof (ensureLoaded_advances _ _ _ _ Hens) as A1.
  pose proof (initializePlugin_advances _ _ _ _ _ _ Hcall) as A2.
  assert (dependenciesReadyAtHook s s2) as H2.
  { eapply dependenciesReady_trans;
      [by eapply adv_events|by eapply adv_events|by eapply adv_metadata
      |by eapply ensureLoaded_readies|by eapply ensureLoaded_dependenciesReady
      |by eapply IHn]. }
  eapply dependenciesReady_trans;
    [etrans; by eapply adv_events|by eapply InitLoop_prefix| | |exact H2|done].
  + intros k md. eapply Moves_registry_kept, InitLoop_moves; [|done].
    apply initializePlugin_moves.
  + eapply readies_after; [exact A1|exact A2|by eapply ensureLoaded_readies|].
    by eapply initializePlugin_readies.
Qed.

Lemma initializePlugin_dependenciesReady n :
∀ X s r s', initializePlugin env n X s = Some (r, s') → dependenciesReadyAtHook s s'.
Proof.
induction n as [|n IH]; intros X s r s' Hrun; [done|].
apply initializePlugin_run in Hrun.
destruct Hrun as [?|? ? ?|md s1 s2 Hchecks Hmd Hloop
                 |md s1 s2 plugin out Hchecks Hmd Hloop Hplugin Hout].
- apply dependenciesReady_quiet. intros X' snap out. rewrite newEvents_refl.
  apply not_elem_of_nil.
- apply dependenciesReady_quiet. intros X' snap out. rewrite newEvents_refl.
  apply not_elem_of_nil.
- eapply dependenciesReady_registry; [by eapply metadataRef_grows|].
  by eapply InitLoop_dependenciesReady.
- pose proof (metadataRef_grows _ _ _ _ Hmd) as Hg.
  pose proof (InitLoop_prefix _ _ _ _ _ _ _ Hloop) as Hpre.
  assert (events s `prefix_of` events s2) as Hpre' by by rewrite <- (rg_events _ _ Hg).
  assert (dependenciesReadyAtHook s s2) as H2.
  { eapply dependenciesReady_registry; [done|]. by eapply InitLoop_dependenciesReady. }
  assert (readies s s2) as [_ B].
  { eapply readies_trans; [..|by apply readies_registry
                          |by eapply InitLoop_true_readies].
    - intros k. by rewrite (rg_plugins _ _ Hg).
    - by rewrite (rg_events _ _ Hg).
    - done. }
  assert (m_pluginMetadata (finishInitialize X out s2) = m_pluginMetadata s2) as Hsame.
  { unfold finishInitialize, failPlugin. cbv zeta. by case_bool_decide. }
  intros i X' snap out'. rewrite finishInitialize_shape by done.
  intros Hi. apply lookup_app_Some in Hi as [Hi|[Hlen Hi]].
  + destruct (H2 _ _ _ _ Hi) as (md' & HX & Hdeps).
    exists md'. rewrite Hsame. split; [done|]. intros A HA.
    destruct (Hdeps A HA) as [Hsnap [?|(j & Hj & Hsig)]]; split; [done|by left|done|].
    right. exists j. split; [done|]. by apply lookup_app_l_Some.
  + destruct (i - length (newEvents s s2)) as [|[|k]] eqn:Hk; simplify_eq/=.
    exists md. rewrite Hsame. split.
    { eapply Moves_registry_kept; [|by eapply metadataRef_lookup].
      eapply InitLoop_moves; [|done]. apply initializePlugin_moves. }
    intros A HA.
    pose proof (InitLoop_all_ready _ _ _ _ _ _ Hloop eq_refl A HA) as Hr.
    split; [done|]. destruct (B A Hr) as [?|Hin]; [by left|right].
    apply list_elem_of_lookup in Hin as [j Hj]. exists j.
    pose proof (lookup_lt_Some _ _ _ Hj). split; [lia|by apply lookup_app_l_Some].
Qed.

End InitializationOrder.

(** X19. [initializePlugin] initializes the dependencies first.  Whenever the
    call returns, each initialize hook it ran (that of [X] included) ran on a
    state table in which every dependency declared by the plugin's metadata
    was [Initialized] or [Active]; the dependency was so before the call, or
    its [pluginInitialized] signal precedes that hook in the record.  When
    the call returns [true], [X] is loaded and [Initialized] or [Active]. *)
Theorem initialize_dependencies_first (env : Env) (n : nat) (X : string)
    (s : PluginManager) (r : bool) (s' : PluginManager) :
  initializePlugin env n X s = Some (r, s') →
  dependenciesReadyAtHook s s' ∧
  (r = true → is_Some (m_plugins s' !! X) ∧ readyIn (m_pluginStates s') X).
Proof.
  intros Hrun. split; [by eapply initializePlugin_dependenciesReady|].
  intros ->. by destruct (initializePlugin_success _ _ _ _ _ _ Hrun eq_refl) as (_ & ? & ?).
Qed.

Lemma initialize_dependencies_first_witness :
  initializePlugin pairEnv 3 "B" pairLoaded = Some (true, pairInitialized) ∧
  dependenciesReadyAtHook pairLoaded pairInitialized ∧
  (true = true →
   is_Some (m_plugins pairInitialized !! "B") ∧
   readyIn (m_pluginStates pairInitialized) "B").
Proof.
  assert (initializePlugin pairEnv 3 "B" pairLoaded = Some (true, pairInitialized)) as Hrun
    by (vm_compute; reflexivity).
  split; [exact Hrun|].
  exact (initialize_dependencies_first pairEnv 3 "B" pairLoaded true pairInitialized Hrun).
Defined.

(** * What the dependency sort returns *)

Section SortReach.
Context (self : PluginManager).

Lemma visitUnvisited_dependenciesVisited visit ids :
(∀ id acc acc', id ∉ acc.1 → visit id acc = Some acc' →
                dependenciesVisited self acc → dependenciesVisited self acc') →
∀ acc acc', visitUnvisited visit ids acc = Some acc' →
            dependenciesVisited self acc → dependenciesVisited self acc'.
Proof.
intros Hvisit. induction ids as [|id ids IH]; intros acc acc' Hrun Hacc;
  simpl in Hrun; [by simplify_eq|].
destruct (decide (id ∈ acc.1)); [by eapply IH|].
destruct (visit id acc) as [acc1|] eqn:Hv; [|done].
eapply IH; [done|]. by eapply Hvisit.
Qed.

Lemma buildDependencyGraph_dependenciesVisited fuel :
∀ id acc acc', id ∉ acc.1 → buildDependencyGraph self fuel id acc = Some acc' →
               dependenciesVisited self acc → dependenciesVisited self acc'.
Proof.
induction fuel as [|n IH]; intros id [v l] acc' Hnin Hrun Hacc; [done|].
simpl in Hrun.
assert (dependenciesVisited self ({[id]} ∪ v, l)) as Hacc1.
{ intros x d Hx Hd. simpl. apply elem_of_union_r. by apply (Hacc x d). }
destruct (m_pluginMetadata self !! id) as [md|] eqn:Hmd.
- destruct (visitUnvisited _ _ _) as [[v1 l1]|] eqn:Hloop; [|done].
  simplify_eq.
  pose proof (visitUnvisited_dependenciesVisited _ _ IH _ _ Hloop Hacc1) as H1.
  destruct (visitUnvisited_grows _ _ (buildDependencyGraph_grows self n) _ _ Hloop)
    as [_ Hall].
  intros x d [Hx| ->%list_elem_of_singleton]%elem_of_app Hd; simpl.
  + by apply (H1 x d).
  + apply Hall. by rewrite (dependenciesOf_Some _ _ _ Hmd) in Hd.
- simplify_eq.
  intros x d [Hx| ->%list_elem_of_singleton]%elem_of_app Hd; simpl.
  + by apply (Hacc1 x d).
  + unfold dependenciesOf in Hd. rewrite Hmd in Hd. by apply elem_of_nil in Hd.
Qed.

Lemma sortPluginsGraph_closed fuel ids v l :
sortPluginsGraph self fuel ids = Some (v, l) →
∀ x d, x ∈ l → d ∈ dependenciesOf self x → d ∈ l.
Proof.
intros Hrun x d Hx Hd.
destruct (sortPluginsGraph_grows _ _ _ _ _ Hrun) as (_ & Hv & _).
assert (dependenciesVisited self (v, l)) as Hclosed.
{ eapply (visitUnvisited_dependenciesVisited _ _
            (buildDependencyGraph_dependenciesVisited fuel)); [exact Hrun|].
  by intros ? ? ?%elem_of_nil. }
specialize (Hclosed x d Hx Hd). simpl in Hclosed. set_solver.
Qed.

Section Reached.
Context (P : string → Prop).
Hypothesis Hclosed : ∀ id d, P id → d ∈ dependenciesOf self id → P d.

Lemma visitUnvisited_reached visit ids :
  (∀ id acc acc', P id → visit id acc = Some acc' →
              (∀ x, x ∈ acc.2 → P x) → ∀ x, x ∈ acc'.2 → P x) →
  (∀ id, id ∈ ids → P id) →
  ∀ acc acc', visitUnvisited visit ids acc = Some acc' →
          (∀ x, x ∈ acc.2 → P x) → ∀ x, x ∈ acc'.2 → P x.
Proof.
  intros Hvisit. induction ids as [|id ids IH]; intros Hids acc acc' Hrun Hacc;
simpl in Hrun; [by simplify_eq|].
  assert (∀ x, x ∈ ids → P x) as Hids' by (intros x Hx; apply Hids; set_solver).
  destruct (decide (id ∈ acc.1)); [exact (IH Hids' acc acc' Hrun Hacc)|].
  destruct (visit id acc) as [acc1|] eqn:Hv; [|done].
  apply (IH Hids' acc1 acc' Hrun).
  apply (Hvisit id acc acc1); [apply Hids; set_solver|done..].
Qed.

Lemma buildDependencyGraph_reached fuel :
  ∀ id acc acc', P id → buildDependencyGraph self fuel id acc = Some acc' →
             (∀ x, x ∈ acc.2 → P x) → ∀ x, x ∈ acc'.2 → P x.
Proof.
  induction fuel as [|n IH]; intros id [v l] acc' Hid Hrun Hacc; [done|].
  simpl in *.
  destruct (m_pluginMetadata self !! id) as [md|] eqn:Hmd.
  - destruct (visitUnvisited _ _ _) as [[v1 l1]|] eqn:Hloop; [|done].
simplify_eq. simpl. intros x [Hx| ->%list_elem_of_singleton]%elem_of_app; [|done].
revert x Hx.
apply (visitUnvisited_reached _ _ IH) with (acc := ({[id]} ∪ v, l)) (2 := Hloop);
  [|done].
intros d Hd. apply (Hclosed id); [done|].
by rewrite (dependenciesOf_Some _ _ _ Hmd).
  - simplify_eq. simpl. intros x [Hx| ->%list_elem_of_singleton]%elem_of_app; auto.
Qed.

Lemma sortPluginsGraph_reached fuel ids v l :
  (∀ id, id ∈ ids → P id) → sortPluginsGraph self fuel ids = Some (v, l) →
  ∀ x, x ∈ l → P x.
Proof.
  intros Hids Hrun.
  apply (visitUnvisited_reached _ _ (buildDependencyGraph_reached fuel) Hids
       _ _ Hrun). simpl. by intros x ?%elem_of_nil.
Qed.
End Reached.
End SortReach.

(** X20. [sortPluginsByDependency] returns exactly the ids it is given and
    their dependencies, direct or not, as the registry declares them: an id
    is in the result if and only if a chain of declared dependencies leads
    to it from one of the given ids.  Ids that are not registered, and
    dependencies that are not among the given ids, are in the result too. *)
Theorem sortPluginsByDependency_reachable (self : PluginManager) (fuel : nat)
    (pluginIds sorted : list string) :
  sortPluginsByDependency self fuel pluginIds = Some sorted →
  ∀ x, x ∈ sorted ↔ ∃ id, id ∈ pluginIds ∧ reaches self id x.
Proof.
  unfold sortPluginsByDependency. intros Hrun.
  destruct (sortPluginsGraph self fuel pluginIds) as [[v l]|] eqn:Hgraph; [|done].
  assert (l = sorted) as -> by (simpl in Hrun; congruence). clear Hrun.
  destruct (sortPluginsGraph_grows _ _ _ _ _ Hgraph) as (_ & _ & Hall).
  intros x. split.
  - intros Hx.
    refine (sortPluginsGraph_reached self
              (λ x, ∃ id, id ∈ pluginIds ∧ reaches self id x) _
              fuel pluginIds v sorted _ Hgraph x Hx).
    + intros id d (id0 & Hid0 & Hreach) Hd. exists id0. split; [done|].
      eapply rtc_r; [exact Hreach|exact Hd].
    + intros id Hid. exists id. split; [done|apply rtc_refl].
  - intros (id & Hid & Hreach). specialize (Hall id Hid). clear Hid.
    induction Hreach as [|a b c Hab Hbc IH]; [done|].
    apply IH. by eapply sortPluginsGraph_closed.
Qed.

Lemma sortPluginsByDependency_reachable_witness :
  sortPluginsByDependency chainLoaded 3 ["C"] = Some ["A"; "B"; "C"] ∧
  ∀ x, x ∈ ["A"; "B"; "C"] ↔ ∃ id, id ∈ ["C"] ∧ reaches chainLoaded id x.
Proof.
  assert (sortPluginsByDependency chainLoaded 3 ["C"] = Some ["A"; "B"; "C"]) as Hrun
    by (vm_compute; reflexivity).
  split; [exact Hrun|].
  exact (sortPluginsByDependency_reachable chainLoaded 3 ["C"] ["A"; "B"; "C"] Hrun).
Defined.

(** * What a scan returns and registers *)

Section Scanning.
Context (env : Env).

Lemma metadataLoads_dir s s' id :
m_metadataDir s' = m_metadataDir s → metadataLoads env s' id ↔ metadataLoads env s id.
Proof.
unfold metadataLoads, loadPluginMetadata. intros ->.
destruct (fileExists env _); simpl; [|done].
destruct (loadFromFile env _) as [[] md]; simpl; [|done].
destruct (m_isValid md); simpl; [|done].
by case_bool_decide.
Qed.

Lemma scanFiles_result files :
∀ ids0 s ids s',
  scanFiles env files ids0 s = (ids, s') →
  ∃ new, ids = ids0 ++ new ∧
         new = filter (metadataLoads env s) (baseName <$> files) ∧
         (∀ id, id ∈ new → registered s' id) ∧
         (∀ k, k ∉ new → m_pluginMetadata s' !! k = m_pluginMetadata s !! k) ∧
         m_metadataDir s' = m_metadataDir s.
Proof.
induction files as [|file files IH]; intros ids0 s ids s'; simpl.
{ intros [= <- <-]. exists []. rewrite app_nil_r. split_and!; try done.
  by intros ? ?%elem_of_nil. }
destruct (loadPluginMetadata env (baseName file) s) as [ok s1] eqn:Hload.
intros Hrest. destruct (IH _ _ _ _ Hrest) as (new & -> & Hnew & Hreg & Hkept & Hdir).
assert (metadataLoads env s (baseName file) ↔ ok = true) as Hok.
{ unfold metadataLoads. by rewrite Hload. }
apply loadPluginMetadata_shape in Hload as [[-> ->]|(-> & md & -> & Hvalid & Hid)].
- exists new. split_and!; try done.
  rewrite filter_cons_False; [done|]. rewrite Hok. done.
- exists (baseName file :: new). split_and!.
  + by rewrite <- app_assoc.
  + rewrite filter_cons_True by by apply Hok. f_equal. rewrite Hnew.
    apply list_filter_iff. intros x. by apply metadataLoads_dir.
  + intros id Hin. destruct (decide (id ∈ new)) as [?|Hnin]; [by apply Hreg|].
    apply elem_of_cons in Hin as [->|?]; [|done].
    exists md. rewrite (Hkept _ Hnin). simpl. by rewrite lookup_insert_eq.
  + intros k Hk. apply not_elem_of_cons in Hk as [Hne Hnin].
    rewrite (Hkept _ Hnin). simpl. by rewrite lookup_insert_ne.
  + by rewrite Hdir.
Qed.

End Scanning.

(** X21. [scanForPlugins] returns, in the order of the directory listing, the
    base name of every listed file for which [loadPluginMetadata] answers
    [true]; two files with the same base name give the same id twice.
    Afterwards every returned id is registered with valid metadata that
    carries this id, the entries of all other ids are unchanged, and no
    plugin, state or record is touched.  On a manager that is not
    initialized it returns nothing and changes nothing. *)
Theorem scanForPlugins_result (env : Env) (s : PluginManager)
    (ids : list string) (s' : PluginManager) :
  scanForPlugins env s = (ids, s') →
  (m_initialized s = false → ids = [] ∧ s' = s) ∧
  (m_initialized s = true →
   ids = filter (metadataLoads env s) (baseName <$> entryList env (m_metadataDir s)) ∧
   (∀ id, id ∈ ids → registered s' id) ∧
   (∀ k, k ∉ ids → m_pluginMetadata s' !! k = m_pluginMetadata s !! k)) ∧
  m_plugins s' = m_plugins s ∧ m_pluginStates s' = m_pluginStates s ∧
  events s' = events s.
Proof.
  unfold scanForPlugins. destruct (m_initialized s) eqn:Hinit; simpl.
  - intros Hscan.
    destruct (scanFiles_tables _ _ _ _ _ _ Hscan) as (Hp & _ & Hs & He & _).
    destruct (scanFiles_result _ _ _ _ _ _ Hscan) as (new & Hids & Hnew & Hreg & Hkept & _).
    simpl in Hids. subst ids. rewrite <- Hnew. split_and!; done.
  - intros [= <- <-]. split_and!; done.
Qed.

Lemma scanForPlugins_result_witness :
  scanForPlugins versionedEnv startedManager = (["A"; "A"], versionedScanned) ∧
  (∀ id, id ∈ ["A"; "A"] → registered versionedScanned id) ∧
  m_plugins versionedScanned = m_plugins startedManager.
Proof.
  assert (scanForPlugins versionedEnv startedManager = (["A"; "A"], versionedScanned))
    as Hscan by (vm_compute; reflexivity).
  destruct (scanForPlugins_result versionedEnv startedManager _ _ Hscan)
    as (_ & Hinit & Hp & _).
  destruct (Hinit eq_refl) as (_ & Hreg & _).
  split; [exact Hscan|]. split; [exact Hreg|exact Hp].
Defined.

(** * What [loadPlugin] loads *)

Section Loading.
Context (env : Env).

Lemma compatibleIn_grows s s' k : registryGrows s s' → compatibleIn env s k → compatibleIn env s' k.
Proof. intros Hg (md & Hmd & Hc). exists md. split; [by apply (rg_metadata _ _ Hg)|done]. Qed.

Lemma checkDependencies_compatible deps :
∀ s s', checkDependencies env deps s = (true, s') →
        ∀ d, d ∈ deps → compatibleIn env s' d.
Proof.
induction deps as [|d rest IH]; intros s s' Hrun d' Hd'; simpl in Hrun.
{ by apply elem_of_nil in Hd'. }
change (match m_pluginMetadata s !! d with
        | Some _ => (true, s)
        | None => loadPluginMetadata env d s
        end) with (ensureMetadata env d s) in Hrun.
destruct (ensureMetadata env d s) as [ok s1] eqn:Hens.
destruct ok; simpl in Hrun; [|done].
destruct (metadataRef d s1) as [md s2] eqn:Hmd.
destruct (isCompatibleWithFramework env md m_frameworkVersion) eqn:Hc;
  simpl in Hrun; [|done].
apply elem_of_cons in Hd' as [->|Hd']; [|by eapply IH].
eapply compatibleIn_grows; [by eapply checkDependencies_grows|].
exists md. split; [by eapply metadataRef_lookup|done].
Qed.

Lemma failed_load s s4 X msg :
m_initialized s = true → m_plugins s !! X = None →
m_plugins s4 = m_plugins s → m_pluginStates s4 = m_pluginStates s →
m_initialized s4 = m_initialized s →
false = isPluginLoaded (failPlugin X msg s4) X ∧
(∀ k, k ≠ X → m_plugins (failPlugin X msg s4) !! k = m_plugins s !! k ∧
              stateOf (failPlugin X msg s4) k = stateOf s k) ∧
stateOf (failPlugin X msg s4) X = Failed ∧
lastEvent (failPlugin X msg s4) = Some (EvSignal (pluginFailed X msg)).
Proof.
intros Hinit Hnl Hp Hs Hi. split_and!.
- symmetry. apply isPluginLoaded_false; simpl; [congruence|]. by rewrite Hp.
- intros k Hne. split; [simpl; by rewrite Hp|].
  rewrite stateOf_failPlugin, decide_False by done. unfold stateOf. by rewrite Hs.
- by rewrite stateOf_failPlugin, decide_True.
- unfold lastEvent, failPlugin. simpl. apply last_snoc.
Qed.

Lemma loadPlugin_outcome X s r s' :
loadPlugin env X s = (r, s') →
r = isPluginLoaded s' X ∧
(∀ k, k ≠ X → m_plugins s' !! k = m_plugins s !! k ∧ stateOf s' k = stateOf s k) ∧
(r = true → isPluginLoaded s X = false →
 stateOf s' X = Loaded ∧ compatibleIn env s' X ∧
 (∀ d, d ∈ dependenciesOf s' X → compatibleIn env s' d) ∧
 lastEvent s' = Some (EvSignal (pluginLoaded X))) ∧
(r = false → m_initialized s = true →
 s' = s ∨
 (stateOf s' X = Failed ∧ ∃ msg, lastEvent s' = Some (EvSignal (pluginFailed X msg)))).
Proof.
unfold loadPlugin. intros Hrun.
destruct (m_initialized s) eqn:Hinit; simpl in Hrun.
2: { simplify_eq. unfold isPluginLoaded. rewrite Hinit. by split_and!. }
destruct (isPluginLoaded s X) eqn:Hloaded.
{ simplify_eq. by split_and!. }
apply isPluginLoaded_false in Hloaded; [|done].
change (match m_pluginMetadata s !! X with
        | Some _ => (true, s)
        | None => loadPluginMetadata env X s
        end) with (ensureMetadata env X s) in Hrun.
destruct (ensureMetadata env X s) as [ok1 s1] eqn:Hens.
pose proof (ensureMetadata_grows _ _ _ _ _ Hens) as H1.
destruct ok1; simpl in Hrun.
2: { simplify_eq. split_and!.
     - symmetry. apply isPluginLoaded_false; [by rewrite (rg_initialized _ _ H1)|].
       by rewrite (rg_plugins _ _ H1).
     - intros k _. unfold stateOf. by rewrite (rg_plugins _ _ H1), (rg_states _ _ H1).
     - done.
     - intros _ _. left. unfold ensureMetadata in Hens.
       destruct (m_pluginMetadata s !! X); [done|].
       by apply loadPluginMetadata_shape in Hens as [[_ ?]|[? _]]. }
destruct (metadataRef X s1) as [md s2] eqn:Hmd.
pose proof (registryGrows_trans _ _ _ H1 (metadataRef_grows _ _ _ _ Hmd)) as H2.
assert (∀ s4 msg (Q : Prop),
          m_plugins s4 = m_plugins s → m_pluginStates s4 = m_pluginStates s →
          m_initialized s4 = m_initialized s →
          false = isPluginLoaded (failPlugin X msg s4) X ∧
          (∀ k, k ≠ X → m_plugins (failPlugin X msg s4) !! k = m_plugins s !! k ∧
                        stateOf (failPlugin X msg s4) k = stateOf s k) ∧
          (false = true → Q) ∧
          (false = false → true = true →
           failPlugin X msg s4 = s ∨
           (stateOf (failPlugin X msg s4) X = Failed ∧
            ∃ msg', lastEvent (failPlugin X msg s4) =
                    Some (EvSignal (pluginFailed X msg'))))) as Hfail.
{ intros s4 msg Q Hp Hs Hi.
  destruct (failed_load s s4 X msg Hinit Hloaded Hp Hs Hi) as (? & ? & ? & ?).
  split_and!; [done|done|done|]. intros _ _. right. split; [done|by exists msg]. }
destruct (isCompatibleWithFramework env md m_frameworkVersion) eqn:Hcompat;
  simpl in Hrun.
2: { simplify_eq. apply Hfail; by destruct H2. }
destruct (checkPluginDependencies env X s2) as [ok3 s3] eqn:Hchk.
pose proof (checkPluginDependencies_grows _ _ _ _ _ Hchk) as H23.
pose proof (registryGrows_trans _ _ _ H2 H23) as H3.
destruct ok3; simpl in Hrun.
2: { simplify_eq. apply Hfail; by destruct H3. }
destruct (fileExists env _); simpl in Hrun.
2: { simplify_eq. apply Hfail; by destruct H3. }
destruct (loaderLoad env _ _) eqn:Hload; simplify_eq.
- apply Hfail; by destruct H3.
- apply Hfail; by destruct H3.
- apply Hfail; by destruct H3.
- pose proof (metadataRef_lookup _ _ _ _ Hmd) as HmdX.
  pose proof (rg_metadata _ _ H23 _ _ HmdX) as HmdX3.
  split_and!.
  + symmetry. apply isPluginLoaded_true. simpl. split; [by rewrite (rg_initialized _ _ H3)|].
    rewrite lookup_insert_eq. by eexists.
  + intros k Hne. simpl. rewrite lookup_insert_ne by done.
    split; [by rewrite (rg_plugins _ _ H3)|].
    unfold stateOf. simpl. unfold stateIn. rewrite lookup_insert_ne by done.
    by rewrite (rg_states _ _ H3).
  + intros _ _. split_and!.
    * unfold stateOf. simpl. unfold stateIn. by rewrite lookup_insert_eq.
    * exists md. split; [exact HmdX3|done].
    * intros d Hd.
      assert (dependenciesOf s2 X = getPluginDependencies md) as Hdeps
        by by apply dependenciesOf_Some.
      assert (d ∈ getPluginDependencies md) as Hd'.
      { unfold dependenciesOf in Hd. simpl in Hd. by rewrite HmdX3 in Hd. }
      unfold checkPluginDependencies in Hchk. rewrite HmdX in Hchk.
      destruct (checkDependencies_compatible _ _ _ Hchk d Hd') as (mdd & ? & ?).
      by exists mdd.
    * unfold lastEvent. simpl. apply last_snoc.
  + done.
Qed.

End Loading.

(** X22. [loadPlugin] loads one plugin and no other.  Its answer tells
    whether the plugin is loaded afterwards; the plugin object and the state
    of every other id are as before, so a dependency is never loaded along:
    when a plugin that was not loaded gets loaded, it is [Loaded], the
    [pluginLoaded] signal is the last record, and the plugin and each of its
    declared dependencies are registered with metadata that the framework
    version satisfies.  When the call fails on an initialized manager, either
    nothing has changed (no metadata could be read), or the plugin is
    [Failed] and a [pluginFailed] signal is the last record. *)
Theorem loadPlugin_loads_one (env : Env) (X : string) (s : PluginManager)
    (r : bool) (s' : PluginManager) :
  loadPlugin env X s = (r, s') →
  r = isPluginLoaded s' X ∧
  (∀ k, k ≠ X → m_plugins s' !! k = m_plugins s !! k ∧ stateOf s' k = stateOf s k) ∧
  (r = true → isPluginLoaded s X = false →
   stateOf s' X = Loaded ∧ compatibleIn env s' X ∧
   (∀ d, d ∈ dependenciesOf s' X → compatibleIn env s' d) ∧
   lastEvent s' = Some (EvSignal (pluginLoaded X))) ∧
  (r = false → m_initialized s = true →
   s' = s ∨
   (stateOf s' X = Failed ∧ ∃ msg, lastEvent s' = Some (EvSignal (pluginFailed X msg)))).
Proof. apply loadPlugin_outcome. Qed.

Lemma loadPlugin_loads_one_witness :
  loadPlugin pairEnv "B" startedManager = (true, pairLoaded) ∧
  m_plugins pairLoaded !! "A" = m_plugins startedManager !! "A" ∧
  stateOf pairLoaded "B" = Loaded ∧ compatibleIn pairEnv pairLoaded "A".
Proof.
  assert (loadPlugin pairEnv "B" startedManager = (true, pairLoaded)) as Hrun
    by (vm_compute; reflexivity).
  destruct (loadPlugin_loads_one pairEnv "B" startedManager true pairLoaded Hrun)
    as (_ & Hframe & Hsuccess & _).
  assert ("A" ≠ "B") as Hne by discriminate.
  assert (isPluginLoaded startedManager "B" = false) as Hnl by (vm_compute; reflexivity).
  assert ("A" ∈ dependenciesOf pairLoaded "B") as Hdep
    by (vm_compute; apply list_elem_of_here).
  destruct (Hsuccess eq_refl Hnl) as (Hst & _ & Hdeps & _).
  split; [exact Hrun|]. split; [exact (proj1 (Hframe "A" Hne))|].
  split; [exact Hst|exact (Hdeps "A" Hdep)].
Defined.

(** * A failed plugin stays failed until it is unloaded *)

Lemma spares_refl X s : spares X s s.
Proof.
  split_and!; try done. unfold noHookOf. rewrite newEvents_refl. constructor.
Qed.

Lemma spares_trans X s1 s2 s3 : spares X s1 s2 → spares X s2 s3 → spares X s1 s3.
Proof.
  intros (I1 & P1 & S1 & E1 & H1) (I2 & P2 & S2 & E2 & H2).
  split_and!; [congruence|congruence|congruence|by etrans|].
  unfold noHookOf. rewrite (newEvents_app s1 s2 s3) by done. by apply Forall_app.
Qed.

Lemma spares_step X s2 s3 l :
  m_initialized s3 = m_initialized s2 → m_plugins s3 !! X = m_plugins s2 !! X →
  stateOf s3 X = stateOf s2 X → events s3 = events s2 ++ l → noHookOf X l →
  spares X s2 s3.
Proof.
  intros Hi Hp Hs He Hl. split_and!; [done..| |].
  - rewrite He. by apply prefix_app_r.
  - unfold newEvents. by rewrite He, drop_app_length.
Qed.

Lemma spares_registry X s s' : registryGrows s s' → spares X s s'.
Proof.
  intros Hg. apply (spares_step X s s' []).
  - apply (rg_initialized _ _ Hg).
  - by rewrite (rg_plugins _ _ Hg).
  - unfold stateOf. by rewrite (rg_states _ _ Hg).
  - by rewrite (rg_events _ _ Hg), app_nil_r.
  - constructor.
Qed.

Lemma spares_failPlugin X Y msg s : Y ≠ X → spares X s (failPlugin Y msg s).
Proof.
  intros Hne. apply (spares_step X s _ [EvSignal (pluginFailed Y msg)]); try done.
  - rewrite stateOf_failPlugin. by rewrite decide_False.
  - by repeat constructor.
Qed.

Lemma failedLoaded_spared X s s' : failedLoaded s X → spares X s s' → failedLoaded s' X.
Proof.
  intros (Hi & Hp & Hs) (I1 & P1 & S1 & _). split_and!; congruence.
Qed.

Lemma noHookOf_notHook X l : Forall notHook l → noHookOf X l.
Proof. intros Hl. eapply Forall_impl; [exact Hl|]. by intros []. Qed.

Section FailedStays.
Context (env : Env) (X : string).

Lemma loadPlugin_spares Y s r s' :
Y ≠ X ∨ failedLoaded s X → loadPlugin env Y s = (r, s') → spares X s s'.
Proof.
intros HY Hload. destruct (decide (Y = X)) as [->|Hne].
- destruct HY as [?|(Hi & Hp & _)]; [done|].
  unfold loadPlugin in Hload. rewrite Hi in Hload. simpl in Hload.
  rewrite (proj2 (isPluginLoaded_true s X) (conj Hi Hp)) in Hload.
  simplify_eq. apply spares_refl.
- pose proof (loadPlugin_advances _ _ _ _ _ Hload) as Hadv.
  destruct (loadPlugin_outcome _ _ _ _ _ Hload) as (_ & Hframe & _).
  destruct (Hframe X) as [Hp Hs]; [done|].
  split_and!; [apply (adv_initialized _ _ _ Hadv)|done|done
              |apply (adv_events _ _ _ Hadv)|].
  apply noHookOf_notHook, (adv_recorded _ _ _ Hadv).
Qed.

Lemma ensureLoaded_spares d s s1 :
failedLoaded s X → ensureLoaded env d s s1 → spares X s s1.
Proof.
intros HX [[_ ->]|[_ Hload]]; [apply spares_refl|].
eapply loadPlugin_spares; [by right|done].
Qed.

Lemma InitLoop_spares recurse Y deps s r s' :
(∀ d s r s', failedLoaded s X → recurse d s = Some (r, s') → spares X s s') →
Y ≠ X → InitLoop env recurse Y deps s r s' → failedLoaded s X → spares X s s'.
Proof.
intros Hrec Hne. induction 1 as
  [s|d rest s s1 Hnl Hload|d rest s s1 r s' Hens Hneeds Hloop IH
  |d rest s s1 s2 Hens Hneeds Hcall|d rest s s1 s2 r s' Hens Hneeds Hcall Hloop IH];
  intros HX.
- apply spares_refl.
- eapply spares_trans; [|by apply spares_failPlugin].
  eapply loadPlugin_spares; [by right|done].
- pose proof (ensureLoaded_spares _ _ _ HX Hens) as H1.
  eapply spares_trans; [done|]. apply IH. by eapply failedLoaded_spared.
- pose proof (ensureLoaded_spares _ _ _ HX Hens) as H1.
  pose proof (failedLoaded_spared _ _ _ HX H1) as HX1.
  eapply spares_trans; [done|].
  eapply spares_trans; [by eapply Hrec|by apply spares_failPlugin].
- pose proof (ensureLoaded_spares _ _ _ HX Hens) as H1.
  pose proof (failedLoaded_spared _ _ _ HX H1) as HX1.
  pose proof (Hrec _ _ _ _ HX1 Hcall) as H2.
  eapply spares_trans; [done|]. eapply spares_trans; [done|].
  apply IH. by eapply failedLoaded_spared.
Qed.

Lemma spares_finishInitialize Y out s : Y ≠ X → spares X s (finishInitialize Y out s).
Proof.
intros Hne. unfold finishInitialize. cbv zeta. case_bool_decide.
- apply (spares_step X s _ [EvHook Y HInitialize (m_pluginStates s) (Returns true);
                            EvSignal (pluginInitialized Y)]); try done.
  + unfold stateOf, stateIn. simpl. by rewrite lookup_insert_ne.
  + simpl. subst out. by rewrite <- app_assoc.
  + by repeat constructor.
- eapply spares_trans; [|by apply spares_failPlugin].
  apply (spares_step X s _ [EvHook Y HInitialize (m_pluginStates s) out]); try done.
  by repeat constructor.
Qed.

Lemma spares_finishActivate Y out s : Y ≠ X → spares X s (finishActivate Y out s).
Proof.
intros Hne. unfold finishActivate. cbv zeta. case_bool_decide.
- apply (spares_step X s _ [EvHook Y HActivate (m_pluginStates s) (Returns true);
                            EvSignal (pluginActivated Y)]); try done.
  + unfold stateOf, stateIn. simpl. by rewrite lookup_insert_ne.
  + simpl. subst out. by rewrite <- app_assoc.
  + by repeat constructor.
- eapply spares_trans; [|by apply spares_failPlugin].
  apply (spares_step X s _ [EvHook Y HActivate (m_pluginStates s) out]); try done.
  by repeat constructor.
Qed.

Lemma spares_finishDeactivate Y out s : Y ≠ X → spares X s (finishDeactivate Y out s).
Proof.
intros Hne. unfold finishDeactivate. cbv zeta. case_bool_decide.
- apply (spares_step X s _ [EvHook Y HDeactivate (m_pluginStates s) (Returns true);
                            EvSignal (pluginDeactivated Y)]); try done.
  + unfold stateOf, stateIn. simpl. by rewrite lookup_insert_ne.
  + simpl. subst out. by rewrite <- app_assoc.
  + by repeat constructor.
- apply (spares_step X s _ [EvHook Y HDeactivate (m_pluginStates s) out]); try done.
  by repeat constructor.
Qed.

Lemma initializePlugin_spares n :
∀ Y s r s', failedLoaded s X → initializePlugin env n Y s = Some (r, s') →
            spares X s s'.
Proof.
induction n as [|n IH]; intros Y s r s' HX Hrun; [done|].
apply initializePlugin_run in Hrun.
destruct Hrun as [?|? ? ?|md s1 s2 Hchecks Hmd Hloop
                 |md s1 s2 plugin out Hchecks Hmd Hloop Hplugin Hout];
  try apply spares_refl.
- assert (Y ≠ X) as Hne.
  { intros ->. destruct Hchecks as (_ & _ & _ & _ & Hnf). by destruct HX as (_ & _ & ?). }
  pose proof (spares_registry X _ _ (metadataRef_grows _ _ _ _ Hmd)) as H1.
  eapply spares_trans; [done|].
  eapply InitLoop_spares; [exact IH|done|done|by eapply failedLoaded_spared].
- assert (Y ≠ X) as Hne.
  { intros ->. destruct Hchecks as (_ & _ & _ & _ & Hnf). by destruct HX as (_ & _ & ?). }
  pose proof (spares_registry X _ _ (metadataRef_grows _ _ _ _ Hmd)) as H1.
  eapply spares_trans; [done|]. eapply spares_trans; [|by apply spares_finishInitialize].
  eapply InitLoop_spares; [exact IH|done|done|by eapply failedLoaded_spared].
Qed.

Lemma ActivateLoop_spares recurse deps s r s' :
(∀ d s r s', failedLoaded s X → recurse d s = Some (r, s') → spares X s s') →
ActivateLoop recurse deps s r s' → failedLoaded s X → spares X s s'.
Proof.
intros Hrec. induction 1 as
  [s|d rest s r s' Hactive Hloop IH|d rest s s1 Hna Hcall
  |d rest s s1 r s' Hna Hcall Hloop IH]; intros HX.
- apply spares_refl.
- by apply IH.
- by eapply Hrec.
- pose proof (Hrec _ _ _ _ HX Hcall) as H1.
  eapply spares_trans; [done|]. apply IH. by eapply failedLoaded_spared.
Qed.

Lemma ensureInitialized_spares n Y s s1 :
failedLoaded s X → ensureInitialized env n Y s s1 → spares X s s1.
Proof.
intros HX [[_ ->]|[_ Hrun]]; [apply spares_refl|by eapply initializePlugin_spares].
Qed.

Lemma activatePlugin_spares n :
∀ Y s r s', failedLoaded s X → activatePlugin env n Y s = Some (r, s') →
            spares X s s'.
Proof.
induction n as [|n IH]; intros Y s r s' HX Hrun; [done|].
apply activatePlugin_run in Hrun.
destruct Hrun as [?|? ? ?|s1 Hchecks Hni Hinit
                 |s1 md s2 s3 Hchecks Hens Hmd Hloop
                 |s1 md s2 s3 plugin out Hchecks Hens Hmd Hloop Hplugin Hout];
  try apply spares_refl.
- by eapply initializePlugin_spares.
- pose proof (ensureInitialized_spares _ _ _ _ HX Hens) as H1.
  pose proof (spares_registry X _ _ (metadataRef_grows _ _ _ _ Hmd)) as H2.
  pose proof (spares_trans _ _ _ _ H1 H2) as H12.
  eapply spares_trans; [done|].
  eapply ActivateLoop_spares; [exact IH|done|by eapply failedLoaded_spared].
- assert (Y ≠ X) as Hne.
  { intros ->. destruct Hchecks as (_ & _ & _ & Hnf). by destruct HX as (_ & _ & ?). }
  pose proof (ensureInitialized_spares _ _ _ _ HX Hens) as H1.
  pose proof (spares_registry X _ _ (metadataRef_grows _ _ _ _ Hmd)) as H2.
  pose proof (spares_trans _ _ _ _ H1 H2) as H12.
  eapply spares_trans; [done|]. eapply spares_trans; [|by apply spares_finishActivate].
  eapply ActivateLoop_spares; [exact IH|done|by eapply failedLoaded_spared].
Qed.

Lemma DeactivateLoop_spares recurse deps s r s' :
(∀ d s r s', failedLoaded s X → recurse d s = Some (r, s') → spares X s s') →
DeactivateLoop recurse deps s r s' → failedLoaded s X → spares X s s'.
Proof.
intros Hrec. induction 1 as
  [s|d rest s s1 Hcall|d rest s s1 r s' Hcall Hloop IH]; intros HX.
- apply spares_refl.
- by eapply Hrec.
- pose proof (Hrec _ _ _ _ HX Hcall) as H1.
  eapply spares_trans; [done|]. apply IH. by eapply failedLoaded_spared.
Qed.

Lemma deactivatePlugin_spares n :
∀ Y s r s', failedLoaded s X → deactivatePlugin env n Y s = Some (r, s') →
            spares X s s'.
Proof.
induction n as [|n IH]; intros Y s r s' HX Hrun; [done|].
apply deactivatePlugin_run in Hrun.
destruct Hrun as [?|? ? ?|L s1 s2 Hinit Hl Hactive Hdeps Hloop
                 |L s1 s2 plugin out Hinit Hl Hactive Hdeps Hloop Hplugin Hout];
  try apply spares_refl.
- destruct (activeDependents_spec _ _ _ _ _ Hdeps) as (Hg & _).
  pose proof (spares_registry X _ _ Hg) as H1.
  eapply spares_trans; [done|].
  eapply DeactivateLoop_spares; [exact IH|done|by eapply failedLoaded_spared].
- assert (Y ≠ X) as Hne.
  { intros ->. destruct HX as (_ & _ & HX). by rewrite HX in Hactive. }
  destruct (activeDependents_spec _ _ _ _ _ Hdeps) as (Hg & _).
  pose proof (spares_registry X _ _ Hg) as H1.
  eapply spares_trans; [done|]. eapply spares_trans; [|by apply spares_finishDeactivate].
  eapply DeactivateLoop_spares; [exact IH|done|by eapply failedLoaded_spared].
Qed.

Lemma releasePlugin_spares Y s1 c s' :
Y ≠ X → releasePlugin env Y s1 = Some (c, s') → spares X s1 s'.
Proof.
intros Hne Hrel.
destruct (releasePlugin_tables _ _ _ _ _ Hrel) as (_ & Hi & Htrue & Hfalse).
destruct (releasePlugin_events _ _ _ _ _ Hrel) as [Hpre Hhooks].
assert (m_plugins s' !! X = m_plugins s1 !! X ∧ stateOf s' X = stateOf s1 X) as [Hp Hs].
{ unfold stateOf, stateIn. destruct c as [[]|e].
  - destruct (Htrue eq_refl) as (-> & _ & -> & _).
    by rewrite lookup_delete_ne, lookup_insert_ne.
  - by destruct Hfalse as (-> & _ & ->).
  - by destruct Hfalse as (-> & _ & ->). }
split_and!; [done..|].
apply Forall_forall. intros [sig|Y' h snap out|path o|loader ok|id] Hin; try done.
by destruct (Hhooks _ _ _ _ Hin) as (-> & _).
Qed.

Lemma unloadPlugin_spares n Y s c s' :
Y ≠ X → failedLoaded s X → unloadPlugin env n Y s = Some (c, s') → spares X s s'.
Proof.
intros Hne HX Hrun.
apply unloadPlugin_cases in Hrun
  as [[-> _]|(Hinit & Hl & _ & [(_ & _ & Hde)|(s1 & Hs1 & Hrel)])].
- apply spares_refl.
- by eapply deactivatePlugin_spares.
- eapply spares_trans; [|by eapply releasePlugin_spares].
  destruct Hs1 as [[_ Hde]|[_ ->]]; [by eapply deactivatePlugin_spares|].
  apply spares_refl.
Qed.

Lemma perform_spares op s s' :
(∀ n, op ≠ OpUnload n X) → failedLoaded s X → perform env op s = Some s' →
spares X s s'.
Proof.
intros Hop HX. destruct op as [Y|n Y|n Y|n Y|n Y]; simpl.
- intros [= <-]. destruct (loadPlugin env Y s) as [r s1] eqn:Hload.
  eapply loadPlugin_spares; [by right|done].
- destruct (initializePlugin env n Y s) as [[r s1]|] eqn:Hrun; [|done].
  intros [= <-]. by eapply initializePlugin_spares.
- destruct (activatePlugin env n Y s) as [[r s1]|] eqn:Hrun; [|done].
  intros [= <-]. by eapply activatePlugin_spares.
- destruct (deactivatePlugin env n Y s) as [[r s1]|] eqn:Hrun; [|done].
  intros [= <-]. by eapply deactivatePlugin_spares.
- destruct (unloadPlugin env n Y s) as [[r s1]|] eqn:Hrun; [|done].
  intros [= <-]. eapply unloadPlugin_spares; [|done|done].
  intros ->. by apply (Hop n).
Qed.

Lemma performAll_spares ops :
∀ s s', (∀ n, OpUnload n X ∉ ops) → failedLoaded s X →
        performAll env ops s = Some s' → spares X s s'.
Proof.
induction ops as [|op ops IH]; intros s s' Hops HX; simpl.
{ intros [= <-]. apply spares_refl. }
destruct (perform env op s) as [s1|] eqn:Hop; [|done]. simpl. intros Hrest.
assert (spares X s s1) as H1.
{ eapply perform_spares; [|done|done]. intros n ->. apply (Hops n). set_solver. }
eapply spares_trans; [done|]. apply IH; [|by eapply failedLoaded_spared|done].
intros n Hin. apply (Hops n). set_solver.
Qed.

Lemma failedLoaded_refused n s :
failedLoaded s X →
initializePlugin env (S n) X s = Some (false, s) ∧
activatePlugin env (S n) X s = Some (false, s).
Proof.
intros (Hi & Hp & Hs). simpl. rewrite Hi. simpl.
rewrite (proj2 (isPluginLoaded_true s X) (conj Hi Hp)). simpl.
rewrite Hs. unfold needsInitialize. rewrite Hs. done.
Qed.

End FailedStays.

(** X23. A failed plugin stays failed until it is unloaded.  On a loaded
    plugin whose state is [Failed], [initializePlugin] and [activatePlugin]
    return [false] and change nothing; and whatever sequence of [loadPlugin],
    [initializePlugin], [activatePlugin], [deactivatePlugin] and
    [unloadPlugin] calls is made, on this or on other plugins, as long as
    the plugin itself is not unloaded, it stays loaded and [Failed], with the
    same plugin object, and none of its hooks is called. *)
Theorem failed_plugin_stays_failed (env : Env) (X : string) (s : PluginManager) :
  failedLoaded s X →
  (∀ n, initializePlugin env (S n) X s = Some (false, s) ∧
        activatePlugin env (S n) X s = Some (false, s)) ∧
  (∀ ops s', (∀ n, OpUnload n X ∉ ops) → performAll env ops s = Some s' →
             failedLoaded s' X ∧ m_plugins s' !! X = m_plugins s !! X ∧
             noHookOf X (newEvents s s')).
Proof.
  intros HX. split; [intros n; by apply failedLoaded_refused|].
  intros ops s' Hops Hrun.
  pose proof (performAll_spares env X ops s s' Hops HX Hrun) as Hsp.
  split; [by eapply failedLoaded_spared|]. by destruct Hsp as (_ & ? & _ & _ & ?).
Qed.

Lemma failed_plugin_stays_failed_witness :
  failedLoaded throwingFailed "A" ∧
  performAll throwingEnv
    [OpLoad "A"; OpInitialize 2 "A"; OpActivate 2 "A"; OpDeactivate 2 "A"]
    throwingFailed = Some throwingRetried ∧
  failedLoaded throwingRetried "A" ∧
  noHookOf "A" (newEvents throwingFailed throwingRetried).
Proof.
  assert (failedLoaded throwingFailed "A") as HX.
  { split; [vm_compute; reflexivity|]. split; [vm_compute; eexists; reflexivity|].
    vm_compute; reflexivity. }
  assert (performAll throwingEnv
            [OpLoad "A"; OpInitialize 2 "A"; OpActivate 2 "A"; OpDeactivate 2 "A"]
            throwingFailed = Some throwingRetried) as Hrun by (vm_compute; reflexivity).
  assert (∀ n, OpUnload n "A" ∉
               [OpLoad "A"; OpInitialize 2 "A"; OpActivate 2 "A"; OpDeactivate 2 "A"])
    as Hops.
  { intros n Hin. repeat (apply elem_of_cons in Hin as [?|Hin]; [done|]).
    by apply elem_of_nil in Hin. }
  destruct (proj2 (failed_plugin_stays_failed throwingEnv "A" throwingFailed HX)
              _ _ Hops Hrun) as (HX' & _ & Hhooks).
  split; [exact HX|]. split; [exact Hrun|]. split; [exact HX'|exact Hhooks].
Defined.

(** * How [shutdown] ends *)

Section ShutdownEnds.
Context (env : Env).

Lemma shutdownStep_moves fuel k s0 c s1 :
shutdownStep env fuel k s0 = Some (c, s1) → Moves s0 s1.
Proof.
unfold shutdownStep.
assert (∀ s2, (if isPluginActive s0 k then snd <$> deactivatePlugin env fuel k s0
               else Some s0) = Some s2 → Moves s0 s2) as Hde.
{ intros s2. destruct (isPluginActive s0 k); [|intros [= <-]; apply Moves_refl].
  destruct (deactivatePlugin env fuel k s0) as [[r s3]|] eqn:Hde; [|done].
  intros [= <-]. by eapply deactivatePlugin_moves. }
destruct (if isPluginActive s0 k then snd <$> deactivatePlugin env fuel k s0
          else Some s0) as [s2|]; [|done].
specialize (Hde _ eq_refl).
destruct (unloadPlugin env fuel k s2) as [[[b|e] s3]|] eqn:Hun; [| |done].
- intros [= <- <-]. eapply Moves_trans; [done|by eapply unloadPlugin_moves].
- intros [= <- <-]. eapply Moves_trans; [done|by eapply unloadPlugin_moves].
Qed.

Lemma shutdownStep_raised fuel k s0 e s1 :
shutdownStep env fuel k s0 = Some (Raised e, s1) →
∃ snap, lastEvent s1 = Some (EvHook k HShutdown snap (Throws e)) ∧
        is_Some (m_plugins s1 !! k) ∧ stateOf s1 k = Initialized.
Proof.
unfold shutdownStep.
destruct (if isPluginActive s0 k then snd <$> deactivatePlugin env fuel k s0
          else Some s0) as [s2|]; [|done].
destruct (unloadPlugin env fuel k s2) as [[[b|e'] s3]|] eqn:Hun; [done| |done].
intros [= -> ->].
apply unloadPlugin_cases in Hun
  as [[_ [?|[? _]]]|(_ & _ & _ & [(? & _)|(s4 & _ & Hrel)])]; try done.
apply releasePlugin_cases in Hrel
  as [Hl [(out & Hst & Hout & -> & Hc)|[(? & ? & _ & _ & ? & _)|(? & ? & _ & _ & ? & _)]]];
  try done.
destruct out as [b|e']; [done|]. simplify_eq.
exists (m_pluginStates s4). split_and!; [|done|done].
unfold lastEvent. simpl. apply last_snoc.
Qed.

Lemma shutdownLoop_moves fuel order :
∀ s0 c s1, shutdownLoop env fuel order s0 = Some (c, s1) → Moves s0 s1.
Proof.
induction order as [|k order IH]; intros s0 c s1; simpl.
{ intros [= <- <-]. apply Moves_refl. }
destruct (shutdownStep env fuel k s0) as [[[[]|e] s2]|] eqn:Hstep; [| |done].
- intros Hrest. eapply Moves_trans; [by eapply shutdownStep_moves|by eapply IH].
- intros [= <- <-]. by eapply shutdownStep_moves.
Qed.

Lemma shutdownLoop_raised fuel order :
∀ s0 e s1, shutdownLoop env fuel order s0 = Some (Raised e, s1) →
  ∃ X snap, lastEvent s1 = Some (EvHook X HShutdown snap (Throws e)) ∧
            is_Some (m_plugins s1 !! X) ∧ stateOf s1 X = Initialized.
Proof.
induction order as [|k order IH]; intros s0 e s1; simpl; [done|].
destruct (shutdownStep env fuel k s0) as [[[[]|e'] s2]|] eqn:Hstep; [| |done].
- apply IH.
- intros [= -> ->]. exists k. by eapply shutdownStep_raised.
Qed.

Lemma uninitialized_refuses s X n :
m_initialized s = false →
loadPlugin env X s = (false, s) ∧
initializePlugin env (S n) X s = Some (false, s) ∧
activatePlugin env (S n) X s = Some (false, s) ∧
deactivatePlugin env (S n) X s = Some (false, s) ∧
unloadPlugin env n X s = Some (Normal false, s) ∧
scanForPlugins env s = ([], s) ∧
shutdown env n s = Some (Normal (), s).
Proof.
intros Hi. rewrite unloadPlugin_unfold. unfold loadPlugin, scanForPlugins, shutdown.
simpl. by rewrite !Hi.
Qed.

End ShutdownEnds.

(** X24. How [shutdown] ends on an initialized manager.  When it completes,
    the four tables are empty and the manager is no longer initialized, so
    that [loadPlugin], [initializePlugin], [activatePlugin],
    [deactivatePlugin] and [unloadPlugin] return [false], [scanForPlugins]
    returns nothing and a second [shutdown] does nothing, all of them
    leaving the manager as it is.  When the shutdown hook of a plugin
    throws, the exception leaves [shutdown] at once: the call of that hook
    is the last record, the plugin is still loaded and [Initialized], no
    table is cleared and the manager stays initialized.  The two directories
    are kept in both cases. *)
Theorem shutdown_outcome (env : Env) (fuel : nat) (s : PluginManager)
    (c : Completion unit) (s' : PluginManager) :
  m_initialized s = true → shutdown env fuel s = Some (c, s') →
  m_pluginDir s' = m_pluginDir s ∧ m_metadataDir s' = m_metadataDir s ∧
  (c = Normal () →
   m_initialized s' = false ∧ m_plugins s' = ∅ ∧ m_pluginLoaders s' = ∅ ∧
   m_pluginMetadata s' = ∅ ∧ m_pluginStates s' = ∅ ∧
   ∀ X n, loadPlugin env X s' = (false, s') ∧
          initializePlugin env (S n) X s' = Some (false, s') ∧
          activatePlugin env (S n) X s' = Some (false, s') ∧
          deactivatePlugin env (S n) X s' = Some (false, s') ∧
          unloadPlugin env n X s' = Some (Normal false, s') ∧
          scanForPlugins env s' = ([], s') ∧
          shutdown env n s' = Some (Normal (), s')) ∧
  (∀ e, c = Raised e →
        m_initialized s' = true ∧
        ∃ X snap, lastEvent s' = Some (EvHook X HShutdown snap (Throws e)) ∧
                  is_Some (m_plugins s' !! X) ∧ stateOf s' X = Initialized).
Proof.
  intros Hinit. unfold shutdown. rewrite Hinit.
  destruct (shutdownOrder fuel s) as [order|]; [|done].
  destruct (shutdownLoop env fuel order s) as [[[[]|e] s1]|] eqn:Hloop; [| |done].
  - intros [= <- <-].
    destruct (Moves_fixed _ _ (shutdownLoop_moves _ _ _ _ _ _ Hloop)) as (_ & Hp & Hm).
    split_and!; [done|done| |done].
    intros _. split_and!; [done..|]. intros X n. by apply uninitialized_refuses.
  - intros [= <- <-].
    destruct (Moves_fixed _ _ (shutdownLoop_moves _ _ _ _ _ _ Hloop)) as (Hi & Hp & Hm).
    split_and!; [done|done|done|].
    intros e' [= <-]. split; [by rewrite Hi|]. by eapply shutdownLoop_raised.
Qed.

Lemma shutdown_outcome_witness :
  shutdown crashingEnv 2 crashingInitialized
    = Some (Raised (StdException "boom"), crashingShutdown) ∧
  m_initialized crashingShutdown = true ∧
  ∃ X snap, lastEvent crashingShutdown
              = Some (EvHook X HShutdown snap (Throws (StdException "boom"))) ∧
            is_Some (m_plugins crashingShutdown !! X) ∧
            stateOf crashingShutdown X = Initialized.
Proof.
  assert (m_initialized crashingInitialized = true) as Hinit by (vm_compute; reflexivity).
  assert (shutdown crashingEnv 2 crashingInitialized
          = Some (Raised (StdException "boom"), crashingShutdown)) as Hrun
    by (vm_compute; reflexivity).
  split; [exact Hrun|].
  exact (proj2 (proj2 (proj2 (shutdown_outcome crashingEnv 2 crashingInitialized _ _
                                Hinit Hrun)))
           (StdException "boom") eq_refl).
Defined.

(** * What [shutdown] leaves undone *)

(** C2, on the code.  The chain, [C] depending on [B] and [B] on [A], all
    three active and every hook answering [true]: [shutdown] walks [C], [B],
    [A] and deactivates the three, but it shuts down, purges and unloads
    [C] only.  No shutdown hook of [B] or [A] is called and no module of
    theirs is released, since [unloadPlugin] refuses a plugin that a
    registered plugin depends on and the metadata of [C] and [B] stays
    registered; the tables are cleared all the same.  Two plugins without
    dependencies, the shutdown hook of [B] throwing: the exception leaves
    [shutdown] after the first plugin of the walk, [A] is never visited and
    stays [Active], and nothing is cleared. *)
Theorem shutdown_leaves_plugins_unreleased :
  (shutdownOrder 4 chainActive = Some ["C"; "B"; "A"] ∧
   stateOf chainActive "A" = Active ∧ stateOf chainActive "B" = Active ∧
   stateOf chainActive "C" = Active ∧
   shutdown chainEnv 4 chainActive = Some (Normal (), chainShutdown) ∧
   hooksCalled (newEvents chainActive chainShutdown)
     = [("C", HDeactivate, Returns true); ("C", HShutdown, Returns true);
        ("B", HDeactivate, Returns true); ("A", HDeactivate, Returns true)] ∧
   signalsEmitted (newEvents chainActive chainShutdown)
     = [pluginDeactivated "C"; pluginUnloaded "C";
        pluginDeactivated "B"; pluginDeactivated "A"] ∧
   purges (newEvents chainActive chainShutdown) = ["C"] ∧
   releases (newEvents chainActive chainShutdown) = [(libraryFile "C", true)] ∧
   m_plugins chainShutdown = ∅ ∧ m_pluginLoaders chainShutdown = ∅ ∧
   m_initialized chainShutdown = false) ∧
  (shutdownOrder 3 independentActive = Some ["B"; "A"] ∧
   stateOf independentActive "A" = Active ∧ stateOf independentActive "B" = Active ∧
   shutdown independentEnv 3 independentActive
     = Some (Raised (StdException "boom"), independentShutdown) ∧
   hooksCalled (newEvents independentActive independentShutdown)
     = [("B", HDeactivate, Returns true);
        ("B", HShutdown, Throws (StdException "boom"))] ∧
   purges (newEvents independentActive independentShutdown) = [] ∧
   releases (newEvents independentActive independentShutdown) = [] ∧
   qkeys (m_plugins independentShutdown) = ["A"; "B"] ∧
   stateOf independentShutdown "A" = Active ∧
   m_initialized independentShutdown = true).
Proof.
  split; split_and!; vm_compute; reflexivity.
Qed.

(** * Message handlers at unload *)


Section PurgeSkipped.
Context (env : Env).




End PurgeSkipped.


